(** * Resilient schema discovery layer: [db_context/database.py]

    A shallow embedding of [DatabaseConnector] and the properties its
    specification states about it.

    The connector is a thin layer over the [oracledb] driver.  The driver
    and the database behind it are the environment: they are a record of
    transition functions on an abstract world [W].  The connector's
    coroutines become computations in a state-and-exception monad whose
    state holds the world, the connector's [_pool] attribute and the trace
    of driver calls and [stderr] lines produced so far. *)

From Stdlib Require Import ZArith QArith Lia Ascii String List Sorted.
From stdpp Require Import base list strings gmap pretty.
Import ListNotations.

Local Open Scope Z_scope.
Local Open Scope string_scope.
Local Open Scope list_scope.

(** ** Python data *)

(** A cell of a fetched row.  [CDate] carries the rendering of the
    timestamp under the format [%Y-%m-%d %H:%M:%S], the only way the
    connector looks at it; [CLob] is a LOB locator read through the
    driver. *)
Inductive cell :=
| CNull
| CStr (s : string)
| CInt (z : Z)
| CDate (rendered : string)
| CLob (locator : nat).

Definition row := list cell.
Definition rows := list row.

(** A bind value: a cell, or the list of names [search_columns_in_database]
    binds to [:table_names]. *)
Inductive bind :=
| BCell (c : cell)
| BList (l : list string).

(** Keyword arguments of [cursor.execute], in call order. *)
Definition params := list (string * bind).

Definition bstr (s : string) : bind := BCell (CStr s).

#[global] Instance cell_eq_dec : EqDecision cell.
Proof. solve_decision. Defined.

#[global] Instance bind_eq_dec : EqDecision bind.
Proof. solve_decision. Defined.

(** Python truth value of a cell ([if row[0]], [if created], ...). *)
Definition truthy (c : cell) : bool :=
  match c with
  | CNull => false
  | CStr s => negb (String.eqb s "")
  | CInt z => negb (Z.eqb z 0)
  | CDate _ => true
  | CLob _ => true
  end.

(** [c == 'literal'] *)
Definition cell_is (c : cell) (lit : string) : bool :=
  bool_decide (c = CStr lit).

(** *** Text

    A Python [str] is a sequence of code points; here it is the [string]
    of its UTF-8 bytes, which is how a string literal of this file reads.
    [chars] gives the characters back, each as the bytes that encode it: a
    byte from 128 on takes the continuation bytes (binary [10xxxxxx]) that
    follow it, an ASCII byte is a character by itself.  On well-formed
    UTF-8 these are the code points. *)
Definition is_ascii_byte (b : ascii) : bool := Nat.ltb (nat_of_ascii b) 128.

Definition is_continuation (b : ascii) : bool :=
  let n := nat_of_ascii b in (Nat.leb 128 n && Nat.ltb n 192)%bool.

(** [b'] belongs to the character that [b] is part of. *)
Definition joins (b b' : ascii) : bool := negb (is_ascii_byte b) && is_continuation b'.

Definition hd_byte (s : string) : option ascii :=
  match s with EmptyString => None | String b _ => Some b end.

(** [list(s)] *)
Fixpoint chars (s : string) : list string :=
  match s with
  | EmptyString => []
  | String b s' =>
      match hd_byte s', chars s' with
      | Some b', c :: cs =>
          if joins b b' then String b c :: cs else String b EmptyString :: c :: cs
      | _, _ => [String b EmptyString]
      end
  end.

(** [''.join(cs)] *)
Definition text (cs : list string) : string := fold_right String.append EmptyString cs.

(** [len(s)] *)
Definition len (s : string) : nat := length (chars s).

(** The characters that [str.upper] changes, each with what it becomes:
    the full uppercase mappings of the Unicode Character Database 14.0,
    the one CPython 3.11 carries.  A character may become up to three. *)
Definition upper_table : list (string * string) :=
  [ ("a", "A"); ("b", "B"); ("c", "C"); ("d", "D"); ("e", "E"); ("f", "F");
    ("g", "G"); ("h", "H"); ("i", "I"); ("j", "J"); ("k", "K"); ("l", "L");
    ("m", "M"); ("n", "N"); ("o", "O"); ("p", "P"); ("q", "Q"); ("r", "R");
    ("s", "S"); ("t", "T"); ("u", "U"); ("v", "V"); ("w", "W"); ("x", "X");
    ("y", "Y"); ("z", "Z"); ("µ", "Μ"); ("ß", "SS"); ("à", "À"); ("á", "Á");
    ("â", "Â"); ("ã", "Ã"); ("ä", "Ä"); ("å", "Å"); ("æ", "Æ"); ("ç", "Ç");
    ("è", "È"); ("é", "É"); ("ê", "Ê"); ("ë", "Ë"); ("ì", "Ì"); ("í", "Í");
    ("î", "Î"); ("ï", "Ï"); ("ð", "Ð"); ("ñ", "Ñ"); ("ò", "Ò"); ("ó", "Ó");
    ("ô", "Ô"); ("õ", "Õ"); ("ö", "Ö"); ("ø", "Ø"); ("ù", "Ù"); ("ú", "Ú");
    ("û", "Û"); ("ü", "Ü"); ("ý", "Ý"); ("þ", "Þ"); ("ÿ", "Ÿ"); ("ā", "Ā");
    ("ă", "Ă"); ("ą", "Ą"); ("ć", "Ć"); ("ĉ", "Ĉ"); ("ċ", "Ċ"); ("č", "Č");
    ("ď", "Ď"); ("đ", "Đ"); ("ē", "Ē"); ("ĕ", "Ĕ"); ("ė", "Ė"); ("ę", "Ę");
    ("ě", "Ě"); ("ĝ", "Ĝ"); ("ğ", "Ğ"); ("ġ", "Ġ"); ("ģ", "Ģ"); ("ĥ", "Ĥ");
    ("ħ", "Ħ"); ("ĩ", "Ĩ"); ("ī", "Ī"); ("ĭ", "Ĭ"); ("į", "Į"); ("ı", "I");
    ("ĳ", "Ĳ"); ("ĵ", "Ĵ"); ("ķ", "Ķ"); ("ĺ", "Ĺ"); ("ļ", "Ļ"); ("ľ", "Ľ");
    ("ŀ", "Ŀ"); ("ł", "Ł"); ("ń", "Ń"); ("ņ", "Ņ"); ("ň", "Ň"); ("ŉ", "ʼN");
    ("ŋ", "Ŋ"); ("ō", "Ō"); ("ŏ", "Ŏ"); ("ő", "Ő"); ("œ", "Œ"); ("ŕ", "Ŕ");
    ("ŗ", "Ŗ"); ("ř", "Ř"); ("ś", "Ś"); ("ŝ", "Ŝ"); ("ş", "Ş"); ("š", "Š");
    ("ţ", "Ţ"); ("ť", "Ť"); ("ŧ", "Ŧ"); ("ũ", "Ũ"); ("ū", "Ū"); ("ŭ", "Ŭ");
    ("ů", "Ů"); ("ű", "Ű"); ("ų", "Ų"); ("ŵ", "Ŵ"); ("ŷ", "Ŷ"); ("ź", "Ź");
    ("ż", "Ż"); ("ž", "Ž"); ("ſ", "S"); ("ƀ", "Ƀ"); ("ƃ", "Ƃ"); ("ƅ", "Ƅ");
    ("ƈ", "Ƈ"); ("ƌ", "Ƌ"); ("ƒ", "Ƒ"); ("ƕ", "Ƕ"); ("ƙ", "Ƙ"); ("ƚ", "Ƚ");
    ("ƞ", "Ƞ"); ("ơ", "Ơ"); ("ƣ", "Ƣ"); ("ƥ", "Ƥ"); ("ƨ", "Ƨ"); ("ƭ", "Ƭ");
    ("ư", "Ư"); ("ƴ", "Ƴ"); ("ƶ", "Ƶ"); ("ƹ", "Ƹ"); ("ƽ", "Ƽ"); ("ƿ", "Ƿ");
    ("ǅ", "Ǆ"); ("ǆ", "Ǆ"); ("ǈ", "Ǉ"); ("ǉ", "Ǉ"); ("ǋ", "Ǌ"); ("ǌ", "Ǌ");
    ("ǎ", "Ǎ"); ("ǐ", "Ǐ"); ("ǒ", "Ǒ"); ("ǔ", "Ǔ"); ("ǖ", "Ǖ"); ("ǘ", "Ǘ");
    ("ǚ", "Ǚ"); ("ǜ", "Ǜ"); ("ǝ", "Ǝ"); ("ǟ", "Ǟ"); ("ǡ", "Ǡ"); ("ǣ", "Ǣ");
    ("ǥ", "Ǥ"); ("ǧ", "Ǧ"); ("ǩ", "Ǩ"); ("ǫ", "Ǫ"); ("ǭ", "Ǭ"); ("ǯ", "Ǯ");
    ("ǰ", "J̌"); ("ǲ", "Ǳ"); ("ǳ", "Ǳ"); ("ǵ", "Ǵ"); ("ǹ", "Ǹ"); ("ǻ", "Ǻ");
    ("ǽ", "Ǽ"); ("ǿ", "Ǿ"); ("ȁ", "Ȁ"); ("ȃ", "Ȃ"); ("ȅ", "Ȅ"); ("ȇ", "Ȇ");
    ("ȉ", "Ȉ"); ("ȋ", "Ȋ"); ("ȍ", "Ȍ"); ("ȏ", "Ȏ"); ("ȑ", "Ȑ"); ("ȓ", "Ȓ");
    ("ȕ", "Ȕ"); ("ȗ", "Ȗ"); ("ș", "Ș"); ("ț", "Ț"); ("ȝ", "Ȝ"); ("ȟ", "Ȟ");
    ("ȣ", "Ȣ"); ("ȥ", "Ȥ"); ("ȧ", "Ȧ"); ("ȩ", "Ȩ"); ("ȫ", "Ȫ"); ("ȭ", "Ȭ");
    ("ȯ", "Ȯ"); ("ȱ", "Ȱ"); ("ȳ", "Ȳ"); ("ȼ", "Ȼ"); ("ȿ", "Ȿ"); ("ɀ", "Ɀ");
    ("ɂ", "Ɂ"); ("ɇ", "Ɇ"); ("ɉ", "Ɉ"); ("ɋ", "Ɋ"); ("ɍ", "Ɍ"); ("ɏ", "Ɏ");
    ("ɐ", "Ɐ"); ("ɑ", "Ɑ"); ("ɒ", "Ɒ"); ("ɓ", "Ɓ"); ("ɔ", "Ɔ"); ("ɖ", "Ɖ");
    ("ɗ", "Ɗ"); ("ə", "Ə"); ("ɛ", "Ɛ"); ("ɜ", "Ɜ"); ("ɠ", "Ɠ"); ("ɡ", "Ɡ");
    ("ɣ", "Ɣ"); ("ɥ", "Ɥ"); ("ɦ", "Ɦ"); ("ɨ", "Ɨ"); ("ɩ", "Ɩ"); ("ɪ", "Ɪ");
    ("ɫ", "Ɫ"); ("ɬ", "Ɬ"); ("ɯ", "Ɯ"); ("ɱ", "Ɱ"); ("ɲ", "Ɲ"); ("ɵ", "Ɵ");
    ("ɽ", "Ɽ"); ("ʀ", "Ʀ"); ("ʂ", "Ʂ"); ("ʃ", "Ʃ"); ("ʇ", "Ʇ"); ("ʈ", "Ʈ");
    ("ʉ", "Ʉ"); ("ʊ", "Ʊ"); ("ʋ", "Ʋ"); ("ʌ", "Ʌ"); ("ʒ", "Ʒ"); ("ʝ", "Ʝ");
    ("ʞ", "Ʞ"); ("ͅ", "Ι"); ("ͱ", "Ͱ"); ("ͳ", "Ͳ"); ("ͷ", "Ͷ"); ("ͻ", "Ͻ");
    ("ͼ", "Ͼ"); ("ͽ", "Ͽ"); ("ΐ", "Ϊ́"); ("ά", "Ά"); ("έ", "Έ"); ("ή", "Ή");
    ("ί", "Ί"); ("ΰ", "Ϋ́"); ("α", "Α"); ("β", "Β"); ("γ", "Γ"); ("δ", "Δ");
    ("ε", "Ε"); ("ζ", "Ζ"); ("η", "Η"); ("θ", "Θ"); ("ι", "Ι"); ("κ", "Κ");
    ("λ", "Λ"); ("μ", "Μ"); ("ν", "Ν"); ("ξ", "Ξ"); ("ο", "Ο"); ("π", "Π");
    ("ρ", "Ρ"); ("ς", "Σ"); ("σ", "Σ"); ("τ", "Τ"); ("υ", "Υ"); ("φ", "Φ");
    ("χ", "Χ"); ("ψ", "Ψ"); ("ω", "Ω"); ("ϊ", "Ϊ"); ("ϋ", "Ϋ"); ("ό", "Ό");
    ("ύ", "Ύ"); ("ώ", "Ώ"); ("ϐ", "Β"); ("ϑ", "Θ"); ("ϕ", "Φ"); ("ϖ", "Π");
    ("ϗ", "Ϗ"); ("ϙ", "Ϙ"); ("ϛ", "Ϛ"); ("ϝ", "Ϝ"); ("ϟ", "Ϟ"); ("ϡ", "Ϡ");
    ("ϣ", "Ϣ"); ("ϥ", "Ϥ"); ("ϧ", "Ϧ"); ("ϩ", "Ϩ"); ("ϫ", "Ϫ"); ("ϭ", "Ϭ");
    ("ϯ", "Ϯ"); ("ϰ", "Κ"); ("ϱ", "Ρ"); ("ϲ", "Ϲ"); ("ϳ", "Ϳ"); ("ϵ", "Ε");
    ("ϸ", "Ϸ"); ("ϻ", "Ϻ"); ("а", "А"); ("б", "Б"); ("в", "В"); ("г", "Г");
    ("д", "Д"); ("е", "Е"); ("ж", "Ж"); ("з", "З"); ("и", "И"); ("й", "Й");
    ("к", "К"); ("л", "Л"); ("м", "М"); ("н", "Н"); ("о", "О"); ("п", "П");
    ("р", "Р"); ("с", "С"); ("т", "Т"); ("у", "У"); ("ф", "Ф"); ("х", "Х");
    ("ц", "Ц"); ("ч", "Ч"); ("ш", "Ш"); ("щ", "Щ"); ("ъ", "Ъ"); ("ы", "Ы");
    ("ь", "Ь"); ("э", "Э"); ("ю", "Ю"); ("я", "Я"); ("ѐ", "Ѐ"); ("ё", "Ё");
    ("ђ", "Ђ"); ("ѓ", "Ѓ"); ("є", "Є"); ("ѕ", "Ѕ"); ("і", "І"); ("ї", "Ї");
    ("ј", "Ј"); ("љ", "Љ"); ("њ", "Њ"); ("ћ", "Ћ"); ("ќ", "Ќ"); ("ѝ", "Ѝ");
    ("ў", "Ў"); ("џ", "Џ"); ("ѡ", "Ѡ"); ("ѣ", "Ѣ"); ("ѥ", "Ѥ"); ("ѧ", "Ѧ");
    ("ѩ", "Ѩ"); ("ѫ", "Ѫ"); ("ѭ", "Ѭ"); ("ѯ", "Ѯ"); ("ѱ", "Ѱ"); ("ѳ", "Ѳ");
    ("ѵ", "Ѵ"); ("ѷ", "Ѷ"); ("ѹ", "Ѹ"); ("ѻ", "Ѻ"); ("ѽ", "Ѽ"); ("ѿ", "Ѿ");
    ("ҁ", "Ҁ"); ("ҋ", "Ҋ"); ("ҍ", "Ҍ"); ("ҏ", "Ҏ"); ("ґ", "Ґ"); ("ғ", "Ғ");
    ("ҕ", "Ҕ"); ("җ", "Җ"); ("ҙ", "Ҙ"); ("қ", "Қ"); ("ҝ", "Ҝ"); ("ҟ", "Ҟ");
    ("ҡ", "Ҡ"); ("ң", "Ң"); ("ҥ", "Ҥ"); ("ҧ", "Ҧ"); ("ҩ", "Ҩ"); ("ҫ", "Ҫ");
    ("ҭ", "Ҭ"); ("ү", "Ү"); ("ұ", "Ұ"); ("ҳ", "Ҳ"); ("ҵ", "Ҵ"); ("ҷ", "Ҷ");
    ("ҹ", "Ҹ"); ("һ", "Һ"); ("ҽ", "Ҽ"); ("ҿ", "Ҿ"); ("ӂ", "Ӂ"); ("ӄ", "Ӄ");
    ("ӆ", "Ӆ"); ("ӈ", "Ӈ"); ("ӊ", "Ӊ"); ("ӌ", "Ӌ"); ("ӎ", "Ӎ"); ("ӏ", "Ӏ");
    ("ӑ", "Ӑ"); ("ӓ", "Ӓ"); ("ӕ", "Ӕ"); ("ӗ", "Ӗ"); ("ә", "Ә"); ("ӛ", "Ӛ");
    ("ӝ", "Ӝ"); ("ӟ", "Ӟ"); ("ӡ", "Ӡ"); ("ӣ", "Ӣ"); ("ӥ", "Ӥ"); ("ӧ", "Ӧ");
    ("ө", "Ө"); ("ӫ", "Ӫ"); ("ӭ", "Ӭ"); ("ӯ", "Ӯ"); ("ӱ", "Ӱ"); ("ӳ", "Ӳ");
    ("ӵ", "Ӵ"); ("ӷ", "Ӷ"); ("ӹ", "Ӹ"); ("ӻ", "Ӻ"); ("ӽ", "Ӽ"); ("ӿ", "Ӿ");
    ("ԁ", "Ԁ"); ("ԃ", "Ԃ"); ("ԅ", "Ԅ"); ("ԇ", "Ԇ"); ("ԉ", "Ԉ"); ("ԋ", "Ԋ");
    ("ԍ", "Ԍ"); ("ԏ", "Ԏ"); ("ԑ", "Ԑ"); ("ԓ", "Ԓ"); ("ԕ", "Ԕ"); ("ԗ", "Ԗ");
    ("ԙ", "Ԙ"); ("ԛ", "Ԛ"); ("ԝ", "Ԝ"); ("ԟ", "Ԟ"); ("ԡ", "Ԡ"); ("ԣ", "Ԣ");
    ("ԥ", "Ԥ"); ("ԧ", "Ԧ"); ("ԩ", "Ԩ"); ("ԫ", "Ԫ"); ("ԭ", "Ԭ"); ("ԯ", "Ԯ");
    ("ա", "Ա"); ("բ", "Բ"); ("գ", "Գ"); ("դ", "Դ"); ("ե", "Ե"); ("զ", "Զ");
    ("է", "Է"); ("ը", "Ը"); ("թ", "Թ"); ("ժ", "Ժ"); ("ի", "Ի"); ("լ", "Լ");
    ("խ", "Խ"); ("ծ", "Ծ"); ("կ", "Կ"); ("հ", "Հ"); ("ձ", "Ձ"); ("ղ", "Ղ");
    ("ճ", "Ճ"); ("մ", "Մ"); ("յ", "Յ"); ("ն", "Ն"); ("շ", "Շ"); ("ո", "Ո");
    ("չ", "Չ"); ("պ", "Պ"); ("ջ", "Ջ"); ("ռ", "Ռ"); ("ս", "Ս"); ("վ", "Վ");
    ("տ", "Տ"); ("ր", "Ր"); ("ց", "Ց"); ("ւ", "Ւ"); ("փ", "Փ"); ("ք", "Ք");
    ("օ", "Օ"); ("ֆ", "Ֆ"); ("և", "ԵՒ"); ("ა", "Ა"); ("ბ", "Ბ"); ("გ", "Გ");
    ("დ", "Დ"); ("ე", "Ე"); ("ვ", "Ვ"); ("ზ", "Ზ"); ("თ", "Თ"); ("ი", "Ი");
    ("კ", "Კ"); ("ლ", "Ლ"); ("მ", "Მ"); ("ნ", "Ნ"); ("ო", "Ო"); ("პ", "Პ");
    ("ჟ", "Ჟ"); ("რ", "Რ"); ("ს", "Ს"); ("ტ", "Ტ"); ("უ", "Უ"); ("ფ", "Ფ");
    ("ქ", "Ქ"); ("ღ", "Ღ"); ("ყ", "Ყ"); ("შ", "Შ"); ("ჩ", "Ჩ"); ("ც", "Ც");
    ("ძ", "Ძ"); ("წ", "Წ"); ("ჭ", "Ჭ"); ("ხ", "Ხ"); ("ჯ", "Ჯ"); ("ჰ", "Ჰ");
    ("ჱ", "Ჱ"); ("ჲ", "Ჲ"); ("ჳ", "Ჳ"); ("ჴ", "Ჴ"); ("ჵ", "Ჵ"); ("ჶ", "Ჶ");
    ("ჷ", "Ჷ"); ("ჸ", "Ჸ"); ("ჹ", "Ჹ"); ("ჺ", "Ჺ"); ("ჽ", "Ჽ"); ("ჾ", "Ჾ");
    ("ჿ", "Ჿ"); ("ᏸ", "Ᏸ"); ("ᏹ", "Ᏹ"); ("ᏺ", "Ᏺ"); ("ᏻ", "Ᏻ"); ("ᏼ", "Ᏼ");
    ("ᏽ", "Ᏽ"); ("ᲀ", "В"); ("ᲁ", "Д"); ("ᲂ", "О"); ("ᲃ", "С"); ("ᲄ", "Т");
    ("ᲅ", "Т"); ("ᲆ", "Ъ"); ("ᲇ", "Ѣ"); ("ᲈ", "Ꙋ"); ("ᵹ", "Ᵹ"); ("ᵽ", "Ᵽ");
    ("ᶎ", "Ᶎ"); ("ḁ", "Ḁ"); ("ḃ", "Ḃ"); ("ḅ", "Ḅ"); ("ḇ", "Ḇ"); ("ḉ", "Ḉ");
    ("ḋ", "Ḋ"); ("ḍ", "Ḍ"); ("ḏ", "Ḏ"); ("ḑ", "Ḑ"); ("ḓ", "Ḓ"); ("ḕ", "Ḕ");
    ("ḗ", "Ḗ"); ("ḙ", "Ḙ"); ("ḛ", "Ḛ"); ("ḝ", "Ḝ"); ("ḟ", "Ḟ"); ("ḡ", "Ḡ");
    ("ḣ", "Ḣ"); ("ḥ", "Ḥ"); ("ḧ", "Ḧ"); ("ḩ", "Ḩ"); ("ḫ", "Ḫ"); ("ḭ", "Ḭ");
    ("ḯ", "Ḯ"); ("ḱ", "Ḱ"); ("ḳ", "Ḳ"); ("ḵ", "Ḵ"); ("ḷ", "Ḷ"); ("ḹ", "Ḹ");
    ("ḻ", "Ḻ"); ("ḽ", "Ḽ"); ("ḿ", "Ḿ"); ("ṁ", "Ṁ"); ("ṃ", "Ṃ"); ("ṅ", "Ṅ");
    ("ṇ", "Ṇ"); ("ṉ", "Ṉ"); ("ṋ", "Ṋ"); ("ṍ", "Ṍ"); ("ṏ", "Ṏ"); ("ṑ", "Ṑ");
    ("ṓ", "Ṓ"); ("ṕ", "Ṕ"); ("ṗ", "Ṗ"); ("ṙ", "Ṙ"); ("ṛ", "Ṛ"); ("ṝ", "Ṝ");
    ("ṟ", "Ṟ"); ("ṡ", "Ṡ"); ("ṣ", "Ṣ"); ("ṥ", "Ṥ"); ("ṧ", "Ṧ"); ("ṩ", "Ṩ");
    ("ṫ", "Ṫ"); ("ṭ", "Ṭ"); ("ṯ", "Ṯ"); ("ṱ", "Ṱ"); ("ṳ", "Ṳ"); ("ṵ", "Ṵ");
    ("ṷ", "Ṷ"); ("ṹ", "Ṹ"); ("ṻ", "Ṻ"); ("ṽ", "Ṽ"); ("ṿ", "Ṿ"); ("ẁ", "Ẁ");
    ("ẃ", "Ẃ"); ("ẅ", "Ẅ"); ("ẇ", "Ẇ"); ("ẉ", "Ẉ"); ("ẋ", "Ẋ"); ("ẍ", "Ẍ");
    ("ẏ", "Ẏ"); ("ẑ", "Ẑ"); ("ẓ", "Ẓ"); ("ẕ", "Ẕ"); ("ẖ", "H̱"); ("ẗ", "T̈");
    ("ẘ", "W̊"); ("ẙ", "Y̊"); ("ẚ", "Aʾ"); ("ẛ", "Ṡ"); ("ạ", "Ạ"); ("ả", "Ả");
    ("ấ", "Ấ"); ("ầ", "Ầ"); ("ẩ", "Ẩ"); ("ẫ", "Ẫ"); ("ậ", "Ậ"); ("ắ", "Ắ");
    ("ằ", "Ằ"); ("ẳ", "Ẳ"); ("ẵ", "Ẵ"); ("ặ", "Ặ"); ("ẹ", "Ẹ"); ("ẻ", "Ẻ");
    ("ẽ", "Ẽ"); ("ế", "Ế"); ("ề", "Ề"); ("ể", "Ể"); ("ễ", "Ễ"); ("ệ", "Ệ");
    ("ỉ", "Ỉ"); ("ị", "Ị"); ("ọ", "Ọ"); ("ỏ", "Ỏ"); ("ố", "Ố"); ("ồ", "Ồ");
    ("ổ", "Ổ"); ("ỗ", "Ỗ"); ("ộ", "Ộ"); ("ớ", "Ớ"); ("ờ", "Ờ"); ("ở", "Ở");
    ("ỡ", "Ỡ"); ("ợ", "Ợ"); ("ụ", "Ụ"); ("ủ", "Ủ"); ("ứ", "Ứ"); ("ừ", "Ừ");
    ("ử", "Ử"); ("ữ", "Ữ"); ("ự", "Ự"); ("ỳ", "Ỳ"); ("ỵ", "Ỵ"); ("ỷ", "Ỷ");
    ("ỹ", "Ỹ"); ("ỻ", "Ỻ"); ("ỽ", "Ỽ"); ("ỿ", "Ỿ"); ("ἀ", "Ἀ"); ("ἁ", "Ἁ");
    ("ἂ", "Ἂ"); ("ἃ", "Ἃ"); ("ἄ", "Ἄ"); ("ἅ", "Ἅ"); ("ἆ", "Ἆ"); ("ἇ", "Ἇ");
    ("ἐ", "Ἐ"); ("ἑ", "Ἑ"); ("ἒ", "Ἒ"); ("ἓ", "Ἓ"); ("ἔ", "Ἔ"); ("ἕ", "Ἕ");
    ("ἠ", "Ἠ"); ("ἡ", "Ἡ"); ("ἢ", "Ἢ"); ("ἣ", "Ἣ"); ("ἤ", "Ἤ"); ("ἥ", "Ἥ");
    ("ἦ", "Ἦ"); ("ἧ", "Ἧ"); ("ἰ", "Ἰ"); ("ἱ", "Ἱ"); ("ἲ", "Ἲ"); ("ἳ", "Ἳ");
    ("ἴ", "Ἴ"); ("ἵ", "Ἵ"); ("ἶ", "Ἶ"); ("ἷ", "Ἷ"); ("ὀ", "Ὀ"); ("ὁ", "Ὁ");
    ("ὂ", "Ὂ"); ("ὃ", "Ὃ"); ("ὄ", "Ὄ"); ("ὅ", "Ὅ"); ("ὐ", "Υ̓"); ("ὑ", "Ὑ");
    ("ὒ", "Υ̓̀"); ("ὓ", "Ὓ"); ("ὔ", "Υ̓́"); ("ὕ", "Ὕ"); ("ὖ", "Υ̓͂"); ("ὗ", "Ὗ");
    ("ὠ", "Ὠ"); ("ὡ", "Ὡ"); ("ὢ", "Ὢ"); ("ὣ", "Ὣ"); ("ὤ", "Ὤ"); ("ὥ", "Ὥ");
    ("ὦ", "Ὦ"); ("ὧ", "Ὧ"); ("ὰ", "Ὰ"); ("ά", "Ά"); ("ὲ", "Ὲ"); ("έ", "Έ");
    ("ὴ", "Ὴ"); ("ή", "Ή"); ("ὶ", "Ὶ"); ("ί", "Ί"); ("ὸ", "Ὸ"); ("ό", "Ό");
    ("ὺ", "Ὺ"); ("ύ", "Ύ"); ("ὼ", "Ὼ"); ("ώ", "Ώ"); ("ᾀ", "ἈΙ"); ("ᾁ", "ἉΙ");
    ("ᾂ", "ἊΙ"); ("ᾃ", "ἋΙ"); ("ᾄ", "ἌΙ"); ("ᾅ", "ἍΙ"); ("ᾆ", "ἎΙ"); ("ᾇ", "ἏΙ");
    ("ᾈ", "ἈΙ"); ("ᾉ", "ἉΙ"); ("ᾊ", "ἊΙ"); ("ᾋ", "ἋΙ"); ("ᾌ", "ἌΙ"); ("ᾍ", "ἍΙ");
    ("ᾎ", "ἎΙ"); ("ᾏ", "ἏΙ"); ("ᾐ", "ἨΙ"); ("ᾑ", "ἩΙ"); ("ᾒ", "ἪΙ"); ("ᾓ", "ἫΙ");
    ("ᾔ", "ἬΙ"); ("ᾕ", "ἭΙ"); ("ᾖ", "ἮΙ"); ("ᾗ", "ἯΙ"); ("ᾘ", "ἨΙ"); ("ᾙ", "ἩΙ");
    ("ᾚ", "ἪΙ"); ("ᾛ", "ἫΙ"); ("ᾜ", "ἬΙ"); ("ᾝ", "ἭΙ"); ("ᾞ", "ἮΙ"); ("ᾟ", "ἯΙ");
    ("ᾠ", "ὨΙ"); ("ᾡ", "ὩΙ"); ("ᾢ", "ὪΙ"); ("ᾣ", "ὫΙ"); ("ᾤ", "ὬΙ"); ("ᾥ", "ὭΙ");
    ("ᾦ", "ὮΙ"); ("ᾧ", "ὯΙ"); ("ᾨ", "ὨΙ"); ("ᾩ", "ὩΙ"); ("ᾪ", "ὪΙ"); ("ᾫ", "ὫΙ");
    ("ᾬ", "ὬΙ"); ("ᾭ", "ὭΙ"); ("ᾮ", "ὮΙ"); ("ᾯ", "ὯΙ"); ("ᾰ", "Ᾰ"); ("ᾱ", "Ᾱ");
    ("ᾲ", "ᾺΙ"); ("ᾳ", "ΑΙ"); ("ᾴ", "ΆΙ"); ("ᾶ", "Α͂"); ("ᾷ", "Α͂Ι"); ("ᾼ", "ΑΙ");
    ("ι", "Ι"); ("ῂ", "ῊΙ"); ("ῃ", "ΗΙ"); ("ῄ", "ΉΙ"); ("ῆ", "Η͂"); ("ῇ", "Η͂Ι");
    ("ῌ", "ΗΙ"); ("ῐ", "Ῐ"); ("ῑ", "Ῑ"); ("ῒ", "Ϊ̀"); ("ΐ", "Ϊ́"); ("ῖ", "Ι͂");
    ("ῗ", "Ϊ͂"); ("ῠ", "Ῠ"); ("ῡ", "Ῡ"); ("ῢ", "Ϋ̀"); ("ΰ", "Ϋ́"); ("ῤ", "Ρ̓");
    ("ῥ", "Ῥ"); ("ῦ", "Υ͂"); ("ῧ", "Ϋ͂"); ("ῲ", "ῺΙ"); ("ῳ", "ΩΙ"); ("ῴ", "ΏΙ");
    ("ῶ", "Ω͂"); ("ῷ", "Ω͂Ι"); ("ῼ", "ΩΙ"); ("ⅎ", "Ⅎ"); ("ⅰ", "Ⅰ"); ("ⅱ", "Ⅱ");
    ("ⅲ", "Ⅲ"); ("ⅳ", "Ⅳ"); ("ⅴ", "Ⅴ"); ("ⅵ", "Ⅵ"); ("ⅶ", "Ⅶ"); ("ⅷ", "Ⅷ");
    ("ⅸ", "Ⅸ"); ("ⅹ", "Ⅹ"); ("ⅺ", "Ⅺ"); ("ⅻ", "Ⅻ"); ("ⅼ", "Ⅼ"); ("ⅽ", "Ⅽ");
    ("ⅾ", "Ⅾ"); ("ⅿ", "Ⅿ"); ("ↄ", "Ↄ"); ("ⓐ", "Ⓐ"); ("ⓑ", "Ⓑ"); ("ⓒ", "Ⓒ");
    ("ⓓ", "Ⓓ"); ("ⓔ", "Ⓔ"); ("ⓕ", "Ⓕ"); ("ⓖ", "Ⓖ"); ("ⓗ", "Ⓗ"); ("ⓘ", "Ⓘ");
    ("ⓙ", "Ⓙ"); ("ⓚ", "Ⓚ"); ("ⓛ", "Ⓛ"); ("ⓜ", "Ⓜ"); ("ⓝ", "Ⓝ"); ("ⓞ", "Ⓞ");
    ("ⓟ", "Ⓟ"); ("ⓠ", "Ⓠ"); ("ⓡ", "Ⓡ"); ("ⓢ", "Ⓢ"); ("ⓣ", "Ⓣ"); ("ⓤ", "Ⓤ");
    ("ⓥ", "Ⓥ"); ("ⓦ", "Ⓦ"); ("ⓧ", "Ⓧ"); ("ⓨ", "Ⓨ"); ("ⓩ", "Ⓩ"); ("ⰰ", "Ⰰ");
    ("ⰱ", "Ⰱ"); ("ⰲ", "Ⰲ"); ("ⰳ", "Ⰳ"); ("ⰴ", "Ⰴ"); ("ⰵ", "Ⰵ"); ("ⰶ", "Ⰶ");
    ("ⰷ", "Ⰷ"); ("ⰸ", "Ⰸ"); ("ⰹ", "Ⰹ"); ("ⰺ", "Ⰺ"); ("ⰻ", "Ⰻ"); ("ⰼ", "Ⰼ");
    ("ⰽ", "Ⰽ"); ("ⰾ", "Ⰾ"); ("ⰿ", "Ⰿ"); ("ⱀ", "Ⱀ"); ("ⱁ", "Ⱁ"); ("ⱂ", "Ⱂ");
    ("ⱃ", "Ⱃ"); ("ⱄ", "Ⱄ"); ("ⱅ", "Ⱅ"); ("ⱆ", "Ⱆ"); ("ⱇ", "Ⱇ"); ("ⱈ", "Ⱈ");
    ("ⱉ", "Ⱉ"); ("ⱊ", "Ⱊ"); ("ⱋ", "Ⱋ"); ("ⱌ", "Ⱌ"); ("ⱍ", "Ⱍ"); ("ⱎ", "Ⱎ");
    ("ⱏ", "Ⱏ"); ("ⱐ", "Ⱐ"); ("ⱑ", "Ⱑ"); ("ⱒ", "Ⱒ"); ("ⱓ", "Ⱓ"); ("ⱔ", "Ⱔ");
    ("ⱕ", "Ⱕ"); ("ⱖ", "Ⱖ"); ("ⱗ", "Ⱗ"); ("ⱘ", "Ⱘ"); ("ⱙ", "Ⱙ"); ("ⱚ", "Ⱚ");
    ("ⱛ", "Ⱛ"); ("ⱜ", "Ⱜ"); ("ⱝ", "Ⱝ"); ("ⱞ", "Ⱞ"); ("ⱟ", "Ⱟ"); ("ⱡ", "Ⱡ");
    ("ⱥ", "Ⱥ"); ("ⱦ", "Ⱦ"); ("ⱨ", "Ⱨ"); ("ⱪ", "Ⱪ"); ("ⱬ", "Ⱬ"); ("ⱳ", "Ⱳ");
    ("ⱶ", "Ⱶ"); ("ⲁ", "Ⲁ"); ("ⲃ", "Ⲃ"); ("ⲅ", "Ⲅ"); ("ⲇ", "Ⲇ"); ("ⲉ", "Ⲉ");
    ("ⲋ", "Ⲋ"); ("ⲍ", "Ⲍ"); ("ⲏ", "Ⲏ"); ("ⲑ", "Ⲑ"); ("ⲓ", "Ⲓ"); ("ⲕ", "Ⲕ");
    ("ⲗ", "Ⲗ"); ("ⲙ", "Ⲙ"); ("ⲛ", "Ⲛ"); ("ⲝ", "Ⲝ"); ("ⲟ", "Ⲟ"); ("ⲡ", "Ⲡ");
    ("ⲣ", "Ⲣ"); ("ⲥ", "Ⲥ"); ("ⲧ", "Ⲧ"); ("ⲩ", "Ⲩ"); ("ⲫ", "Ⲫ"); ("ⲭ", "Ⲭ");
    ("ⲯ", "Ⲯ"); ("ⲱ", "Ⲱ"); ("ⲳ", "Ⲳ"); ("ⲵ", "Ⲵ"); ("ⲷ", "Ⲷ"); ("ⲹ", "Ⲹ");
    ("ⲻ", "Ⲻ"); ("ⲽ", "Ⲽ"); ("ⲿ", "Ⲿ"); ("ⳁ", "Ⳁ"); ("ⳃ", "Ⳃ"); ("ⳅ", "Ⳅ");
    ("ⳇ", "Ⳇ"); ("ⳉ", "Ⳉ"); ("ⳋ", "Ⳋ"); ("ⳍ", "Ⳍ"); ("ⳏ", "Ⳏ"); ("ⳑ", "Ⳑ");
    ("ⳓ", "Ⳓ"); ("ⳕ", "Ⳕ"); ("ⳗ", "Ⳗ"); ("ⳙ", "Ⳙ"); ("ⳛ", "Ⳛ"); ("ⳝ", "Ⳝ");
    ("ⳟ", "Ⳟ"); ("ⳡ", "Ⳡ"); ("ⳣ", "Ⳣ"); ("ⳬ", "Ⳬ"); ("ⳮ", "Ⳮ"); ("ⳳ", "Ⳳ");
    ("ⴀ", "Ⴀ"); ("ⴁ", "Ⴁ"); ("ⴂ", "Ⴂ"); ("ⴃ", "Ⴃ"); ("ⴄ", "Ⴄ"); ("ⴅ", "Ⴅ");
    ("ⴆ", "Ⴆ"); ("ⴇ", "Ⴇ"); ("ⴈ", "Ⴈ"); ("ⴉ", "Ⴉ"); ("ⴊ", "Ⴊ"); ("ⴋ", "Ⴋ");
    ("ⴌ", "Ⴌ"); ("ⴍ", "Ⴍ"); ("ⴎ", "Ⴎ"); ("ⴏ", "Ⴏ"); ("ⴐ", "Ⴐ"); ("ⴑ", "Ⴑ");
    ("ⴒ", "Ⴒ"); ("ⴓ", "Ⴓ"); ("ⴔ", "Ⴔ"); ("ⴕ", "Ⴕ"); ("ⴖ", "Ⴖ"); ("ⴗ", "Ⴗ");
    ("ⴘ", "Ⴘ"); ("ⴙ", "Ⴙ"); ("ⴚ", "Ⴚ"); ("ⴛ", "Ⴛ"); ("ⴜ", "Ⴜ"); ("ⴝ", "Ⴝ");
    ("ⴞ", "Ⴞ"); ("ⴟ", "Ⴟ"); ("ⴠ", "Ⴠ"); ("ⴡ", "Ⴡ"); ("ⴢ", "Ⴢ"); ("ⴣ", "Ⴣ");
    ("ⴤ", "Ⴤ"); ("ⴥ", "Ⴥ"); ("ⴧ", "Ⴧ"); ("ⴭ", "Ⴭ"); ("ꙁ", "Ꙁ"); ("ꙃ", "Ꙃ");
    ("ꙅ", "Ꙅ"); ("ꙇ", "Ꙇ"); ("ꙉ", "Ꙉ"); ("ꙋ", "Ꙋ"); ("ꙍ", "Ꙍ"); ("ꙏ", "Ꙏ");
    ("ꙑ", "Ꙑ"); ("ꙓ", "Ꙓ"); ("ꙕ", "Ꙕ"); ("ꙗ", "Ꙗ"); ("ꙙ", "Ꙙ"); ("ꙛ", "Ꙛ");
    ("ꙝ", "Ꙝ"); ("ꙟ", "Ꙟ"); ("ꙡ", "Ꙡ"); ("ꙣ", "Ꙣ"); ("ꙥ", "Ꙥ"); ("ꙧ", "Ꙧ");
    ("ꙩ", "Ꙩ"); ("ꙫ", "Ꙫ"); ("ꙭ", "Ꙭ"); ("ꚁ", "Ꚁ"); ("ꚃ", "Ꚃ"); ("ꚅ", "Ꚅ");
    ("ꚇ", "Ꚇ"); ("ꚉ", "Ꚉ"); ("ꚋ", "Ꚋ"); ("ꚍ", "Ꚍ"); ("ꚏ", "Ꚏ"); ("ꚑ", "Ꚑ");
    ("ꚓ", "Ꚓ"); ("ꚕ", "Ꚕ"); ("ꚗ", "Ꚗ"); ("ꚙ", "Ꚙ"); ("ꚛ", "Ꚛ"); ("ꜣ", "Ꜣ");
    ("ꜥ", "Ꜥ"); ("ꜧ", "Ꜧ"); ("ꜩ", "Ꜩ"); ("ꜫ", "Ꜫ"); ("ꜭ", "Ꜭ"); ("ꜯ", "Ꜯ");
    ("ꜳ", "Ꜳ"); ("ꜵ", "Ꜵ"); ("ꜷ", "Ꜷ"); ("ꜹ", "Ꜹ"); ("ꜻ", "Ꜻ"); ("ꜽ", "Ꜽ");
    ("ꜿ", "Ꜿ"); ("ꝁ", "Ꝁ"); ("ꝃ", "Ꝃ"); ("ꝅ", "Ꝅ"); ("ꝇ", "Ꝇ"); ("ꝉ", "Ꝉ");
    ("ꝋ", "Ꝋ"); ("ꝍ", "Ꝍ"); ("ꝏ", "Ꝏ"); ("ꝑ", "Ꝑ"); ("ꝓ", "Ꝓ"); ("ꝕ", "Ꝕ");
    ("ꝗ", "Ꝗ"); ("ꝙ", "Ꝙ"); ("ꝛ", "Ꝛ"); ("ꝝ", "Ꝝ"); ("ꝟ", "Ꝟ"); ("ꝡ", "Ꝡ");
    ("ꝣ", "Ꝣ"); ("ꝥ", "Ꝥ"); ("ꝧ", "Ꝧ"); ("ꝩ", "Ꝩ"); ("ꝫ", "Ꝫ"); ("ꝭ", "Ꝭ");
    ("ꝯ", "Ꝯ"); ("ꝺ", "Ꝺ"); ("ꝼ", "Ꝼ"); ("ꝿ", "Ꝿ"); ("ꞁ", "Ꞁ"); ("ꞃ", "Ꞃ");
    ("ꞅ", "Ꞅ"); ("ꞇ", "Ꞇ"); ("ꞌ", "Ꞌ"); ("ꞑ", "Ꞑ"); ("ꞓ", "Ꞓ"); ("ꞔ", "Ꞔ");
    ("ꞗ", "Ꞗ"); ("ꞙ", "Ꞙ"); ("ꞛ", "Ꞛ"); ("ꞝ", "Ꞝ"); ("ꞟ", "Ꞟ"); ("ꞡ", "Ꞡ");
    ("ꞣ", "Ꞣ"); ("ꞥ", "Ꞥ"); ("ꞧ", "Ꞧ"); ("ꞩ", "Ꞩ"); ("ꞵ", "Ꞵ"); ("ꞷ", "Ꞷ");
    ("ꞹ", "Ꞹ"); ("ꞻ", "Ꞻ"); ("ꞽ", "Ꞽ"); ("ꞿ", "Ꞿ"); ("ꟁ", "Ꟁ"); ("ꟃ", "Ꟃ");
    ("ꟈ", "Ꟈ"); ("ꟊ", "Ꟊ"); ("ꟑ", "Ꟑ"); ("ꟗ", "Ꟗ"); ("ꟙ", "Ꟙ"); ("ꟶ", "Ꟶ");
    ("ꭓ", "Ꭓ"); ("ꭰ", "Ꭰ"); ("ꭱ", "Ꭱ"); ("ꭲ", "Ꭲ"); ("ꭳ", "Ꭳ"); ("ꭴ", "Ꭴ");
    ("ꭵ", "Ꭵ"); ("ꭶ", "Ꭶ"); ("ꭷ", "Ꭷ"); ("ꭸ", "Ꭸ"); ("ꭹ", "Ꭹ"); ("ꭺ", "Ꭺ");
    ("ꭻ", "Ꭻ"); ("ꭼ", "Ꭼ"); ("ꭽ", "Ꭽ"); ("ꭾ", "Ꭾ"); ("ꭿ", "Ꭿ"); ("ꮀ", "Ꮀ");
    ("ꮁ", "Ꮁ"); ("ꮂ", "Ꮂ"); ("ꮃ", "Ꮃ"); ("ꮄ", "Ꮄ"); ("ꮅ", "Ꮅ"); ("ꮆ", "Ꮆ");
    ("ꮇ", "Ꮇ"); ("ꮈ", "Ꮈ"); ("ꮉ", "Ꮉ"); ("ꮊ", "Ꮊ"); ("ꮋ", "Ꮋ"); ("ꮌ", "Ꮌ");
    ("ꮍ", "Ꮍ"); ("ꮎ", "Ꮎ"); ("ꮏ", "Ꮏ"); ("ꮐ", "Ꮐ"); ("ꮑ", "Ꮑ"); ("ꮒ", "Ꮒ");
    ("ꮓ", "Ꮓ"); ("ꮔ", "Ꮔ"); ("ꮕ", "Ꮕ"); ("ꮖ", "Ꮖ"); ("ꮗ", "Ꮗ"); ("ꮘ", "Ꮘ");
    ("ꮙ", "Ꮙ"); ("ꮚ", "Ꮚ"); ("ꮛ", "Ꮛ"); ("ꮜ", "Ꮜ"); ("ꮝ", "Ꮝ"); ("ꮞ", "Ꮞ");
    ("ꮟ", "Ꮟ"); ("ꮠ", "Ꮠ"); ("ꮡ", "Ꮡ"); ("ꮢ", "Ꮢ"); ("ꮣ", "Ꮣ"); ("ꮤ", "Ꮤ");
    ("ꮥ", "Ꮥ"); ("ꮦ", "Ꮦ"); ("ꮧ", "Ꮧ"); ("ꮨ", "Ꮨ"); ("ꮩ", "Ꮩ"); ("ꮪ", "Ꮪ");
    ("ꮫ", "Ꮫ"); ("ꮬ", "Ꮬ"); ("ꮭ", "Ꮭ"); ("ꮮ", "Ꮮ"); ("ꮯ", "Ꮯ"); ("ꮰ", "Ꮰ");
    ("ꮱ", "Ꮱ"); ("ꮲ", "Ꮲ"); ("ꮳ", "Ꮳ"); ("ꮴ", "Ꮴ"); ("ꮵ", "Ꮵ"); ("ꮶ", "Ꮶ");
    ("ꮷ", "Ꮷ"); ("ꮸ", "Ꮸ"); ("ꮹ", "Ꮹ"); ("ꮺ", "Ꮺ"); ("ꮻ", "Ꮻ"); ("ꮼ", "Ꮼ");
    ("ꮽ", "Ꮽ"); ("ꮾ", "Ꮾ"); ("ꮿ", "Ꮿ"); ("ﬀ", "FF"); ("ﬁ", "FI"); ("ﬂ", "FL");
    ("ﬃ", "FFI"); ("ﬄ", "FFL"); ("ﬅ", "ST"); ("ﬆ", "ST"); ("ﬓ", "ՄՆ"); ("ﬔ", "ՄԵ");
    ("ﬕ", "ՄԻ"); ("ﬖ", "ՎՆ"); ("ﬗ", "ՄԽ"); ("ａ", "Ａ"); ("ｂ", "Ｂ"); ("ｃ", "Ｃ");
    ("ｄ", "Ｄ"); ("ｅ", "Ｅ"); ("ｆ", "Ｆ"); ("ｇ", "Ｇ"); ("ｈ", "Ｈ"); ("ｉ", "Ｉ");
    ("ｊ", "Ｊ"); ("ｋ", "Ｋ"); ("ｌ", "Ｌ"); ("ｍ", "Ｍ"); ("ｎ", "Ｎ"); ("ｏ", "Ｏ");
    ("ｐ", "Ｐ"); ("ｑ", "Ｑ"); ("ｒ", "Ｒ"); ("ｓ", "Ｓ"); ("ｔ", "Ｔ"); ("ｕ", "Ｕ");
    ("ｖ", "Ｖ"); ("ｗ", "Ｗ"); ("ｘ", "Ｘ"); ("ｙ", "Ｙ"); ("ｚ", "Ｚ"); ("𐐨", "𐐀");
    ("𐐩", "𐐁"); ("𐐪", "𐐂"); ("𐐫", "𐐃"); ("𐐬", "𐐄"); ("𐐭", "𐐅"); ("𐐮", "𐐆");
    ("𐐯", "𐐇"); ("𐐰", "𐐈"); ("𐐱", "𐐉"); ("𐐲", "𐐊"); ("𐐳", "𐐋"); ("𐐴", "𐐌");
    ("𐐵", "𐐍"); ("𐐶", "𐐎"); ("𐐷", "𐐏"); ("𐐸", "𐐐"); ("𐐹", "𐐑"); ("𐐺", "𐐒");
    ("𐐻", "𐐓"); ("𐐼", "𐐔"); ("𐐽", "𐐕"); ("𐐾", "𐐖"); ("𐐿", "𐐗"); ("𐑀", "𐐘");
    ("𐑁", "𐐙"); ("𐑂", "𐐚"); ("𐑃", "𐐛"); ("𐑄", "𐐜"); ("𐑅", "𐐝"); ("𐑆", "𐐞");
    ("𐑇", "𐐟"); ("𐑈", "𐐠"); ("𐑉", "𐐡"); ("𐑊", "𐐢"); ("𐑋", "𐐣"); ("𐑌", "𐐤");
    ("𐑍", "𐐥"); ("𐑎", "𐐦"); ("𐑏", "𐐧"); ("𐓘", "𐒰"); ("𐓙", "𐒱"); ("𐓚", "𐒲");
    ("𐓛", "𐒳"); ("𐓜", "𐒴"); ("𐓝", "𐒵"); ("𐓞", "𐒶"); ("𐓟", "𐒷"); ("𐓠", "𐒸");
    ("𐓡", "𐒹"); ("𐓢", "𐒺"); ("𐓣", "𐒻"); ("𐓤", "𐒼"); ("𐓥", "𐒽"); ("𐓦", "𐒾");
    ("𐓧", "𐒿"); ("𐓨", "𐓀"); ("𐓩", "𐓁"); ("𐓪", "𐓂"); ("𐓫", "𐓃"); ("𐓬", "𐓄");
    ("𐓭", "𐓅"); ("𐓮", "𐓆"); ("𐓯", "𐓇"); ("𐓰", "𐓈"); ("𐓱", "𐓉"); ("𐓲", "𐓊");
    ("𐓳", "𐓋"); ("𐓴", "𐓌"); ("𐓵", "𐓍"); ("𐓶", "𐓎"); ("𐓷", "𐓏"); ("𐓸", "𐓐");
    ("𐓹", "𐓑"); ("𐓺", "𐓒"); ("𐓻", "𐓓"); ("𐖗", "𐕰"); ("𐖘", "𐕱"); ("𐖙", "𐕲");
    ("𐖚", "𐕳"); ("𐖛", "𐕴"); ("𐖜", "𐕵"); ("𐖝", "𐕶"); ("𐖞", "𐕷"); ("𐖟", "𐕸");
    ("𐖠", "𐕹"); ("𐖡", "𐕺"); ("𐖣", "𐕼"); ("𐖤", "𐕽"); ("𐖥", "𐕾"); ("𐖦", "𐕿");
    ("𐖧", "𐖀"); ("𐖨", "𐖁"); ("𐖩", "𐖂"); ("𐖪", "𐖃"); ("𐖫", "𐖄"); ("𐖬", "𐖅");
    ("𐖭", "𐖆"); ("𐖮", "𐖇"); ("𐖯", "𐖈"); ("𐖰", "𐖉"); ("𐖱", "𐖊"); ("𐖳", "𐖌");
    ("𐖴", "𐖍"); ("𐖵", "𐖎"); ("𐖶", "𐖏"); ("𐖷", "𐖐"); ("𐖸", "𐖑"); ("𐖹", "𐖒");
    ("𐖻", "𐖔"); ("𐖼", "𐖕"); ("𐳀", "𐲀"); ("𐳁", "𐲁"); ("𐳂", "𐲂"); ("𐳃", "𐲃");
    ("𐳄", "𐲄"); ("𐳅", "𐲅"); ("𐳆", "𐲆"); ("𐳇", "𐲇"); ("𐳈", "𐲈"); ("𐳉", "𐲉");
    ("𐳊", "𐲊"); ("𐳋", "𐲋"); ("𐳌", "𐲌"); ("𐳍", "𐲍"); ("𐳎", "𐲎"); ("𐳏", "𐲏");
    ("𐳐", "𐲐"); ("𐳑", "𐲑"); ("𐳒", "𐲒"); ("𐳓", "𐲓"); ("𐳔", "𐲔"); ("𐳕", "𐲕");
    ("𐳖", "𐲖"); ("𐳗", "𐲗"); ("𐳘", "𐲘"); ("𐳙", "𐲙"); ("𐳚", "𐲚"); ("𐳛", "𐲛");
    ("𐳜", "𐲜"); ("𐳝", "𐲝"); ("𐳞", "𐲞"); ("𐳟", "𐲟"); ("𐳠", "𐲠"); ("𐳡", "𐲡");
    ("𐳢", "𐲢"); ("𐳣", "𐲣"); ("𐳤", "𐲤"); ("𐳥", "𐲥"); ("𐳦", "𐲦"); ("𐳧", "𐲧");
    ("𐳨", "𐲨"); ("𐳩", "𐲩"); ("𐳪", "𐲪"); ("𐳫", "𐲫"); ("𐳬", "𐲬"); ("𐳭", "𐲭");
    ("𐳮", "𐲮"); ("𐳯", "𐲯"); ("𐳰", "𐲰"); ("𐳱", "𐲱"); ("𐳲", "𐲲"); ("𑣀", "𑢠");
    ("𑣁", "𑢡"); ("𑣂", "𑢢"); ("𑣃", "𑢣"); ("𑣄", "𑢤"); ("𑣅", "𑢥"); ("𑣆", "𑢦");
    ("𑣇", "𑢧"); ("𑣈", "𑢨"); ("𑣉", "𑢩"); ("𑣊", "𑢪"); ("𑣋", "𑢫"); ("𑣌", "𑢬");
    ("𑣍", "𑢭"); ("𑣎", "𑢮"); ("𑣏", "𑢯"); ("𑣐", "𑢰"); ("𑣑", "𑢱"); ("𑣒", "𑢲");
    ("𑣓", "𑢳"); ("𑣔", "𑢴"); ("𑣕", "𑢵"); ("𑣖", "𑢶"); ("𑣗", "𑢷"); ("𑣘", "𑢸");
    ("𑣙", "𑢹"); ("𑣚", "𑢺"); ("𑣛", "𑢻"); ("𑣜", "𑢼"); ("𑣝", "𑢽"); ("𑣞", "𑢾");
    ("𑣟", "𑢿"); ("𖹠", "𖹀"); ("𖹡", "𖹁"); ("𖹢", "𖹂"); ("𖹣", "𖹃"); ("𖹤", "𖹄");
    ("𖹥", "𖹅"); ("𖹦", "𖹆"); ("𖹧", "𖹇"); ("𖹨", "𖹈"); ("𖹩", "𖹉"); ("𖹪", "𖹊");
    ("𖹫", "𖹋"); ("𖹬", "𖹌"); ("𖹭", "𖹍"); ("𖹮", "𖹎"); ("𖹯", "𖹏"); ("𖹰", "𖹐");
    ("𖹱", "𖹑"); ("𖹲", "𖹒"); ("𖹳", "𖹓"); ("𖹴", "𖹔"); ("𖹵", "𖹕"); ("𖹶", "𖹖");
    ("𖹷", "𖹗"); ("𖹸", "𖹘"); ("𖹹", "𖹙"); ("𖹺", "𖹚"); ("𖹻", "𖹛"); ("𖹼", "𖹜");
    ("𖹽", "𖹝"); ("𖹾", "𖹞"); ("𖹿", "𖹟"); ("𞤢", "𞤀"); ("𞤣", "𞤁"); ("𞤤", "𞤂");
    ("𞤥", "𞤃"); ("𞤦", "𞤄"); ("𞤧", "𞤅"); ("𞤨", "𞤆"); ("𞤩", "𞤇"); ("𞤪", "𞤈");
    ("𞤫", "𞤉"); ("𞤬", "𞤊"); ("𞤭", "𞤋"); ("𞤮", "𞤌"); ("𞤯", "𞤍"); ("𞤰", "𞤎");
    ("𞤱", "𞤏"); ("𞤲", "𞤐"); ("𞤳", "𞤑"); ("𞤴", "𞤒"); ("𞤵", "𞤓"); ("𞤶", "𞤔");
    ("𞤷", "𞤕"); ("𞤸", "𞤖"); ("𞤹", "𞤗"); ("𞤺", "𞤘"); ("𞤻", "𞤙"); ("𞤼", "𞤚");
    ("𞤽", "𞤛"); ("𞤾", "𞤜"); ("𞤿", "𞤝"); ("𞥀", "𞤞"); ("𞥁", "𞤟"); ("𞥂", "𞤠");
    ("𞥃", "𞤡") ].

(** The uppercase of one character under a table of mappings. *)
Fixpoint to_upper (table : list (string * string)) (c : string) : string :=
  match table with
  | [] => c
  | (k, v) :: table' => if String.eqb c k then v else to_upper table' c
  end.

Definition upper_char (c : string) : string := to_upper upper_table c.

(** [s.upper()]: every character by itself, whatever stands around it. *)
Definition upper (s : string) : string := text (map upper_char (chars s)).

(** [needle in hay] on strings. *)
Fixpoint contains (needle hay : string) : bool :=
  String.prefix needle hay ||
  match hay with
  | EmptyString => false
  | String _ hay' => contains needle hay'
  end.

(** ** Exceptions

    [oracledb] raises [DatabaseError] (and its subclasses) with one
    argument, the error object, which carries the ORA code and the message;
    [_execute_with_fallback] unpacks exactly that ([error_obj, = e.args]).
    [InterfaceError] stands for the [oracledb.Error] subclasses outside
    [DatabaseError].  [PyException] is any other [Exception], named by its
    class. *)
Inductive exn :=
| DatabaseError (code : Z) (message : string)
| InterfaceError (message : string)
| PyException (class message : string).

#[global] Instance exn_eq_dec : EqDecision exn.
Proof. solve_decision. Defined.

(** [isinstance(e, oracledb.Error)] *)
Definition is_oracledb_Error (e : exn) : bool :=
  match e with
  | DatabaseError _ _ | InterfaceError _ => true
  | PyException _ _ => false
  end.

(** [str(e)] *)
Definition str_exn (e : exn) : string :=
  match e with
  | DatabaseError _ m | InterfaceError m | PyException _ m => m
  end.

Definition TypeError := PyException "TypeError".
Definition ValueError := PyException "ValueError".
Definition IndexError := PyException "IndexError".
Definition AttributeError := PyException "AttributeError".

(** ORA-01031: insufficient privileges *)
Definition ORA_01031 : Z := 1031.

(** ** The statements the connector sends

    The SQL texts of [database.py], character for character, each with
    the method that sends it. *)
Abbreviation sql := string.

(** [get_database_info] *)
Definition SqlVersion : string :=
  "SELECT * FROM v$version".

(** [get_all_table_names: all_objects_query] *)
Definition SqlAllObjectNames : string :=
  "
                SELECT /*+ RESULT_CACHE */ object_name 
                FROM all_objects 
                WHERE owner = :owner 
                AND object_type IN ('TABLE', 'VIEW')
                ORDER BY object_name
            ".

(** [get_all_table_names: user_objects_query] *)
Definition SqlUserObjectNames : string :=
  "
                SELECT table_name AS object_name FROM user_tables
                UNION ALL
                SELECT view_name AS object_name FROM user_views
                ORDER BY object_name
            ".

(** [load_table_details: object_check_query] *)
Definition SqlObjectCheck : string :=
  "
                SELECT /*+ RESULT_CACHE */ object_type 
                FROM all_objects 
                WHERE owner = :owner 
                AND object_name = :object_name
                AND object_type IN ('TABLE', 'VIEW')
            ".

(** [load_table_details: user_object_check_query] *)
Definition SqlUserObjectCheck : string :=
  "
                SELECT 'TABLE' AS object_type FROM user_tables WHERE table_name = :object_name
                UNION ALL
                SELECT 'VIEW' AS object_type FROM user_views WHERE view_name = :object_name
            ".

(** [load_table_details: the columns] *)
Definition SqlTabColumns : string :=
  "
                SELECT /*+ RESULT_CACHE INDEX(atc) */ 
                    column_name, data_type, nullable
                FROM all_tab_columns atc
                WHERE owner = :owner AND table_name = :table_name
                ORDER BY column_id
                ".

(** [load_table_details: the relationships, OUTGOING then INCOMING] *)
Definition SqlRelationships : string :=
  "
                    SELECT /*+ RESULT_CACHE */
                        'OUTGOING' AS relationship_direction,
                        acc.column_name AS source_column,
                        rcc.table_name AS referenced_table,
                        rcc.column_name AS referenced_column
                    FROM all_constraints ac
                    JOIN all_cons_columns acc ON acc.constraint_name = ac.constraint_name
                                            AND acc.owner = ac.owner
                    JOIN all_cons_columns rcc ON rcc.constraint_name = ac.r_constraint_name
                                            AND rcc.owner = ac.r_owner
                    WHERE ac.constraint_type = 'R'
                    AND ac.owner = :owner
                    AND ac.table_name = :table_name

                    UNION ALL

                    SELECT /*+ RESULT_CACHE */
                        'INCOMING' AS relationship_direction,
                        rcc.column_name AS source_column,
                        ac.table_name AS referenced_table,
                        acc.column_name AS referenced_column
                    FROM all_constraints ac
                    JOIN all_cons_columns acc ON acc.constraint_name = ac.constraint_name
                                            AND acc.owner = ac.owner
                    JOIN all_cons_columns rcc ON rcc.constraint_name = ac.r_constraint_name
                                            AND rcc.owner = ac.r_owner
                    WHERE ac.constraint_type = 'R'
                    AND ac.r_owner = :owner
                    AND ac.r_constraint_name IN (
                        SELECT constraint_name 
                        FROM all_constraints
                        WHERE owner = :owner
                        AND table_name = :table_name
                        AND constraint_type IN ('P', 'U')
                    )
                    ".

(** [get_pl_sql_objects], an f-string over [where_clause] *)
Definition SqlPlsqlObjects (where_clause : string) : string :=
  "
                SELECT object_name, object_type, status, created, last_ddl_time
                FROM all_objects
                " +:+ where_clause +:+ "
                ORDER BY object_name
            ".

(** [get_object_source: packages and types] *)
Definition SqlSource : string :=
  "
                    SELECT text
                    FROM all_source
                    WHERE owner = :owner 
                    AND name = :name 
                    AND type = :type
                    ORDER BY line
                ".

(** [get_object_source: everything else] *)
Definition SqlGetDdl : string :=
  "
                    SELECT dbms_metadata.get_ddl(
                        :object_type, 
                        :object_name, 
                        :owner
                    ) FROM dual
                ".

(** [get_table_constraints: the constraints] *)
Definition SqlConstraints : string :=
  "
                SELECT ac.constraint_name,
                       ac.constraint_type,
                       ac.search_condition
                FROM all_constraints ac
                WHERE ac.owner = :owner
                AND ac.table_name = :table_name
            ".

(** [get_table_constraints: the columns of a constraint] *)
Definition SqlConsColumns : string :=
  "
                    SELECT column_name
                    FROM all_cons_columns
                    WHERE owner = :owner
                    AND constraint_name = :constraint_name
                    ORDER BY position
                ".

(** [get_table_constraints: what a foreign key references] *)
Definition SqlRefInfo : string :=
  "
                        SELECT ac.table_name,
                               acc.column_name
                        FROM all_constraints ac
                        JOIN all_cons_columns acc ON ac.constraint_name = acc.constraint_name
                        WHERE ac.constraint_name = (
                            SELECT r_constraint_name
                            FROM all_constraints
                            WHERE owner = :owner
                            AND constraint_name = :constraint_name
                        )
                        AND acc.owner = ac.owner
                        ORDER BY acc.position
                    ".

(** [get_table_indexes: the indexes] *)
Definition SqlIndexes : string :=
  "
                SELECT ai.index_name,
                       ai.uniqueness,
                       ai.tablespace_name,
                       ai.status
                FROM all_indexes ai
                WHERE ai.owner = :owner
                AND ai.table_name = :table_name
            ".

(** [get_table_indexes: the columns of an index] *)
Definition SqlIndColumns : string :=
  "
                    SELECT column_name
                    FROM all_ind_columns
                    WHERE index_owner = :owner
                    AND index_name = :index_name
                    ORDER BY column_position
                ".

(** [get_dependent_objects] *)
Definition SqlDependencies : string :=
  "
                WITH deps AS (
                    SELECT /*+ MATERIALIZE */
                           name, type, owner
                    FROM all_dependencies
                    WHERE referenced_name = :object_name
                    AND referenced_owner = :owner
                )
                SELECT /*+ LEADING(deps) USE_NL(ao) INDEX(ao) */
                    ao.object_name, ao.object_type, ao.owner
                FROM deps
                JOIN all_objects ao ON deps.name = ao.object_name 
                                   AND deps.type = ao.object_type
                                   AND deps.owner = ao.owner
            ".

(** [get_user_defined_types], an f-string over [where_clause] *)
Definition SqlTypes (where_clause : string) : string :=
  "
                SELECT type_name, typecode
                FROM all_types
                " +:+ where_clause +:+ "
                ORDER BY type_name
            ".

(** [get_user_defined_types: the attributes of an object type] *)
Definition SqlTypeAttrs : string :=
  "
                        SELECT attr_name, attr_type_name
                        FROM all_type_attrs
                        WHERE owner = :owner
                        AND type_name = :type_name
                        ORDER BY attr_no
                    ".

(** [get_related_tables: the tables this table references] *)
Definition SqlReferencedTables : string :=
  "
                SELECT /*+ RESULT_CACHE LEADING(ac acc) USE_NL(acc) */
                    DISTINCT acc.table_name AS referenced_table
                FROM all_constraints ac
                JOIN all_cons_columns acc ON acc.constraint_name = ac.r_constraint_name
                    AND acc.owner = ac.owner
                WHERE ac.constraint_type = 'R'
                AND ac.table_name = :table_name
                AND ac.owner = :owner
            ".

(** [get_related_tables: the tables that reference this table] *)
Definition SqlReferencingTables : string :=
  "
                WITH pk_constraints AS (
                    SELECT /*+ MATERIALIZE */ constraint_name
                    FROM all_constraints
                    WHERE table_name = :table_name
                    AND constraint_type IN ('P', 'U')
                    AND owner = :owner
                )
                SELECT /*+ RESULT_CACHE LEADING(ac pk) USE_NL(pk) */
                    DISTINCT ac.table_name AS referencing_table
                FROM pk_constraints
                JOIN pk_constraints pk ON ac.r_constraint_name = pk.constraint_name
                WHERE ac.constraint_type = 'R'
                AND ac.owner = :owner
            ".

(** [search_in_database: all_objects_query] *)
Definition SqlSearchAllObjects : string :=
  "
                SELECT /*+ RESULT_CACHE */ object_name 
                FROM all_objects 
                WHERE owner = :owner 
                AND object_type IN ('TABLE', 'VIEW')
            ".

(** [search_in_database: user_objects_query] *)
Definition SqlSearchUserObjects : string :=
  "
                SELECT table_name AS object_name FROM user_tables
                UNION ALL
                SELECT view_name AS object_name FROM user_views
            ".

(** [search_columns_in_database] *)
Definition SqlSearchColumns : string :=
  "
                SELECT /*+ RESULT_CACHE */ 
                    table_name,
                    column_name,
                    data_type,
                    nullable
                FROM all_tab_columns 
                WHERE owner = :owner
                AND table_name IN (SELECT column_value FROM TABLE(CAST(:table_names AS SYS.ODCIVARCHAR2LIST)))
                AND UPPER(column_name) LIKE '%' || :search_term || '%'
                ORDER BY table_name, column_id
            ".

(** [explain_query_plan: plan_statement], an f-string over [query] *)
Definition SqlExplainPlan (query : string) : string :=
  "EXPLAIN PLAN FOR " +:+ query.

(** [explain_query_plan: the plan rows] *)
Definition SqlPlanRows : string :=
  "
                SELECT 
                    LPAD(' ', 2*LEVEL-2) || operation || ' ' || 
                    options || ' ' || object_name || 
                    CASE 
                        WHEN cost IS NOT NULL THEN ' (Cost: ' || cost || ')'
                        ELSE ''
                    END || 
                    CASE 
                        WHEN cardinality IS NOT NULL THEN ' (Rows: ' || cardinality || ')'
                        ELSE ''
                    END as execution_plan_step
                FROM plan_table
                START WITH id = 0
                CONNECT BY PRIOR id = parent_id
                ORDER SIBLINGS BY position
            ".

(** [explain_query_plan: clearing the plan table] *)
Definition SqlDeletePlan : string :=
  "DELETE FROM plan_table".

(** ** The driver

    [oracledb] has a blocking API (thick mode) and a coroutine API (thin
    mode).  The connector picks one by [self.thick_mode]; every driver
    entry point below takes the API it is called through. *)
Inductive api := Blocking | Coroutine.

Inductive getmode := POOL_GETMODE_WAIT | POOL_GETMODE_NOWAIT.

Definition pool := nat.
Definition connection := nat.
Definition cursor := nat.

#[global] Instance api_eq_dec : EqDecision api.
Proof. solve_decision. Defined.

#[global] Instance getmode_eq_dec : EqDecision getmode.
Proof. solve_decision. Defined.

Definition outcome (A : Type) : Type := exn + A.

Record Oracledb (W : Type) := {
  (* oracledb.create_pool / oracledb.create_pool_async *)
  create_pool : api -> string -> Z -> Z -> Z -> getmode -> W -> W * outcome pool;
  (* pool.acquire() *)
  pool_acquire : api -> pool -> W -> W * outcome connection;
  (* pool.close() *)
  pool_close : api -> pool -> W -> W * outcome unit;
  (* conn.close() *)
  connection_close : api -> connection -> W -> W * outcome unit;
  (* conn.commit() *)
  connection_commit : api -> connection -> W -> W * outcome unit;
  (* conn.cursor() *)
  connection_cursor : connection -> W -> W * outcome cursor;
  (* conn.username; None when the session has no user name *)
  connection_username : connection -> W -> option string;
  (* cursor.execute(sql, **params) *)
  cursor_execute : api -> cursor -> sql -> params -> W -> W * outcome unit;
  (* cursor.fetchall() *)
  cursor_fetchall : api -> cursor -> W -> W * outcome rows;
  (* lob.read() *)
  lob_read : api -> nat -> W -> W * outcome string
}.

Arguments create_pool {W}.
Arguments pool_acquire {W}.
Arguments pool_close {W}.
Arguments connection_close {W}.
Arguments connection_commit {W}.
Arguments connection_cursor {W}.
Arguments connection_username {W}.
Arguments cursor_execute {W}.
Arguments cursor_fetchall {W}.
Arguments lob_read {W}.

(** What the connector does to its environment, in order. *)
Inductive event :=
| EvCreatePool (a : api) (dsn : string) (min max increment : Z) (g : getmode)
| EvAcquire (a : api) (p : pool)
| EvPoolClose (a : api) (p : pool)
| EvClose (a : api) (c : connection)
| EvCommit (a : api) (c : connection)
| EvCursor (c : connection)
| EvExecute (a : api) (cur : cursor) (q : sql) (ps : params)
| EvFetchall (a : api) (cur : cursor)
| EvLobRead (a : api) (locator : nat)
| EvPrint (line : string).

#[global] Instance event_eq_dec : EqDecision event.
Proof. solve_decision. Defined.

(** The immutable attributes of a connector after [__init__]. *)
Record DatabaseConnector := {
  connection_string : string;
  target_schema : option string;
  thick_mode : bool
}.

Definition api_of (self : DatabaseConnector) : api :=
  if thick_mode self then Blocking else Coroutine.

(** ** The monad of connector code *)

(** [_pool] is the connector's only mutable attribute. *)
Record state (W : Type) := {
  world : W;
  _pool : option pool;
  trace : list event
}.

Arguments world {W}.
Arguments _pool {W}.
Arguments trace {W}.

Definition M (W A : Type) : Type := state W -> state W * outcome A.

Definition ret {W A} (a : A) : M W A := fun st => (st, inr a).

Definition raise {W A} (e : exn) : M W A := fun st => (st, inl e).

Definition bind_ {W A B} (m : M W A) (k : A -> M W B) : M W B :=
  fun st =>
    match m st with
    | (st', inr a) => k a st'
    | (st', inl e) => (st', inl e)
    end.

Notation "x <- m ;; k" := (bind_ m (fun x => k))
  (at level 100, m at next level, right associativity).
Notation "m ;;; k" := (bind_ m (fun _ => k))
  (at level 100, right associativity).
Notation "'let*' pat := m 'in' k" := (bind_ m (fun x => match x with pat => k end))
  (at level 100, pat pattern, m at next level, right associativity).

(** [try: m except ...: handler], where [handler e = None] stands for an
    exception no [except] clause matches. *)
Definition try_except {W A} (m : M W A) (handler : exn -> option (M W A)) : M W A :=
  fun st =>
    match m st with
    | (st', inr a) => (st', inr a)
    | (st', inl e) =>
        match handler e with
        | Some h => h st'
        | None => (st', inl e)
        end
    end.

(** [try: m finally: fin].  An exception of [fin] replaces the outcome of
    [m]. *)
Definition try_finally {W A} (m : M W A) (fin : M W unit) : M W A :=
  fun st =>
    match m st with
    | (st', r) =>
        match fin st' with
        | (st'', inr _) => (st'', r)
        | (st'', inl e) => (st'', inl e)
        end
    end.

Definition log {W} (ev : event) (st : state W) : state W :=
  {| world := world st; _pool := _pool st; trace := trace st ++ [ev] |}.

Definition emit {W} (ev : event) : M W unit := fun st => (log ev st, inr tt).

(** [print(line, file=sys.stderr)] *)
Definition print {W} (line : string) : M W unit := emit (EvPrint line).

(** A driver call: the event is recorded, then the driver moves the world. *)
Definition call {W A} (ev : event) (f : W -> W * outcome A) : M W A :=
  fun st =>
    let (w', r) := f (world st) in
    ({| world := w'; _pool := _pool st; trace := trace st ++ [ev] |}, r).

Definition get_pool {W} : M W (option pool) := fun st => (st, inr (_pool st)).

Definition set_pool {W} (p : option pool) : M W unit :=
  fun st => ({| world := world st; _pool := p; trace := trace st |}, inr tt).

(** [await x] where [x] came out of a blocking call: the call has run, and
    what it returned, a value of the type named, is not awaitable.  The
    blocking [cursor.execute] of a statement that is no query returns
    [None], the blocking [lob.read] a [str]. *)
Definition await_plain {W A} (type_name : string) : M W A :=
  raise (TypeError ("object " +:+ type_name +:+ " can't be used in 'await' expression")).

(** [for x in xs: body x], threading the loop state [acc]. *)
Fixpoint for_each {W A B} (xs : list A) (acc : B) (body : A -> B -> M W B) : M W B :=
  match xs with
  | [] => ret acc
  | x :: xs' => acc' <- body x acc ;; for_each xs' acc' body
  end.

(** [row[i]] *)
Definition index {W} (r : row) (i : nat) : M W cell :=
  match nth_error r i with
  | Some c => ret c
  | None => raise (IndexError "tuple index out of range")
  end.

Definition unpack_error (expected : nat) (r : row) : exn :=
  if Nat.ltb (List.length r) expected
  then ValueError "not enough values to unpack"
  else ValueError "too many values to unpack".

(** [a, b = row], [a, b, c = row], ... as the [for] loops over rows do. *)
Definition unpack2 {W} (r : row) : M W (cell * cell) :=
  match r with
  | [a; b] => ret (a, b)
  | _ => raise (unpack_error 2 r)
  end.

Definition unpack3 {W} (r : row) : M W (cell * cell * cell) :=
  match r with
  | [a; b; c] => ret (a, b, c)
  | _ => raise (unpack_error 3 r)
  end.

Definition unpack4 {W} (r : row) : M W (cell * cell * cell * cell) :=
  match r with
  | [a; b; c; d] => ret (a, b, c, d)
  | _ => raise (unpack_error 4 r)
  end.

Definition unpack5 {W} (r : row) : M W (cell * cell * cell * cell * cell) :=
  match r with
  | [a; b; c; d; e] => ret (a, b, c, d, e)
  | _ => raise (unpack_error 5 r)
  end.

(** [[row[i] for row in rs]] *)
Definition column {W} (i : nat) (rs : rows) : M W (list cell) :=
  for_each rs [] (fun r acc => c <- index r i ;; ret (acc ++ [c])).

(** [d.setdefault(k, []).append(v)] on an insertion-ordered dict, written in
    the source as a membership test followed by an append. *)
Fixpoint dict_append {V} (k : cell) (v : V) (d : list (cell * list V)) : list (cell * list V) :=
  match d with
  | [] => [(k, [v])]
  | (k', vs) :: d' =>
      if decide (k = k') then (k', vs ++ [v]) :: d'
      else (k', vs) :: dict_append k v d'
  end.

(** ** Results of the exposed operations *)

(** A value of the [get_database_info] dict. *)
Inductive pyval :=
| PCell (c : cell)
| PCells (l : list cell).

Record column_info := {
  col_name : cell;
  col_type : cell;
  col_nullable : bool
}.

Record relationship := {
  local_column : cell;
  foreign_column : cell;
  direction : cell
}.

Record table_detail := {
  object_type : cell;
  columns : list column_info;
  relationships : list (cell * list relationship)
}.

Record plsql_object := {
  plsql_name : cell;
  plsql_type : cell;
  plsql_status : cell;
  plsql_owner : string;
  plsql_created : option string;
  plsql_last_modified : option string
}.

Record constraint_info := {
  cons_name : cell;
  cons_type : cell;
  cons_columns : list cell;
  cons_references : option (cell * list cell);
  cons_condition : option cell
}.

Record index_info := {
  idx_name : cell;
  idx_unique : bool;
  idx_tablespace : option cell;
  idx_status : option cell;
  idx_columns : list cell
}.

Record dependent_object := {
  dep_name : cell;
  dep_type : cell;
  dep_owner : cell
}.

Record type_info := {
  type_name : cell;
  type_category : cell;
  type_owner : string;
  type_attributes : option (list (cell * cell))
}.

Record related_tables := {
  referenced_tables : list cell;
  referencing_tables : list cell
}.

Record query_plan := {
  execution_plan : list cell;
  optimization_suggestions : list string;
  plan_error : option string
}.

#[global] Instance pyval_eq_dec : EqDecision pyval.
Proof. solve_decision. Defined.

#[global] Instance column_info_eq_dec : EqDecision column_info.
Proof. solve_decision. Defined.

#[global] Instance relationship_eq_dec : EqDecision relationship.
Proof. solve_decision. Defined.

#[global] Instance dependent_object_eq_dec : EqDecision dependent_object.
Proof. solve_decision. Defined.

#[global] Instance related_tables_eq_dec : EqDecision related_tables.
Proof. solve_decision. Defined.

(** Cells are hashable: a set of cells is a [gset]. *)
#[global] Program Instance cell_countable : Countable cell :=
  inj_countable'
    (fun c => match c with
              | CNull => inl tt
              | CStr s => inr (inl s)
              | CInt z => inr (inr (inl z))
              | CDate s => inr (inr (inr (inl s)))
              | CLob n => inr (inr (inr (inr n)))
              end)
    (fun x => match x with
              | inl _ => CNull
              | inr (inl s) => CStr s
              | inr (inr (inl z)) => CInt z
              | inr (inr (inr (inl s))) => CDate s
              | inr (inr (inr (inr n))) => CLob n
              end) _.
Next Obligation. by intros []. Qed.

(** ** [difflib.SequenceMatcher]

    [_calculate_similarity] is [SequenceMatcher(None, a, b).ratio()] of the
    Python standard library, transcribed here from [Lib/difflib.py]:
    [isjunk] is [None] and [autojunk] is on.  Indices are Python integers,
    hence [Z]. *)
Module Difflib.

(** A matching block [(i, j, k)]: [a[i:i+k] == b[j:j+k]]. *)
Definition block : Type := Z * Z * Z.

Section SequenceMatcher.

Variables a b : list string.

(** [__chain_b], first loop: each element of [b] with the positions it
    occurs at, in increasing order. *)
Fixpoint chain_from (i : Z) (rest : list string) (b2j : gmap string (list Z)) : gmap string (list Z) :=
  match rest with
  | [] => b2j
  | elt :: rest' => chain_from (i + 1) rest' (<[elt := default [] (b2j !! elt) ++ [i]]> b2j)
  end.

(** [__chain_b], with the popular elements purged when [b] has 200
    elements or more.  No element is junk. *)
Definition chain_b : gmap string (list Z) :=
  let b2j := chain_from 0 b ∅ in
  let n := Z.of_nat (length b) in
  if Z.leb 200 n then
    let ntest := n / 100 + 1 in
    filter (fun kv => Z.of_nat (length kv.2) <= ntest) b2j
  else b2j.

(** [b2j.get(a[i], nothing)]; every [i] the loops use is inside [a]. *)
Definition positions (b2j : gmap string (list Z)) (i : Z) : list Z :=
  match a !! Z.to_nat i with
  | Some elt => default [] (b2j !! elt)
  | None => []
  end.

(** The inner loop of [find_longest_match] over the positions [js] of
    [a[i]] in [b]: [continue] below [blo], [break] from [bhi] on. *)
Fixpoint scan_row (i blo bhi : Z) (j2len : gmap Z Z) (js : list Z)
    (newj2len : gmap Z Z) (best : block) : gmap Z Z * block :=
  match js with
  | [] => (newj2len, best)
  | j :: js' =>
      if Z.ltb j blo then scan_row i blo bhi j2len js' newj2len best
      else if Z.leb bhi j then (newj2len, best)
      else
        let k := default 0 (j2len !! (j - 1)) + 1 in
        let '(_, _, bestsize) := best in
        scan_row i blo bhi j2len js' (<[j := k]> newj2len)
          (if Z.ltb bestsize k then (i - k + 1, j - k + 1, k) else best)
  end.

(** The outer loop, [for i in range(alo, ahi)]. *)
Fixpoint scan_rows (b2j : gmap string (list Z)) (blo bhi : Z) (range : list Z)
    (j2len : gmap Z Z) (best : block) : block :=
  match range with
  | [] => best
  | i :: range' =>
      let '(newj2len, best') := scan_row i blo bhi j2len (positions b2j i) ∅ best in
      scan_rows b2j blo bhi range' newj2len best'
  end.

Definition same_at (i j : Z) : bool :=
  match a !! Z.to_nat i, b !! Z.to_nat j with
  | Some x, Some y => bool_decide (x = y)
  | _, _ => false
  end.

(** [while besti > alo and bestj > blo and a[besti-1] == b[bestj-1]]: the
    match grows to the left.  [fuel] bounds the iterations. *)
Fixpoint extend_left (fuel : nat) (alo blo : Z) (best : block) : block :=
  match fuel with
  | O => best
  | S fuel' =>
      let '(besti, bestj, bestsize) := best in
      if Z.ltb alo besti && Z.ltb blo bestj && same_at (besti - 1) (bestj - 1)
      then extend_left fuel' alo blo (besti - 1, bestj - 1, bestsize + 1)
      else best
  end.

(** [while besti+bestsize < ahi and bestj+bestsize < bhi and
    a[besti+bestsize] == b[bestj+bestsize]]: the match grows to the right. *)
Fixpoint extend_right (fuel : nat) (ahi bhi : Z) (best : block) : block :=
  match fuel with
  | O => best
  | S fuel' =>
      let '(besti, bestj, bestsize) := best in
      if Z.ltb (besti + bestsize) ahi && Z.ltb (bestj + bestsize) bhi
         && same_at (besti + bestsize) (bestj + bestsize)
      then extend_right fuel' ahi bhi (besti, bestj, bestsize + 1)
      else best
  end.

(** [find_longest_match(alo, ahi, blo, bhi)].  The set of junk elements is
    empty, so the two loops that extend a match over junk never run. *)
Definition find_longest_match (b2j : gmap string (list Z)) (alo ahi blo bhi : Z) : block :=
  let best := scan_rows b2j blo bhi (seqZ alo (ahi - alo)) ∅ (alo, blo, 0) in
  let best := extend_left (Z.to_nat (best.1.1 - alo)) alo blo best in
  extend_right (Z.to_nat (ahi - (best.1.1 + best.2))) ahi bhi best.

(** The [while queue:] loop of [get_matching_blocks].  The queue is a
    stack: [queue.pop()] takes the entry pushed last, here the head. *)
Fixpoint blocks_loop (fuel : nat) (b2j : gmap string (list Z))
    (queue : list (Z * Z * Z * Z)) (matching_blocks : list block) : option (list block) :=
  match queue with
  | [] => Some matching_blocks
  | (alo, ahi, blo, bhi) :: queue' =>
      match fuel with
      | O => None
      | S fuel' =>
          let '(i, j, k) := find_longest_match b2j alo ahi blo bhi in
          if Z.eqb k 0 then blocks_loop fuel' b2j queue' matching_blocks
          else
            let queue1 :=
              if Z.ltb alo i && Z.ltb blo j then (alo, i, blo, j) :: queue' else queue' in
            let queue2 :=
              if Z.ltb (i + k) ahi && Z.ltb (j + k) bhi
              then (i + k, ahi, j + k, bhi) :: queue1 else queue1 in
            blocks_loop fuel' b2j queue2 (matching_blocks ++ [(i, j, k)])
      end
  end.

(** Tuple order, for [matching_blocks.sort()]. *)
Definition block_leb (x y : block) : bool :=
  let '(i1, j1, k1) := x in
  let '(i2, j2, k2) := y in
  Z.ltb i1 i2 || (Z.eqb i1 i2 && (Z.ltb j1 j2 || (Z.eqb j1 j2 && Z.leb k1 k2))).

Fixpoint insert_block (x : block) (l : list block) : list block :=
  match l with
  | [] => [x]
  | y :: l' => if block_leb x y then x :: l else y :: insert_block x l'
  end.

Definition sort_blocks (l : list block) : list block :=
  fold_right insert_block [] l.

(** The loop that merges adjacent blocks; [cur] is [(i1, j1, k1)]. *)
Fixpoint collapse (cur : block) (l : list block) (non_adjacent : list block) : list block :=
  let '(i1, j1, k1) := cur in
  match l with
  | [] => if Z.eqb k1 0 then non_adjacent else non_adjacent ++ [cur]
  | (i2, j2, k2) :: l' =>
      if Z.eqb (i1 + k1) i2 && Z.eqb (j1 + k1) j2
      then collapse (i1, j1, k1 + k2) l' non_adjacent
      else collapse (i2, j2, k2) l'
             (if Z.eqb k1 0 then non_adjacent else non_adjacent ++ [cur])
  end.

(** Every queue entry costs one turn of the loop and leaves entries over
    strictly less of [a]. *)
Definition queue_fuel : nat := 2 * length a + 2.

Definition get_matching_blocks : option (list block) :=
  let la := Z.of_nat (length a) in
  let lb := Z.of_nat (length b) in
  match blocks_loop queue_fuel chain_b [(0, la, 0, lb)] [] with
  | Some matching_blocks =>
      Some (collapse (0, 0, 0) (sort_blocks matching_blocks) [] ++ [(la, lb, 0)])
  | None => None
  end.

(** [_calculate_ratio(matches, length)], as an exact fraction. *)
Definition _calculate_ratio (matches length : Z) : Q :=
  if Z.eqb length 0 then 1%Q else Qmake (2 * matches) (Z.to_pos length).

Definition sum_sizes (l : list block) : Z :=
  fold_right (fun x acc => x.2 + acc) 0 l.

Definition ratio : option Q :=
  match get_matching_blocks with
  | Some blocks =>
      Some (_calculate_ratio (sum_sizes blocks) (Z.of_nat (length a) + Z.of_nat (length b)))
  | None => None
  end.

End SequenceMatcher.

End Difflib.

(** ** Similarity ranker *)

(** [_calculate_similarity].  The source computes the ratio as a float;
    here it is the exact fraction [2 * matches / length].  Float division
    rounds that fraction to the nearest double and [0.65] is the double
    nearest to 13/20, so the comparison with the threshold and the order of
    two scores are those of the fractions as long as the strings are
    shorter than 2^26 characters.  [Difflib.ratio] always answers
    ([ratio_total] below), the default is never used. *)
Definition _calculate_similarity (s1 s2 : string) : Q :=
  default 0%Q (Difflib.ratio (chars (upper s1)) (chars (upper s2))).

(** The loop of [_filter_by_similarity]: the candidates kept, in input
    order, with their scores. *)
Fixpoint scored (items : list string) (search_term : string) (threshold : Q) : list (string * Q) :=
  match items with
  | [] => []
  | item :: items' =>
      if contains (upper search_term) (upper item)
      then (item, 1%Q) :: scored items' search_term threshold
      else
        let similarity := _calculate_similarity item search_term in
        if Qle_bool threshold similarity
        then (item, similarity) :: scored items' search_term threshold
        else scored items' search_term threshold
  end.

(** [results.sort(key=lambda x: x[1], reverse=True)]: a stable sort on the
    score, descending.  [insert_desc x l] puts [x] in front of the first
    entry whose score is not greater. *)
Fixpoint insert_desc (x : string * Q) (l : list (string * Q)) : list (string * Q) :=
  match l with
  | [] => [x]
  | y :: l' => if Qle_bool (snd y) (snd x) then x :: l else y :: insert_desc x l'
  end.

Definition sort_desc (l : list (string * Q)) : list (string * Q) :=
  fold_right insert_desc [] l.

Definition default_threshold : Q := 13 # 20.

Definition _filter_by_similarity (items : list string) (search_term : string) (threshold : Q)
    : list (string * Q) :=
  sort_desc (scored items search_term threshold).

(** ** Query advice *)

(** [s.count(sub)] for a non-empty [sub]: occurrences that do not overlap,
    from the left.  [skip] is the number of characters of the last
    occurrence still to pass. *)
Fixpoint count_from (sub s : string) (skip : nat) : nat :=
  match s with
  | EmptyString => 0
  | String _ s' =>
      match skip with
      | S skip' => count_from sub s' skip'
      | O =>
          if String.prefix sub s
          then S (count_from sub s' (String.length sub - 1))
          else count_from sub s' 0
      end
  end.

Definition count (sub s : string) : nat := count_from sub s 0.

Definition _analyze_query_for_optimization (query : string) : list string :=
  let query := upper query in
  let s1 :=
    if contains "SELECT *" query
    then ["Consider selecting only needed columns instead of SELECT *"] else [] in
  let s2 :=
    if contains " LIKE '%something" query || contains " LIKE '%something%'" query
    then ["Leading wildcards in LIKE predicates prevent index usage"] else [] in
  let s3 :=
    if contains " IN (SELECT " query && negb (contains " EXISTS" query)
    then ["Consider using EXISTS instead of IN with subqueries for better performance"] else [] in
  let s4 :=
    if contains " OR " query
    then ["OR conditions may prevent index usage. Consider UNION ALL of separated queries"] else [] in
  let s5 :=
    if negb (contains "/*+ " query) && Nat.ltb 500 (len query)
    then ["Complex query could benefit from optimizer hints"] else [] in
  let s6 :=
    if contains " JOIN " query then
      (if negb (contains "/*+ LEADING" query) && Nat.ltb 2 (count "JOIN" query)
       then ["Multi-table joins may benefit from LEADING hint to control join order"] else [])
      ++
      (if negb (contains "/*+ USE_NL" query) && negb (contains "/*+ USE_HASH" query)
          && Nat.ltb 1 (count "JOIN" query)
       then ["Consider join method hints like USE_NL or USE_HASH for complex joins"] else [])
    else [] in
  let join_count := count " JOIN " query in
  let from_count := count " FROM " query in
  let table_count := Nat.max from_count (join_count + 1) in
  let s7 :=
    if Nat.ltb 4 table_count
    then ["Query joins " +:+ pretty table_count
          +:+ " tables - consider reviewing join order and conditions"] else [] in
  s1 ++ s2 ++ s3 ++ s4 ++ s5 ++ s6 ++ s7.

(** [l[:limit]] *)
Definition slice_to {A} (limit : Z) (l : list A) : list A :=
  if Z.leb 0 limit then take (Z.to_nat limit) l
  else take (length l - Z.to_nat (- limit)) l.

(** ** The connector *)

Section Connector.

Context {W : Type} (drv : Oracledb W).

Local Abbreviation M := (M W).

(** *** Pool life cycle *)

(** [initialize_pool].  The body under the lock has no suspension point; the
    lock itself is modelled with the tasks, in [Module Tasks] below. *)
Definition initialize_pool (self : DatabaseConnector) : M unit :=
  p <- get_pool ;;
  match p with
  | None =>
      try_except
        (new_pool <- call (EvCreatePool (api_of self) (connection_string self) 2 10 1 POOL_GETMODE_WAIT)
                       (create_pool drv (api_of self) (connection_string self) 2 10 1 POOL_GETMODE_WAIT) ;;
         set_pool (Some new_pool) ;;;
         print "Database connection pool initialized")
        (fun e => Some (print ("Error creating connection pool: " +:+ str_exn e) ;;; raise e))
  | Some _ => ret tt
  end.

(** [self._pool.acquire()]; on [None] the attribute lookup fails. *)
Definition pool_acquire_call (self : DatabaseConnector) : M connection :=
  p <- get_pool ;;
  match p with
  | Some p => call (EvAcquire (api_of self) p) (pool_acquire drv (api_of self) p)
  | None => raise (AttributeError "'NoneType' object has no attribute 'acquire'")
  end.

(** The [try] block of [get_connection]. *)
Definition acquire_or_report (self : DatabaseConnector) : M connection :=
  try_except (pool_acquire_call self)
    (fun e => Some (print ("Error acquiring connection from pool: " +:+ str_exn e) ;;; raise e)).

Definition get_connection (self : DatabaseConnector) : M connection :=
  p <- get_pool ;;
  (match p with
   | None => initialize_pool self
   | Some _ => ret tt
   end) ;;;
  acquire_or_report self.

(** [_close_connection]: the class defines it twice, and the later
    definition (the one calling [conn.close()]) is the one in force. *)
Definition _close_connection (self : DatabaseConnector) (conn : connection) : M unit :=
  try_except
    (call (EvClose (api_of self) conn) (connection_close drv (api_of self) conn))
    (fun e => Some (print ("Error closing connection: " +:+ str_exn e))).

Definition close_pool (self : DatabaseConnector) : M unit :=
  p <- get_pool ;;
  match p with
  | Some p =>
      try_except
        (call (EvPoolClose (api_of self) p) (pool_close drv (api_of self) p) ;;;
         set_pool None ;;;
         print "Connection pool closed")
        (fun e => Some (print ("Error closing connection pool: " +:+ str_exn e)))
  | None => ret tt
  end.

(** *** Execution bridge *)

(** What the driver does for one statement on a cursor, through API [a]:
    [execute], then [fetchall] of every row. *)
Definition run_query (a : api) (cur : cursor) (q : sql) (ps : params) (w : W) : W * outcome rows :=
  match cursor_execute drv a cur q ps w with
  | (w1, inr _) => cursor_fetchall drv a cur w1
  | (w1, inl e) => (w1, inl e)
  end.

Definition _execute_cursor (self : DatabaseConnector) (cur : cursor) (q : sql) (ps : params) : M rows :=
  if thick_mode self then
    call (EvExecute Blocking cur q ps) (cursor_execute drv Blocking cur q ps) ;;;
    call (EvFetchall Blocking cur) (cursor_fetchall drv Blocking cur)
  else
    call (EvExecute Coroutine cur q ps) (cursor_execute drv Coroutine cur q ps) ;;;
    call (EvFetchall Coroutine cur) (cursor_fetchall drv Coroutine cur).

Definition _execute_cursor_no_fetch (self : DatabaseConnector) (cur : cursor) (q : sql) (ps : params) : M unit :=
  if thick_mode self then
    call (EvExecute Blocking cur q ps) (cursor_execute drv Blocking cur q ps)
  else
    call (EvExecute Coroutine cur q ps) (cursor_execute drv Coroutine cur q ps).

Definition _commit (self : DatabaseConnector) (conn : connection) : M unit :=
  if thick_mode self then
    call (EvCommit Blocking conn) (connection_commit drv Blocking conn)
  else
    call (EvCommit Coroutine conn) (connection_commit drv Coroutine conn).

(** [conn.cursor()] *)
Definition new_cursor (conn : connection) : M cursor :=
  call (EvCursor conn) (connection_cursor drv conn).

(** [conn.username.upper()] *)
Definition username_upper (conn : connection) : M string :=
  fun st =>
    match connection_username drv conn (world st) with
    | Some u => (st, inr (upper u))
    | None => (st, inl (AttributeError "'NoneType' object has no attribute 'upper'"))
    end.

Definition _get_effective_schema (self : DatabaseConnector) (conn : connection) : M string :=
  match target_schema self with
  | Some s => if String.eqb s "" then username_upper conn else ret (upper s)
  | None => username_upper conn
  end.

(** *** Permission fallback *)

Definition _execute_with_fallback (self : DatabaseConnector) (cur : cursor)
    (all_query user_query : sql) (ps : params) : M rows :=
  try_except (_execute_cursor self cur all_query ps)
    (fun e =>
       match e with
       | DatabaseError code _ =>
           Some (if Z.eqb code ORA_01031 then
                   print "Permission denied for ALL_* views, trying USER_* views" ;;;
                   try_except (_execute_cursor self cur user_query ps)
                     (fun e2 =>
                        match e2 with
                        | DatabaseError code2 _ =>
                            Some (if Z.eqb code2 ORA_01031 then
                                    print "No access to dictionary views" ;;;
                                    ret []
                                  else raise e2)
                        | _ => None
                        end)
                 else raise e)
       | _ => None
       end).

(** *** Exposed operations

    Every operation has the shape
    [conn = await self.get_connection(); try: ... finally: await
    self._close_connection(conn)]. *)

Definition get_effective_schema (self : DatabaseConnector) : M string :=
  conn <- get_connection self ;;
  try_finally (_get_effective_schema self conn) (_close_connection self conn).

(** [[row[0] for row in version_info[1:] if row[0]]] *)
Definition additional_info_of (rest : rows) : M (list cell) :=
  for_each rest [] (fun r acc => c <- index r 0 ;; ret (if truthy c then acc ++ [c] else acc)).

Definition get_database_info (self : DatabaseConnector) : M (gmap string pyval) :=
  conn <- get_connection self ;;
  try_finally
    (try_except
       (cur <- new_cursor conn ;;
        version_info <- _execute_cursor self cur SqlVersion [] ;;
        match version_info with
        | [] => ret ∅
        | first :: rest =>
            full_version <- index first 0 ;;
            schema <- _get_effective_schema self conn ;;
            let vendor_info : gmap string pyval :=
              <["schema" := PCell (CStr schema)]>
                (<["version" := PCell full_version]>
                   (<["vendor" := PCell (CStr "Oracle")]> ∅)) in
            additional_info <- additional_info_of rest ;;
            match additional_info with
            | [] => ret vendor_info
            | _ :: _ => ret (<["additional_info" := PCells additional_info]> vendor_info)
            end
        end)
       (fun e =>
          if is_oracledb_Error e then
            Some (print ("Error getting database info: " +:+ str_exn e) ;;;
                  ret (<["error" := PCell (CStr (str_exn e))]>
                         (<["version" := PCell (CStr "Unknown")]>
                            (<["vendor" := PCell (CStr "Oracle")]> ∅))))
          else None))
    (_close_connection self conn).

Definition get_all_table_names (self : DatabaseConnector) : M (gset cell) :=
  conn <- get_connection self ;;
  try_finally
    (print "Getting list of all tables and views..." ;;;
     cur <- new_cursor conn ;;
     schema <- _get_effective_schema self conn ;;
     objects <- _execute_with_fallback self cur SqlAllObjectNames SqlUserObjectNames
                  [("owner", bstr schema)] ;;
     (match objects with
      | [] => print "Warning: Could not retrieve any tables or views. Check permissions."
      | _ :: _ => ret tt
      end) ;;;
     names <- column 0 objects ;;
     ret (list_to_set names))
    (_close_connection self conn).

Definition load_table_details_body (self : DatabaseConnector) (conn : connection)
    (table_name : string) : M (option table_detail) :=
  cur <- new_cursor conn ;;
  schema <- _get_effective_schema self conn ;;
  object_info <- _execute_with_fallback self cur SqlObjectCheck SqlUserObjectCheck
                   [("owner", bstr schema); ("object_name", bstr (upper table_name))] ;;
  match object_info with
  | [] => ret None
  | first :: _ =>
      otype <- index first 0 ;;
      cols <- _execute_cursor self cur SqlTabColumns
                [("owner", bstr schema); ("table_name", bstr (upper table_name))] ;;
      col_infos <- for_each cols []
                     (fun r acc =>
                        let* (name, data_type, nullable) := unpack3 r in
                        ret (acc ++ [{| col_name := name; col_type := data_type;
                                        col_nullable := cell_is nullable "Y" |}])) ;;
      relationship_info <-
        (if cell_is otype "TABLE" then
           rels <- _execute_cursor self cur SqlRelationships
                     [("owner", bstr schema); ("table_name", bstr (upper table_name))] ;;
           for_each rels []
             (fun r acc =>
                let* (dir, col, ref_table, ref_column) := unpack4 r in
                ret (dict_append ref_table
                       {| local_column := col; foreign_column := ref_column; direction := dir |}
                       acc))
         else ret []) ;;
      ret (Some {| object_type := otype; columns := col_infos;
                   relationships := relationship_info |})
  end.

Definition load_table_details (self : DatabaseConnector) (table_name : string)
    : M (option table_detail) :=
  conn <- get_connection self ;;
  try_finally
    (try_except (load_table_details_body self conn table_name)
       (fun e =>
          if is_oracledb_Error e then
            Some (print ("Error loading table details for " +:+ table_name +:+ ": " +:+ str_exn e) ;;;
                  raise e)
          else None))
    (_close_connection self conn).

(** [x.strftime(...)] for a truthy cell [x] *)
Definition strftime (c : cell) : M string :=
  match c with
  | CDate rendered => ret rendered
  | _ => raise (AttributeError "object has no attribute 'strftime'")
  end.

Definition optional_strftime (c : cell) : M (option string) :=
  if truthy c then s <- strftime c ;; ret (Some s) else ret None.

(** [if name_pattern:] on an [Optional[str]] *)
Definition given (pattern : option string) : option string :=
  match pattern with
  | Some s => if String.eqb s "" then None else Some s
  | None => None
  end.

Definition get_pl_sql_objects (self : DatabaseConnector) (otype : string)
    (name_pattern : option string) : M (list plsql_object) :=
  conn <- get_connection self ;;
  try_finally
    (cur <- new_cursor conn ;;
     schema <- _get_effective_schema self conn ;;
     let where_clause := "WHERE owner = :owner AND object_type = :object_type" in
     let ps := [("owner", bstr schema); ("object_type", bstr otype)] in
     let '(where_clause, ps) :=
       match given name_pattern with
       | Some pat => (where_clause +:+ " AND object_name LIKE :name_pattern",
                      ps ++ [("name_pattern", bstr (upper pat))])
       | None => (where_clause, ps)
       end in
     objects <- _execute_cursor self cur (SqlPlsqlObjects where_clause) ps ;;
     for_each objects []
       (fun r acc =>
          let* (name, obj_type, status, created, last_modified) := unpack5 r in
          created' <- optional_strftime created ;;
          last_modified' <- optional_strftime last_modified ;;
          ret (acc ++ [{| plsql_name := name; plsql_type := obj_type; plsql_status := status;
                          plsql_owner := schema; plsql_created := created';
                          plsql_last_modified := last_modified' |}])))
    (_close_connection self conn).

Definition newline : string := String (ascii_of_nat 10) EmptyString.

(** [sep.join(items)]; an item that is not a [str] raises [TypeError]. *)
Fixpoint join (sep : string) (items : list cell) : M string :=
  match items with
  | [] => ret ""
  | [CStr s] => ret s
  | CStr s :: rest => tail <- join sep rest ;; ret (s +:+ sep +:+ tail)
  | _ :: _ => raise (TypeError "sequence item: expected str instance")
  end.

(** [await clob.read()] *)
Definition read_clob (self : DatabaseConnector) (c : cell) : M string :=
  match c with
  | CLob locator =>
      if thick_mode self then
        call (EvLobRead Blocking locator) (lob_read drv Blocking locator) ;;; await_plain "str"
      else call (EvLobRead Coroutine locator) (lob_read drv Coroutine locator)
  | _ => raise (AttributeError "object has no attribute 'read'")
  end.

Definition full_source_types : list string :=
  ["PACKAGE"; "PACKAGE BODY"; "TYPE"; "TYPE BODY"].

Definition get_object_source (self : DatabaseConnector) (otype object_name : string) : M string :=
  conn <- get_connection self ;;
  try_finally
    (try_except
       (cur <- new_cursor conn ;;
        schema <- _get_effective_schema self conn ;;
        if bool_decide (otype ∈ full_source_types) then
          source_lines <- _execute_cursor self cur SqlSource
                            [("owner", bstr schema); ("name", bstr object_name); ("type", bstr otype)] ;;
          match source_lines with
          | [] => ret ""
          | _ :: _ => texts <- column 0 source_lines ;; join newline texts
          end
        else
          result <- _execute_cursor self cur SqlGetDdl
                      [("object_type", bstr otype); ("object_name", bstr object_name);
                       ("owner", bstr schema)] ;;
          match result with
          | [] => ret ""
          | [] :: _ => ret ""
          | (clob :: _) :: _ => read_clob self clob
          end)
       (fun e =>
          if is_oracledb_Error e then
            Some (print ("Error getting object source: " +:+ str_exn e) ;;;
                  ret ("Error retrieving source: " +:+ str_exn e))
          else None))
    (_close_connection self conn).

(** [type_map.get(constraint_type, constraint_type)] *)
Definition type_map_get (constraint_type : cell) : cell :=
  if cell_is constraint_type "P" then CStr "PRIMARY KEY"
  else if cell_is constraint_type "R" then CStr "FOREIGN KEY"
  else if cell_is constraint_type "U" then CStr "UNIQUE"
  else if cell_is constraint_type "C" then CStr "CHECK"
  else constraint_type.

Definition get_table_constraints (self : DatabaseConnector) (table_name : string)
    : M (list constraint_info) :=
  conn <- get_connection self ;;
  try_finally
    (cur <- new_cursor conn ;;
     schema <- _get_effective_schema self conn ;;
     constraints <- _execute_cursor self cur SqlConstraints
                      [("owner", bstr schema); ("table_name", bstr (upper table_name))] ;;
     for_each constraints []
       (fun r result =>
          let* (constraint_name, constraint_type, condition) := unpack3 r in
          cols <- _execute_cursor self cur SqlConsColumns
                    [("owner", bstr schema); ("constraint_name", BCell constraint_name)] ;;
          col_names <- column 0 cols ;;
          references <-
            (if cell_is constraint_type "R" then
               ref_info <- _execute_cursor self cur SqlRefInfo
                             [("owner", bstr schema); ("constraint_name", BCell constraint_name)] ;;
               match ref_info with
               | [] => ret None
               | first :: _ =>
                   table <- index first 0 ;;
                   ref_cols <- column 1 ref_info ;;
                   ret (Some (table, ref_cols))
               end
             else ret None) ;;
          ret (result ++ [{| cons_name := constraint_name;
                             cons_type := type_map_get constraint_type;
                             cons_columns := col_names;
                             cons_references := references;
                             cons_condition :=
                               if cell_is constraint_type "C" && truthy condition
                               then Some condition else None |}])))
    (_close_connection self conn).

Definition get_table_indexes (self : DatabaseConnector) (table_name : string)
    : M (list index_info) :=
  conn <- get_connection self ;;
  try_finally
    (cur <- new_cursor conn ;;
     schema <- _get_effective_schema self conn ;;
     indexes <- _execute_cursor self cur SqlIndexes
                  [("owner", bstr schema); ("table_name", bstr (upper table_name))] ;;
     for_each indexes []
       (fun r result =>
          let* (index_name, uniqueness, tablespace, status) := unpack4 r in
          cols <- _execute_cursor self cur SqlIndColumns
                    [("owner", bstr schema); ("index_name", BCell index_name)] ;;
          col_names <- column 0 cols ;;
          ret (result ++ [{| idx_name := index_name;
                             idx_unique := cell_is uniqueness "UNIQUE";
                             idx_tablespace := if truthy tablespace then Some tablespace else None;
                             idx_status := if truthy status then Some status else None;
                             idx_columns := col_names |}])))
    (_close_connection self conn).

Definition get_dependent_objects (self : DatabaseConnector) (object_name : string)
    : M (list dependent_object) :=
  conn <- get_connection self ;;
  try_finally
    (try_except
       (cur <- new_cursor conn ;;
        schema <- _get_effective_schema self conn ;;
        dependencies <- _execute_cursor self cur SqlDependencies
                          [("object_name", bstr object_name); ("owner", bstr schema)] ;;
        for_each dependencies []
          (fun r result =>
             let* (name, obj_type, owner) := unpack3 r in
             ret (result ++ [{| dep_name := name; dep_type := obj_type; dep_owner := owner |}])))
       (fun e =>
          if is_oracledb_Error e then
            Some (print ("Error getting dependent objects: " +:+ str_exn e) ;;; raise e)
          else None))
    (_close_connection self conn).

(** [[{"name": attr[0], "type": attr[1]} for attr in attrs]] *)
Definition attributes_of (attrs : rows) : M (list (cell * cell)) :=
  for_each attrs []
    (fun r acc => n <- index r 0 ;; t <- index r 1 ;; ret (acc ++ [(n, t)])).

Definition get_user_defined_types (self : DatabaseConnector) (type_pattern : option string)
    : M (list type_info) :=
  conn <- get_connection self ;;
  try_finally
    (cur <- new_cursor conn ;;
     schema <- _get_effective_schema self conn ;;
     let where_clause := "WHERE owner = :owner" in
     let ps := [("owner", bstr schema)] in
     let '(where_clause, ps) :=
       match given type_pattern with
       | Some pat => (where_clause +:+ " AND type_name LIKE :type_pattern",
                      ps ++ [("type_pattern", bstr (upper pat))])
       | None => (where_clause, ps)
       end in
     types <- _execute_cursor self cur (SqlTypes where_clause) ps ;;
     for_each types []
       (fun r result =>
          let* (name, typecode) := unpack2 r in
          attributes <-
            (if cell_is typecode "OBJECT" then
               attrs <- _execute_cursor self cur SqlTypeAttrs
                          [("owner", bstr schema); ("type_name", BCell name)] ;;
               match attrs with
               | [] => ret None
               | _ :: _ => l <- attributes_of attrs ;; ret (Some l)
               end
             else ret None) ;;
          ret (result ++ [{| type_name := name; type_category := typecode;
                             type_owner := schema; type_attributes := attributes |}])))
    (_close_connection self conn).

Definition get_related_tables (self : DatabaseConnector) (table_name : string)
    : M related_tables :=
  conn <- get_connection self ;;
  try_finally
    (cur <- new_cursor conn ;;
     schema <- _get_effective_schema self conn ;;
     referenced_tables_result <-
       _execute_cursor self cur SqlReferencedTables
         [("table_name", bstr (upper table_name)); ("owner", bstr schema)] ;;
     referenced <- column 0 referenced_tables_result ;;
     referencing_tables_result <-
       _execute_cursor self cur SqlReferencingTables
         [("table_name", bstr (upper table_name)); ("owner", bstr schema)] ;;
     referencing <- column 0 referencing_tables_result ;;
     ret {| referenced_tables := referenced; referencing_tables := referencing |})
    (_close_connection self conn).

(** The names handed to [_filter_by_similarity] must be [str]:
    [item.upper()] fails on anything else. *)
Fixpoint as_names (cells : list cell) : M (list string) :=
  match cells with
  | [] => ret []
  | CStr s :: cells' => names <- as_names cells' ;; ret (s :: names)
  | _ :: _ => raise (AttributeError "object has no attribute 'upper'")
  end.

Definition search_in_database (self : DatabaseConnector) (search_term : string) (limit : Z)
    : M (list string) :=
  conn <- get_connection self ;;
  try_finally
    (cur <- new_cursor conn ;;
     schema <- _get_effective_schema self conn ;;
     all_objects <- _execute_with_fallback self cur SqlSearchAllObjects SqlSearchUserObjects
                      [("owner", bstr schema)] ;;
     object_names <- column 0 all_objects ;;
     names <- as_names object_names ;;
     let matched_objects := _filter_by_similarity names search_term default_threshold in
     ret (slice_to limit (map fst matched_objects)))
    (_close_connection self conn).

Definition search_columns_in_database (self : DatabaseConnector) (table_names : list string)
    (search_term : string) : M (list (cell * list column_info)) :=
  conn <- get_connection self ;;
  try_finally
    (cur <- new_cursor conn ;;
     schema <- _get_effective_schema self conn ;;
     found <- _execute_cursor self cur SqlSearchColumns
                [("owner", bstr schema); ("table_names", BList table_names);
                 ("search_term", bstr (upper search_term))] ;;
     for_each found []
       (fun r result =>
          let* (table, name, data_type, nullable) := unpack4 r in
          ret (dict_append table
                 {| col_name := name; col_type := data_type;
                    col_nullable := cell_is nullable "Y" |}
                 result)))
    (_close_connection self conn).

Definition explain_query_plan (self : DatabaseConnector) (query : string) : M query_plan :=
  conn <- get_connection self ;;
  try_finally
    (try_except
       (cur <- new_cursor conn ;;
        (* await cursor.execute(plan_statement), whatever the mode *)
        (if thick_mode self then
           call (EvExecute Blocking cur (SqlExplainPlan query) [])
             (cursor_execute drv Blocking cur (SqlExplainPlan query) []) ;;;
           await_plain "NoneType"
         else
           call (EvExecute Coroutine cur (SqlExplainPlan query) [])
             (cursor_execute drv Coroutine cur (SqlExplainPlan query) [])) ;;;
        plan_rows <- _execute_cursor self cur SqlPlanRows [] ;;
        _execute_cursor_no_fetch self cur SqlDeletePlan [] ;;;
        _commit self conn ;;;
        let basic_analysis := _analyze_query_for_optimization query in
        steps <- column 0 plan_rows ;;
        ret {| execution_plan := steps; optimization_suggestions := basic_analysis;
               plan_error := None |})
       (fun e =>
          if is_oracledb_Error e then
            Some (print ("Error explaining query: " +:+ str_exn e) ;;;
                  ret {| execution_plan := [];
                         optimization_suggestions :=
                           ["Unable to generate execution plan due to error."];
                         plan_error := Some (str_exn e) |})
          else None))
    (_close_connection self conn).

End Connector.

(** ** Concurrent callers of [get_connection]

    The connector's coroutines run as tasks of one event loop.  A task
    gives up control only where it awaits, so [get_connection] is cut at
    its awaits: the call of [initialize_pool], the [async with] on the
    lock, and the acquisition.  The block under the lock has no await and
    runs in one step.  The scheduler may run any task at any cut, which is
    at least what the event loop allows. *)
Module Tasks.

Inductive pc :=
| AtCheck                       (* get_connection, before [if self._pool is None] *)
| AtLock                        (* initialize_pool, at [async with self._pool_lock] *)
| InLock                        (* the lock is held; the re-check comes next *)
| AtAcquire                     (* get_connection, before [self._pool.acquire()] *)
| Finished (r : outcome connection).

Record machine (W : Type) := {
  shared : state W;
  locked : bool;
  tasks : list pc
}.

Arguments shared {W}.
Arguments locked {W}.
Arguments tasks {W}.

Section Machine.

Context {W : Type} (drv : Oracledb W) (self : DatabaseConnector).

(** One move of task [t]; a task that waits for the lock, has finished or
    does not exist leaves the machine as it is. *)
Definition step (t : nat) (m : machine W) : machine W :=
  match tasks m !! t with
  | Some AtCheck =>
      {| shared := shared m; locked := locked m;
         tasks := <[t := match _pool (shared m) with None => AtLock | Some _ => AtAcquire end]> (tasks m) |}
  | Some AtLock =>
      if locked m then m
      else {| shared := shared m; locked := true; tasks := <[t := InLock]> (tasks m) |}
  | Some InLock =>
      let (st', r) := initialize_pool drv self (shared m) in
      {| shared := st'; locked := false;
         tasks := <[t := match r with inr _ => AtAcquire | inl e => Finished (inl e) end]> (tasks m) |}
  | Some AtAcquire =>
      let (st', r) := acquire_or_report drv self (shared m) in
      {| shared := st'; locked := locked m; tasks := <[t := Finished r]> (tasks m) |}
  | Some (Finished _) => m
  | None => m
  end.

Definition run (schedule : list nat) (m : machine W) : machine W :=
  fold_left (fun m t => step t m) schedule m.

(** [n] callers, none started, of a connector fresh from [__init__]. *)
Definition init (w : W) (n : nat) : machine W :=
  {| shared := {| world := w; _pool := None; trace := [] |};
     locked := false;
     tasks := replicate n AtCheck |}.

End Machine.

(** A pool construction that succeeded leaves this line on [stderr]. *)
Definition constructed (tr : list event) : nat :=
  length (List.filter
            (fun ev => bool_decide (ev = EvPrint "Database connection pool initialized")) tr).

Definition is_create (ev : event) : bool :=
  match ev with EvCreatePool _ _ _ _ _ _ => true | _ => false end.

(** Calls of [create_pool] / [create_pool_async], failed ones included. *)
Definition attempts (tr : list event) : nat :=
  length (List.filter is_create tr).

(** A pool construction that failed leaves a line with this prefix. *)
Definition is_failure (ev : event) : bool :=
  match ev with
  | EvPrint line => String.prefix "Error creating connection pool: " line
  | _ => false
  end.

Definition failures (tr : list event) : nat :=
  length (List.filter is_failure tr).

Definition passed_init (p : pc) : bool :=
  match p with
  | AtAcquire | Finished (inr _) => true
  | _ => false
  end.

End Tasks.

(** ** A scripted driver

    A fake of the driver contract, as a unit test would use: the replies to
    the statements to come are scripted, [fetchall] hands out the rows of
    the last statement, and both APIs behave alike. *)
Module Fake.

Record db := {
  script : list (outcome rows);
  fetched : rows;
  pool_reply : outcome pool;
  acquire_reply : outcome connection;
  close_reply : outcome unit;
  username : option string
}.

Definition with_script (w : db) (s : list (outcome rows)) (f : rows) : db :=
  {| script := s; fetched := f; pool_reply := pool_reply w;
     acquire_reply := acquire_reply w; close_reply := close_reply w;
     username := username w |}.

Definition execute (w : db) : db * outcome unit :=
  match script w with
  | [] => (with_script w [] [], inr tt)
  | inr rs :: s => (with_script w s rs, inr tt)
  | inl e :: s => (with_script w s [], inl e)
  end.

Definition driver : Oracledb db := {|
  create_pool := fun _ _ _ _ _ _ w => (w, pool_reply w);
  pool_acquire := fun _ _ w => (w, acquire_reply w);
  pool_close := fun _ _ w => (w, inr tt);
  connection_close := fun _ _ w => (w, close_reply w);
  connection_commit := fun _ _ w => (w, inr tt);
  connection_cursor := fun c w => (w, inr c);
  connection_username := fun _ w => username w;
  cursor_execute := fun _ _ _ _ w => execute w;
  cursor_fetchall := fun _ _ w => (w, inr (fetched w));
  lob_read := fun _ _ w => (w, inr "")
|}.

(** A healthy database whose next statements get the replies [s]. *)
Definition scripted (s : list (outcome rows)) : db :=
  {| script := s; fetched := []; pool_reply := inr 1%nat;
     acquire_reply := inr 7%nat; close_reply := inr tt;
     username := Some "scott" |}.

Definition fresh (w : db) : state db :=
  {| world := w; _pool := None; trace := [] |}.

(** ORA-12541: the database cannot be reached, no pool can be built. *)
Definition ORA_12541 : exn := DatabaseError 12541 "ORA-12541: TNS:no listener".

Definition no_listener : db :=
  {| script := []; fetched := []; pool_reply := inl ORA_12541;
     acquire_reply := inr 7%nat; close_reply := inr tt;
     username := Some "scott" |}.

Definition thin : DatabaseConnector :=
  {| connection_string := "scott/tiger@db"; target_schema := None; thick_mode := false |}.

Definition thick : DatabaseConnector :=
  {| connection_string := "scott/tiger@db"; target_schema := None; thick_mode := true |}.

End Fake.

(** ** The data dictionary

    The part of the Oracle catalog the relationship and dependency
    statements read, and what those statements select from it.  Rows come
    out in the order of a nested-loop join over the views as listed. *)
Module Oracle.

Record object_row := {
  o_owner : string;
  o_name : string;
  o_type : string
}.

Record tab_column_row := {
  tc_owner : string;
  tc_table : string;
  tc_column : string;
  tc_data_type : string;
  tc_nullable : string;
  tc_column_id : Z
}.

(** [r_owner] and [r_constraint_name] are NULL unless the constraint is a
    foreign key. *)
Record constraint_row := {
  k_owner : string;
  k_name : string;
  k_type : string;
  k_table : string;
  k_r_owner : option string;
  k_r_name : option string
}.

Record cons_column_row := {
  cc_owner : string;
  cc_constraint : string;
  cc_table : string;
  cc_column : string
}.

Record dependency_row := {
  d_owner : string;
  d_name : string;
  d_type : string;
  d_referenced_owner : string;
  d_referenced_name : string
}.

Record catalog := {
  session_user : string;
  all_objects : list object_row;
  all_tab_columns : list tab_column_row;
  all_constraints : list constraint_row;
  all_cons_columns : list cons_column_row;
  all_dependencies : list dependency_row
}.

(** The value bound to [:name], when it is a string. *)
Fixpoint bound (ps : params) (name : string) : option string :=
  match ps with
  | [] => None
  | (n, v) :: ps' =>
      if String.eqb n name
      then match v with BCell (CStr s) => Some s | _ => None end
      else bound ps' name
  end.

(** [column = :bind] and [column = column], false on NULL. *)
Definition eq_bind (column : string) (b : option string) : bool :=
  match b with Some s => String.eqb column s | None => false end.

Definition eq_null (x : option string) (column : string) : bool :=
  match x with Some s => String.eqb s column | None => false end.

Definition is_table_or_view (t : string) : bool :=
  String.eqb t "TABLE" || String.eqb t "VIEW".

(** [object_check_query] *)
Definition object_check (c : catalog) (ps : params) : rows :=
  map (fun o => [CStr (o_type o)])
    (filter (fun o => eq_bind (o_owner o) (bound ps "owner")
                      && eq_bind (o_name o) (bound ps "object_name")
                      && is_table_or_view (o_type o) = true)
       (all_objects c)).

Fixpoint insert_by_id (x : tab_column_row) (l : list tab_column_row) : list tab_column_row :=
  match l with
  | [] => [x]
  | y :: l' => if Z.leb (tc_column_id x) (tc_column_id y) then x :: l else y :: insert_by_id x l'
  end.

(** The columns statement, [ORDER BY column_id]. *)
Definition tab_columns (c : catalog) (ps : params) : rows :=
  map (fun t => [CStr (tc_column t); CStr (tc_data_type t); CStr (tc_nullable t)])
    (fold_right insert_by_id []
       (filter (fun t => eq_bind (tc_owner t) (bound ps "owner")
                         && eq_bind (tc_table t) (bound ps "table_name") = true)
          (all_tab_columns c))).

(** [all_constraints ac JOIN all_cons_columns acc ON acc.constraint_name =
    ac.constraint_name AND acc.owner = ac.owner JOIN all_cons_columns rcc ON
    rcc.constraint_name = ac.r_constraint_name AND rcc.owner = ac.r_owner],
    restricted to the foreign keys [keep] accepts. *)
Definition fk_join (c : catalog) (keep : constraint_row -> bool)
    : list (constraint_row * cons_column_row * cons_column_row) :=
  ac ← filter (fun ac => String.eqb (k_type ac) "R" && keep ac = true) (all_constraints c);
  acc ← filter (fun acc => String.eqb (cc_constraint acc) (k_name ac)
                           && String.eqb (cc_owner acc) (k_owner ac) = true)
          (all_cons_columns c);
  rcc ← filter (fun rcc => eq_null (k_r_name ac) (cc_constraint rcc)
                           && eq_null (k_r_owner ac) (cc_owner rcc) = true)
          (all_cons_columns c);
  [(ac, acc, rcc)].

(** The primary and unique constraints of [:table_name] in [:owner]. *)
Definition key_constraints (c : catalog) (ps : params) : list string :=
  map k_name
    (filter (fun k => eq_bind (k_owner k) (bound ps "owner")
                      && eq_bind (k_table k) (bound ps "table_name")
                      && (String.eqb (k_type k) "P" || String.eqb (k_type k) "U") = true)
       (all_constraints c)).

(** The relationship statement of [load_table_details]: the OUTGOING
    select, [UNION ALL], the INCOMING select. *)
Definition relationship_rows (c : catalog) (ps : params) : rows :=
  map (fun '(ac, acc, rcc) =>
         [CStr "OUTGOING"; CStr (cc_column acc); CStr (cc_table rcc); CStr (cc_column rcc)])
    (fk_join c (fun ac => eq_bind (k_owner ac) (bound ps "owner")
                          && eq_bind (k_table ac) (bound ps "table_name")))
  ++
  map (fun '(ac, acc, rcc) =>
         [CStr "INCOMING"; CStr (cc_column rcc); CStr (k_table ac); CStr (cc_column acc)])
    (fk_join c (fun ac => match k_r_owner ac, k_r_name ac with
                          | Some ro, Some rn =>
                              eq_bind ro (bound ps "owner")
                              && bool_decide (rn ∈ key_constraints c ps)
                          | _, _ => false
                          end)).

(** [SELECT DISTINCT] *)
Fixpoint distinct (l : list string) : list string :=
  match l with
  | [] => []
  | x :: l' => x :: filter (fun y => y ≠ x) (distinct l')
  end.

(** The first statement of [get_related_tables]: [all_constraints ac JOIN
    all_cons_columns acc ON acc.constraint_name = ac.r_constraint_name AND
    acc.owner = ac.owner]. *)
Definition referenced_rows (c : catalog) (ps : params) : rows :=
  map (fun t => [CStr t])
    (distinct
       (ac ← filter (fun ac => String.eqb (k_type ac) "R"
                               && eq_bind (k_table ac) (bound ps "table_name")
                               && eq_bind (k_owner ac) (bound ps "owner") = true)
               (all_constraints c);
        acc ← filter (fun acc => eq_null (k_r_name ac) (cc_constraint acc)
                                 && String.eqb (cc_owner acc) (k_owner ac) = true)
                (all_cons_columns c);
        [cc_table acc])).

(** The second statement of [get_related_tables] selects from
    [pk_constraints JOIN pk_constraints pk] and names columns of [ac],
    which no table of its FROM clause is called: the database rejects the
    statement when it parses it. *)
Definition ORA_00904 : exn := DatabaseError 904 "ORA-00904: invalid identifier".

(** The dependency statement of [get_dependent_objects]. *)
Definition dependency_rows (c : catalog) (ps : params) : rows :=
  d ← filter (fun d => eq_bind (d_referenced_name d) (bound ps "object_name")
                       && eq_bind (d_referenced_owner d) (bound ps "owner") = true)
        (all_dependencies c);
  ao ← filter (fun ao => String.eqb (d_name d) (o_name ao)
                         && String.eqb (d_type d) (o_type ao)
                         && String.eqb (d_owner d) (o_owner ao) = true)
         (all_objects c);
  [[CStr (o_name ao); CStr (o_type ao); CStr (o_owner ao)]].

(** A session on the catalog: the catalog, the statements outside the part
    modelled here, and the rows the cursor holds. *)
Record db := {
  cat : catalog;
  other : sql -> params -> outcome rows;
  held : rows
}.

Definition answer (w : db) (q : sql) (ps : params) : outcome rows :=
  if String.eqb q SqlObjectCheck then inr (object_check (cat w) ps)
  else if String.eqb q SqlTabColumns then inr (tab_columns (cat w) ps)
  else if String.eqb q SqlRelationships then inr (relationship_rows (cat w) ps)
  else if String.eqb q SqlReferencedTables then inr (referenced_rows (cat w) ps)
  else if String.eqb q SqlReferencingTables then inl ORA_00904
  else if String.eqb q SqlDependencies then inr (dependency_rows (cat w) ps)
  else other w q ps.

Definition execute (q : sql) (ps : params) (w : db) : db * outcome unit :=
  match answer w q ps with
  | inr rs => ({| cat := cat w; other := other w; held := rs |}, inr tt)
  | inl e => ({| cat := cat w; other := other w; held := [] |}, inl e)
  end.

Definition driver : Oracledb db := {|
  create_pool := fun _ _ _ _ _ _ w => (w, inr 1%nat);
  pool_acquire := fun _ _ w => (w, inr 1%nat);
  pool_close := fun _ _ w => (w, inr tt);
  connection_close := fun _ _ w => (w, inr tt);
  connection_commit := fun _ _ w => (w, inr tt);
  connection_cursor := fun c w => (w, inr c);
  connection_username := fun _ w => Some (session_user (cat w));
  cursor_execute := fun _ _ q ps w => execute q ps w;
  cursor_fetchall := fun _ _ w => (w, inr (held w));
  lob_read := fun _ _ w => (w, inr "")
|}.

Definition session (c : catalog) : state db :=
  {| world := {| cat := c; other := fun _ _ => inr []; held := [] |};
     _pool := None; trace := [] |}.

(** ORDERS.CUSTOMER_ID references CUSTOMERS.ID; V_ORDERS is a view over
    ORDERS and carries a view constraint on CUSTOMERS as well. *)
Definition shop : catalog := {|
  session_user := "shop";
  all_objects :=
    [ {| o_owner := "SHOP"; o_name := "CUSTOMERS"; o_type := "TABLE" |};
      {| o_owner := "SHOP"; o_name := "ORDERS"; o_type := "TABLE" |};
      {| o_owner := "SHOP"; o_name := "V_ORDERS"; o_type := "VIEW" |} ];
  all_tab_columns :=
    [ {| tc_owner := "SHOP"; tc_table := "CUSTOMERS"; tc_column := "ID";
         tc_data_type := "NUMBER"; tc_nullable := "N"; tc_column_id := 1 |};
      {| tc_owner := "SHOP"; tc_table := "ORDERS"; tc_column := "CUSTOMER_ID";
         tc_data_type := "NUMBER"; tc_nullable := "Y"; tc_column_id := 2 |};
      {| tc_owner := "SHOP"; tc_table := "ORDERS"; tc_column := "ID";
         tc_data_type := "NUMBER"; tc_nullable := "N"; tc_column_id := 1 |};
      {| tc_owner := "SHOP"; tc_table := "V_ORDERS"; tc_column := "CUSTOMER_ID";
         tc_data_type := "NUMBER"; tc_nullable := "Y"; tc_column_id := 1 |} ];
  all_constraints :=
    [ {| k_owner := "SHOP"; k_name := "CUSTOMERS_PK"; k_type := "P"; k_table := "CUSTOMERS";
         k_r_owner := None; k_r_name := None |};
      {| k_owner := "SHOP"; k_name := "ORDERS_CUSTOMER_FK"; k_type := "R"; k_table := "ORDERS";
         k_r_owner := Some "SHOP"; k_r_name := Some "CUSTOMERS_PK" |};
      {| k_owner := "SHOP"; k_name := "V_ORDERS_CUSTOMER_FK"; k_type := "R"; k_table := "V_ORDERS";
         k_r_owner := Some "SHOP"; k_r_name := Some "CUSTOMERS_PK" |} ];
  all_cons_columns :=
    [ {| cc_owner := "SHOP"; cc_constraint := "CUSTOMERS_PK"; cc_table := "CUSTOMERS";
         cc_column := "ID" |};
      {| cc_owner := "SHOP"; cc_constraint := "ORDERS_CUSTOMER_FK"; cc_table := "ORDERS";
         cc_column := "CUSTOMER_ID" |};
      {| cc_owner := "SHOP"; cc_constraint := "V_ORDERS_CUSTOMER_FK"; cc_table := "V_ORDERS";
         cc_column := "CUSTOMER_ID" |} ];
  all_dependencies :=
    [ {| d_owner := "SHOP"; d_name := "V_ORDERS"; d_type := "VIEW";
         d_referenced_owner := "SHOP"; d_referenced_name := "ORDERS" |} ]
|}.

Definition connector : DatabaseConnector :=
  {| connection_string := "shop/secret@db"; target_schema := None; thick_mode := false |}.

End Oracle.

(** ** Observations *)

(** What a run from [st] to [st'] added to the trace. *)
Definition new_events {W} (st st' : state W) : list event :=
  drop (length (trace st)) (trace st').

Definition is_close (ev : event) : bool :=
  match ev with EvClose _ _ => true | _ => false end.

Definition is_execute (ev : event) : bool :=
  match ev with EvExecute _ _ _ _ => true | _ => false end.

(** [cursor.execute] of statement [q], whatever the cursor and the binds. *)
Definition executes (q : sql) (ev : event) : bool :=
  match ev with
  | EvExecute _ _ q' _ => bool_decide (q' = q)
  | _ => false
  end.

(** From [st] to [st'] the trace grew, by events that satisfy [P]; the
    world and the pool may have changed. *)
Definition grows {W} (P : event -> Prop) (st st' : state W) : Prop :=
  exists evs, trace st' = trace st ++ evs /\ Forall P evs.

(** Every run of [m] adds only events that satisfy [P]. *)
Definition emits {W A} (P : event -> Prop) (m : M W A) : Prop :=
  forall st st' r, m st = (st', r) -> grows P st st'.

(** The same for the [except] clauses of a [try]. *)
Definition handler_emits {W A} (P : event -> Prop) (handler : exn -> option (M W A)) : Prop :=
  forall e, match handler e with Some h => emits P h | None => True end.

Definition not_close (ev : event) : Prop := is_close ev = false.

(** The driver calls [_execute_cursor] makes in world [w]: [fetchall]
    follows [execute] unless [execute] raised. *)
Definition query_events {W} (drv : Oracledb W) (a : api) (cur : cursor) (q : sql)
    (ps : params) (w : W) : list event :=
  match cursor_execute drv a cur q ps w with
  | (_, inr _) => [EvExecute a cur q ps; EvFetchall a cur]
  | (_, inl _) => [EvExecute a cur q ps]
  end.

(** The [conn.close()] calls a run from [st] to [st'] made. *)
Definition closes {W} (st st' : state W) : list event :=
  List.filter is_close (new_events st st').

(** [ev] is not the relationship statement of [load_table_details]. *)
Definition not_relationship_query (ev : event) : Prop :=
  executes SqlRelationships ev = false.

(** A block inside [a[alo:e]]. *)
Definition within (alo e : Z) (x : Difflib.block) : Prop :=
  (alo <= x.1.1 /\ x.1.1 + x.2 <= e /\ 0 <= x.2)%Z.

(** Lengths of matches that end before row [i]. *)
Definition lengths_below (alo i : Z) (j2len : gmap Z Z) : Prop :=
  forall j v, j2len !! j = Some v -> (1 <= v <= i - alo)%Z.

(** What a queue of windows can still cost. *)
Definition window_cost (e : Z * Z * Z * Z) : nat :=
  let '(alo, ahi, _, _) := e in 2 * Z.to_nat (ahi - alo) + 1.

Definition queue_cost (queue : list (Z * Z * Z * Z)) : nat :=
  fold_right (fun e acc => (window_cost e + acc)%nat) 0%nat queue.

Definition well_formed (e : Z * Z * Z * Z) : Prop :=
  let '(alo, ahi, _, _) := e in (alo <= ahi)%Z.

(** The same on the side of [b]: a block inside [b[blo:e]]. *)
Definition within_b (blo e : Z) (x : Difflib.block) : Prop :=
  (blo <= x.1.2 /\ x.1.2 + x.2 <= e)%Z.

(** Matches that end at column [j] of the window start at [blo] or later. *)
Definition ends_within (blo bhi : Z) (j2len : gmap Z Z) : Prop :=
  forall j v, j2len !! j = Some v -> (blo <= j < bhi /\ v <= j - blo + 1)%Z.

Definition well_formed_b (e : Z * Z * Z * Z) : Prop :=
  let '(_, _, blo, bhi) := e in (blo <= bhi)%Z.

(** The characters of [a], and of [b], that the windows of a queue cover. *)
Definition span_a (queue : list (Z * Z * Z * Z)) : Z :=
  fold_right (fun e acc => let '(alo, ahi, _, _) := e in (ahi - alo) + acc)%Z 0%Z queue.

Definition span_b (queue : list (Z * Z * Z * Z)) : Z :=
  fold_right (fun e acc => let '(_, _, blo, bhi) := e in (bhi - blo) + acc)%Z 0%Z queue.

(** Descending by score, the order [_filter_by_similarity] returns. *)
Definition descending (x y : string * Q) : Prop := (snd y <= snd x)%Q.

(** The entries whose score equals [q], in the order of the list. *)
Definition with_score (q : Q) (l : list (string * Q)) : list (string * Q) :=
  List.filter (fun x => Qeq_bool (snd x) q) l.

(** The similarity ratio of [item] and [term], as [SequenceMatcher] sees
    them. *)
Definition sequence_ratio (item term : string) : option Q :=
  Difflib.ratio (chars (upper item)) (chars (upper term)).

(** Modelled from the spec: the similarity ratio, "a normalized [0,1] score
    measuring string likeness based on shared ordered character runs", a
    "longest-matching-block-based ratio".  The runs shared are the longest
    block the two strings have in common and, on either side of it, the
    runs the rests share.  [Difflib] above is the code; this is what it is
    compared with. *)
Section Gestalt.

Variables a b : list string.

(** The characters at [i] in [a] and at [j] in [b] are the same one. *)
Definition same_char (i j : Z) : Prop :=
  (0 <= i /\ 0 <= j)%Z
  /\ exists x, a !! Z.to_nat i = Some x /\ b !! Z.to_nat j = Some x.

(** [a[i:i+k] == b[j:j+k]] *)
Definition common_block (i j k : Z) : Prop :=
  forall d, (0 <= d < k)%Z -> same_char (i + d) (j + d).

(** The block lies in the window [a[alo:ahi]], [b[blo:bhi]]. *)
Definition in_window (w : Z * Z * Z * Z) (i j k : Z) : Prop :=
  let '(alo, ahi, blo, bhi) := w in
  (alo <= i /\ i + k <= ahi /\ blo <= j /\ j + k <= bhi)%Z.

(** The longest block the two windows have in common; of the longest, the
    one that starts earliest in [a], and of those, earliest in [b]. *)
Definition longest_block (w : Z * Z * Z * Z) (i j k : Z) : Prop :=
  (0 < k)%Z /\ common_block i j k /\ in_window w i j k
  /\ forall i' j' k', (0 < k')%Z -> common_block i' j' k' -> in_window w i' j' k' ->
       (k' <= k)%Z /\ (k' = k -> (i < i' \/ (i = i' /\ j <= j'))%Z).

(** The characters matched: those of the longest common block, and those
    matched in the same way to its left and to its right. *)
Inductive gestalt : Z * Z * Z * Z -> Z -> Prop :=
| gestalt_nothing w :
    (forall i j, in_window w i j 1%Z -> ~ same_char i j) -> gestalt w 0%Z
| gestalt_block alo ahi blo bhi i j k ml mr :
    longest_block (alo, ahi, blo, bhi) i j k ->
    gestalt (alo, i, blo, j) ml ->
    gestalt (i + k, ahi, j + k, bhi)%Z mr ->
    gestalt (alo, ahi, blo, bhi) (k + ml + mr)%Z.

(** Twice the characters matched over the characters there are. *)
Definition matched_ratio (score : Q) : Prop :=
  let la := Z.of_nat (length a) in
  let lb := Z.of_nat (length b) in
  exists m, gestalt (0, la, 0, lb)%Z m
            /\ score = if Z.eqb (la + lb) 0 then 1%Q else Qmake (2 * m) (Z.to_pos (la + lb)).

(** What the scan of [find_longest_match] has at hand, in the window
    [a[alo:]], [b[blo:bhi]]: [k] is the length of the longest common_block run
    that ends at [i] and [j]. *)
Variables alo blo bhi : Z.

Definition run_ending (i j k : Z) : Prop :=
  (1 <= k /\ alo <= i - k + 1 /\ blo <= j - k + 1)%Z
  /\ common_block (i - k + 1) (j - k + 1) k
  /\ ((i - k < alo)%Z \/ (j - k < blo)%Z \/ ~ same_char (i - k) (j - k)).

Definition prev_row (i : Z) (j2len : gmap Z Z) : Prop :=
  forall j, (j < bhi)%Z ->
    match j2len !! j with
    | Some k => run_ending (i - 1) j k
    | None => (i - 1 < alo)%Z \/ (j < blo)%Z \/ ~ same_char (i - 1) j
    end.

(** In row [i], the columns below [jcur] are done. *)
Definition row_done (i jcur : Z) (newj2len : gmap Z Z) : Prop :=
  forall j,
    match newj2len !! j with
    | Some k => (j < jcur)%Z /\ run_ending i j k
    | None => (j < jcur)%Z -> (j < blo)%Z \/ ~ same_char i j
    end.

(** The end [(i', j')] of a run comes before [(i, j)] in the scan. *)
Definition scanned (i j i' j' : Z) : Prop :=
  (alo <= i' /\ blo <= j' < bhi /\ (i' < i \/ (i' = i /\ j' < j)))%Z.

Definition best_so_far (i j : Z) (best : Difflib.block) : Prop :=
  let '(bi, bj, bk) := best in
  (0 <= bk)%Z
  /\ (bk = 0%Z -> bi = alo /\ bj = blo)
  /\ ((0 < bk)%Z -> scanned i j (bi + bk - 1) (bj + bk - 1)
                    /\ run_ending (bi + bk - 1) (bj + bk - 1) bk)
  /\ forall i' j' k', scanned i j i' j' -> run_ending i' j' k' ->
       (k' <= bk)%Z
       /\ (k' = bk -> (bi + bk - 1 < i' \/ (bi + bk - 1 = i' /\ bj + bk - 1 <= j'))%Z).

(** The positions of [x] in [rest], counted from [i0]. *)
Fixpoint occurrences (x : string) (i0 : Z) (rest : list string) : list Z :=
  match rest with
  | [] => []
  | y :: rest' =>
      (if decide (y = x) then [i0] else []) ++ occurrences x (i0 + 1)%Z rest'
  end.

End Gestalt.

(** A window of the queue of [get_matching_blocks]. *)
Definition proper_window (w : Z * Z * Z * Z) : Prop :=
  let '(alo, ahi, blo, bhi) := w in (0 <= alo <= ahi /\ 0 <= blo <= bhi)%Z.

(** Modelled from the spec: the ratio of a candidate against the search
    term, both in uppercase. *)
Definition similarity_ratio (item term : string) (score : Q) : Prop :=
  matched_ratio (chars (upper item)) (chars (upper term)) score.

(** The callers that are through with [initialize_pool], or never went
    in. *)
Definition past_lock (p : Tasks.pc) : bool :=
  match p with
  | Tasks.AtAcquire | Tasks.Finished _ => true
  | _ => false
  end.

Definition in_lock (p : Tasks.pc) : bool :=
  match p with Tasks.InLock => true | _ => false end.

Definition count_pc (f : Tasks.pc -> bool) (l : list Tasks.pc) : nat :=
  length (List.filter f l).

(** The awaits a caller of [get_connection] still has before it, at most. *)
Definition remaining (p : Tasks.pc) : nat :=
  match p with
  | Tasks.AtCheck => 4
  | Tasks.AtLock => 3
  | Tasks.InLock => 2
  | Tasks.AtAcquire => 1
  | Tasks.Finished _ => 0
  end.

Definition work_left (l : list Tasks.pc) : nat :=
  fold_right (fun p acc => (remaining p + acc)%nat) 0%nat l.

(** Every pool construction in the trace was asked for with the sizes and
    the wait mode of [initialize_pool], through the API of the mode. *)
Definition configured (self : DatabaseConnector) (tr : list event) : Prop :=
  Forall (fun ev => Tasks.is_create ev = true ->
                    ev = EvCreatePool (api_of self) (connection_string self) 2 10 1
                           POOL_GETMODE_WAIT) tr.

(** What holds of the callers of [get_connection] however they are
    scheduled. *)
Definition pool_invariant {W} (self : DatabaseConnector) (m : Tasks.machine W) : Prop :=
  let tr := trace (Tasks.shared m) in
  Tasks.constructed tr = (match _pool (Tasks.shared m) with Some _ => 1 | None => 0 end)%nat
  /\ count_pc in_lock (Tasks.tasks m) = (if Tasks.locked m then 1 else 0)%nat
  /\ (forall t p, Tasks.tasks m !! t = Some p -> Tasks.passed_init p = true ->
        is_Some (_pool (Tasks.shared m)))
  /\ configured self tr
  /\ (Tasks.attempts tr <= count_pc past_lock (Tasks.tasks m))%nat
  /\ Tasks.attempts tr = (Tasks.constructed tr + Tasks.failures tr)%nat.

(** A caller that is through with the initialization found the pool, or a
    construction has failed. *)
Definition through_or_failed {W} (m : Tasks.machine W) : Prop :=
  forall t p, Tasks.tasks m !! t = Some p -> past_lock p = true ->
    is_Some (_pool (Tasks.shared m)) \/ (1 <= Tasks.failures (trace (Tasks.shared m)))%nat.

(** A driver on which [create_pool], asked as [initialize_pool] asks,
    never fails. *)
Definition pool_available {W} (drv : Oracledb W) (self : DatabaseConnector) : Prop :=
  forall w, exists w' p,
    create_pool drv (api_of self) (connection_string self) 2 10 1 POOL_GETMODE_WAIT w
    = (w', inr p).

(** An invocation of an exposed operation that acquires a connection. *)
Inductive operation :=
| Get_database_info
| Get_all_table_names
| Load_table_details (table_name : string)
| Get_table_constraints (table_name : string)
| Get_table_indexes (table_name : string)
| Get_dependent_objects (object_name : string)
| Get_related_tables (table_name : string)
| Search_in_database (search_term : string) (limit : Z)
| Search_columns_in_database (table_names : list string) (search_term : string)
| Explain_query_plan (query : string)
| Get_effective_schema
| Get_pl_sql_objects (object_type : string) (name_pattern : option string)
| Get_object_source (object_type object_name : string)
| Get_user_defined_types (type_pattern : option string).

(** [m], its result dropped: the state it leaves and whether it raised. *)
Definition exit_of {W A} (m : M W A) : M W unit := m ;;; ret tt.

Definition perform {W} (drv : Oracledb W) (self : DatabaseConnector) (op : operation) : M W unit :=
  match op with
  | Get_database_info => exit_of (get_database_info drv self)
  | Get_all_table_names => exit_of (get_all_table_names drv self)
  | Load_table_details t => exit_of (load_table_details drv self t)
  | Get_table_constraints t => exit_of (get_table_constraints drv self t)
  | Get_table_indexes t => exit_of (get_table_indexes drv self t)
  | Get_dependent_objects o => exit_of (get_dependent_objects drv self o)
  | Get_related_tables t => exit_of (get_related_tables drv self t)
  | Search_in_database s l => exit_of (search_in_database drv self s l)
  | Search_columns_in_database ts s => exit_of (search_columns_in_database drv self ts s)
  | Explain_query_plan q => exit_of (explain_query_plan drv self q)
  | Get_effective_schema => exit_of (get_effective_schema drv self)
  | Get_pl_sql_objects t p => exit_of (get_pl_sql_objects drv self t p)
  | Get_object_source t o => exit_of (get_object_source drv self t o)
  | Get_user_defined_types p => exit_of (get_user_defined_types drv self p)
  end.

(** ** Characters and their boundaries *)

Fixpoint last_byte (s : string) : option ascii :=
  match s with
  | EmptyString => None
  | String b EmptyString => Some b
  | String _ s' => last_byte s'
  end.

(** Where [x] ends and [y] begins, a character ends and one begins. *)
Definition apart (x y : string) : bool :=
  match last_byte x, hd_byte y with
  | Some b, Some b' => negb (joins b b')
  | _, _ => true
  end.

Fixpoint spaced (ps : list string) : bool :=
  match ps with
  | p :: (q :: _) as rest => apart p q && spaced rest
  | _ => true
  end.

Fixpoint all_continuation (t : string) : bool :=
  match t with
  | EmptyString => true
  | String b t' => is_continuation b && all_continuation t'
  end.

(** One character: an ASCII byte, or a byte from 128 on with continuation
    bytes after it. *)
Definition is_token (c : string) : bool :=
  match c with
  | EmptyString => false
  | String b EmptyString => true
  | String b t => negb (is_ascii_byte b) && all_continuation t
  end.

Definition starts_clean (v : string) : bool :=
  match v with EmptyString => false | String b _ => negb (is_continuation b) end.

Definition ends_ascii (v : string) : bool :=
  match last_byte v with Some b => is_ascii_byte b | None => false end.

(** What the proofs use of a table of uppercase mappings: a mapping is from
    one character to characters that the table leaves alone, begins a
    character, keeps ASCII within ASCII and holds no [s]. *)
Definition table_ok (table : list (string * string)) : bool :=
  forallb (fun kv =>
             starts_clean kv.2
             && (match hd_byte kv.1 with
                 | Some b => if is_ascii_byte b then ends_ascii kv.2 else true
                 | None => false
                 end)
             && is_token kv.1
             && forallb (fun c => String.eqb (to_upper table c) c) (chars kv.2)
             && negb (existsb (Ascii.eqb "s") (list_ascii_of_string kv.2)))
    table.

(** ** A dictionary that hangs together

    What Oracle guarantees of its own dictionary, as checks on a catalog:
    the constraint a foreign key references is there and is a primary or
    unique key, and the columns listed for a constraint are columns of the
    constraint's table. *)
Definition is_key (k : Oracle.constraint_row) : bool :=
  String.eqb (Oracle.k_type k) "P" || String.eqb (Oracle.k_type k) "U".

Definition keyed (c : Oracle.catalog) : bool :=
  forallb
    (fun ac =>
       if String.eqb (Oracle.k_type ac) "R" then
         match Oracle.k_r_owner ac, Oracle.k_r_name ac with
         | Some ro, Some rn =>
             existsb (fun k => String.eqb (Oracle.k_owner k) ro
                               && String.eqb (Oracle.k_name k) rn && is_key k)
               (Oracle.all_constraints c)
         | _, _ => true
         end
       else true)
    (Oracle.all_constraints c)
  && forallb
       (fun k =>
          forallb
            (fun cc =>
               if String.eqb (Oracle.cc_owner cc) (Oracle.k_owner k)
                  && String.eqb (Oracle.cc_constraint cc) (Oracle.k_name k)
               then String.eqb (Oracle.cc_table cc) (Oracle.k_table k) else true)
            (Oracle.all_cons_columns c))
       (Oracle.all_constraints c).

(** No foreign key leaves or enters the schema [s]. *)
Definition within_schema (c : Oracle.catalog) (s : string) : bool :=
  forallb
    (fun ac =>
       if String.eqb (Oracle.k_type ac) "R"
       then Bool.eqb (String.eqb (Oracle.k_owner ac) s) (Oracle.eq_null (Oracle.k_r_owner ac) s)
       else true)
    (Oracle.all_constraints c).

(** The binds of the relationship statement for the table [t] of [s]. *)
Definition relationship_binds (s t : string) : params :=
  [("owner", bstr s); ("table_name", bstr t)].

(** ** Statements sent *)

(** The [cursor.execute] calls in a stretch of the trace. *)
Definition statements (tr : list event) : nat := length (List.filter is_execute tr).

Definition no_statement (ev : event) : Prop := is_execute ev = false.

(** From [st] to [st'] the trace grew by events with [k] statements among
    them. *)
Definition sent {W} (st st' : state W) (k : nat) : Prop :=
  exists evs, trace st' = trace st ++ evs /\ statements evs = k.

(** ** What a call does to the database *)

Definition is_commit (ev : event) : bool :=
  match ev with EvCommit _ _ => true | _ => false end.

(** The statements and the commits. *)
Definition acts (ev : event) : bool := is_execute ev || is_commit ev.

(** From [st] to [st'] the trace grew, and the new events that [f] picks
    are [l]. *)
Definition added {W} (f : event -> bool) (st st' : state W) (l : list event) : Prop :=
  exists evs, trace st' = trace st ++ evs /\ List.filter f evs = l.

(** ** Rows and what is reported of them *)

(** The entry of [get_table_constraints] for a row of the constraints
    statement: referenced columns only with a foreign key, a condition only
    with a check constraint that has one. *)
Definition reports_constraint (r : row) (ci : constraint_info) : Prop :=
  exists name type condition,
    r = [name; type; condition]
    /\ cons_name ci = name
    /\ cons_type ci = type_map_get type
    /\ (is_Some (cons_references ci) -> type = CStr "R")
    /\ cons_condition ci
       = if cell_is type "C" && truthy condition then Some condition else None.

Definition reports_index (r : row) (ii : index_info) : Prop :=
  exists name uniqueness tablespace status,
    r = [name; uniqueness; tablespace; status]
    /\ idx_name ii = name
    /\ idx_unique ii = cell_is uniqueness "UNIQUE"
    /\ idx_tablespace ii = (if truthy tablespace then Some tablespace else None)
    /\ idx_status ii = (if truthy status then Some status else None).

Definition reports_type (schema : string) (r : row) (ti : type_info) : Prop :=
  exists name typecode,
    r = [name; typecode]
    /\ type_name ti = name
    /\ type_category ti = typecode
    /\ type_owner ti = schema
    /\ (is_Some (type_attributes ti) -> typecode = CStr "OBJECT").

(** ** Reading a grouped result *)

(** [d.get(k, [])] on the insertion-ordered dict that [dict_append]
    builds. *)
Fixpoint dict_get {V} (k : cell) (d : list (cell * list V)) : list V :=
  match d with
  | [] => []
  | (k', vs) :: d' => if decide (k = k') then vs else dict_get k d'
  end.

(** The entry a row of the column search makes under the table [t]. *)
Definition found_column (t : cell) (r : row) : option column_info :=
  match r with
  | [table; name; data_type; nullable] =>
      if decide (t = table)
      then Some {| col_name := name; col_type := data_type;
                   col_nullable := cell_is nullable "Y" |}
      else None
  | _ => None
  end.

(** ** Construction *)

(** A driver entry point that leaves no trace: the constructor's call of
    [oracledb.init_oracle_client]. *)
Definition effect {W A} (f : W -> W * outcome A) : M W A :=
  fun st =>
    let (w', r) := f (world st) in
    ({| world := w'; _pool := _pool st; trace := trace st |}, r).

(** [DatabaseConnector.__init__].  [init_oracle_client] is the driver's
    function of that name, given [lib_dir] when it is not empty.  The
    schema manager is set later and plays no part here. *)
Definition __init__ {W} (init_oracle_client : option string -> W -> W * outcome unit)
    (connection_string : string) (target_schema : option string)
    (use_thick_mode : bool) (lib_dir : option string) : M W DatabaseConnector :=
  set_pool None ;;;
  if use_thick_mode then
    try_except
      (effect (init_oracle_client (given lib_dir)) ;;;
       print "Oracle Client initialized in thick mode" ;;;
       ret {| connection_string := connection_string; target_schema := target_schema;
              thick_mode := true |})
      (fun e =>
         Some (print ("Warning: Could not initialize Oracle Client: " +:+ str_exn e) ;;;
               print "Falling back to thin mode" ;;;
               ret {| connection_string := connection_string;
                      target_schema := target_schema; thick_mode := false |}))
  else ret {| connection_string := connection_string; target_schema := target_schema;
              thick_mode := false |}.

(** The scripted driver with a pool that cannot be closed. *)
Definition stuck_pool : Oracledb Fake.db := {|
  create_pool := create_pool Fake.driver;
  pool_acquire := pool_acquire Fake.driver;
  pool_close := fun _ _ w => (w, inl (DatabaseError 24422 "ORA-24422: error occurred while trying to destroy the Session Pool"));
  connection_close := connection_close Fake.driver;
  connection_commit := connection_commit Fake.driver;
  connection_cursor := connection_cursor Fake.driver;
  connection_username := connection_username Fake.driver;
  cursor_execute := cursor_execute Fake.driver;
  cursor_fetchall := cursor_fetchall Fake.driver;
  lob_read := lob_read Fake.driver
|}.

(** A state of the scripted driver in which the pool is there. *)
Definition pooled (w : Fake.db) : state Fake.db :=
  {| world := w; _pool := Some 1%nat; trace := [] |}.

(** The driver [drv] with another [conn.close()]. *)
Definition with_close {W} (drv : Oracledb W)
    (close : api -> connection -> W -> W * outcome unit) : Oracledb W := {|
  create_pool := create_pool drv;
  pool_acquire := pool_acquire drv;
  pool_close := pool_close drv;
  connection_close := close;
  connection_commit := connection_commit drv;
  connection_cursor := connection_cursor drv;
  connection_username := connection_username drv;
  cursor_execute := cursor_execute drv;
  cursor_fetchall := cursor_fetchall drv;
  lob_read := lob_read drv
|}.

(** [conn.close()] that always fails. *)
Definition failing_close {W} : api -> connection -> W -> W * outcome unit :=
  fun _ _ w => (w, inl (DatabaseError 3113 "ORA-03113: end-of-file on communication channel")).

(** * Properties *)

(** ** Text: characters and [str.upper] *)

Lemma upper_table_ok : table_ok upper_table = true.
Proof. vm_compute. reflexivity. Qed.

Lemma append_cons b s t : String b s +:+ t = String b (s +:+ t).
Proof. reflexivity. Qed.

Lemma append_nil_l t : "" +:+ t = t.
Proof. reflexivity. Qed.

Lemma append_nil_r s : s +:+ "" = s.
Proof. induction s as [| b s IH]; [done |]. by rewrite append_cons, IH. Qed.

Lemma append_assoc (x y z : string) : (x +:+ y) +:+ z = x +:+ (y +:+ z).
Proof. induction x as [| b x IH]; [done |]. by rewrite !append_cons, IH. Qed.

Lemma text_cons c cs : text (c :: cs) = c +:+ text cs.
Proof. reflexivity. Qed.

Lemma text_app xs ys : text (xs ++ ys)%list = text xs +:+ text ys.
Proof.
  induction xs as [| x xs IH]; [done |].
  by rewrite <- app_comm_cons, !text_cons, IH, append_assoc.
Qed.

Lemma chars_cons b s :
  chars (String b s)
  = match hd_byte s, chars s with
    | Some b', c :: cs =>
        if joins b b' then String b c :: cs else String b EmptyString :: c :: cs
    | _, _ => [String b EmptyString]
    end.
Proof. reflexivity. Qed.

Lemma chars_hd b s : exists t cs, chars (String b s) = String b t :: cs.
Proof.
  rewrite chars_cons. destruct (hd_byte s) as [b' |], (chars s) as [| c cs]; eauto.
  destruct (joins b b'); eauto.
Qed.

Lemma text_chars s : text (chars s) = s.
Proof.
  induction s as [| b s IH]; [done |]. rewrite chars_cons.
  destruct s as [| b' s]; [done |].
  destruct (chars_hd b' s) as (t & cs & Hc). rewrite Hc in *. simpl hd_byte. cbv iota.
  rewrite text_cons in IH.
  destruct (joins b b').
  - by rewrite text_cons, append_cons, IH.
  - by rewrite text_cons, append_cons, append_nil_l, text_cons, IH.
Qed.

Lemma chars_app x : forall y, apart x y = true -> chars (x +:+ y) = (chars x ++ chars y)%list.
Proof.
  induction x as [| b x IH]; intros y Hap; [done |].
  rewrite append_cons, !chars_cons.
  destruct x as [| b1 x].
  - rewrite append_nil_l. unfold apart in Hap. simpl in Hap.
    destruct y as [| b' y]; [done |]. simpl in Hap.
    destruct (chars_hd b' y) as (t & cs & Hy). rewrite Hy. simpl.
    by destruct (joins b b').
  - assert (apart (String b1 x) y = true) as Hap' by exact Hap.
    rewrite (IH y Hap'). rewrite append_cons.
    destruct (chars_hd b1 x) as (t & cs & ->). simpl.
    by destruct (joins b b1).
Qed.

Lemma continuation_not_ascii b : is_continuation b = true -> is_ascii_byte b = false.
Proof.
  unfold is_continuation, is_ascii_byte. intros [H _]%andb_true_iff.
  apply Nat.leb_le in H. apply Nat.ltb_ge. lia.
Qed.

Lemma is_token_cons b t :
  is_token (String b t)
  = match t with
    | EmptyString => true
    | _ => negb (is_ascii_byte b) && all_continuation t
    end.
Proof. by destruct t. Qed.

Lemma all_continuation_cons b t :
  all_continuation (String b t) = is_continuation b && all_continuation t.
Proof. reflexivity. Qed.

Lemma token_tail b b' t :
  is_token (String b (String b' t)) = true ->
  is_ascii_byte b = false /\ is_continuation b' = true /\ all_continuation t = true
  /\ is_token (String b' t) = true.
Proof.
  rewrite is_token_cons, all_continuation_cons.
  intros [Hb [Hb' Ht]%andb_true_iff]%andb_true_iff.
  split_and!; try done; [by apply negb_true_iff |].
  rewrite is_token_cons. destruct t; [done |].
  by rewrite Ht, (continuation_not_ascii b').
Qed.

Lemma chars_token c : is_token c = true -> chars c = [c].
Proof.
  destruct c as [| b t]; [done |]. revert b.
  induction t as [| b' t IH]; intros b H; [done |].
  apply token_tail in H as (Hb & Hb' & Ht & Htok).
  rewrite chars_cons, (IH b' Htok). simpl. unfold joins. by rewrite Hb, Hb'.
Qed.

Lemma chars_tokens s : Forall (fun c => is_token c = true) (chars s).
Proof.
  induction s as [| b s IH]; [constructor |]. rewrite chars_cons.
  destruct s as [| b' s]; [by repeat constructor |].
  destruct (chars_hd b' s) as (t & cs & Hc). rewrite Hc in *. simpl hd_byte. cbv iota.
  apply Forall_cons in IH as [Ht IH].
  destruct (joins b b') eqn:Hj; [| by repeat constructor].
  constructor; [| done]. apply andb_true_iff in Hj as [Hb Hb'].
  rewrite is_token_cons, all_continuation_cons, Hb, Hb'. simpl.
  destruct t as [| b'' t]; [done |]. by apply token_tail in Ht as (_ & ? & ? & _); rewrite all_continuation_cons; apply andb_true_iff.
Qed.

Lemma all_continuation_last s b :
  all_continuation s = true -> last_byte s = Some b -> is_continuation b = true.
Proof.
  induction s as [| a s IH]; [done |]. rewrite all_continuation_cons.
  intros [Ha Hs]%andb_true_iff H. destruct s; [by injection H as <- | by apply IH].
Qed.

Lemma last_byte_token_ascii c b :
  is_token c = true -> last_byte c = Some b -> is_ascii_byte b = true ->
  c = String b "".
Proof.
  destruct c as [| b0 t]; [done |]. destruct t as [| b1 t]; [by intros _ [= ->] |].
  intros (_ & Hb1 & Ht & _)%token_tail Hl Hb. exfalso.
  rewrite (continuation_not_ascii b) in Hb; [done |].
  apply (all_continuation_last (String b1 t)); [| done].
  rewrite all_continuation_cons. by apply andb_true_iff.
Qed.

Lemma last_byte_cons b b' s : last_byte (String b (String b' s)) = last_byte (String b' s).
Proof. reflexivity. Qed.

Lemma chars_spaced s : spaced (chars s) = true.
Proof.
  induction s as [| b s IH]; [done |]. rewrite chars_cons.
  destruct s as [| b' s]; [done |].
  destruct (chars_hd b' s) as (t & cs & Hc). rewrite Hc in *. simpl hd_byte. cbv iota.
  destruct (joins b b') eqn:Hj.
  - destruct cs as [| q cs]; [done |].
    change (spaced (String b' t :: q :: cs)) with (apart (String b' t) q && spaced (q :: cs)) in IH.
    change (spaced (String b (String b' t) :: q :: cs))
      with (apart (String b (String b' t)) q && spaced (q :: cs)).
    apply andb_true_iff in IH as [Hap IH]. rewrite IH, andb_true_r.
    unfold apart in *. by rewrite last_byte_cons.
  - change (spaced (String b "" :: String b' t :: cs))
      with (apart (String b "") (String b' t) && spaced (String b' t :: cs)).
    rewrite IH, andb_true_r. unfold apart. simpl. by rewrite Hj.
Qed.

Lemma to_upper_cases table c :
  to_upper table c = c \/ In (c, to_upper table c) table.
Proof.
  induction table as [| [k v] table IH]; [by left |]. simpl.
  destruct (String.eqb_spec c k) as [-> | Hne]; [right; by left |].
  destruct IH as [IH | IH]; [by left | right; by right].
Qed.

Lemma upper_char_cases c : upper_char c = c \/ In (c, upper_char c) upper_table.
Proof. apply to_upper_cases. Qed.

Lemma table_entry k v :
  In (k, v) upper_table ->
  starts_clean v = true
  /\ (forall b, hd_byte k = Some b -> is_ascii_byte b = true -> ends_ascii v = true)
  /\ is_token k = true
  /\ map upper_char (chars v) = chars v
  /\ ~ In "s"%char (list_ascii_of_string v).
Proof.
  intros Hin. pose proof upper_table_ok as Hok. unfold table_ok in Hok.
  rewrite forallb_forall in Hok. specialize (Hok _ Hin). simpl in Hok.
  apply andb_true_iff in Hok as [Hok Hs]. apply andb_true_iff in Hok as [Hok Hfix].
  apply andb_true_iff in Hok as [Hok Htok]. apply andb_true_iff in Hok as [Hclean Hend].
  split_and!; try done.
  - intros b Hb Hascii. rewrite Hb, Hascii in Hend. done.
  - rewrite forallb_forall in Hfix. clear -Hfix.
    induction (chars v) as [| c cs IH]; [done |]. simpl. f_equal.
    + unfold upper_char. apply String.eqb_eq, Hfix. by left.
    + apply IH. intros x Hx. apply Hfix. by right.
  - intros Hin'. apply negb_true_iff in Hs.
    assert (existsb (Ascii.eqb "s") (list_ascii_of_string v) = true); [| congruence].
    apply existsb_exists. exists "s"%char. split; [done | apply Ascii.eqb_refl].
Qed.

Lemma up_nonempty c : c <> "" -> upper_char c <> "".
Proof.
  intros Hc. destruct (upper_char_cases c) as [-> | Hin]; [done |].
  apply table_entry in Hin as (Hclean & _). by destruct (upper_char c).
Qed.

Lemma token_nonempty c : is_token c = true -> c <> "".
Proof. by destruct c. Qed.

(** A continuation byte at the head of [upper_char c] is one of [c]. *)
Lemma up_hd_continuation c b :
  hd_byte (upper_char c) = Some b -> is_continuation b = true -> upper_char c = c.
Proof.
  intros Hb Hcont. destruct (upper_char_cases c) as [-> | Hin]; [done |].
  apply table_entry in Hin as (Hclean & _). destruct (upper_char c); [done |].
  simpl in Hb, Hclean. injection Hb as ->. by rewrite Hcont in Hclean.
Qed.

Lemma up_last_ascii c b :
  is_token c = true -> last_byte c = Some b -> is_ascii_byte b = true ->
  exists b', last_byte (upper_char c) = Some b' /\ is_ascii_byte b' = true.
Proof.
  intros Htok Hl Hb. pose proof (last_byte_token_ascii c b Htok Hl Hb) as ->.
  destruct (upper_char_cases (String b "")) as [-> | Hin]; [eauto |].
  apply table_entry in Hin as (_ & Hend & _). specialize (Hend b eq_refl Hb).
  unfold ends_ascii in Hend. destruct (last_byte (upper_char (String b ""))); [eauto | done].
Qed.

Lemma last_byte_some s : s <> "" -> exists b, last_byte s = Some b.
Proof.
  induction s as [| a s IH]; [done |]. intros _. destruct s; [by exists a |].
  rewrite last_byte_cons. by apply IH.
Qed.

Lemma up_apart c c' :
  is_token c = true -> is_token c' = true -> apart c c' = true -> apart (upper_char c) (upper_char c') = true.
Proof.
  intros Hc Hc' Hap. unfold apart.
  destruct (last_byte (upper_char c)) as [b |] eqn:Hl; [| done].
  destruct (hd_byte (upper_char c')) as [b' |] eqn:Hh; [| done].
  apply negb_true_iff. destruct (joins b b') eqn:Hj; [| done]. exfalso.
  apply andb_true_iff in Hj as [Hb Hb']. apply negb_true_iff in Hb.
  pose proof (up_hd_continuation c' b' Hh Hb') as Hsame. rewrite Hsame in Hh.
  unfold apart in Hap.
  destruct (last_byte_some c (token_nonempty c Hc)) as [a Ha]. rewrite Ha, Hh in Hap.
  apply negb_true_iff in Hap. unfold joins in Hap. rewrite Hb', andb_true_r in Hap.
  apply negb_false_iff in Hap.
  destruct (up_last_ascii c a Hc Ha Hap) as (a' & Ha' & Hascii). congruence.
Qed.

Lemma up_spaced cs :
  Forall (fun c => is_token c = true) cs -> spaced cs = true -> spaced (map upper_char cs) = true.
Proof.
  induction cs as [| c cs IH]; [done |]. intros [Hc Hcs]%Forall_cons Hsp.
  destruct cs as [| c' cs]; [done |].
  change (spaced (c :: c' :: cs)) with (apart c c' && spaced (c' :: cs)) in Hsp.
  apply andb_true_iff in Hsp as [Hap Hsp].
  change (spaced (map upper_char (c :: c' :: cs)))
    with (apart (upper_char c) (upper_char c') && spaced (map upper_char (c' :: cs))).
  rewrite (IH Hcs Hsp), andb_true_r.
  apply up_apart; [done | | done]. by apply Forall_cons in Hcs as [? _].
Qed.

Lemma hd_byte_append x y : x <> "" -> hd_byte (x +:+ y) = hd_byte x.
Proof. by destruct x. Qed.

Lemma chars_text ps :
  Forall (fun p => p <> "") ps -> spaced ps = true ->
  chars (text ps) = flat_map chars ps.
Proof.
  induction ps as [| p ps IH]; [done |]. intros [Hp Hps]%Forall_cons Hsp.
  rewrite text_cons. simpl flat_map.
  destruct ps as [| q ps].
  - change (text []) with "". by rewrite append_nil_r, app_nil_r.
  - change (spaced (p :: q :: ps)) with (apart p q && spaced (q :: ps)) in Hsp.
    apply andb_true_iff in Hsp as [Hap Hsp].
    rewrite chars_app, (IH Hps Hsp); [done |].
    unfold apart in *. rewrite text_cons, hd_byte_append; [done |].
    by apply Forall_cons in Hps as [? _].
Qed.

Lemma text_flat_map {A} (f : A -> list string) l :
  text (flat_map f l) = text (map (fun x => text (f x)) l).
Proof.
  induction l as [| x l IH]; [done |]. simpl flat_map. simpl map.
  by rewrite text_app, text_cons, IH.
Qed.

Lemma up_token_fixed c : is_token c = true -> text (map upper_char (chars (upper_char c))) = upper_char c.
Proof.
  intros Htok. destruct (upper_char_cases c) as [Heq | Hin].
  - rewrite Heq, (chars_token c Htok).
    change (map upper_char [c]) with [upper_char c]. by rewrite Heq, text_cons, append_nil_r.
  - apply table_entry in Hin as (_ & _ & _ & Hfix & _). by rewrite Hfix, text_chars.
Qed.

Lemma map_flat_map {A B C} (f : B -> C) (g : A -> list B) l :
  map f (flat_map g l) = flat_map (fun x => map f (g x)) l.
Proof. induction l as [| x l IH]; [done |]. simpl. by rewrite map_app, IH. Qed.

Lemma upper_idempotent s : upper (upper s) = upper s.
Proof.
  unfold upper. pose proof (chars_tokens s) as Htok. pose proof (chars_spaced s) as Hsp.
  rewrite chars_text.
  - rewrite map_flat_map, text_flat_map, map_map. f_equal.
    induction Htok as [| c cs Hc _ IH]; [done |].
    change (map (fun x => text (map upper_char (chars (upper_char x)))) (c :: cs))
      with (text (map upper_char (chars (upper_char c))) :: map (fun x => text (map upper_char (chars (upper_char x)))) cs).
    change (map upper_char (c :: cs)) with (upper_char c :: map upper_char cs).
    rewrite (up_token_fixed c Hc). f_equal. apply IH.
    destruct cs as [| c' cs]; [done |].
    change (spaced (c :: c' :: cs)) with (apart c c' && spaced (c' :: cs)) in Hsp.
    by apply andb_true_iff in Hsp as [_ ?].
  - clear Hsp. induction Htok as [| c cs Hc _ IH]; [constructor |].
    constructor; [| done]. by apply up_nonempty, token_nonempty.
  - by apply up_spaced.
Qed.

Lemma upper_empty s : upper s = "" <-> s = "".
Proof.
  split; [| by intros ->]. destruct s as [| b s]; [done |]. unfold upper.
  destruct (chars_hd b s) as (t & cs & Hc). rewrite Hc.
  pose proof (chars_tokens (String b s)) as Htok. rewrite Hc in Htok.
  apply Forall_cons in Htok as [Htok _].
  change (map upper_char (String b t :: cs)) with (upper_char (String b t) :: map upper_char cs).
  rewrite text_cons. pose proof (up_nonempty (String b t) ltac:(done)) as Hne.
  by destruct (upper_char (String b t)).
Qed.

Lemma in_text c ps :
  In c (list_ascii_of_string (text ps)) -> exists p, In p ps /\ In c (list_ascii_of_string p).
Proof.
  induction ps as [| p ps IH]; [done |]. rewrite text_cons.
  assert (forall x y, In c (list_ascii_of_string (x +:+ y)) ->
                      In c (list_ascii_of_string x) \/ In c (list_ascii_of_string y)) as Happ.
  { clear. induction x as [| a x IH]; intros y; [by right |]. rewrite append_cons.
    simpl. intros [-> | H]; [left; by left |]. destruct (IH y H); [left; by right | by right]. }
  intros [H | H]%Happ; [exists p; split; [by left | done] |].
  destruct (IH H) as (q & Hq & Hc). exists q. split; [by right | done].
Qed.

Lemma all_continuation_not_s t : all_continuation t = true -> ~ In "s"%char (list_ascii_of_string t).
Proof.
  induction t as [| a t IH]; [by intros _ [] |]. rewrite all_continuation_cons.
  intros [Ha Ht]%andb_true_iff [-> | H]; [by vm_compute in Ha | by apply IH].
Qed.

Lemma upper_not_lowercase s : ~ In "s"%char (list_ascii_of_string (upper s)).
Proof.
  unfold upper. intros (p & Hp & Hin)%in_text.
  apply in_map_iff in Hp as (c & <- & Hc).
  pose proof (chars_tokens s) as Htok. rewrite Forall_forall in Htok.
  specialize (Htok c (proj2 (list_elem_of_In _ _) Hc)).
  destruct (upper_char_cases c) as [Heq | Htab].
  - rewrite Heq in Hin. destruct c as [| b t]; [done |].
    destruct t as [| b' t].
    + destruct Hin as [-> | []]. by vm_compute in Heq.
    + apply token_tail in Htok as (Hb & Hb' & Ht & _).
      destruct Hin as [-> | [-> | Hin]];
        [by vm_compute in Hb | by vm_compute in Hb' |].
      by apply (all_continuation_not_s t).
  - apply table_entry in Htab as (_ & _ & _ & _ & Hno). done.
Qed.


(** ** The monad *)

Section MonadFacts.

Context {W : Type}.

Lemma bind_inr {A B} (m : M W A) (k : A -> M W B) st st' b :
  bind_ m k st = (st', inr b) ->
  exists st1 a, m st = (st1, inr a) /\ k a st1 = (st', inr b).
Proof.
  unfold bind_. destruct (m st) as [st1 [e | a]]; intros H; [discriminate |].
  by exists st1, a.
Qed.

Lemma bind_run {A B} (m : M W A) (k : A -> M W B) st st1 a :
  m st = (st1, inr a) -> bind_ m k st = k a st1.
Proof. unfold bind_. by intros ->. Qed.

Lemma bind_raise {A B} (m : M W A) (k : A -> M W B) st st1 e :
  m st = (st1, inl e) -> bind_ m k st = (st1, inl e).
Proof. unfold bind_. by intros ->. Qed.

Lemma try_finally_inr {A} (m : M W A) (fin : M W unit) st st' a :
  try_finally m fin st = (st', inr a) ->
  exists st1, m st = (st1, inr a) /\ fin st1 = (st', inr tt).
Proof.
  unfold try_finally. destruct (m st) as [st1 r].
  destruct (fin st1) as [st2 [e | []]] eqn:Hfin; intros H; simplify_eq.
  by exists st1.
Qed.

Lemma grows_refl (P : event -> Prop) (st : state W) : grows P st st.
Proof. exists []. by rewrite app_nil_r. Qed.

Lemma grows_trans (P : event -> Prop) (st1 st2 st3 : state W) :
  grows P st1 st2 -> grows P st2 st3 -> grows P st1 st3.
Proof.
  intros (evs1 & H1 & F1) (evs2 & H2 & F2). exists (evs1 ++ evs2).
  split; [by rewrite H2, H1, List.app_assoc | by apply Forall_app].
Qed.

Lemma grows_log (P : event -> Prop) (st : state W) ev : P ev -> grows P st (log ev st).
Proof. intros H. exists [ev]. split; [done | by constructor]. Qed.

Lemma grows_new_events (P : event -> Prop) (st st' : state W) :
  grows P st st' -> trace st' = trace st ++ new_events st st' /\ Forall P (new_events st st').
Proof.
  intros (evs & H & F). unfold new_events. rewrite H, drop_app_length. done.
Qed.

Lemma emits_ret {A} P (a : A) : emits (W := W) P (ret a).
Proof. intros st st' r H. injection H as <- _. apply grows_refl. Qed.

Lemma emits_raise {A} P e : emits (W := W) (A := A) P (raise e).
Proof. intros st st' r H. injection H as <- _. apply grows_refl. Qed.

Lemma emits_bind {A B} P (m : M W A) (k : A -> M W B) :
  emits P m -> (forall a, emits P (k a)) -> emits P (bind_ m k).
Proof.
  intros Hm Hk st st' r. unfold bind_.
  destruct (m st) as [st1 [e | a]] eqn:E; intros H.
  - injection H as <- _. eauto.
  - eapply grows_trans; [eapply Hm | eapply Hk]; eauto.
Qed.

Lemma emits_try_except {A} P (m : M W A) handler :
  emits P m -> handler_emits P handler -> emits P (try_except m handler).
Proof.
  intros Hm Hh st st' r. unfold try_except.
  destruct (m st) as [st1 [e | a]] eqn:E.
  - specialize (Hh e). destruct (handler e) as [h |]; intros H.
    + eapply grows_trans; [eapply Hm | eapply Hh]; eauto.
    + injection H as <- _. eauto.
  - intros H. injection H as <- _. eauto.
Qed.

Lemma emits_try_finally {A} P (m : M W A) fin :
  emits P m -> emits P fin -> emits P (try_finally m fin).
Proof.
  intros Hm Hf st st' r. unfold try_finally.
  destruct (m st) as [st1 r1] eqn:E. destruct (fin st1) as [st2 [e | u]] eqn:E2;
    intros H; injection H as <- _; (eapply grows_trans; [eapply Hm | eapply Hf]; eauto).
Qed.

Lemma emits_emit (P : event -> Prop) ev : P ev -> emits (W := W) P (emit ev).
Proof. intros HP st st' r H. injection H as <- _. by apply grows_log. Qed.

Lemma emits_print (P : event -> Prop) line : P (EvPrint line) -> emits (W := W) P (print line).
Proof. apply emits_emit. Qed.

Lemma emits_call {A} (P : event -> Prop) ev (f : W -> W * outcome A) :
  P ev -> emits P (call ev f).
Proof.
  intros HP st st' r. unfold call. destruct (f (world st)) as [w' r'].
  intros H. injection H as <- _. exists [ev]. split; [done | by constructor].
Qed.

Lemma emits_get_pool P : emits (W := W) P get_pool.
Proof. intros st st' r H. injection H as <- _. apply grows_refl. Qed.

Lemma emits_set_pool P p : emits (W := W) P (set_pool p).
Proof. intros st st' r H. injection H as <- _. exists []. by rewrite app_nil_r. Qed.

Lemma emits_for_each {A B} P (xs : list A) (body : A -> B -> M W B) :
  (forall x acc, emits P (body x acc)) -> forall acc, emits P (for_each xs acc body).
Proof.
  intros Hb. induction xs as [| x xs IH]; intros acc; simpl.
  - apply emits_ret.
  - apply emits_bind; [apply Hb | intros; apply IH].
Qed.

Lemma emits_index P (r : row) i : emits (W := W) P (index r i).
Proof. unfold index. destruct (nth_error r i); [apply emits_ret | apply emits_raise]. Qed.

End MonadFacts.

(** ** Traces of the connector's building blocks *)

Ltac emits_step :=
  match goal with
  | |- True => exact I
  | |- emits _ (ret _) => apply emits_ret
  | |- emits _ (raise _) => apply emits_raise
  | |- emits _ (await_plain _) => apply emits_raise
  | |- emits _ (bind_ _ _) => apply emits_bind; [| intros ?]
  | |- emits _ (try_except _ _) => apply emits_try_except
  | |- emits _ (try_finally _ _) => apply emits_try_finally
  | |- emits _ (print _) => apply emits_print
  | |- emits _ (emit _) => apply emits_emit
  | |- emits _ (call _ _) => apply emits_call
  | |- emits _ get_pool => apply emits_get_pool
  | |- emits _ (set_pool _) => apply emits_set_pool
  | |- emits _ (for_each _ _ _) => apply emits_for_each; intros ? ?
  | |- emits _ (index _ _) => apply emits_index
  | |- handler_emits _ _ => let e := fresh "e" in intros e; destruct e; simpl
  | |- emits _ (match ?x with _ => _ end) => destruct x
  | |- emits _ (let (_, _) := ?x in _) => destruct x
  end.

Ltac quiet :=
  repeat first
    [ emits_step
    | progress unfold
        initialize_pool, pool_acquire_call, acquire_or_report, get_connection,
        _execute_cursor, _execute_cursor_no_fetch, _commit, new_cursor,
        username_upper, _get_effective_schema, _execute_with_fallback,
        column, unpack2, unpack3, unpack4, unpack5, additional_info_of,
        strftime, optional_strftime, read_clob, attributes_of
    | reflexivity ].

Section Quiet.

Context {W : Type} (drv : Oracledb W) (self : DatabaseConnector).

Lemma get_connection_quiet : emits not_close (get_connection drv self).
Proof. quiet. Qed.

Lemma username_upper_quiet P conn : emits P (username_upper drv conn).
Proof.
  intros st st' r. unfold username_upper.
  destruct (connection_username drv conn (world st)); intros H;
    injection H as <- _; apply grows_refl.
Qed.

Lemma effective_schema_quiet P conn : emits P (_get_effective_schema drv self conn).
Proof.
  unfold _get_effective_schema.
  repeat first [apply username_upper_quiet | emits_step].
Qed.

Lemma join_quiet P sep items : emits (W := W) P (join sep items).
Proof.
  induction items as [| c items IH]; simpl; [apply emits_ret |].
  destruct c; try apply emits_raise.
  destruct items; [apply emits_ret |].
  apply emits_bind; [exact IH | intros; apply emits_ret].
Qed.

Lemma as_names_quiet P cells : emits (W := W) P (as_names cells).
Proof.
  induction cells as [| c cells IH]; simpl; [apply emits_ret |].
  destruct c; try apply emits_raise.
  apply emits_bind; [exact IH | intros; apply emits_ret].
Qed.

(** [_close_connection] calls [conn.close()] once and never raises. *)
Lemma close_connection_once conn st :
  exists st', _close_connection drv self conn st = (st', inr tt)
              /\ closes st st' = [EvClose (api_of self) conn].
Proof.
  unfold _close_connection, try_except, call, closes, new_events.
  destruct (connection_close drv (api_of self) conn (world st)) as [w' [e | []]]; simpl.
  - eexists. split; [reflexivity |]. simpl.
    rewrite <- List.app_assoc, drop_app_length. reflexivity.
  - eexists. split; [reflexivity |]. simpl.
    rewrite drop_app_length. reflexivity.
Qed.

Lemma closes_quiet (st st' : state W) : grows not_close st st' -> closes st st' = [].
Proof.
  intros H. apply grows_new_events in H as [_ F]. unfold closes.
  induction F as [| ev evs Hev _ IH]; [done |]. simpl. by rewrite Hev.
Qed.

Lemma closes_trans (st1 st2 st3 : state W) :
  (exists evs, trace st2 = trace st1 ++ evs) ->
  (exists evs, trace st3 = trace st2 ++ evs) ->
  closes st1 st3 = closes st1 st2 ++ closes st2 st3.
Proof.
  intros [evs1 H1] [evs2 H2]. unfold closes, new_events.
  rewrite H2, drop_app_length, H1, <- List.app_assoc, !drop_app_length.
  apply List.filter_app.
Qed.

Lemma scoped_release {A} (body : connection -> M W A) st :
  (forall conn, emits not_close (body conn)) ->
  let m := exit_of (conn <- get_connection drv self ;;
                    try_finally (body conn) (_close_connection drv self conn)) in
  match get_connection drv self st with
  | (_, inr conn) => closes st (m st).1 = [EvClose (api_of self) conn]
  | (_, inl _) => closes st (m st).1 = []
  end.
Proof.
  intros Hbody m. subst m. unfold exit_of, bind_.
  destruct (get_connection drv self st) as [st1 [e | conn]] eqn:Hget.
  - simpl. apply closes_quiet. eapply get_connection_quiet; eauto.
  - unfold try_finally.
    destruct (body conn st1) as [st2 r] eqn:Hb.
    destruct (close_connection_once conn st2) as (st3 & Hclose & Hevs).
    rewrite Hclose.
    assert (G1 : grows not_close st st1) by (eapply get_connection_quiet; eauto).
    assert (G2 : grows not_close st1 st2) by (eapply Hbody; eauto).
    assert (G12 : grows not_close st st2) by (eapply grows_trans; eauto).
    assert (E3 : exists evs, trace st3 = trace st2 ++ evs).
    { revert Hclose. unfold _close_connection, try_except, call.
      destruct (connection_close drv (api_of self) conn (world st2)) as [w' [e | []]];
        simpl; intros H; injection H as <-; simpl; eauto.
      rewrite <- List.app_assoc. eauto. }
    assert (closes st st3 = [EvClose (api_of self) conn]) as Hall.
    { rewrite (closes_trans st st2 st3); [| destruct G12 as (evs & ? & _); eauto | done].
      by rewrite (closes_quiet st st2 G12), Hevs. }
    destruct r; simpl; exact Hall.
Qed.

End Quiet.

Ltac body_quiet :=
  repeat first
    [ apply effective_schema_quiet
    | apply join_quiet
    | apply as_names_quiet
    | emits_step
    | progress unfold
        _execute_cursor, _execute_cursor_no_fetch, _commit, new_cursor,
        _execute_with_fallback, column, unpack2, unpack3, unpack4, unpack5,
        additional_info_of, strftime, optional_strftime, read_clob, attributes_of,
        load_table_details_body
    | reflexivity ].

(** ** Guaranteed release *)

(** C5.  Whatever exposed operation runs, on whatever driver and from
    whatever state: when [get_connection] hands it a connection, the
    operation calls [close()] on that connection exactly once before it
    exits, whether it returns a result, an empty one, or raises; and when
    no connection could be acquired, nothing is closed. *)
Theorem connection_released_exactly_once {W} (drv : Oracledb W)
    (self : DatabaseConnector) (op : operation) (st : state W) :
  match get_connection drv self st with
  | (_, inr conn) => closes st (perform drv self op st).1 = [EvClose (api_of self) conn]
  | (_, inl _) => closes st (perform drv self op st).1 = []
  end.
Proof.
  destruct op; unfold perform;
    [ unfold get_database_info | unfold get_all_table_names | unfold load_table_details
    | unfold get_table_constraints | unfold get_table_indexes | unfold get_dependent_objects
    | unfold get_related_tables | unfold search_in_database
    | unfold search_columns_in_database | unfold explain_query_plan
    | unfold get_effective_schema | unfold get_pl_sql_objects | unfold get_object_source
    | unfold get_user_defined_types ];
    apply (scoped_release drv self); intros conn; body_quiet.
Qed.

(** ** Permission fallback *)

Section Fallback.

Context {W : Type} (drv : Oracledb W) (self : DatabaseConnector).

Lemma execute_cursor_run cur q ps (st : state W) :
  _execute_cursor drv self cur q ps st =
  ({| world := (run_query drv (api_of self) cur q ps (world st)).1;
      _pool := _pool st;
      trace := trace st ++ query_events drv (api_of self) cur q ps (world st) |},
   (run_query drv (api_of self) cur q ps (world st)).2).
Proof.
  unfold _execute_cursor, api_of, run_query, query_events, bind_, call.
  destruct (thick_mode self); simpl;
    (destruct (cursor_execute drv _ cur q ps (world st)) as [w1 [e | []]]; simpl;
     [reflexivity |];
     destruct (cursor_fetchall drv _ cur w1) as [w2 r]; simpl;
     by rewrite <- List.app_assoc).
Qed.

Lemma query_events_execute a cur q ps (w : W) :
  List.filter is_execute (query_events drv a cur q ps w) = [EvExecute a cur q ps].
Proof.
  unfold query_events. by destruct (cursor_execute drv a cur q ps w) as [w1 [e | u]].
Qed.

End Fallback.

(** Both tiers refused with code 1031: the soft failure. *)
Lemma fallback_exhausted {W} (drv : Oracledb W) (self : DatabaseConnector)
    (cur : cursor) (all_query user_query : sql) (ps : params) (st : state W) m w1 m' w2 :
  run_query drv (api_of self) cur all_query ps (world st)
  = (w1, inl (DatabaseError 1031 m)) ->
  run_query drv (api_of self) cur user_query ps w1
  = (w2, inl (DatabaseError 1031 m')) ->
  (_execute_with_fallback drv self cur all_query user_query ps st).2 = inr [].
Proof.
  intros H1 H2.
  unfold _execute_with_fallback, try_except, bind_, print, emit, log.
  rewrite execute_cursor_run, H1. simpl.
  rewrite execute_cursor_run. simpl. by rewrite H2.
Qed.

(** C1.  [_execute_with_fallback], on any driver and for any pair of
    statements and any binds: when the privileged statement raises the
    database error with code 1031 and the restricted statement then
    succeeds, the result is exactly the rows of the restricted statement;
    when both raise the error with code 1031, the result is the empty
    list; and any other error of the privileged statement comes out
    unchanged, the privileged [execute] being the only one made. *)
Theorem fallback_determinism {W} (drv : Oracledb W) (self : DatabaseConnector)
    (cur : cursor) (all_query user_query : sql) (ps : params) (st : state W) :
  let a := api_of self in
  let result := _execute_with_fallback drv self cur all_query user_query ps st in
  (forall m w1 w2 rs,
      run_query drv a cur all_query ps (world st) = (w1, inl (DatabaseError 1031 m)) ->
      run_query drv a cur user_query ps w1 = (w2, inr rs) ->
      result.2 = inr rs /\ world result.1 = w2)
  /\ (forall m w1 m' w2,
      run_query drv a cur all_query ps (world st) = (w1, inl (DatabaseError 1031 m)) ->
      run_query drv a cur user_query ps w1 = (w2, inl (DatabaseError 1031 m')) ->
      result.2 = inr [])
  /\ (forall e w1,
      run_query drv a cur all_query ps (world st) = (w1, inl e) ->
      (forall m, e <> DatabaseError 1031 m) ->
      result.2 = inl e /\ world result.1 = w1
      /\ List.filter is_execute (new_events st result.1) = [EvExecute a cur all_query ps]).
Proof.
  intros a result. subst result a.
  unfold _execute_with_fallback, try_except, bind_, print, emit, log.
  rewrite execute_cursor_run. split; [| split].
  - intros m w1 w2 rs H1 H2. rewrite H1. simpl.
    rewrite execute_cursor_run. simpl. by rewrite H2.
  - intros m w1 m' w2 H1 H2.
    pose proof (fallback_exhausted drv self cur all_query user_query ps st m w1 m' w2 H1 H2)
      as Hempty.
    unfold _execute_with_fallback, try_except, bind_, print, emit, log in Hempty.
    by rewrite execute_cursor_run in Hempty.
  - intros e w1 H Hother. rewrite H. simpl.
    assert (forall st' : state W,
               trace st' = trace st ++ query_events drv (api_of self) cur all_query ps (world st) ->
               List.filter is_execute (new_events st st')
               = [EvExecute (api_of self) cur all_query ps]) as Hev.
    { intros st' E. unfold new_events. rewrite E, drop_app_length.
      apply query_events_execute. }
    destruct e as [code m | m | c m]; try (by repeat split; try apply Hev).
    destruct (Z.eqb_spec code ORA_01031) as [-> | Hne]; [by destruct (Hother m) |].
    by repeat split; try apply Hev.
Qed.

(** The three cases of C1 on the scripted driver. *)
Lemma fallback_determinism_witness :
  let denied := inl (DatabaseError 1031 "ORA-01031: insufficient privileges") in
  let run script :=
    (_execute_with_fallback Fake.driver Fake.thin 7%nat SqlObjectCheck SqlUserObjectCheck
       [("owner", bstr "SCOTT")] (Fake.fresh (Fake.scripted script))).2 in
  run [denied; inr [[CStr "TABLE"]]] = inr [[CStr "TABLE"]]
  /\ run [denied; denied] = inr []
  /\ run [inl (DatabaseError 942 "ORA-00942: table or view does not exist")]
     = inl (DatabaseError 942 "ORA-00942: table or view does not exist").
Proof.
  intros denied run. subst run denied.
  pose proof (fun script =>
                fallback_determinism Fake.driver Fake.thin 7%nat SqlObjectCheck
                  SqlUserObjectCheck [("owner", bstr "SCOTT")]
                  (Fake.fresh (Fake.scripted script))) as thm.
  simpl in thm. split; [| split].
  - eapply (proj1 (thm _)); reflexivity.
  - eapply (proj1 (proj2 (thm _))); reflexivity.
  - eapply (proj2 (proj2 (thm _))); [reflexivity | discriminate].
Defined.

(** ** Execution bridge *)

(** C4.  [_execute_cursor] and [_execute_cursor_no_fetch] make the same
    driver calls in the same order in both modes, through the blocking
    API in thick mode and through the coroutine API in thin mode.  So on a
    driver whose two APIs do the same for the statement at hand, both
    modes return the same rows in the same order or raise the same
    exception, and leave the database in the same state; and the rows
    returned are all the rows [fetchall] delivers after [execute]. *)
Theorem execution_modes_agree {W} (drv : Oracledb W) (thick thin : DatabaseConnector)
    (cur : cursor) (q : sql) (ps : params) (st : state W) :
  thick_mode thick = true ->
  thick_mode thin = false ->
  (forall w, cursor_execute drv Blocking cur q ps w = cursor_execute drv Coroutine cur q ps w) ->
  (forall w, cursor_fetchall drv Blocking cur w = cursor_fetchall drv Coroutine cur w) ->
  let sync := _execute_cursor drv thick cur q ps st in
  let coop := _execute_cursor drv thin cur q ps st in
  sync.2 = coop.2
  /\ world sync.1 = world coop.1
  /\ (_execute_cursor_no_fetch drv thick cur q ps st).2
     = (_execute_cursor_no_fetch drv thin cur q ps st).2
  /\ world (_execute_cursor_no_fetch drv thick cur q ps st).1
     = world (_execute_cursor_no_fetch drv thin cur q ps st).1
  /\ (forall rs, coop.2 = inr rs ->
        exists w1, cursor_execute drv Coroutine cur q ps (world st) = (w1, inr tt)
                   /\ cursor_fetchall drv Coroutine cur w1 = (world coop.1, inr rs)).
Proof.
  intros Hthick Hthin Hexec Hfetch sync coop. subst sync coop.
  unfold _execute_cursor_no_fetch. rewrite !execute_cursor_run.
  unfold api_of, run_query, call. rewrite Hthick, Hthin. simpl. rewrite Hexec.
  destruct (cursor_execute drv Coroutine cur q ps (world st)) as [w1 [e | []]] eqn:E; simpl.
  - repeat split; intros; discriminate.
  - rewrite Hfetch.
    destruct (cursor_fetchall drv Coroutine cur w1) as [w2 r] eqn:F; simpl.
    repeat split. intros rs ->. by exists w1.
Qed.

(** C4 on the scripted driver, whose two APIs behave alike. *)
Lemma execution_modes_agree_witness :
  (_execute_cursor Fake.driver Fake.thick 7%nat SqlTabColumns []
     (Fake.fresh (Fake.scripted [inr [[CStr "ID"]; [CStr "NAME"]]]))).2
  = (_execute_cursor Fake.driver Fake.thin 7%nat SqlTabColumns []
       (Fake.fresh (Fake.scripted [inr [[CStr "ID"]; [CStr "NAME"]]]))).2.
Proof.
  apply (execution_modes_agree Fake.driver Fake.thick Fake.thin 7%nat SqlTabColumns []
           (Fake.fresh (Fake.scripted [inr [[CStr "ID"]; [CStr "NAME"]]]))); reflexivity.
Defined.

(** ** Schema catalog loader *)

Section Loader.

Context {W : Type} (drv : Oracledb W) (self : DatabaseConnector).

Lemma close_connection_returns conn (st : state W) :
  exists st', _close_connection drv self conn st = (st', inr tt).
Proof. destruct (close_connection_once drv self conn st) as (st' & H & _). eauto. Qed.

(** When the [try] block returns, so does the operation, with the same
    result. *)
Lemma scoped_returns {A} (m : M W A) handler conn st st1 a :
  m st = (st1, inr a) ->
  (try_finally (try_except m handler) (_close_connection drv self conn) st).2 = inr a.
Proof.
  intros H. unfold try_finally, try_except. rewrite H.
  destruct (close_connection_returns conn st1) as [st' ->]. done.
Qed.

Lemma load_table_details_absent table_name st st1 conn st2 cur st3 schema st4 :
  get_connection drv self st = (st1, inr conn) ->
  new_cursor drv conn st1 = (st2, inr cur) ->
  _get_effective_schema drv self conn st2 = (st3, inr schema) ->
  _execute_with_fallback drv self cur SqlObjectCheck SqlUserObjectCheck
    [("owner", bstr schema); ("object_name", bstr (upper table_name))] st3 = (st4, inr []) ->
  (load_table_details drv self table_name st).2 = inr None.
Proof.
  intros Hconn Hcur Hschema Hcheck. unfold load_table_details.
  rewrite (bind_run _ _ _ _ _ Hconn).
  apply scoped_returns with (st1 := st4). unfold load_table_details_body.
  rewrite (bind_run _ _ _ _ _ Hcur), (bind_run _ _ _ _ _ Hschema), (bind_run _ _ _ _ _ Hcheck).
  reflexivity.
Qed.

End Loader.

(** C8.  When the existence and type check of [load_table_details] yields
    no rows, the operation returns [None] and raises nothing; this
    includes the check that ran out of both tiers, the privileged and the
    restricted statement both refused with code 1031. *)
Theorem absent_object_is_not_an_error {W} (drv : Oracledb W) (self : DatabaseConnector)
    (table_name : string) (st st1 st2 st3 : state W) (conn : connection) (cur : cursor)
    (schema : string) :
  get_connection drv self st = (st1, inr conn) ->
  new_cursor drv conn st1 = (st2, inr cur) ->
  _get_effective_schema drv self conn st2 = (st3, inr schema) ->
  let ps := [("owner", bstr schema); ("object_name", bstr (upper table_name))] in
  (forall st4,
      _execute_with_fallback drv self cur SqlObjectCheck SqlUserObjectCheck ps st3
      = (st4, inr []) ->
      (load_table_details drv self table_name st).2 = inr None)
  /\ (forall m w1 m' w2,
      run_query drv (api_of self) cur SqlObjectCheck ps (world st3)
      = (w1, inl (DatabaseError 1031 m)) ->
      run_query drv (api_of self) cur SqlUserObjectCheck ps w1
      = (w2, inl (DatabaseError 1031 m')) ->
      (load_table_details drv self table_name st).2 = inr None).
Proof.
  intros Hconn Hcur Hschema ps. split.
  - intros st4 Hcheck. eapply load_table_details_absent; eauto.
  - intros m w1 m' w2 H1 H2.
    pose proof (fallback_exhausted drv self cur SqlObjectCheck SqlUserObjectCheck ps st3
                  m w1 m' w2 H1 H2) as Hempty.
    destruct (_execute_with_fallback drv self cur SqlObjectCheck SqlUserObjectCheck ps st3)
      as [st4 r] eqn:E.
    simpl in Hempty. subst r. eapply load_table_details_absent; eauto.
Qed.

(** C8 on the scripted driver: a check without rows, and a check refused
    on both tiers. *)
Lemma absent_object_is_not_an_error_witness :
  let denied := inl (DatabaseError 1031 "ORA-01031: insufficient privileges") in
  (load_table_details Fake.driver Fake.thin "no_such_table"
     (Fake.fresh (Fake.scripted [inr []]))).2 = inr None
  /\ (load_table_details Fake.driver Fake.thin "no_such_table"
        (Fake.fresh (Fake.scripted [denied; denied]))).2 = inr None.
Proof.
  intros denied. split.
  - eapply (proj1 (absent_object_is_not_an_error Fake.driver Fake.thin "no_such_table"
                     (Fake.fresh (Fake.scripted [inr []])) _ _ _ _ _ _
                     eq_refl eq_refl eq_refl)).
    reflexivity.
  - eapply (proj2 (absent_object_is_not_an_error Fake.driver Fake.thin "no_such_table"
                     (Fake.fresh (Fake.scripted [denied; denied])) _ _ _ _ _ _
                     eq_refl eq_refl eq_refl)); reflexivity.
Defined.

(** ** Database information *)

Section DatabaseInfo.

Context {W : Type} (drv : Oracledb W) (self : DatabaseConnector).

Lemma get_database_info_no_rows st st1 conn st2 cur (st3 : state W) :
  get_connection drv self st = (st1, inr conn) ->
  new_cursor drv conn st1 = (st2, inr cur) ->
  _execute_cursor drv self cur SqlVersion [] st2 = (st3, inr []) ->
  (get_database_info drv self st).2 = inr ∅.
Proof.
  intros Hconn Hcur Hver. unfold get_database_info.
  rewrite (bind_run _ _ _ _ _ Hconn).
  apply scoped_returns with (st1 := st3).
  by rewrite (bind_run _ _ _ _ _ Hcur), (bind_run _ _ _ _ _ Hver).
Qed.

Lemma get_database_info_raised st st1 conn st2 cur (st3 : state W) e d :
  get_connection drv self st = (st1, inr conn) ->
  new_cursor drv conn st1 = (st2, inr cur) ->
  _execute_cursor drv self cur SqlVersion [] st2 = (st3, inl e) ->
  (get_database_info drv self st).2 = inr d ->
  d !! "schema" = None.
Proof.
  intros Hconn Hcur Hver. unfold get_database_info.
  rewrite (bind_run _ _ _ _ _ Hconn). unfold try_finally, try_except.
  rewrite (bind_run _ _ _ _ _ Hcur), (bind_raise _ _ _ _ _ Hver).
  destruct (is_oracledb_Error e).
  - unfold bind_, print, emit, ret.
    destruct (close_connection_returns drv self conn
                (log (EvPrint ("Error getting database info: " +:+ str_exn e)) st3))
      as [st' ->].
    simpl. intros [= <-]. by rewrite !lookup_insert_ne, lookup_empty.
  - destruct (close_connection_returns drv self conn st3) as [st' ->]. discriminate.
Qed.

End DatabaseInfo.

(** C10.  In [get_database_info], once the connection and the cursor are
    there: when the version statement returns no rows and does not raise,
    the result is the empty mapping, without [vendor], [version] or
    [schema]; and a result that has the [schema] key, as the record
    [{vendor, version, schema}] does, comes only from a version statement
    that returned at least one row. *)
Theorem no_version_rows_no_record {W} (drv : Oracledb W) (self : DatabaseConnector)
    (st st1 st2 st3 : state W) (conn : connection) (cur : cursor) (r : outcome rows) :
  get_connection drv self st = (st1, inr conn) ->
  new_cursor drv conn st1 = (st2, inr cur) ->
  _execute_cursor drv self cur SqlVersion [] st2 = (st3, r) ->
  let result := (get_database_info drv self st).2 in
  (r = inr [] ->
   result = inr ∅
   /\ forall d, result = inr d ->
        d !! "vendor" = None /\ d !! "version" = None /\ d !! "schema" = None)
  /\ (forall d, result = inr d -> d !! "schema" <> None ->
        exists first rest, r = inr (first :: rest)).
Proof.
  intros Hconn Hcur Hver result.
  split.
  - intros ->.
    assert (result = inr ∅) as Hres by (eapply get_database_info_no_rows; eauto).
    split; [done |]. rewrite Hres. intros d [= <-]. by rewrite !lookup_empty.
  - intros d Hd Hschema. destruct r as [e | [| first rest]]; [| | by eauto].
    + exfalso. apply Hschema. eapply get_database_info_raised; eauto.
    + exfalso. apply Hschema.
      assert (result = inr ∅) as Hres by (eapply get_database_info_no_rows; eauto).
      rewrite Hres in Hd. injection Hd as <-. apply lookup_empty.
Qed.

(** C10 on the scripted driver: a version statement without rows. *)
Lemma no_version_rows_no_record_witness :
  (get_database_info Fake.driver Fake.thin (Fake.fresh (Fake.scripted [inr []]))).2 = inr ∅.
Proof.
  eapply (proj1 (no_version_rows_no_record Fake.driver Fake.thin
                   (Fake.fresh (Fake.scripted [inr []])) _ _ _ _ _ _
                   eq_refl eq_refl eq_refl)).
  reflexivity.
Defined.

(** ** Views *)

Section Views.

Context {W : Type} (drv : Oracledb W) (self : DatabaseConnector).

Lemma filter_new_events_nil (f : event -> bool) (st st' : state W) :
  grows (fun ev => f ev = false) st st' -> List.filter f (new_events st st') = [].
Proof.
  intros H. apply grows_new_events in H as [_ F].
  induction F as [| ev evs Hev _ IH]; [done |]. simpl. by rewrite Hev.
Qed.

Ltac grown H :=
  match type of H with
  | ?m ?st = (?st', _) =>
      let Hq := fresh "Hq" in
      let G := fresh "G" in
      assert (emits not_relationship_query m) as Hq by body_quiet;
      pose proof (Hq _ _ _ H) as G; clear Hq
  end.

Lemma view_body conn table_name (st st' : state W) d :
  load_table_details_body drv self conn table_name st = (st', inr (Some d)) ->
  object_type d = CStr "VIEW" ->
  relationships d = [] /\ grows not_relationship_query st st'.
Proof.
  unfold load_table_details_body. intros H Hview.
  apply bind_inr in H as (s1 & cur & Hcur & H). grown Hcur.
  apply bind_inr in H as (s2 & schema & Hschema & H). grown Hschema.
  apply bind_inr in H as (s3 & object_info & Hinfo & H). grown Hinfo.
  destruct object_info as [| first rest]; [discriminate |].
  apply bind_inr in H as (s4 & otype & Hotype & H). grown Hotype.
  apply bind_inr in H as (s5 & cols & Hcols & H). grown Hcols.
  apply bind_inr in H as (s6 & col_infos & Hinfos & H). grown Hinfos.
  apply bind_inr in H as (s7 & rels & Hrels & H).
  injection H as <- <-. simpl in Hview. subst otype. simpl in Hrels.
  injection Hrels as <- <-. split; [done |].
  repeat (eapply grows_trans; [eassumption |]). apply grows_refl.
Qed.

End Views.

(** C7.  Whenever [load_table_details] returns the details of an object
    whose existence check gave the type VIEW, the relationship mapping of
    the result is empty, and the run has not sent the relationship
    statement to the database: whatever constraint rows the catalog holds
    are never looked at. *)
Theorem views_have_no_relationships {W} (drv : Oracledb W) (self : DatabaseConnector)
    (table_name : string) (st st' : state W) (d : table_detail) :
  load_table_details drv self table_name st = (st', inr (Some d)) ->
  object_type d = CStr "VIEW" ->
  relationships d = []
  /\ List.filter (executes SqlRelationships) (new_events st st') = [].
Proof.
  unfold load_table_details. intros H Hview.
  apply bind_inr in H as (s1 & conn & Hconn & H).
  apply try_finally_inr in H as (s2 & Hbody & Hclose).
  assert (load_table_details_body drv self conn table_name s1 = (s2, inr (Some d))) as Hb.
  { revert Hbody. unfold try_except.
    destruct (load_table_details_body drv self conn table_name s1) as [sb [e | a]];
      [| by intros [= <- <-]].
    destruct (is_oracledb_Error e); [| discriminate].
    unfold bind_, print, emit, raise. discriminate. }
  destruct (view_body drv self conn table_name s1 s2 d Hb Hview) as [Hrel G].
  split; [exact Hrel |].
  apply filter_new_events_nil.
  assert (emits not_relationship_query (get_connection drv self)) as Q1 by quiet.
  assert (emits not_relationship_query (_close_connection drv self conn)) as Q2
      by (unfold _close_connection; quiet).
  eapply grows_trans; [eapply Q1; eauto |].
  eapply grows_trans; [exact G | eapply Q2; eauto].
Qed.

(** C7 on the catalog: the view V_ORDERS carries a foreign key constraint,
    and its details come without relationships. *)
Lemma views_have_no_relationships_witness :
  exists st' d,
    load_table_details Oracle.driver Oracle.connector "v_orders" (Oracle.session Oracle.shop)
    = (st', inr (Some d))
    /\ object_type d = CStr "VIEW"
    /\ relationships d = [].
Proof.
  set (run := load_table_details Oracle.driver Oracle.connector "v_orders"
                (Oracle.session Oracle.shop)).
  let v := eval vm_compute in run in
  match v with
  | (?s, inr (Some ?d)) =>
      assert (run = (s, inr (Some d))) as E by (vm_compute; reflexivity);
      exists s, d; split; [exact E |]; split; [reflexivity |];
      exact (proj1 (views_have_no_relationships Oracle.driver Oracle.connector "v_orders"
                      (Oracle.session Oracle.shop) s d E eq_refl))
  end.
Defined.

(** ** Relationship graph *)

Section Catalog.

Context (self : DatabaseConnector).

Lemma column_of_names (names : list string) acc (st : state Oracle.db) :
  for_each (map (fun t => [CStr t]) names) acc
    (fun r acc => c <- index r 0 ;; ret (acc ++ [c])) st
  = (st, inr (acc ++ map CStr names)).
Proof.
  revert acc. induction names as [| t names IH]; intros acc; simpl.
  - by rewrite app_nil_r.
  - unfold bind_ at 1. simpl. rewrite IH. by rewrite <- List.app_assoc.
Qed.

Lemma catalog_connection (st : state Oracle.db) :
  exists st', get_connection Oracle.driver self st = (st', inr 1%nat).
Proof.
  unfold get_connection, initialize_pool, acquire_or_report, pool_acquire_call,
    try_except, bind_, get_pool, call, set_pool, print, emit.
  destruct (_pool st) eqn:E; simpl; rewrite ?E; simpl; eauto.
Qed.

Lemma catalog_schema conn (st : state Oracle.db) :
  exists schema, _get_effective_schema Oracle.driver self conn st = (st, inr schema).
Proof.
  unfold _get_effective_schema, username_upper.
  destruct (target_schema self) as [s |]; [destruct (String.eqb s "") |]; simpl; eauto.
Qed.

Lemma raises_through_finally {A} (m : M Oracle.db A) conn st e :
  (exists st1, m st = (st1, inl e)) ->
  (try_finally m (_close_connection Oracle.driver self conn) st).2 = inl e.
Proof.
  intros [st1 H]. unfold try_finally. rewrite H.
  by destruct (close_connection_returns Oracle.driver self conn st1) as [st' ->].
Qed.

(** On the catalog, [get_related_tables] never gets to its [return]: its
    second statement is rejected, whatever the catalog holds and whatever
    table is asked for. *)
Lemma get_related_tables_always_raises (st : state Oracle.db) (table_name : string) :
  (get_related_tables Oracle.driver self table_name st).2 = inl Oracle.ORA_00904.
Proof.
  unfold get_related_tables.
  destruct (catalog_connection st) as [st1 Hconn].
  rewrite (bind_run _ _ _ _ _ Hconn).
  apply raises_through_finally.
  unfold new_cursor at 1. unfold bind_ at 1, call at 1. simpl.
  match goal with
  | |- exists _, bind_ _ _ ?s = _ => destruct (catalog_schema 1%nat s) as [schema Hs]
  end.
  rewrite (bind_run _ _ _ _ _ Hs).
  unfold bind_ at 1. rewrite execute_cursor_run. unfold run_query. simpl.
  unfold Oracle.referenced_rows, column. unfold bind_ at 1. rewrite column_of_names.
  unfold bind_ at 1. rewrite execute_cursor_run. eexists. reflexivity.
Qed.

End Catalog.

(** C3, at a failing input.  On the catalog where ORDERS.CUSTOMER_ID
    references CUSTOMERS.ID, [load_table_details] of ORDERS reports the
    OUTGOING edge to CUSTOMERS on (CUSTOMER_ID, ID), while
    [get_related_tables] returns neither for ORDERS nor for CUSTOMERS: the
    second statement it sends is rejected with ORA-00904, and the error
    propagates.  That statement names columns of [ac] and, unlike the first
    one, never brings [all_constraints] in under that name. *)
Theorem related_tables_rejected :
  let run {A} (op : DatabaseConnector -> string -> M Oracle.db A) name :=
    (op Oracle.connector name (Oracle.session Oracle.shop)).2 in
  (exists d,
      run (load_table_details Oracle.driver) "ORDERS" = inr (Some d)
      /\ relationships d
         = [(CStr "CUSTOMERS",
             [{| local_column := CStr "CUSTOMER_ID"; foreign_column := CStr "ID";
                 direction := CStr "OUTGOING" |}])])
  /\ run (get_related_tables Oracle.driver) "ORDERS" = inl Oracle.ORA_00904
  /\ run (get_related_tables Oracle.driver) "CUSTOMERS" = inl Oracle.ORA_00904
  /\ contains "ac.r_constraint_name" SqlReferencingTables = true
  /\ contains "all_constraints ac" SqlReferencingTables = false
  /\ contains "all_constraints ac" SqlReferencedTables = true.
Proof.
  intros run. subst run. split_and!.
  - eexists. split; vm_compute; reflexivity.
  - apply get_related_tables_always_raises.
  - apply get_related_tables_always_raises.
  - by vm_compute.
  - by vm_compute.
  - by vm_compute.
Qed.

(** ** Case normalization of names *)

Section Normalized.

Context {W : Type} (drv : Oracledb W) (self : DatabaseConnector).

(** The operations that uppercase the table name they are given do the
    same for a name and for its uppercase form. *)
Lemma load_table_details_body_normalizes conn name :
  load_table_details_body drv self conn (upper name)
  = load_table_details_body drv self conn name.
Proof. unfold load_table_details_body. by rewrite upper_idempotent. Qed.

Lemma get_table_constraints_normalizes name :
  get_table_constraints drv self (upper name) = get_table_constraints drv self name.
Proof. unfold get_table_constraints. by rewrite upper_idempotent. Qed.

Lemma get_table_indexes_normalizes name :
  get_table_indexes drv self (upper name) = get_table_indexes drv self name.
Proof. unfold get_table_indexes. by rewrite upper_idempotent. Qed.

Lemma get_related_tables_normalizes name :
  get_related_tables drv self (upper name) = get_related_tables drv self name.
Proof. unfold get_related_tables. by rewrite upper_idempotent. Qed.

End Normalized.

(** C9, at a failing input.  [get_dependent_objects] binds the object name
    as it was given: on the catalog where the view V_ORDERS depends on
    ORDERS, the name [orders] finds nothing and its uppercase form finds
    the view.  [get_object_source] binds the name as given too: the
    statement it sends for [pkg] carries [pkg]. *)
Theorem object_names_not_normalized :
  upper "orders" = "ORDERS"
  /\ (get_dependent_objects Oracle.driver Oracle.connector "orders"
        (Oracle.session Oracle.shop)).2 = inr []
  /\ (get_dependent_objects Oracle.driver Oracle.connector (upper "orders")
        (Oracle.session Oracle.shop)).2
     = inr [{| dep_name := CStr "V_ORDERS"; dep_type := CStr "VIEW"; dep_owner := CStr "SHOP" |}]
  /\ In (EvExecute Coroutine 7%nat SqlSource
           [("owner", bstr "SCOTT"); ("name", bstr "pkg"); ("type", bstr "PACKAGE")])
        (trace (get_object_source Fake.driver Fake.thin "PACKAGE" "pkg"
                  (Fake.fresh (Fake.scripted []))).1).
Proof.
  split; [reflexivity |]. split; [vm_compute; reflexivity |].
  split; [vm_compute; reflexivity |]. vm_compute. tauto.
Qed.

(** ** [SequenceMatcher] always answers *)

Section DifflibFacts.

Variables a b : list string.

Local Open Scope Z_scope.

Lemma scan_row_bounds alo i blo bhi j2len js newj2len best :
  alo <= i ->
  lengths_below alo i j2len ->
  lengths_below alo (i + 1) newj2len ->
  within alo (i + 1) best ->
  lengths_below alo (i + 1) (Difflib.scan_row i blo bhi j2len js newj2len best).1
  /\ within alo (i + 1) (Difflib.scan_row i blo bhi j2len js newj2len best).2.
Proof.
  intros Hi Hold. revert newj2len best.
  induction js as [| j js IH]; intros newj2len best Hnew Hbest; simpl; [done |].
  destruct (Z.ltb j blo); [by apply IH |].
  destruct (Z.leb bhi j); [done |].
  destruct best as [[bi bj] bk].
  assert (1 <= default 0 (j2len !! (j - 1)) + 1 <= i + 1 - alo) as Hk.
  { destruct (j2len !! (j - 1)) as [v |] eqn:E; simpl; [| lia].
    specialize (Hold _ _ E). lia. }
  apply IH.
  - intros j' v. rewrite lookup_insert. case_decide; [| by apply Hnew].
    intros [= <-]. exact Hk.
  - destruct (Z.ltb bk _); [| done]. unfold within. simpl. lia.
Qed.

Lemma scan_rows_bounds b2j alo ahi blo bhi n : forall i j2len best,
  alo <= i ->
  i + Z.of_nat n = ahi ->
  lengths_below alo i j2len ->
  within alo i best ->
  within alo ahi (Difflib.scan_rows a b2j blo bhi (seqZ i (Z.of_nat n)) j2len best).
Proof.
  induction n as [| n IH]; intros i j2len best Hi Hn Hlen Hbest.
  - simpl. replace ahi with i by lia. done.
  - rewrite seqZ_cons by lia. simpl.
    destruct (Difflib.scan_row i blo bhi j2len (Difflib.positions a b2j i) ∅ best)
      as [newj2len best'] eqn:E.
    pose proof (scan_row_bounds alo i blo bhi j2len (Difflib.positions a b2j i) ∅ best
                  Hi Hlen) as Hrow.
    rewrite E in Hrow. simpl in Hrow.
    destruct Hrow as [Hnew Hbest'].
    { intros j v. by rewrite lookup_empty. }
    { destruct Hbest as (? & ? & ?). unfold within. lia. }
    replace (Z.pred (Z.of_nat (S n))) with (Z.of_nat n) by lia.
    apply IH; [lia | lia | |].
    + replace (Z.succ i) with (i + 1) by lia. done.
    + replace (Z.succ i) with (i + 1) by lia. done.
Qed.

Lemma extend_left_bounds fuel alo blo e best :
  within alo e best -> within alo e (Difflib.extend_left a b fuel alo blo best).
Proof.
  revert best. induction fuel as [| fuel IH]; intros [[bi bj] bk] H; simpl; [done |].
  destruct (Z.ltb_spec alo bi); simpl; [| done].
  destruct (Z.ltb blo bj && Difflib.same_at a b (bi - 1) (bj - 1)); [| done].
  apply IH. destruct H as (? & ? & ?). unfold within in *. simpl in *. lia.
Qed.

Lemma extend_right_bounds fuel alo ahi bhi best :
  within alo ahi best -> within alo ahi (Difflib.extend_right a b fuel ahi bhi best).
Proof.
  revert best. induction fuel as [| fuel IH]; intros [[bi bj] bk] H; simpl; [done |].
  destruct (Z.ltb_spec (bi + bk) ahi); simpl; [| done].
  destruct (Z.ltb (bj + bk) bhi && Difflib.same_at a b (bi + bk) (bj + bk)); [| done].
  apply IH. destruct H as (? & ? & ?). unfold within in *. simpl in *. lia.
Qed.

(** The longest match found lies inside the window it was looked for in. *)
Lemma find_longest_match_bounds b2j alo ahi blo bhi :
  alo <= ahi ->
  within alo ahi (Difflib.find_longest_match a b b2j alo ahi blo bhi).
Proof.
  intros H. unfold Difflib.find_longest_match.
  apply extend_right_bounds, extend_left_bounds.
  replace (ahi - alo) with (Z.of_nat (Z.to_nat (ahi - alo))) by lia.
  apply scan_rows_bounds; [lia | lia | |].
  - intros j v. by rewrite lookup_empty.
  - unfold within. simpl. lia.
Qed.

Lemma blocks_loop_total b2j fuel : forall queue blocks,
  Forall well_formed queue ->
  (queue_cost queue <= fuel)%nat ->
  is_Some (Difflib.blocks_loop a b fuel b2j queue blocks).
Proof.
  induction fuel as [| fuel IH]; intros queue blocks Hwf Hcost.
  - destruct queue as [| [[[alo ahi] blo] bhi] queue]; simpl; [eauto |].
    simpl in Hcost. lia.
  - destruct queue as [| [[[alo ahi] blo] bhi] queue]; simpl; [eauto |].
    apply Forall_cons in Hwf as [Hwin Hwf]. simpl in Hwin, Hcost.
    pose proof (find_longest_match_bounds b2j alo ahi blo bhi Hwin) as Hin.
    destruct (Difflib.find_longest_match a b b2j alo ahi blo bhi) as [[i j] k].
    destruct Hin as (Hlo & Hhi & Hk). simpl in Hlo, Hhi, Hk.
    destruct (Z.eqb_spec k 0) as [-> | Hnz]; [apply IH; [done | lia] |].
    apply IH.
    + destruct (Z.ltb_spec (i + k) ahi); simpl;
        destruct (Z.ltb_spec alo i); simpl;
        repeat (destruct (Z.ltb _ _); simpl);
        repeat (apply Forall_cons; split); try done; simpl; lia.
    + destruct (Z.ltb_spec (i + k) ahi); simpl;
        destruct (Z.ltb_spec alo i); simpl;
        repeat (destruct (Z.ltb _ _); simpl); lia.
Qed.

Lemma get_matching_blocks_total : is_Some (Difflib.get_matching_blocks a b).
Proof.
  unfold Difflib.get_matching_blocks.
  destruct (blocks_loop_total (Difflib.chain_b b) (Difflib.queue_fuel a)
              [(0, Z.of_nat (length a), 0, Z.of_nat (length b))] []) as [blocks ->].
  - repeat constructor. simpl. lia.
  - unfold Difflib.queue_fuel. simpl. lia.
  - eauto.
Qed.

Lemma ratio_total : is_Some (Difflib.ratio a b).
Proof.
  unfold Difflib.ratio. destruct get_matching_blocks_total as [blocks ->]. eauto.
Qed.

End DifflibFacts.

(** ** Similarity ranker *)

Lemma sequence_ratio_total item term :
  sequence_ratio item term = Some (_calculate_similarity item term).
Proof.
  unfold sequence_ratio, _calculate_similarity.
  by destruct (ratio_total (chars (upper item)) (chars (upper term))) as [q ->].
Qed.

Lemma insert_desc_perm x l : insert_desc x l ≡ₚ x :: l.
Proof.
  induction l as [| y l IH]; simpl; [done |].
  destruct (Qle_bool (snd y) (snd x)); [done |].
  rewrite IH. apply Permutation_swap.
Qed.

Lemma sort_desc_perm l : sort_desc l ≡ₚ l.
Proof.
  induction l as [| x l IH]; simpl; [done |].
  by rewrite insert_desc_perm, IH.
Qed.

Lemma insert_desc_sorted x l :
  StronglySorted descending l -> StronglySorted descending (insert_desc x l).
Proof.
  induction 1 as [| y l Hsorted IH Hall]; simpl.
  - repeat constructor.
  - destruct (Qle_bool (snd y) (snd x)) eqn:E.
    + apply Qle_bool_iff in E. constructor; [by constructor |].
      constructor; [exact E |].
      eapply Forall_impl; [exact Hall |]. intros z Hz. unfold descending in *.
      eapply Qle_trans; eauto.
    + constructor; [exact IH |].
      assert (descending y x) as Hyx.
      { unfold descending. apply Qlt_le_weak, Qnot_le_lt.
        intros H. apply Qle_bool_iff in H. congruence. }
      rewrite insert_desc_perm. by constructor.
Qed.

Lemma sort_desc_sorted l : StronglySorted descending (sort_desc l).
Proof.
  induction l as [| x l IH]; simpl; [constructor | by apply insert_desc_sorted].
Qed.

(** The sort is stable: among entries of one score, the order is that of
    the list sorted. *)
Lemma insert_desc_stable q x l : with_score q (insert_desc x l) = with_score q (x :: l).
Proof.
  induction l as [| y l IH]; [done |]. simpl.
  destruct (Qle_bool (snd y) (snd x)) eqn:E; [done |].
  unfold with_score in *. simpl in *. rewrite IH.
  destruct (Qeq_bool (snd y) q) eqn:Ey; [| done].
  destruct (Qeq_bool (snd x) q) eqn:Ex; [| done].
  apply Qeq_bool_iff in Ex, Ey.
  assert (Qle_bool (snd y) (snd x) = true); [| congruence].
  apply Qle_bool_iff. rewrite Ex, Ey. apply Qle_refl.
Qed.

Lemma sort_desc_stable q l : with_score q (sort_desc l) = with_score q l.
Proof.
  induction l as [| x l IH]; [done |]. simpl.
  rewrite insert_desc_stable. unfold with_score in *. simpl. by rewrite IH.
Qed.

(** Who is kept, and with what score. *)
Lemma scored_spec items term threshold item score :
  In (item, score) (scored items term threshold) <->
  In item items
  /\ ((contains (upper term) (upper item) = true /\ score = 1%Q)
      \/ (contains (upper term) (upper item) = false
          /\ score = _calculate_similarity item term
          /\ Qle_bool threshold score = true)).
Proof.
  induction items as [| x items IH]; simpl; [tauto |].
  destruct (contains (upper term) (upper x)) eqn:Ec; simpl.
  - rewrite IH. split.
    + intros [[= <- <-] | [? ?]]; [| tauto]. split; [by left |]. left. done.
    + intros [[<- | Hin] Hcase].
      * destruct Hcase as [[_ ->] | [Hno _]]; [by left | congruence].
      * right. tauto.
  - destruct (Qle_bool threshold (_calculate_similarity x term)) eqn:Et; simpl.
    + rewrite IH. split.
      * intros [[= <- <-] | [? ?]]; [| tauto]. split; [by left |]. right. done.
      * intros [[<- | Hin] Hcase].
        -- destruct Hcase as [[Hyes _] | (_ & -> & _)]; [congruence | by left].
        -- right. tauto.
    + rewrite IH. split; [tauto |].
      intros [[<- | Hin] Hcase]; [| tauto].
      destruct Hcase as [[Hyes _] | (_ & -> & Hle)]; congruence.
Qed.

(** The candidates kept are in input order. *)
Lemma scored_in_input_order items term threshold :
  sublist (map fst (scored items term threshold)) items.
Proof.
  induction items as [| x items IH]; simpl; [constructor |].
  destruct (contains (upper term) (upper x)); simpl; [by constructor |].
  destruct (Qle_bool threshold (_calculate_similarity x term)); simpl; by constructor.
Qed.

(** ** Pool initialization *)

Section PoolInit.

Context {W : Type} (drv : Oracledb W) (self : DatabaseConnector).

Local Open Scope nat_scope.

Lemma constructed_app tr evs :
  Tasks.constructed (tr ++ evs) = Tasks.constructed tr + Tasks.constructed evs.
Proof. unfold Tasks.constructed. by rewrite List.filter_app, length_app. Qed.

Lemma attempts_app tr evs :
  Tasks.attempts (tr ++ evs) = Tasks.attempts tr + Tasks.attempts evs.
Proof. unfold Tasks.attempts. by rewrite List.filter_app, length_app. Qed.

Lemma constructed_app_eq tr tr' evs :
  tr' = tr ++ evs -> Tasks.constructed tr' = Tasks.constructed tr + Tasks.constructed evs.
Proof. intros ->. apply constructed_app. Qed.

Lemma attempts_app_eq tr tr' evs :
  tr' = tr ++ evs -> Tasks.attempts tr' = Tasks.attempts tr + Tasks.attempts evs.
Proof. intros ->. apply attempts_app. Qed.

Lemma failures_app tr evs :
  Tasks.failures (tr ++ evs) = Tasks.failures tr + Tasks.failures evs.
Proof. unfold Tasks.failures. by rewrite List.filter_app, length_app. Qed.

Lemma failures_app_eq tr tr' evs :
  tr' = tr ++ evs -> Tasks.failures tr' = Tasks.failures tr + Tasks.failures evs.
Proof. intros ->. apply failures_app. Qed.

Lemma configured_app tr evs :
  configured self tr -> configured self evs -> configured self (tr ++ evs).
Proof. apply Forall_app_2. Qed.

(** What [initialize_pool] does to the shared state. *)
Lemma initialize_pool_cases (st : state W) :
  let '(st', r) := initialize_pool drv self st in
  exists evs,
    trace st' = trace st ++ evs /\ configured self evs
    /\ match _pool st with
       | Some p => st' = st /\ r = inr tt /\ evs = []
       | None =>
           Tasks.attempts evs = 1
           /\ Tasks.failures evs = (match r with inl _ => 1 | inr _ => 0 end)
           /\ match r with
              | inr _ =>
                  is_Some (_pool st') /\ Tasks.constructed evs = 1
                  /\ is_Some (match (create_pool drv (api_of self) (connection_string self)
                                       2 10 1 POOL_GETMODE_WAIT (world st)).2 with
                              | inr p => Some p
                              | inl _ => None
                              end)
              | inl e =>
                  _pool st' = None /\ Tasks.constructed evs = 0
                  /\ (create_pool drv (api_of self) (connection_string self) 2 10 1
                        POOL_GETMODE_WAIT (world st)).2 = inl e
              end
       end.
Proof.
  unfold initialize_pool, bind_ at 1, get_pool.
  destruct (_pool st) as [p |] eqn:Hp.
  - exists []. rewrite app_nil_r. repeat split. constructor.
  - unfold try_except, bind_, call, set_pool, print, emit, log, raise. simpl.
    destruct (create_pool drv (api_of self) (connection_string self) 2 10 1
                POOL_GETMODE_WAIT (world st)) as [w' [e | p]]; simpl.
    + eexists. rewrite <- List.app_assoc. split; [reflexivity |].
      split_and!; try done; try reflexivity.
      * repeat constructor; try done.
      * unfold Tasks.failures. simpl. by destruct (str_exn e).
    + eexists. rewrite <- List.app_assoc. split; [reflexivity |].
      split_and!; try done; try reflexivity; eauto.
      repeat constructor; try done.
Qed.

(** The acquisition constructs nothing and leaves [_pool] alone. *)
Lemma acquire_or_report_cases (st : state W) :
  let '(st', r) := acquire_or_report drv self st in
  exists evs,
    trace st' = trace st ++ evs /\ _pool st' = _pool st
    /\ configured self evs /\ Tasks.attempts evs = 0 /\ Tasks.constructed evs = 0
    /\ Tasks.failures evs = 0.
Proof.
  unfold acquire_or_report, try_except, pool_acquire_call, bind_, get_pool, call, print,
    emit, log, raise.
  destruct (_pool st) as [p |] eqn:Hp; simpl.
  - destruct (pool_acquire drv (api_of self) p (world st)) as [w' [e | c]]; simpl.
    + eexists. rewrite <- List.app_assoc. split; [reflexivity |].
      split_and!; try done; try reflexivity. repeat constructor; done.
    + eexists. split; [reflexivity |].
      split_and!; try done; try reflexivity. repeat constructor; done.
  - eexists. split; [reflexivity |]. rewrite Hp.
    split_and!; try done; try reflexivity. repeat constructor; done.
Qed.

Lemma count_pc_insert f (l : list Tasks.pc) t old new :
  l !! t = Some old ->
  count_pc f (<[t := new]> l) + (if f old then 1 else 0)
  = count_pc f l + (if f new then 1 else 0).
Proof.
  unfold count_pc. revert t. induction l as [| x l IH]; intros [| t] H; simpl in *;
    try discriminate.
  - injection H as ->. destruct (f old), (f new); simpl; lia.
  - specialize (IH t H). destruct (f x); simpl; lia.
Qed.

Lemma insert_lookup_cases (l : list Tasks.pc) t new t' p :
  <[t := new]> l !! t' = Some p -> p = new \/ l !! t' = Some p.
Proof.
  intros H. destruct (decide (t = t')) as [<- | Hne].
  - destruct (decide (t < length l)) as [Hlt | Hge].
    + rewrite list_lookup_insert_eq in H by done. left. congruence.
    + rewrite list_insert_ge in H by lia. by right.
  - rewrite list_lookup_insert_ne in H by done. by right.
Qed.

Lemma pool_invariant_init (w : W) n : pool_invariant self (Tasks.init w n).
Proof.
  unfold pool_invariant, Tasks.init. simpl. split_and!.
  - done.
  - unfold count_pc. induction n; simpl; done.
  - intros t p H. apply lookup_replicate in H as [-> _]. discriminate.
  - constructor.
  - unfold Tasks.attempts. simpl. lia.
  - done.
Qed.

Ltac tally :=
  unfold Tasks.constructed, Tasks.attempts, Tasks.failures in *; simpl in *; lia.

Lemma pool_invariant_step t (m : Tasks.machine W) :
  pool_invariant self m -> pool_invariant self (Tasks.step drv self t m).
Proof.
  intros (Hcons & Hlock & Hpassed & Hconf & Hatt & Hsum). unfold Tasks.step.
  destruct (Tasks.tasks m !! t) as [[| | | | r] |] eqn:Ht; try done.
  - (* AtCheck *)
    pose proof (count_pc_insert in_lock _ _ _
                  (match _pool (Tasks.shared m) with
                   | Some _ => Tasks.AtAcquire | None => Tasks.AtLock end) Ht) as Hc1.
    pose proof (count_pc_insert past_lock _ _ _
                  (match _pool (Tasks.shared m) with
                   | Some _ => Tasks.AtAcquire | None => Tasks.AtLock end) Ht) as Hc2.
    unfold pool_invariant. simpl in *. split_and!; try done.
    + destruct (_pool (Tasks.shared m)); simpl in *; lia.
    + intros t' p H Hp. apply insert_lookup_cases in H as [-> | H]; [| eauto].
      destruct (_pool (Tasks.shared m)); [eauto | discriminate].
    + destruct (_pool (Tasks.shared m)); simpl in *; lia.
  - (* AtLock *)
    destruct (Tasks.locked m) eqn:Hl; [by split_and!; rewrite ?Hl |].
    pose proof (count_pc_insert in_lock _ _ _ Tasks.InLock Ht) as Hc1.
    pose proof (count_pc_insert past_lock _ _ _ Tasks.InLock Ht) as Hc2.
    unfold pool_invariant. simpl in *. split_and!; try done; try lia.
    intros t' p H Hp. apply insert_lookup_cases in H as [-> | H]; [discriminate | eauto].
  - (* InLock *)
    pose proof (initialize_pool_cases (Tasks.shared m)) as Hinit.
    destruct (initialize_pool drv self (Tasks.shared m)) as [st' r].
    destruct Hinit as (evs & Htr & Hevs & Hcase).
    assert (Tasks.locked m = true) as Hl.
    { destruct (Tasks.locked m); [done |]. exfalso.
      unfold count_pc in Hlock.
      assert (In Tasks.InLock (List.filter in_lock (Tasks.tasks m))) as Hin.
      { apply List.filter_In. split; [| done].
        apply list_elem_of_In. eapply list_elem_of_lookup_2; eauto. }
      destruct (List.filter in_lock (Tasks.tasks m)); [destruct Hin | simpl in Hlock; lia]. }
    pose proof (count_pc_insert in_lock _ _ _
                  (match r with inr _ => Tasks.AtAcquire | inl e => Tasks.Finished (inl e) end)
                  Ht) as Hc1.
    pose proof (count_pc_insert past_lock _ _ _
                  (match r with inr _ => Tasks.AtAcquire | inl e => Tasks.Finished (inl e) end)
                  Ht) as Hc2.
    rewrite Hl in Hlock.
    assert (configured self (trace st')) as Hconf' by (rewrite Htr; by apply configured_app).
    unfold pool_invariant. simpl.
    rewrite (constructed_app_eq _ _ _ Htr), (attempts_app_eq _ _ _ Htr),
      (failures_app_eq _ _ _ Htr).
    destruct (_pool (Tasks.shared m)) as [p |] eqn:Hp.
    + destruct Hcase as (-> & -> & ->). rewrite Hp.
      split_and!; [tally | simpl in *; lia | eauto | done | tally | tally].
    + destruct Hcase as (Hone & Hfail & Hr). destruct r as [e | []].
      * destruct Hr as (Hnone & Hzero & _). rewrite Hnone.
        split_and!; [tally | simpl in *; lia | | done | simpl in *; lia | lia].
        intros t' p' H Hp'. apply insert_lookup_cases in H as [-> | H]; [discriminate |].
        destruct (Hpassed _ _ H Hp') as [? ?]. congruence.
      * destruct Hr as ([p Hsome] & Hc & _). rewrite Hsome.
        split_and!; [tally | simpl in *; lia | eauto | done | simpl in *; lia | lia].
  - (* AtAcquire *)
    pose proof (acquire_or_report_cases (Tasks.shared m)) as Hacq.
    destruct (acquire_or_report drv self (Tasks.shared m)) as [st' r].
    destruct Hacq as (evs & Htr & Hpool & Hevs & Hatt0 & Hcons0 & Hfail0).
    pose proof (count_pc_insert in_lock _ _ _ (Tasks.Finished r) Ht) as Hc1.
    pose proof (count_pc_insert past_lock _ _ _ (Tasks.Finished r) Ht) as Hc2.
    assert (configured self (trace st')) as Hconf' by (rewrite Htr; by apply configured_app).
    unfold pool_invariant. simpl.
    rewrite (constructed_app_eq _ _ _ Htr), (attempts_app_eq _ _ _ Htr),
      (failures_app_eq _ _ _ Htr).
    rewrite Hpool.
    split_and!; [lia | simpl in *; lia | | done | simpl in *; lia | lia].
    intros t' p H Hp. apply insert_lookup_cases in H as [-> | H]; [| eauto].
    eapply (Hpassed t Tasks.AtAcquire); eauto.
Qed.

Lemma pool_invariant_run schedule : forall m : Tasks.machine W,
  pool_invariant self m -> pool_invariant self (Tasks.run drv self schedule m).
Proof.
  induction schedule as [| t schedule IH]; intros m H; simpl; [done |].
  apply IH. by apply pool_invariant_step.
Qed.

Lemma tasks_length_step t (m : Tasks.machine W) :
  length (Tasks.tasks (Tasks.step drv self t m)) = length (Tasks.tasks m).
Proof.
  unfold Tasks.step.
  destruct (Tasks.tasks m !! t) as [[| | | | r] |]; try done; simpl.
  - by rewrite length_insert.
  - destruct (Tasks.locked m); simpl; [done | by rewrite length_insert].
  - destruct (initialize_pool drv self (Tasks.shared m)). simpl. by rewrite length_insert.
  - destruct (acquire_or_report drv self (Tasks.shared m)). simpl. by rewrite length_insert.
Qed.

Lemma tasks_length_run schedule : forall m : Tasks.machine W,
  length (Tasks.tasks (Tasks.run drv self schedule m)) = length (Tasks.tasks m).
Proof.
  induction schedule as [| t schedule IH]; intros m; simpl; [done |].
  by rewrite IH, tasks_length_step.
Qed.

Lemma count_pc_le f l : count_pc f l <= length l.
Proof. unfold count_pc. apply List.filter_length_le. Qed.

(** One caller, run to its end, is [get_connection]. *)
Lemma single_caller_is_get_connection (w : W) :
  let m := Tasks.run drv self [0; 0; 0; 0] (Tasks.init w 1) in
  let run := get_connection drv self {| world := w; _pool := None; trace := [] |} in
  Tasks.shared m = run.1 /\ Tasks.tasks m = [Tasks.Finished run.2]
  /\ Tasks.locked m = false.
Proof.
  set (st0 := {| world := w; _pool := None; trace := [] |}).
  assert (get_connection drv self st0
          = match initialize_pool drv self st0 with
            | (st1, inr _) => acquire_or_report drv self st1
            | (st1, inl e) => (st1, inl e)
            end) as -> by reflexivity.
  unfold Tasks.run, Tasks.init, Tasks.step. simpl. fold st0.
  destruct (initialize_pool drv self st0) as [st1 [e | []]]; simpl; [done |].
  by destruct (acquire_or_report drv self st1) as [st2 r].
Qed.

(** A construction that fails is propagated by [get_connection], which
    does not try again. *)
Lemma construction_failure_propagates (st : state W) e :
  _pool st = None ->
  (create_pool drv (api_of self) (connection_string self) 2 10 1 POOL_GETMODE_WAIT
     (world st)).2 = inl e ->
  (get_connection drv self st).2 = inl e
  /\ _pool (get_connection drv self st).1 = None
  /\ Tasks.attempts (new_events st (get_connection drv self st).1) = 1.
Proof.
  intros Hp Hfail.
  assert (get_connection drv self st
          = match initialize_pool drv self st with
            | (st1, inr _) => acquire_or_report drv self st1
            | (st1, inl e) => (st1, inl e)
            end) as ->.
  { unfold get_connection, bind_, get_pool. by rewrite Hp. }
  pose proof (initialize_pool_cases st) as Hinit. rewrite Hp in Hinit.
  destruct (initialize_pool drv self st) as [st1 [e' | []]].
  - destruct Hinit as (evs & Htr & _ & Hone & _ & Hnone & _ & Hcreate).
    simpl. split_and!; [congruence | done |].
    unfold new_events. by rewrite Htr, drop_app_length.
  - destruct Hinit as (evs & Htr & _ & Hone & _ & _ & _ & Hsome). exfalso.
    rewrite Hfail in Hsome. by destruct Hsome.
Qed.

Lemma through_or_failed_init (w : W) n : through_or_failed (Tasks.init w n).
Proof. intros t p H. apply lookup_replicate in H as [-> _]. discriminate. Qed.

Lemma through_or_failed_step t (m : Tasks.machine W) :
  through_or_failed m -> through_or_failed (Tasks.step drv self t m).
Proof.
  intros Hm. unfold Tasks.step.
  destruct (Tasks.tasks m !! t) as [[| | | | r] |] eqn:Ht; try done.
  - (* AtCheck *)
    intros t' p H Hp. simpl in *. apply insert_lookup_cases in H as [-> | H]; [| eauto].
    destruct (_pool (Tasks.shared m)); [eauto | discriminate].
  - (* AtLock *)
    destruct (Tasks.locked m); [done |].
    intros t' p H Hp. simpl in *.
    apply insert_lookup_cases in H as [-> | H]; [discriminate | eauto].
  - (* InLock *)
    pose proof (initialize_pool_cases (Tasks.shared m)) as Hinit.
    destruct (initialize_pool drv self (Tasks.shared m)) as [st' r].
    destruct Hinit as (evs & Htr & _ & Hcase).
    intros t' p H Hp. simpl in *. rewrite (failures_app_eq _ _ _ Htr).
    destruct (_pool (Tasks.shared m)) as [q |] eqn:Hq.
    + destruct Hcase as (-> & _ & _). rewrite Hq. left. eauto.
    + destruct Hcase as (_ & Hfail & Hr). destruct r as [e | []].
      * right. lia.
      * left. by destruct Hr as (? & _).
  - (* AtAcquire *)
    pose proof (acquire_or_report_cases (Tasks.shared m)) as Hacq.
    destruct (acquire_or_report drv self (Tasks.shared m)) as [st' r].
    destruct Hacq as (evs & Htr & Hpool & _ & _ & _ & Hfail0).
    intros t' p H Hp. simpl in *. rewrite (failures_app_eq _ _ _ Htr), Hpool, Hfail0.
    rewrite Nat.add_0_r.
    apply insert_lookup_cases in H as [-> | H]; [| eauto].
    by apply (Hm t Tasks.AtAcquire).
Qed.

Lemma through_or_failed_run schedule : forall m : Tasks.machine W,
  through_or_failed m -> through_or_failed (Tasks.run drv self schedule m).
Proof.
  induction schedule as [| t schedule IH]; intros m H; simpl; [done |].
  apply IH. by apply through_or_failed_step.
Qed.

(** Where [create_pool] never fails, no construction does. *)
Lemma no_failure_step t (m : Tasks.machine W) :
  pool_available drv self ->
  Tasks.failures (trace (Tasks.shared m)) = 0 ->
  Tasks.failures (trace (Tasks.shared (Tasks.step drv self t m))) = 0.
Proof.
  intros Hok Hm. unfold Tasks.step.
  destruct (Tasks.tasks m !! t) as [[| | | | r] |] eqn:Ht; try done.
  - by destruct (Tasks.locked m).
  - pose proof (initialize_pool_cases (Tasks.shared m)) as Hinit.
    destruct (initialize_pool drv self (Tasks.shared m)) as [st' r].
    destruct Hinit as (evs & Htr & _ & Hcase). simpl.
    rewrite (failures_app_eq _ _ _ Htr), Hm.
    destruct (_pool (Tasks.shared m)) as [q |].
    + by destruct Hcase as (_ & _ & ->).
    + destruct Hcase as (_ & Hfail & Hr). destruct r as [e | []]; [| done].
      destruct Hr as (_ & _ & Hcreate).
      destruct (Hok (world (Tasks.shared m))) as (w' & q & Hq). rewrite Hq in Hcreate.
      discriminate.
  - pose proof (acquire_or_report_cases (Tasks.shared m)) as Hacq.
    destruct (acquire_or_report drv self (Tasks.shared m)) as [st' r].
    destruct Hacq as (evs & Htr & _ & _ & _ & _ & Hfail0). simpl.
    by rewrite (failures_app_eq _ _ _ Htr), Hm, Hfail0.
Qed.

Lemma no_failure_run schedule : forall m : Tasks.machine W,
  pool_available drv self ->
  Tasks.failures (trace (Tasks.shared m)) = 0 ->
  Tasks.failures (trace (Tasks.shared (Tasks.run drv self schedule m))) = 0.
Proof.
  induction schedule as [| t schedule IH]; intros m Hok H; simpl; [done |].
  apply IH; [done |]. by apply no_failure_step.
Qed.

End PoolInit.

(** C6.  A connector starts without a pool.  However [n] concurrent
    callers of [get_connection] are scheduled from there, at most one pool
    construction succeeds; every caller that got past the initialization
    found that one pool constructed; at most one caller is under the lock;
    every construction is asked for with min 2, max 10, increment 1 and the
    wait mode; no caller asks for a construction twice, and the
    constructions asked for are the one that succeeded and those that
    failed.  As long as no construction has failed, exactly one has been
    asked for, and has succeeded, once any caller is through the
    initialization; so on a driver whose [create_pool] does not fail, [n]
    callers that have all finished, [n] at least 1, leave exactly one
    construction behind, asked for once.  When the construction fails,
    [get_connection] raises that failure, leaves the pool absent and has
    asked once. *)
Theorem pool_initialized_once {W} (drv : Oracledb W) (self : DatabaseConnector)
    (w : W) (n : nat) (schedule : list nat) :
  let m := Tasks.run drv self schedule (Tasks.init w n) in
  let tr := trace (Tasks.shared m) in
  (_pool (Tasks.shared (Tasks.init w n)) = None
   /\ trace (Tasks.shared (Tasks.init w n)) = [])
  /\ (Tasks.constructed tr <= 1)%nat
  /\ (forall t p, Tasks.tasks m !! t = Some p -> Tasks.passed_init p = true ->
        Tasks.constructed tr = 1%nat)
  /\ (count_pc in_lock (Tasks.tasks m) <= 1)%nat
  /\ configured self tr
  /\ (Tasks.attempts tr <= n)%nat
  /\ Tasks.attempts tr = (Tasks.constructed tr + Tasks.failures tr)%nat
  /\ (forall (st : state W) e,
        _pool st = None ->
        (create_pool drv (api_of self) (connection_string self) 2 10 1 POOL_GETMODE_WAIT
           (world st)).2 = inl e ->
        (get_connection drv self st).2 = inl e
        /\ _pool (get_connection drv self st).1 = None
        /\ Tasks.attempts (new_events st (get_connection drv self st).1) = 1%nat)
  /\ (Tasks.failures tr = 0%nat ->
      (exists t p, Tasks.tasks m !! t = Some p /\ past_lock p = true) ->
      Tasks.constructed tr = 1%nat /\ Tasks.attempts tr = 1%nat)
  /\ (pool_available drv self ->
      (0 < n)%nat ->
      (forall t p, Tasks.tasks m !! t = Some p -> exists r, p = Tasks.Finished r) ->
      Tasks.constructed tr = 1%nat /\ Tasks.attempts tr = 1%nat
      /\ Tasks.failures tr = 0%nat).
Proof.
  intros m tr.
  pose proof (pool_invariant_run drv self schedule _ (pool_invariant_init self w n))
    as (Hcons & Hlock & Hpassed & Hconf & Hatt & Hsum).
  pose proof (through_or_failed_run drv self schedule _ (through_or_failed_init w n))
    as Hthrough.
  fold m in Hcons, Hlock, Hpassed, Hconf, Hatt, Hsum, Hthrough.
  fold tr in Hcons, Hconf, Hatt, Hsum.
  assert (Tasks.failures tr = 0%nat ->
          (exists t p, Tasks.tasks m !! t = Some p /\ past_lock p = true) ->
          Tasks.constructed tr = 1%nat /\ Tasks.attempts tr = 1%nat) as Hexact.
  { intros Hnone (t & p & Ht & Hp).
    destruct (Hthrough t p Ht Hp) as [[q Hq] | Hfailed]; [| fold tr in Hfailed; lia].
    rewrite Hq in Hcons. lia. }
  split_and!; try done.
  - rewrite Hcons. destruct (_pool (Tasks.shared m)); lia.
  - intros t p Ht Hp. rewrite Hcons.
    by destruct (Hpassed t p Ht Hp) as [? ->].
  - rewrite Hlock. destruct (Tasks.locked m); lia.
  - etransitivity; [exact Hatt |]. etransitivity; [apply count_pc_le |].
    subst m. rewrite tasks_length_run. simpl. by rewrite length_replicate.
  - apply construction_failure_propagates.
  - intros Hok Hn Hdone.
    assert (Tasks.failures tr = 0%nat) as Hnone.
    { subst tr m. by apply no_failure_run. }
    assert (is_Some (Tasks.tasks m !! 0%nat)) as [p Hp].
    { apply lookup_lt_is_Some. subst m. rewrite tasks_length_run. simpl.
      by rewrite length_replicate. }
    destruct (Hdone _ _ Hp) as [r ->].
    destruct Hexact as [? ?]; [done | by exists 0%nat, (Tasks.Finished r) |]. done.
Qed.

(** C6 with two callers that race to the lock, on the catalog driver,
    whose pool is always there, and on the scripted driver: both find the
    pool absent, the first constructs it under the lock, the second gets
    the lock afterwards and finds the pool on its re-check.  And with a
    database that cannot be reached: the caller sees that error. *)
Lemma pool_initialized_once_witness :
  let race := [0; 1; 0; 1; 0; 1; 0; 1; 1]%nat in
  let m := Tasks.run Oracle.driver Oracle.connector race
             (Tasks.init (world (Oracle.session Oracle.shop)) 2) in
  let m' := Tasks.run Fake.driver Fake.thin race (Tasks.init (Fake.scripted []) 2) in
  (Tasks.constructed (trace (Tasks.shared m)) = 1%nat
   /\ Tasks.attempts (trace (Tasks.shared m)) = 1%nat
   /\ Tasks.failures (trace (Tasks.shared m)) = 0%nat)
  /\ (Tasks.constructed (trace (Tasks.shared m')) = 1%nat
      /\ Tasks.attempts (trace (Tasks.shared m')) = 1%nat)
  /\ (get_connection Fake.driver Fake.thin (Fake.fresh Fake.no_listener)).2
     = inl Fake.ORA_12541.
Proof.
  intros race m m'. split; [| split].
  - pose proof (pool_initialized_once Oracle.driver Oracle.connector
                  (world (Oracle.session Oracle.shop)) 2 race) as thm.
    apply (proj2 (proj2 (proj2 (proj2 (proj2 (proj2 (proj2 (proj2 (proj2 thm))))))))).
    + intros w. by exists w, 1%nat.
    + lia.
    + intros t p H. vm_compute in H.
      destruct t as [| [| t]]; simpl in H; simplify_eq; eauto.
  - pose proof (pool_initialized_once Fake.driver Fake.thin (Fake.scripted []) 2 race) as thm.
    apply (proj1 (proj2 (proj2 (proj2 (proj2 (proj2 (proj2 (proj2 (proj2 thm))))))))).
    + by vm_compute.
    + exists 0%nat. eexists. split; [by vm_compute | done].
  - pose proof (pool_initialized_once Fake.driver Fake.thin Fake.no_listener 0 []) as thm.
    simpl in thm.
    apply (proj1 (proj1 (proj2 (proj2 (proj2 (proj2 (proj2 (proj2 (proj2 thm)))))))
                    (Fake.fresh Fake.no_listener) Fake.ORA_12541 eq_refl eq_refl)).
Defined.

(** ** Construction and shutdown *)

(** X1.  The constructor never raises.  The connector it builds has no
    pool and keeps the connection string and the target schema; it is in
    thick mode exactly when thick mode was asked for and the Oracle client
    could be initialized.  When thick mode was not asked for, the client is
    not touched; when its initialization fails, the fallback to thin mode is
    announced on [stderr]. *)
Theorem constructor_falls_back {W} (init_oracle_client : option string -> W -> W * outcome unit)
    (cs : string) (ts : option string) (use_thick_mode : bool) (lib_dir : option string)
    (st : state W) :
  let run := __init__ init_oracle_client cs ts use_thick_mode lib_dir st in
  exists self,
    run.2 = inr self
    /\ _pool run.1 = None
    /\ connection_string self = cs /\ target_schema self = ts
    /\ thick_mode self
       = (use_thick_mode
          && match (init_oracle_client (given lib_dir) (world st)).2 with
             | inr _ => true
             | inl _ => false
             end)
    /\ (use_thick_mode = false -> world run.1 = world st /\ trace run.1 = trace st)
    /\ (use_thick_mode = true -> thick_mode self = false ->
        In (EvPrint "Falling back to thin mode") (trace run.1)).
Proof.
  unfold __init__, bind_, set_pool, try_except, effect, print, emit, log, ret. simpl.
  destruct use_thick_mode; simpl.
  - destruct (init_oracle_client (given lib_dir) (world st)) as [w' [e | []]]; simpl.
    + eexists. split_and!; try done. intros _ _. apply in_or_app. right. by left.
    + eexists. split_and!; done.
  - eexists. split_and!; done.
Qed.

(** X1 where the client library is missing. *)
Lemma constructor_falls_back_witness :
  exists self,
    (__init__ (fun _ w => (w, inl (DatabaseError 0 "DPI-1047: Cannot locate a 64-bit Oracle Client library")))
       "scott/tiger@db" None true None (Fake.fresh (Fake.scripted []))).2 = inr self
    /\ thick_mode self = false.
Proof.
  destruct (constructor_falls_back
              (fun _ (w : Fake.db) =>
                 (w, inl (DatabaseError 0 "DPI-1047: Cannot locate a 64-bit Oracle Client library")))
              "scott/tiger@db" None true None (Fake.fresh (Fake.scripted [])))
    as (self & Hrun & _ & _ & _ & Hmode & _).
  exists self. split; [exact Hrun | exact Hmode].
Defined.

(** X2.  [close_pool] never raises.  Without a pool it does nothing at
    all; when the driver closes the pool, the connector forgets it, and a
    second [close_pool] does nothing; when the driver fails to close it,
    the failure is logged and the connector keeps the pool. *)
Theorem close_pool_idempotent {W} (drv : Oracledb W) (self : DatabaseConnector)
    (st : state W) :
  let run := close_pool drv self st in
  run.2 = inr tt
  /\ (_pool st = None -> run = (st, inr tt))
  /\ (forall p w', _pool st = Some p ->
        pool_close drv (api_of self) p (world st) = (w', inr tt) ->
        _pool run.1 = None /\ close_pool drv self run.1 = (run.1, inr tt))
  /\ (forall p w' e, _pool st = Some p ->
        pool_close drv (api_of self) p (world st) = (w', inl e) ->
        _pool run.1 = Some p
        /\ In (EvPrint ("Error closing connection pool: " +:+ str_exn e)) (trace run.1)).
Proof.
  intros run. subst run.
  assert (forall st0 : state W, _pool st0 = None -> close_pool drv self st0 = (st0, inr tt))
    as Hnone.
  { intros st0 H0. unfold close_pool, bind_, get_pool. by rewrite H0. }
  destruct (_pool st) as [p |] eqn:Hp; [| rewrite (Hnone st Hp); by split_and!].
  assert (close_pool drv self st
          = match pool_close drv (api_of self) p (world st) with
            | (w1, inr _) =>
                ({| world := w1; _pool := None;
                    trace := (trace st ++ [EvPoolClose (api_of self) p])
                             ++ [EvPrint "Connection pool closed"] |}, inr tt)
            | (w1, inl e) =>
                ({| world := w1; _pool := Some p;
                    trace := (trace st ++ [EvPoolClose (api_of self) p])
                             ++ [EvPrint ("Error closing connection pool: " +:+ str_exn e)] |},
                 inr tt)
            end) as ->.
  { unfold close_pool, bind_, get_pool, try_except, call, set_pool, print, emit, log, ret.
    rewrite Hp. simpl.
    by destruct (pool_close drv (api_of self) p (world st)) as [w1 [e1 | []]]; simpl;
      rewrite ?Hp. }
  destruct (pool_close drv (api_of self) p (world st)) as [w1 [e1 | []]] eqn:Hc; simpl.
  - split_and!; try done; intros; simplify_eq;
      match goal with
      | H : pool_close _ _ _ _ = _ |- _ => rewrite Hc in H; simplify_eq
      end.
    split; [done |]. apply in_or_app. right. by left.
  - split_and!; try done; intros; simplify_eq;
      match goal with
      | H : pool_close _ _ _ _ = _ |- _ => rewrite Hc in H; simplify_eq
      end; try (split; [done |]; by apply Hnone).
Qed.

(** X2 on the scripted driver: a pool that closes, and one that does not. *)
Lemma close_pool_idempotent_witness :
  _pool (close_pool Fake.driver Fake.thin (pooled (Fake.scripted []))).1 = None
  /\ _pool (close_pool stuck_pool Fake.thin (pooled (Fake.scripted []))).1 = Some 1%nat.
Proof.
  split.
  - eapply (proj1 (proj2 (proj2 (close_pool_idempotent Fake.driver Fake.thin
                                   (pooled (Fake.scripted []))))));
      reflexivity.
  - eapply (proj2 (proj2 (proj2 (close_pool_idempotent stuck_pool Fake.thin
                                   (pooled (Fake.scripted []))))));
      reflexivity.
Defined.

(** X3.  With a pool in place, [get_connection] constructs nothing and
    keeps the pool: its outcome is the outcome of the acquisition, and an
    acquisition that fails is logged and raised as it is. *)
Theorem get_connection_reuses_pool {W} (drv : Oracledb W) (self : DatabaseConnector)
    (st : state W) (p : pool) :
  _pool st = Some p ->
  let run := get_connection drv self st in
  run.2 = (pool_acquire drv (api_of self) p (world st)).2
  /\ _pool run.1 = Some p
  /\ Tasks.attempts (new_events st run.1) = 0%nat
  /\ (forall e, run.2 = inl e ->
        In (EvPrint ("Error acquiring connection from pool: " +:+ str_exn e)) (trace run.1)).
Proof.
  intros Hp.
  unfold get_connection, acquire_or_report, pool_acquire_call, try_except, bind_, get_pool,
    call, print, emit, log, raise, ret, new_events.
  rewrite Hp. simpl. rewrite Hp.
  destruct (pool_acquire drv (api_of self) p (world st)) as [w' [e | c]]; simpl.
  - split_and!; try done.
    + by rewrite <- List.app_assoc, drop_app_length.
    + intros e' [= <-]. apply in_or_app. right. by left.
  - split_and!; try done. by rewrite drop_app_length.
Qed.

(** X3 on the scripted driver. *)
Lemma get_connection_reuses_pool_witness :
  (get_connection Fake.driver Fake.thin (pooled (Fake.scripted []))).2 = inr 7%nat.
Proof.
  apply (get_connection_reuses_pool Fake.driver Fake.thin (pooled (Fake.scripted [])) 1%nat
           eq_refl).
Defined.

(** ** Effective schema *)

(** X4.  The effective schema is always in uppercase and reading it
    changes nothing.  A target schema that is not empty wins over the user
    of the connection; without one, or with the empty one, the schema is
    the user name, and a connection without a user name raises. *)
Theorem effective_schema_uppercase {W} (drv : Oracledb W) (self : DatabaseConnector)
    (conn : connection) (st : state W) :
  let run := _get_effective_schema drv self conn st in
  run.1 = st
  /\ (forall schema, run.2 = inr schema -> upper schema = schema)
  /\ (forall s, target_schema self = Some s -> s <> "" -> run.2 = inr (upper s))
  /\ (given (target_schema self) = None ->
      run.2 = match connection_username drv conn (world st) with
              | Some u => inr (upper u)
              | None => inl (AttributeError "'NoneType' object has no attribute 'upper'")
              end).
Proof.
  unfold _get_effective_schema, username_upper, ret.
  destruct (target_schema self) as [s |] eqn:Hs;
    [destruct (String.eqb_spec s "") as [-> | Hne] |]; simpl;
    try destruct (connection_username drv conn (world st)); simpl;
    (split_and!; [done | | |]).
  all: try (intros schema [= <-]; apply upper_idempotent).
  all: try (intros ? ? ?; simplify_eq; done).
  all: try done.
  all: destruct (String.eqb_spec s ""); done.
Qed.

(** X4 with a target schema in mixed case, one character of which becomes
    two. *)
Lemma effective_schema_uppercase_witness :
  (_get_effective_schema Fake.driver
     {| connection_string := "scott/tiger@db"; target_schema := Some "Straße";
        thick_mode := false |} 7%nat (Fake.fresh (Fake.scripted []))).2 = inr "STRASSE".
Proof.
  apply (proj1 (proj2 (proj2 (effective_schema_uppercase Fake.driver
                                {| connection_string := "scott/tiger@db";
                                   target_schema := Some "Straße"; thick_mode := false |}
                                7%nat (Fake.fresh (Fake.scripted []))))) "Straße" eq_refl).
  discriminate.
Defined.

(** ** Release never masks an outcome *)

Section Release.

Context {W : Type} (drv : Oracledb W) (self : DatabaseConnector).

Lemma finally_close_outcome {A} (m : M W A) conn (st : state W) :
  (try_finally m (_close_connection drv self conn) st).2 = (m st).2.
Proof.
  unfold try_finally. destruct (m st) as [st1 r].
  by destruct (close_connection_returns drv self conn st1) as [st' ->].
Qed.

Lemma scoped_outcome {A} (close : api -> connection -> W -> W * outcome unit)
    (body body' : connection -> M W A) (st : state W) :
  (forall conn st1, body' conn st1 = body conn st1) ->
  (exit_of (conn <- get_connection (with_close drv close) self ;;
            try_finally (body' conn) (_close_connection (with_close drv close) self conn))
     st).2
  = (exit_of (conn <- get_connection drv self ;;
              try_finally (body conn) (_close_connection drv self conn)) st).2.
Proof.
  intros Hbody. unfold exit_of.
  change (get_connection (with_close drv close) self) with (get_connection drv self).
  unfold bind_. destruct (get_connection drv self st) as [st1 [e | conn]]; [done |].
  pose proof (finally_close_outcome (body conn) conn st1) as H1.
  pose proof (Hbody conn st1) as Hb.
  unfold try_finally in *. rewrite Hb.
  destruct (body conn st1) as [st2 r].
  destruct (close_connection_returns (with_close drv close) self conn st2) as [sa ->].
  destruct (close_connection_returns drv self conn st2) as [sb ->].
  by destruct r.
Qed.

End Release.

(** X5.  What an exposed operation returns or raises does not depend on
    how the release of its connection goes: with any other [conn.close()],
    one that always fails included, every one of the fourteen operations
    has the same outcome. *)
Theorem release_never_masks_outcome {W} (drv : Oracledb W) (self : DatabaseConnector)
    (close : api -> connection -> W -> W * outcome unit) (op : operation) (st : state W) :
  (perform (with_close drv close) self op st).2 = (perform drv self op st).2.
Proof.
  destruct op; unfold perform;
    [ unfold get_database_info | unfold get_all_table_names | unfold load_table_details
    | unfold get_table_constraints | unfold get_table_indexes | unfold get_dependent_objects
    | unfold get_related_tables | unfold search_in_database
    | unfold search_columns_in_database | unfold explain_query_plan
    | unfold get_effective_schema | unfold get_pl_sql_objects | unfold get_object_source
    | unfold get_user_defined_types ];
    apply (scoped_outcome drv self); reflexivity.
Qed.

(** ** Operations that degrade instead of raising *)

Section Degrade.

Context {W : Type} (drv : Oracledb W) (self : DatabaseConnector).

(** A [try] whose [except oracledb.Error] clause logs and returns lets no
    driver error out. *)
Lemma degrading_try {A} (m : M W A) (line : exn -> string) (fallback : exn -> A)
    (st st' : state W) e :
  try_except m
    (fun e => if is_oracledb_Error e
              then Some (print (line e) ;;; ret (fallback e)) else None) st
  = (st', inl e) ->
  is_oracledb_Error e = false /\ m st = (st', inl e).
Proof.
  unfold try_except. destruct (m st) as [st1 [e1 | a]]; [| discriminate].
  destruct (is_oracledb_Error e1) eqn:He; [discriminate |].
  intros [= <- <-]. done.
Qed.

Lemma degrading_try_inr {A} (m : M W A) (line : exn -> string) (fallback : exn -> A)
    (st st' : state W) a :
  try_except m
    (fun e => if is_oracledb_Error e
              then Some (print (line e) ;;; ret (fallback e)) else None) st
  = (st', inr a) ->
  m st = (st', inr a)
  \/ exists st1 e, m st = (st1, inl e) /\ is_oracledb_Error e = true /\ a = fallback e.
Proof.
  unfold try_except. destruct (m st) as [st1 [e1 | a1]]; [| intros [= <- <-]; by left].
  destruct (is_oracledb_Error e1) eqn:He; [| discriminate].
  unfold bind_, print, emit, ret. intros [= <- <-]. right. eauto.
Qed.

Lemma scoped_raise_inv {A} (m : M W A) conn (st st' : state W) e :
  try_finally m (_close_connection drv self conn) st = (st', inl e) ->
  exists st1, m st = (st1, inl e).
Proof.
  intros H. pose proof (finally_close_outcome drv self m conn st) as Ho.
  rewrite H in Ho. simpl in Ho. destruct (m st) as [st1 r]. simpl in Ho. subst r. eauto.
Qed.

Lemma scoped_return_inv {A} (m : M W A) conn (st st' : state W) a :
  try_finally m (_close_connection drv self conn) st = (st', inr a) ->
  exists st1, m st = (st1, inr a).
Proof.
  intros H. pose proof (finally_close_outcome drv self m conn st) as Ho.
  rewrite H in Ho. simpl in Ho. destruct (m st) as [st1 r]. simpl in Ho. subst r. eauto.
Qed.

End Degrade.

(** X6.  Once the connection is acquired, [get_database_info],
    [get_object_source] and [explain_query_plan] let no [oracledb.Error]
    out: whatever they raise is an exception of another kind.  A driver
    error inside them becomes the record or the text that reports it. *)
Theorem driver_errors_are_reported {W} (drv : Oracledb W) (self : DatabaseConnector)
    (st st1 : state W) (conn : connection) :
  get_connection drv self st = (st1, inr conn) ->
  (forall e, (get_database_info drv self st).2 = inl e -> is_oracledb_Error e = false)
  /\ (forall otype name e,
        (get_object_source drv self otype name st).2 = inl e -> is_oracledb_Error e = false)
  /\ (forall query e,
        (explain_query_plan drv self query st).2 = inl e -> is_oracledb_Error e = false)
  /\ (forall st2 cur st3 e,
        new_cursor drv conn st1 = (st2, inr cur) ->
        _execute_cursor drv self cur SqlVersion [] st2 = (st3, inl e) ->
        is_oracledb_Error e = true ->
        (get_database_info drv self st).2
        = inr (<["error" := PCell (CStr (str_exn e))]>
                 (<["version" := PCell (CStr "Unknown")]>
                    (<["vendor" := PCell (CStr "Oracle")]> ∅)))).
Proof.
  intros Hconn. split_and!.
  4: { intros st2 cur st3 e Hcur Hver He. unfold get_database_info.
       rewrite (bind_run _ _ _ _ _ Hconn), finally_close_outcome.
       unfold try_except.
       rewrite (bind_run _ _ _ _ _ Hcur), (bind_raise _ _ _ _ _ Hver), He.
       reflexivity. }
  - intros e. unfold get_database_info. rewrite (bind_run _ _ _ _ _ Hconn).
    rewrite finally_close_outcome.
    match goal with |- (?t ?s).2 = _ -> _ => destruct (t s) as [s' r] eqn:E end.
    simpl. intros ->. by apply degrading_try in E as [? _].
  - intros otype name e. unfold get_object_source. rewrite (bind_run _ _ _ _ _ Hconn).
    rewrite finally_close_outcome.
    match goal with |- (?t ?s).2 = _ -> _ => destruct (t s) as [s' r] eqn:E end.
    simpl. intros ->. by apply degrading_try in E as [? _].
  - intros query e. unfold explain_query_plan. rewrite (bind_run _ _ _ _ _ Hconn).
    rewrite finally_close_outcome.
    match goal with |- (?t ?s).2 = _ -> _ => destruct (t s) as [s' r] eqn:E end.
    simpl. intros ->. by apply degrading_try in E as [? _].
Qed.

(** X6 on the scripted driver: a version statement the database rejects
    comes back as a record, not as an exception. *)
Lemma driver_errors_are_reported_witness :
  exists d,
    (get_database_info Fake.driver Fake.thin
       (Fake.fresh (Fake.scripted
          [inl (DatabaseError 942 "ORA-00942: table or view does not exist")]))).2 = inr d
    /\ d !! "version" = Some (PCell (CStr "Unknown")).
Proof.
  eexists. split.
  - eapply (proj2 (proj2 (proj2 (driver_errors_are_reported Fake.driver Fake.thin
                                   (Fake.fresh (Fake.scripted
                                      [inl (DatabaseError 942
                                              "ORA-00942: table or view does not exist")]))
                                   _ _ eq_refl))));
      reflexivity.
  - reflexivity.
Defined.

(** ** Awaiting in thick mode *)

Section ThickMode.

Context {W : Type} (drv : Oracledb W) (self : DatabaseConnector).

Hypothesis Hthick : thick_mode self = true.

(** [await clob.read()] on a blocking LOB reads it and then fails. *)
Lemma read_clob_thick c (st st' : state W) s :
  read_clob drv self c st <> (st', inr s).
Proof.
  unfold read_clob. rewrite Hthick. destruct c; try discriminate.
  unfold bind_, call, await_plain, raise.
  destruct (lob_read drv Blocking locator (world st)) as [w' [e | t]]; discriminate.
Qed.

Lemma explain_body_thick conn query (st st' : state W) plan :
  (cur <- new_cursor drv conn ;;
   (if thick_mode self then
      call (EvExecute Blocking cur (SqlExplainPlan query) [])
        (cursor_execute drv Blocking cur (SqlExplainPlan query) []) ;;;
      await_plain "NoneType"
    else
      call (EvExecute Coroutine cur (SqlExplainPlan query) [])
        (cursor_execute drv Coroutine cur (SqlExplainPlan query) [])) ;;;
   plan_rows <- _execute_cursor drv self cur SqlPlanRows [] ;;
   _execute_cursor_no_fetch drv self cur SqlDeletePlan [] ;;;
   _commit drv self conn ;;;
   let basic_analysis := _analyze_query_for_optimization query in
   steps <- column 0 plan_rows ;;
   ret {| execution_plan := steps; optimization_suggestions := basic_analysis;
          plan_error := None |}) st
  <> (st', inr plan).
Proof.
  rewrite Hthick. intros H.
  apply bind_inr in H as (s1 & cur & _ & H).
  apply bind_inr in H as (s2 & [] & H & _).
  apply bind_inr in H as (s3 & [] & _ & H). discriminate.
Qed.

End ThickMode.

(** X7.  In thick mode the two operations that await a driver call
    directly never deliver what they fetch.  [explain_query_plan] returns,
    if it returns, the error record with an empty plan;
    [get_object_source], for an object that is not a package or a type,
    returns the empty text or the text that reports an error, never the
    DDL.  Once the driver has accepted the plan statement,
    [explain_query_plan] raises what awaiting [None] raises: the
    [TypeError] that says an object of [NoneType] cannot be awaited. *)
Theorem thick_mode_awaits_fail {W} (drv : Oracledb W) (self : DatabaseConnector) :
  thick_mode self = true ->
  (forall query (st : state W) plan,
      (explain_query_plan drv self query st).2 = inr plan ->
      execution_plan plan = [] /\ plan_error plan <> None)
  /\ (forall otype name (st : state W) s,
      otype ∉ full_source_types ->
      (get_object_source drv self otype name st).2 = inr s ->
      s = "" \/ exists e, s = "Error retrieving source: " +:+ str_exn e)
  /\ (forall query (st st1 st2 : state W) conn cur w',
      get_connection drv self st = (st1, inr conn) ->
      new_cursor drv conn st1 = (st2, inr cur) ->
      cursor_execute drv Blocking cur (SqlExplainPlan query) [] (world st2) = (w', inr tt) ->
      (explain_query_plan drv self query st).2
      = inl (TypeError "object NoneType can't be used in 'await' expression")).
Proof.
  intros Hthick. split; [| split].
  3: { intros query st st1 st2 conn cur w' Hconn Hcur Hexec. unfold explain_query_plan.
       rewrite (bind_run _ _ _ _ _ Hconn), finally_close_outcome.
       unfold try_except. rewrite (bind_run _ _ _ _ _ Hcur), Hthick.
       unfold bind_ at 1 2, call at 1. rewrite Hexec. reflexivity. }
  - intros query st plan. unfold explain_query_plan.
    destruct (explain_query_plan drv self query st) as [st' r] eqn:Hrun.
    unfold explain_query_plan in Hrun. rewrite Hrun. simpl. intros ->.
    apply bind_inr in Hrun as (s1 & conn & _ & H).
    apply scoped_return_inv in H as [s2 H].
    apply degrading_try_inr in H as [H | (s3 & e & _ & _ & ->)]; [| done].
    exfalso. eapply explain_body_thick; eauto.
  - intros otype name st s Hno.
    destruct (get_object_source drv self otype name st) as [st' r] eqn:Hrun.
    simpl. intros ->. unfold get_object_source in Hrun.
    apply bind_inr in Hrun as (s1 & conn & _ & H).
    apply scoped_return_inv in H as [s2 H].
    apply degrading_try_inr in H as [H | (s3 & e & _ & _ & ->)]; [| eauto].
    left.
    apply bind_inr in H as (s4 & cur & _ & H).
    apply bind_inr in H as (s5 & schema & _ & H).
    rewrite bool_decide_eq_false_2 in H by done.
    apply bind_inr in H as (s6 & result & _ & H).
    destruct result as [| [| clob ?] ?]; try (by injection H as _ <-).
    exfalso. eapply read_clob_thick; eauto.
Qed.

(** X7 on the scripted driver in thick mode: the plan statement is
    accepted, and the operation raises. *)
Lemma thick_mode_awaits_fail_witness :
  (explain_query_plan Fake.driver Fake.thick "select 1 from dual"
     (Fake.fresh (Fake.scripted []))).2
  = inl (TypeError "object NoneType can't be used in 'await' expression").
Proof.
  eapply (proj2 (proj2 (thick_mode_awaits_fail Fake.driver Fake.thick eq_refl)));
    reflexivity.
Defined.

(** ** More on the ranker *)

Lemma contains_empty s : contains "" s = true.
Proof. by destruct s. Qed.

Lemma sort_desc_constant (l : list (string * Q)) :
  Forall (fun x => snd x = 1%Q) l -> sort_desc l = l.
Proof.
  induction 1 as [| x l Hx Hl IH]; [done |]. simpl. rewrite IH.
  destruct Hl as [| y l Hy _]; [done |]. simpl. by rewrite Hx, Hy.
Qed.

(** X8.  An empty search term matches everything: every candidate is
    returned with score 1, in the order given, whatever the threshold. *)
Theorem empty_term_keeps_all (items : list string) (threshold : Q) :
  _filter_by_similarity items "" threshold = map (fun item => (item, 1%Q)) items.
Proof.
  unfold _filter_by_similarity.
  assert (scored items "" threshold = map (fun item => (item, 1%Q)) items) as ->.
  { induction items as [| x items IH]; [done |]. simpl.
    rewrite contains_empty. by rewrite IH. }
  apply sort_desc_constant. apply Forall_forall. intros x Hx.
  apply list_elem_of_In, in_map_iff in Hx as (item & <- & _). done.
Qed.

Lemma scored_threshold_sublist items term (t1 t2 : Q) :
  (t1 <= t2)%Q -> sublist (scored items term t2) (scored items term t1).
Proof.
  intros Hle. induction items as [| x items IH]; simpl; [constructor |].
  destruct (contains (upper term) (upper x)); [by constructor |].
  destruct (Qle_bool t2 (_calculate_similarity x term)) eqn:E2.
  - assert (Qle_bool t1 (_calculate_similarity x term) = true) as ->.
    { apply Qle_bool_iff. apply Qle_bool_iff in E2. eapply Qle_trans; eauto. }
    by constructor.
  - destruct (Qle_bool t1 (_calculate_similarity x term)); [by constructor | done].
Qed.

(** X9.  Raising the threshold only drops candidates: whoever is ranked
    under the higher threshold is ranked under the lower one, with the same
    score, and the candidates kept under the higher one are a sublist of
    those kept under the lower one. *)
Theorem threshold_is_monotone (items : list string) (term : string) (t1 t2 : Q)
    (item : string) (score : Q) :
  (t1 <= t2)%Q ->
  sublist (scored items term t2) (scored items term t1)
  /\ (In (item, score) (_filter_by_similarity items term t2) ->
      In (item, score) (_filter_by_similarity items term t1)).
Proof.
  intros Hle. split; [by apply scored_threshold_sublist |].
  unfold _filter_by_similarity.
  rewrite <- !list_elem_of_In, !sort_desc_perm.
  intros Hin. eapply elem_of_sublist; [exact Hin |].
  by apply scored_threshold_sublist.
Qed.

(** X9 between the thresholds 0.5 and 0.65. *)
Lemma threshold_is_monotone_witness :
  In ("ORDRE", 8 # 10) (_filter_by_similarity ["ORDRE"; "ITEMS"] "order" (1 # 2)).
Proof.
  apply (proj2 (threshold_is_monotone ["ORDRE"; "ITEMS"] "order" (1 # 2) (13 # 20)
                  "ORDRE" (8 # 10) ltac:(by vm_compute))).
  vm_compute. by left.
Defined.

Lemma calculate_similarity_upper_l s1 s2 :
  _calculate_similarity (upper s1) s2 = _calculate_similarity s1 s2.
Proof. unfold _calculate_similarity. by rewrite upper_idempotent. Qed.

Lemma calculate_similarity_upper_r s1 s2 :
  _calculate_similarity s1 (upper s2) = _calculate_similarity s1 s2.
Proof. unfold _calculate_similarity. by rewrite upper_idempotent. Qed.

Lemma insert_desc_rename (g : string -> string) x l :
  insert_desc (g x.1, x.2) (map (fun y => (g y.1, y.2)) l)
  = map (fun y => (g y.1, y.2)) (insert_desc x l).
Proof.
  induction l as [| y l IH]; [done |]. simpl.
  destruct (Qle_bool (snd y) (snd x)); [done |]. simpl. by rewrite <- IH.
Qed.

Lemma sort_desc_rename (g : string -> string) l :
  sort_desc (map (fun y => (g y.1, y.2)) l) = map (fun y => (g y.1, y.2)) (sort_desc l).
Proof.
  induction l as [| x l IH]; [done |]. simpl. rewrite IH. apply insert_desc_rename.
Qed.

(** X10.  The ranking is blind to case.  The search term may come in any
    case; and ranking the candidates in uppercase gives the ranking of the
    candidates themselves, name for name in uppercase, with the same scores
    in the same order. *)
Theorem ranking_ignores_case (items : list string) (term : string) (threshold : Q) :
  _filter_by_similarity items (upper term) threshold
  = _filter_by_similarity items term threshold
  /\ _filter_by_similarity (map upper items) term threshold
     = map (fun x => (upper x.1, x.2)) (_filter_by_similarity items term threshold).
Proof.
  unfold _filter_by_similarity. split.
  - f_equal. induction items as [| x items IH]; [done |]. simpl.
    by rewrite upper_idempotent, calculate_similarity_upper_r, IH.
  - rewrite <- sort_desc_rename. f_equal.
    induction items as [| x items IH]; [done |]. simpl.
    rewrite upper_idempotent, calculate_similarity_upper_l.
    destruct (contains (upper term) (upper x)); simpl; [by rewrite IH |].
    destruct (Qle_bool threshold (_calculate_similarity x term)); simpl; by rewrite IH.
Qed.

(** ** The similarity ratio is a fraction *)

Section DifflibBounds.

Variables a b : list string.

Local Open Scope Z_scope.

Lemma scan_row_columns i blo bhi j2len js : forall newj2len best,
  ends_within blo bhi j2len ->
  ends_within blo bhi newj2len ->
  within_b blo bhi best ->
  ends_within blo bhi (Difflib.scan_row i blo bhi j2len js newj2len best).1
  /\ within_b blo bhi (Difflib.scan_row i blo bhi j2len js newj2len best).2.
Proof.
  intros newj2len best Hold. revert newj2len best.
  induction js as [| j js IH]; intros newj2len best Hnew Hbest; simpl; [done |].
  destruct (Z.ltb_spec j blo); [by apply IH |].
  destruct (Z.leb_spec bhi j); [done |].
  destruct best as [[bi bj] bk].
  assert (default 0 (j2len !! (j - 1)) + 1 <= j - blo + 1) as Hk.
  { destruct (j2len !! (j - 1)) as [v |] eqn:E; simpl; [| lia].
    destruct (Hold _ _ E). lia. }
  apply IH.
  - intros j' v. rewrite lookup_insert. case_decide; [| by apply Hnew].
    intros [= <-]. subst j'. lia.
  - destruct (Z.ltb bk _); [| done]. unfold within_b. simpl. lia.
Qed.

Lemma scan_rows_columns b2j blo bhi range : forall j2len best,
  ends_within blo bhi j2len ->
  within_b blo bhi best ->
  within_b blo bhi (Difflib.scan_rows a b2j blo bhi range j2len best).
Proof.
  induction range as [| i range IH]; intros j2len best Hlen Hbest; simpl; [done |].
  destruct (Difflib.scan_row i blo bhi j2len (Difflib.positions a b2j i) ∅ best)
    as [newj2len best'] eqn:E.
  pose proof (scan_row_columns i blo bhi j2len (Difflib.positions a b2j i) ∅ best Hlen)
    as Hrow.
  rewrite E in Hrow. simpl in Hrow.
  destruct Hrow as [Hnew Hbest']; [| done |].
  { intros j v. by rewrite lookup_empty. }
  by apply IH.
Qed.

Lemma extend_left_columns fuel alo blo e best :
  within_b blo e best -> within_b blo e (Difflib.extend_left a b fuel alo blo best).
Proof.
  revert best. induction fuel as [| fuel IH]; intros [[bi bj] bk] H; simpl; [done |].
  destruct (Z.ltb alo bi); simpl; [| done].
  destruct (Z.ltb_spec blo bj); simpl; [| done].
  destruct (Difflib.same_at a b (bi - 1) (bj - 1)); [| done].
  apply IH. destruct H as (? & ?). unfold within_b in *. simpl in *. lia.
Qed.

Lemma extend_right_columns fuel blo ahi bhi best :
  within_b blo bhi best -> within_b blo bhi (Difflib.extend_right a b fuel ahi bhi best).
Proof.
  revert best. induction fuel as [| fuel IH]; intros [[bi bj] bk] H; simpl; [done |].
  destruct (Z.ltb (bi + bk) ahi); simpl; [| done].
  destruct (Z.ltb_spec (bj + bk) bhi); simpl; [| done].
  destruct (Difflib.same_at a b (bi + bk) (bj + bk)); [| done].
  apply IH. destruct H as (? & ?). unfold within_b in *. simpl in *. lia.
Qed.

Lemma find_longest_match_columns b2j alo ahi blo bhi :
  blo <= bhi ->
  within_b blo bhi (Difflib.find_longest_match a b b2j alo ahi blo bhi).
Proof.
  intros H. unfold Difflib.find_longest_match.
  apply extend_right_columns, extend_left_columns, scan_rows_columns.
  - intros j v. by rewrite lookup_empty.
  - unfold within_b. simpl. lia.
Qed.

Lemma sum_sizes_snoc (l : list Difflib.block) x :
  Difflib.sum_sizes (l ++ [x]) = Difflib.sum_sizes l + x.2.
Proof. induction l as [| y l IH]; simpl; [lia |]. rewrite IH. lia. Qed.

(** What the loop adds to the blocks is no more than what the windows of
    the queue cover, of [a] and of [b]. *)
Lemma blocks_loop_sum b2j fuel : forall queue blocks result,
  Forall well_formed queue ->
  Forall well_formed_b queue ->
  Difflib.blocks_loop a b fuel b2j queue blocks = Some result ->
  Difflib.sum_sizes blocks <= Difflib.sum_sizes result
  /\ Difflib.sum_sizes result <= Difflib.sum_sizes blocks + span_a queue
  /\ Difflib.sum_sizes result <= Difflib.sum_sizes blocks + span_b queue.
Proof.
  induction fuel as [| fuel IH]; intros queue blocks result Hwa Hwb Hrun.
  - destruct queue as [| [[[alo ahi] blo] bhi] queue]; simpl in Hrun; [| done].
    simplify_eq. simpl. lia.
  - destruct queue as [| [[[alo ahi] blo] bhi] queue]; simpl in Hrun.
    { simplify_eq. simpl. lia. }
    apply Forall_cons in Hwa as [Hwin Hwa]. apply Forall_cons in Hwb as [Hwinb Hwb].
    simpl in Hwin, Hwinb.
    pose proof (find_longest_match_bounds a b b2j alo ahi blo bhi Hwin) as Hin.
    pose proof (find_longest_match_columns b2j alo ahi blo bhi Hwinb) as Hinb.
    destruct (Difflib.find_longest_match a b b2j alo ahi blo bhi) as [[i j] k].
    destruct Hin as (Hlo & Hhi & Hk). destruct Hinb as (Hlob & Hhib).
    simpl in Hlo, Hhi, Hk, Hlob, Hhib.
    destruct (Z.eqb_spec k 0) as [Hz | Hnz].
    { apply IH in Hrun; [| done | done]. simpl. lia. }
    apply IH in Hrun.
    + rewrite sum_sizes_snoc in Hrun. simpl in Hrun.
      destruct (Z.ltb_spec (i + k) ahi); simpl in Hrun;
        destruct (Z.ltb_spec alo i); simpl in Hrun;
        destruct (Z.ltb_spec (j + k) bhi); simpl in Hrun;
        destruct (Z.ltb_spec blo j); simpl in Hrun; simpl; lia.
    + destruct (Z.ltb_spec (i + k) ahi); simpl;
        destruct (Z.ltb_spec alo i); simpl;
        repeat (destruct (Z.ltb _ _); simpl);
        repeat (apply Forall_cons; split); try done; simpl; lia.
    + destruct (Z.ltb_spec (j + k) bhi); simpl;
        destruct (Z.ltb_spec blo j); simpl;
        repeat (destruct (Z.ltb _ _); simpl);
        repeat (apply Forall_cons; split); try done; simpl; lia.
Qed.

Lemma insert_block_sum x l :
  Difflib.sum_sizes (Difflib.insert_block x l) = x.2 + Difflib.sum_sizes l.
Proof.
  induction l as [| y l IH]; simpl; [done |].
  destruct (Difflib.block_leb x y); simpl; [done |]. rewrite IH. lia.
Qed.

Lemma sort_blocks_sum l : Difflib.sum_sizes (Difflib.sort_blocks l) = Difflib.sum_sizes l.
Proof.
  induction l as [| x l IH]; [done |].
  change (Difflib.sort_blocks (x :: l)) with (Difflib.insert_block x (Difflib.sort_blocks l)).
  rewrite insert_block_sum, IH. done.
Qed.

Lemma collapse_sum l : forall cur acc,
  Difflib.sum_sizes (Difflib.collapse cur l acc)
  = Difflib.sum_sizes acc + cur.2 + Difflib.sum_sizes l.
Proof.
  induction l as [| [[i2 j2] k2] l IH]; intros [[i1 j1] k1] acc; simpl.
  - destruct (Z.eqb_spec k1 0); [lia |]. rewrite sum_sizes_snoc. simpl. lia.
  - destruct (Z.eqb (i1 + k1) i2 && Z.eqb (j1 + k1) j2); rewrite IH; simpl; [lia |].
    destruct (Z.eqb_spec k1 0); [lia |]. rewrite sum_sizes_snoc. simpl. lia.
Qed.

(** The matched characters are no more than either string has. *)
Lemma matches_bounded blocks :
  Difflib.get_matching_blocks a b = Some blocks ->
  0 <= Difflib.sum_sizes blocks
  /\ Difflib.sum_sizes blocks <= Z.of_nat (length a)
  /\ Difflib.sum_sizes blocks <= Z.of_nat (length b).
Proof.
  unfold Difflib.get_matching_blocks.
  destruct (Difflib.blocks_loop a b _ _ _ _) as [found |] eqn:E; [| done].
  intros [= <-]. apply blocks_loop_sum in E.
  - rewrite sum_sizes_snoc, collapse_sum, sort_blocks_sum. simpl in *. lia.
  - repeat constructor. simpl. lia.
  - repeat constructor. simpl. lia.
Qed.

Lemma ratio_bounds q :
  Difflib.ratio a b = Some q -> (0 <= q /\ q <= 1)%Q.
Proof.
  unfold Difflib.ratio.
  destruct (Difflib.get_matching_blocks a b) as [blocks |] eqn:E; [| done].
  intros [= <-]. apply matches_bounded in E as (H0 & Ha & Hb).
  unfold Difflib._calculate_ratio.
  destruct (Z.eqb_spec (Z.of_nat (length a) + Z.of_nat (length b)) 0); [done |].
  unfold Qle. simpl. rewrite Z2Pos.id by lia. lia.
Qed.

End DifflibBounds.

(** ** The ratio and the longest matching block *)

Section GestaltFacts.

Variables a b : list string.

Local Open Scope Z_scope.

Lemma same_at_spec i j :
  0 <= i -> 0 <= j -> Difflib.same_at a b i j = true <-> same_char a b i j.
Proof.
  intros Hi Hj. unfold Difflib.same_at, same_char.
  destruct (a !! Z.to_nat i) as [x |]; [| split; [done | by intros (_ & ? & ? & _)]].
  destruct (b !! Z.to_nat j) as [y |]; [| split; [done | by intros (_ & ? & _ & ?)]].
  rewrite bool_decide_eq_true. split.
  - intros ->. eauto.
  - intros (_ & z & [= ->] & [= ->]). done.
Qed.

Lemma same_char_dec i j : same_char a b i j \/ ~ same_char a b i j.
Proof.
  destruct (decide (0 <= i)) as [Hi |]; [| right; intros [[? ?] _]; lia].
  destruct (decide (0 <= j)) as [Hj |]; [| right; intros [[? ?] _]; lia].
  destruct (Difflib.same_at a b i j) eqn:E.
  - left. by apply same_at_spec.
  - right. intros H. apply same_at_spec in H; [congruence | done | done].
Qed.

Lemma common_block_le i j k k' : common_block a b i j k -> k' <= k -> common_block a b i j k'.
Proof. intros H Hk d Hd. apply H. lia. Qed.

Lemma common_block_snoc i j k :
  common_block a b i j k -> same_char a b (i + k) (j + k) -> common_block a b i j (k + 1).
Proof.
  intros H Hs d Hd. destruct (decide (d = k)) as [-> | Hne]; [done |].
  apply H. lia.
Qed.

Lemma common_block_one i j : same_char a b i j -> common_block a b i j 1.
Proof.
  intros H d Hd. replace d with 0 by lia. by rewrite !Z.add_0_r.
Qed.

Section Window.

Variables alo blo bhi : Z.

Lemma run_ending_same i j k : run_ending a b alo blo i j k -> same_char a b i j.
Proof.
  intros (Hk & Hc & _). specialize (Hc (k - 1)).
  replace (i - k + 1 + (k - 1)) with i in Hc by lia.
  replace (j - k + 1 + (k - 1)) with j in Hc by lia.
  apply Hc. lia.
Qed.

Lemma run_ending_max i j k k' :
  run_ending a b alo blo i j k ->
  0 < k' -> common_block a b (i - k' + 1) (j - k' + 1) k' ->
  alo <= i - k' + 1 -> blo <= j - k' + 1 ->
  k' <= k.
Proof.
  intros (Hk & Hc & Hmax) Hk' Hc' Ha Hb.
  destruct (decide (k' <= k)) as [| Hlt]; [done |]. exfalso.
  specialize (Hc' (k' - k - 1)).
  replace (i - k' + 1 + (k' - k - 1)) with (i - k) in Hc' by lia.
  replace (j - k' + 1 + (k' - k - 1)) with (j - k) in Hc' by lia.
  destruct Hmax as [? | [? | Hn]]; [lia | lia |].
  apply Hn, Hc'. lia.
Qed.

Lemma run_ending_unique i j k k' :
  run_ending a b alo blo i j k -> run_ending a b alo blo i j k' -> k = k'.
Proof.
  intros H H'.
  assert (k' <= k).
  { destruct H' as (? & ? & _). eapply run_ending_max; [exact H | lia | done | lia | lia]. }
  assert (k <= k').
  { destruct H as (? & ? & _). eapply run_ending_max; [exact H' | lia | done | lia | lia]. }
  lia.
Qed.

Lemma run_ending_one i j :
  alo <= i -> blo <= j -> same_char a b i j ->
  (i - 1 < alo \/ j - 1 < blo \/ ~ same_char a b (i - 1) (j - 1)) ->
  run_ending a b alo blo i j 1.
Proof.
  intros Hi Hj Hs Hmax. split; [lia |]. split; [| done].
  replace (i - 1 + 1) with i by lia. replace (j - 1 + 1) with j by lia.
  by apply common_block_one.
Qed.

Lemma run_ending_succ i j k :
  run_ending a b alo blo (i - 1) (j - 1) k -> same_char a b i j ->
  run_ending a b alo blo i j (k + 1).
Proof.
  intros (Hk & Hc & Hmax) Hs. split; [lia |].
  replace (i - (k + 1) + 1) with (i - 1 - k + 1) by lia.
  replace (j - (k + 1) + 1) with (j - 1 - k + 1) by lia.
  replace (i - (k + 1)) with (i - 1 - k) by lia.
  replace (j - (k + 1)) with (j - 1 - k) by lia.
  split; [| done].
  apply common_block_snoc; [done |].
  replace (i - 1 - k + 1 + k) with i by lia.
  replace (j - 1 - k + 1 + k) with j by lia. done.
Qed.

Lemma run_ending_exists_aux n : forall i j,
  Z.to_nat (i - alo) = n -> alo <= i -> blo <= j -> same_char a b i j ->
  exists k, run_ending a b alo blo i j k.
Proof.
  induction n as [| n IH]; intros i j Hn Hi Hj Hs.
  - exists 1. apply run_ending_one; [done | done | done | lia].
  - destruct (decide (blo <= j - 1)) as [Hj' |];
      [| exists 1; apply run_ending_one; [done | done | done | lia]].
    destruct (same_char_dec (i - 1) (j - 1)) as [Hs' | Hn'];
      [| exists 1; apply run_ending_one; [done | done | done | tauto]].
    destruct (IH (i - 1) (j - 1)) as [k Hk]; [lia | lia | lia | done |].
    exists (k + 1). by apply run_ending_succ.
Qed.

Lemma run_ending_exists i j :
  alo <= i -> blo <= j -> same_char a b i j -> exists k, run_ending a b alo blo i j k.
Proof. intros. by eapply run_ending_exists_aux. Qed.

Lemma best_row_end i j best :
  best_so_far a b alo blo bhi i j best ->
  (forall j', j <= j' -> j' < bhi -> ~ same_char a b i j') ->
  best_so_far a b alo blo bhi (i + 1) blo best.
Proof.
  destruct best as [[bi bj] bk]. intros (H0 & Hz & Hp & Hall) Hno.
  split; [done |]. split; [done |]. split.
  - intros Hk. destruct (Hp Hk) as [Hb Hs]. split; [| done].
    unfold scanned in *. lia.
  - intros i' j' k' Hb Hs.
    destruct (decide (i' < i \/ (i' = i /\ j' < j))) as [Hold | Hnew].
    + apply Hall; [| done]. unfold scanned in *. lia.
    + exfalso. apply run_ending_same in Hs.
      assert (i' = i) as -> by (unfold scanned in Hb; lia).
      apply (Hno j'); [lia | unfold scanned in Hb; lia | done].
Qed.

Lemma best_skip i j j2 best :
  best_so_far a b alo blo bhi i j best ->
  j <= j2 ->
  (forall j', j <= j' -> j' < j2 -> ~ same_char a b i j') ->
  best_so_far a b alo blo bhi i j2 best.
Proof.
  destruct best as [[bi bj] bk]. intros (H0 & Hz & Hp & Hall) Hle Hno.
  split; [done |]. split; [done |]. split.
  - intros Hk. destruct (Hp Hk) as [Hb Hs]. split; [| done].
    unfold scanned in *. lia.
  - intros i' j' k' Hb Hs.
    destruct (decide (i' < i \/ (i' = i /\ j' < j))) as [Hold | Hnew].
    + apply Hall; [| done]. unfold scanned in *. lia.
    + exfalso. apply run_ending_same in Hs.
      assert (i' = i) as -> by (unfold scanned in Hb; lia).
      apply (Hno j'); [lia | unfold scanned in Hb; lia | done].
Qed.

Lemma best_add i j k bi bj bk :
  best_so_far a b alo blo bhi i j (bi, bj, bk) ->
  run_ending a b alo blo i j k ->
  alo <= i -> blo <= j < bhi ->
  best_so_far a b alo blo bhi i (j + 1)
    (if Z.ltb bk k then (i - k + 1, j - k + 1, k) else (bi, bj, bk)).
Proof.
  intros (H0 & Hz & Hp & Hall) Hs Hi Hj.
  assert (1 <= k) as Hk1 by (destruct Hs as (? & _); lia).
  destruct (Z.ltb_spec bk k) as [Hlt | Hge].
  - split; [lia |]. split; [lia |]. split.
    + intros _.
      replace (i - k + 1 + k - 1) with i by lia.
      replace (j - k + 1 + k - 1) with j by lia.
      split; [unfold scanned; lia | done].
    + intros i' j' k' Hb Hs'.
      destruct (decide (i' < i \/ (i' = i /\ j' < j))) as [Hold | Hnew].
      * destruct (Hall i' j' k') as [Hle _]; [unfold scanned in *; lia | done |]. lia.
      * assert (i' = i /\ j' = j) as [-> ->] by (unfold scanned in Hb; lia).
        rewrite (run_ending_unique _ _ _ _ Hs' Hs). lia.
  - split; [done |]. split; [done |]. split.
    + intros Hk. destruct (Hp Hk) as [Hb Hs']. split; [| done].
      unfold scanned in *. lia.
    + intros i' j' k' Hb Hs'.
      destruct (decide (i' < i \/ (i' = i /\ j' < j))) as [Hold | Hnew].
      * apply Hall; [unfold scanned in *; lia | done].
      * assert (i' = i /\ j' = j) as [-> ->] by (unfold scanned in Hb; lia).
        rewrite (run_ending_unique _ _ _ _ Hs' Hs). split; [lia |].
        intros ->. destruct Hp as [Hb' _]; [lia |]. unfold scanned in Hb'. lia.
Qed.

Lemma scan_row_spec i j2len :
  alo <= i ->
  prev_row a b alo blo bhi i j2len ->
  forall js newj2len best jcur,
    StronglySorted Z.lt js ->
    (forall j, j ∈ js -> same_char a b i j) ->
    (forall j, same_char a b i j -> j < jcur \/ j ∈ js) ->
    (forall j, j ∈ js -> blo <= j -> jcur <= j) ->
    blo <= jcur ->
    row_done a b alo blo i jcur newj2len ->
    best_so_far a b alo blo bhi i jcur best ->
    prev_row a b alo blo bhi (i + 1) (Difflib.scan_row i blo bhi j2len js newj2len best).1
    /\ best_so_far a b alo blo bhi (i + 1) blo
         (Difflib.scan_row i blo bhi j2len js newj2len best).2.
Proof.
  intros Hi Hprev.
  assert (forall newj2len best jcur,
    (forall j, same_char a b i j -> j < bhi -> j < jcur) ->
    row_done a b alo blo i jcur newj2len ->
    best_so_far a b alo blo bhi i jcur best ->
    prev_row a b alo blo bhi (i + 1) newj2len
    /\ best_so_far a b alo blo bhi (i + 1) blo best) as Hstop.
  { intros newj2len best jcur Hall Hrow Hbest. split.
    - intros j Hj. specialize (Hrow j). replace (i + 1 - 1) with i by lia.
      destruct (newj2len !! j) as [k |]; [tauto |].
      destruct (same_char_dec i j) as [Hs | Hn]; [| tauto].
      destruct Hrow as [? | ?]; [apply Hall; done | tauto | tauto].
    - eapply best_row_end; [exact Hbest |].
      intros j' Hle Hlt Hs. specialize (Hall _ Hs Hlt). lia. }
  induction js as [| j js IH]; intros newj2len best jcur Hsort Hin Hpend Hnext Hcur Hrow Hbest.
  - simpl. apply (Hstop _ _ jcur); [| done | done].
    intros j Hs _. destruct (Hpend _ Hs) as [? | Hel]; [done |]. by apply elem_of_nil in Hel.
  - apply StronglySorted_inv in Hsort as [Hsort Hhd].
    rewrite Forall_forall in Hhd.
    simpl. destruct (Z.ltb_spec j blo) as [Hlow | Hlow].
    { apply (IH _ _ jcur); try done.
      - intros j' Hj'. apply Hin. by right.
      - intros j' Hs. destruct (Hpend _ Hs) as [? | Hel]; [by left |].
        apply elem_of_cons in Hel as [-> | ?]; [left; lia | by right].
      - intros j' Hj'. apply Hnext. by right. }
    destruct (Z.leb_spec bhi j) as [Hhigh | Hhigh].
    { apply (Hstop _ _ jcur); [| done | done].
      intros j' Hs Hlt. destruct (Hpend _ Hs) as [? | Hel]; [done |].
      apply elem_of_cons in Hel as [-> | Hel]; [lia |].
      specialize (Hhd _ Hel). lia. }
    assert (jcur <= j) as Hjc by (apply Hnext; [by left | done]).
    assert (same_char a b i j) as Hsame by (apply Hin; by left).
    assert (forall j', jcur <= j' -> j' < j -> ~ same_char a b i j') as Hgap.
    { intros j' H1 H2 Hs. destruct (Hpend _ Hs) as [? | Hel]; [lia |].
      apply elem_of_cons in Hel as [-> | Hel]; [lia |].
      specialize (Hhd _ Hel). lia. }
    assert (run_ending a b alo blo i j (default 0 (j2len !! (j - 1)) + 1)) as Hsuf.
    { specialize (Hprev (j - 1)). destruct (j2len !! (j - 1)) as [k |]; simpl.
      - apply run_ending_succ; [| done]. apply Hprev. lia.
      - apply run_ending_one; [done | done | done |]. destruct Hprev as [? | [? | ?]]; [lia | | |]; tauto. }
    destruct best as [[bi bj] bk].
    apply (IH _ _ (j + 1)); try done.
    + intros j' Hj'. apply Hin. by right.
    + intros j' Hs. destruct (Hpend _ Hs) as [? | Hel]; [left; lia |].
      apply elem_of_cons in Hel as [-> | ?]; [left; lia | by right].
    + intros j' Hj' _. specialize (Hhd _ Hj'). lia.
    + lia.
    + intros j'. rewrite lookup_insert. case_decide as Hd.
      * subst j'. split; [lia | done].
      * specialize (Hrow j'). destruct (newj2len !! j') as [k |].
        -- split; [lia | tauto].
        -- intros Hlt. destruct (decide (j' < jcur)); [tauto |].
           right. apply Hgap; lia.
    + apply best_add; [| done | done | lia].
      eapply best_skip; [exact Hbest | done | done].
Qed.

End Window.


Lemma chain_from_default x rest : forall i0 m,
  default [] (Difflib.chain_from i0 rest m !! x)
  = default [] (m !! x) ++ occurrences x i0 rest.
Proof.
  induction rest as [| y rest IH]; intros i0 m; simpl.
  - by rewrite app_nil_r.
  - rewrite IH. rewrite lookup_insert. destruct (decide (y = x)) as [-> | Hne]; simpl.
    + by rewrite <- app_assoc.
    + done.
Qed.

Lemma occurrences_spec x rest : forall i0 j,
  j ∈ occurrences x i0 rest <-> i0 <= j /\ rest !! Z.to_nat (j - i0) = Some x.
Proof.
  induction rest as [| y rest IH]; intros i0 j; simpl.
  - split; [by intros ?%elem_of_nil | by intros [_ ?]].
  - rewrite elem_of_app, IH. split.
    + intros [Hhd | [Hle Hl]].
      * destruct (decide (y = x)) as [-> |]; [| by apply elem_of_nil in Hhd].
        apply list_elem_of_singleton in Hhd as ->. split; [lia |].
        by replace (i0 - i0) with 0 by lia.
      * split; [lia |].
        replace (Z.to_nat (j - i0)) with (S (Z.to_nat (j - (i0 + 1)))) by lia. done.
    + intros [Hle Hl]. destruct (decide (j = i0)) as [-> | Hne].
      * left. replace (i0 - i0) with 0 in Hl by lia. simpl in Hl. simplify_eq.
        rewrite decide_True by done. by apply list_elem_of_singleton.
      * right. split; [lia |].
        replace (Z.to_nat (j - i0)) with (S (Z.to_nat (j - (i0 + 1)))) in Hl by lia. done.
Qed.

Lemma occurrences_sorted x rest : forall i0, StronglySorted Z.lt (occurrences x i0 rest).
Proof.
  induction rest as [| y rest IH]; intros i0; simpl; [constructor |].
  destruct (decide (y = x)); simpl; [| apply IH].
  constructor; [apply IH |]. apply Forall_forall. intros j Hj.
  apply occurrences_spec in Hj. lia.
Qed.

Section Short.

Hypothesis Hshort : Z.of_nat (length b) < 200.

Lemma positions_short i :
  Difflib.positions a (Difflib.chain_b b) i
  = match a !! Z.to_nat i with Some x => occurrences x 0 b | None => [] end.
Proof.
  unfold Difflib.positions, Difflib.chain_b.
  destruct (Z.leb_spec 200 (Z.of_nat (length b))); [lia |].
  destruct (a !! Z.to_nat i) as [x |]; [| done].
  rewrite chain_from_default. by rewrite lookup_empty.
Qed.

Lemma positions_sorted i : StronglySorted Z.lt (Difflib.positions a (Difflib.chain_b b) i).
Proof.
  rewrite positions_short. destruct (a !! Z.to_nat i); [apply occurrences_sorted | constructor].
Qed.

Lemma positions_same i j :
  0 <= i -> j ∈ Difflib.positions a (Difflib.chain_b b) i <-> same_char a b i j.
Proof.
  intros Hi. rewrite positions_short. unfold same_char.
  destruct (a !! Z.to_nat i) as [x |].
  - rewrite occurrences_spec. replace (j - 0) with j by lia. split.
    + intros [? ?]. eauto.
    + intros ([_ ?] & y & [= ->] & ?). done.
  - split; [by intros ?%elem_of_nil | by intros (_ & ? & ? & _)].
Qed.

Section Rows.

Variables alo ahi blo bhi : Z.
Hypothesis Halo : 0 <= alo.

Lemma scan_rows_spec n : forall i j2len best,
  alo <= i ->
  i + Z.of_nat n = ahi ->
  prev_row a b alo blo bhi i j2len ->
  best_so_far a b alo blo bhi i blo best ->
  best_so_far a b alo blo bhi ahi blo
    (Difflib.scan_rows a (Difflib.chain_b b) blo bhi (seqZ i (Z.of_nat n)) j2len best).
Proof.
  induction n as [| n IH]; intros i j2len best Hi Hn Hprev Hbest.
  - simpl. by replace ahi with i by lia.
  - rewrite seqZ_cons by lia. simpl.
    pose proof (scan_row_spec alo blo bhi i j2len Hi Hprev
                  (Difflib.positions a (Difflib.chain_b b) i) ∅ best blo) as Hrow.
    destruct (Difflib.scan_row i blo bhi j2len (Difflib.positions a (Difflib.chain_b b) i) ∅ best)
      as [newj2len best'] eqn:E.
    simpl in Hrow. destruct Hrow as [Hnew Hbest'].
    + apply positions_sorted.
    + intros j Hj. apply positions_same in Hj; [done | lia].
    + intros j Hj. right. apply positions_same; [lia | done].
    + done.
    + done.
    + intros j. rewrite lookup_empty. lia.
    + done.
    + replace (Z.pred (Z.of_nat (S n))) with (Z.of_nat n) by lia.
      replace (Z.succ i) with (i + 1) by lia.
      apply IH; [lia | lia | done | done].
Qed.

Lemma scan_rows_best :
  alo <= ahi ->
  best_so_far a b alo blo bhi ahi blo
    (Difflib.scan_rows a (Difflib.chain_b b) blo bhi (seqZ alo (ahi - alo)) ∅ (alo, blo, 0)).
Proof.
  intros Hle. replace (ahi - alo) with (Z.of_nat (Z.to_nat (ahi - alo))) by lia.
  apply scan_rows_spec; [lia | lia | |].
  - intros j _. rewrite lookup_empty. lia.
  - split; [lia |]. split; [done |]. split; [lia |].
    intros i' j' k' Hbefore. unfold scanned in Hbefore. lia.
Qed.

End Rows.

(** With every element of [b] in [b2j], the match the scan ends with is as
    long as a match can be: the two loops that extend it do nothing. *)
Lemma extend_left_fixed fuel alo blo bhi i j bi bj bk :
  0 <= alo -> 0 <= blo ->
  best_so_far a b alo blo bhi i j (bi, bj, bk) ->
  Difflib.extend_left a b fuel alo blo (bi, bj, bk) = (bi, bj, bk).
Proof.
  intros Halo Hblo (H0 & Hz & Hp & _). destruct fuel as [| fuel]; simpl; [done |].
  destruct (Z.ltb_spec alo bi) as [Ha |]; simpl; [| done].
  destruct (Z.ltb_spec blo bj) as [Hbj |]; simpl; [| done].
  destruct (Difflib.same_at a b (bi - 1) (bj - 1)) eqn:E; [| done]. exfalso.
  apply same_at_spec in E; [| lia | lia].
  destruct (decide (bk = 0)) as [Hk | Hk]; [destruct (Hz Hk); lia |].
  destruct Hp as [_ (_ & _ & Hmax)]; [lia |].
  replace (bi + bk - 1 - bk) with (bi - 1) in Hmax by lia.
  replace (bj + bk - 1 - bk) with (bj - 1) in Hmax by lia.
  destruct Hmax as [? | [? | ?]]; [lia | lia | done].
Qed.

Lemma best_is_longest alo ahi blo bhi bi bj bk i' j' k' :
  best_so_far a b alo blo bhi ahi blo (bi, bj, bk) ->
  0 < k' -> common_block a b i' j' k' -> in_window (alo, ahi, blo, bhi) i' j' k' ->
  k' <= bk /\ (k' = bk -> bi < i' \/ (bi = i' /\ bj <= j')).
Proof.
  intros (H0 & Hz & Hp & Hall) Hk' Hc Hin. simpl in Hin.
  assert (same_char a b (i' + k' - 1) (j' + k' - 1)) as Hs.
  { specialize (Hc (k' - 1)).
    replace (i' + (k' - 1)) with (i' + k' - 1) in Hc by lia.
    replace (j' + (k' - 1)) with (j' + k' - 1) in Hc by lia. apply Hc. lia. }
  destruct (run_ending_exists alo blo (i' + k' - 1) (j' + k' - 1)) as [k'' Hsuf];
    [lia | lia | done |].
  assert (k' <= k'') as Hle.
  { eapply run_ending_max; [exact Hsuf | done | | lia | lia].
    replace (i' + k' - 1 - k' + 1) with i' by lia.
    replace (j' + k' - 1 - k' + 1) with j' by lia. done. }
  assert (scanned alo blo bhi ahi blo (i' + k' - 1) (j' + k' - 1)) as Hbefore
    by (unfold scanned; lia).
  destruct (Hall _ _ _ Hbefore Hsuf) as [Hle' Htie].
  split; [lia |]. intros ->. destruct Htie; lia.
Qed.

Lemma extend_right_fixed fuel alo ahi blo bhi bi bj bk :
  0 <= alo -> 0 <= blo ->
  best_so_far a b alo blo bhi ahi blo (bi, bj, bk) ->
  Difflib.extend_right a b fuel ahi bhi (bi, bj, bk) = (bi, bj, bk).
Proof.
  intros Halo Hblo Hbest. destruct fuel as [| fuel]; simpl; [done |].
  destruct (Z.ltb_spec (bi + bk) ahi) as [Ha |]; simpl; [| done].
  destruct (Z.ltb_spec (bj + bk) bhi) as [Hbj |]; simpl; [| done].
  destruct (Difflib.same_at a b (bi + bk) (bj + bk)) eqn:E; [| done]. exfalso.
  pose proof Hbest as (H0 & Hz & Hp & _).
  assert (alo <= bi /\ blo <= bj) as [Hi Hj].
  { destruct (decide (bk = 0)) as [Hk | Hk]; [destruct (Hz Hk); lia |].
    destruct Hp as [_ (? & _)]; lia. }
  apply same_at_spec in E; [| lia | lia].
  assert (common_block a b bi bj (bk + 1)) as Hc.
  { apply common_block_snoc; [| done].
    destruct (decide (bk = 0)) as [Hk | Hk]; [intros d; lia |].
    destruct Hp as [_ (_ & Hc & _)]; [lia |].
    replace (bi + bk - 1 - bk + 1) with bi in Hc by lia.
    replace (bj + bk - 1 - bk + 1) with bj in Hc by lia. done. }
  destruct (best_is_longest alo ahi blo bhi bi bj bk bi bj (bk + 1) Hbest) as [? _];
    [lia | done | simpl; lia | lia].
Qed.

(** [find_longest_match] finds the longest block of the window, the
    earliest in [a] and then in [b]; it answers with size [0] when the
    windows have no character in common. *)
Lemma find_longest_match_spec alo ahi blo bhi i j k :
  0 <= alo <= ahi -> 0 <= blo <= bhi ->
  Difflib.find_longest_match a b (Difflib.chain_b b) alo ahi blo bhi = (i, j, k) ->
  (k = 0 /\ forall i' j', in_window (alo, ahi, blo, bhi) i' j' 1 -> ~ same_char a b i' j')
  \/ longest_block a b (alo, ahi, blo, bhi) i j k.
Proof.
  intros Ha Hb. unfold Difflib.find_longest_match.
  assert (best_so_far a b alo blo bhi ahi blo
            (Difflib.scan_rows a (Difflib.chain_b b) blo bhi (seqZ alo (ahi - alo)) ∅
               (alo, blo, 0))) as Hbest by (apply scan_rows_best; lia).
  destruct (Difflib.scan_rows _ _ _ _ _ _ _) as [[bi bj] bk].
  rewrite (extend_left_fixed _ alo blo bhi ahi blo) by (done || lia). simpl.
  rewrite (extend_right_fixed _ alo ahi blo bhi) by (done || lia).
  intros [= -> -> ->].
  pose proof Hbest as (H0 & Hz & Hp & Hall).
  destruct (decide (k = 0)) as [Hk | Hk].
  - left. split; [done |]. intros i' j' Hin Hs.
    destruct (best_is_longest alo ahi blo bhi i j k i' j' 1 Hbest) as [? _];
      [lia | by apply common_block_one | done | lia].
  - right. destruct Hp as [Hbefore (Hk1 & Hc & _)]; [lia |].
    replace (i + k - 1 - k + 1) with i in * by lia.
    replace (j + k - 1 - k + 1) with j in * by lia.
    split; [lia |]. split; [done |]. split; [unfold scanned in Hbefore; simpl; lia |].
    intros i' j' k' Hk' Hc' Hin'.
    by apply (best_is_longest alo ahi blo bhi i j k i' j' k' Hbest).
Qed.

(** What the loop of [get_matching_blocks] adds up is what the windows of
    its queue have in common. *)
Lemma blocks_loop_gestalt fuel : forall queue blocks result,
  Forall proper_window queue ->
  Difflib.blocks_loop a b fuel (Difflib.chain_b b) queue blocks = Some result ->
  exists ms, Forall2 (gestalt a b) queue ms
             /\ Difflib.sum_sizes result = Difflib.sum_sizes blocks + foldr Z.add 0 ms.
Proof.
  induction fuel as [| fuel IH]; intros queue blocks result Hwf Hrun.
  - destruct queue as [| [[[alo ahi] blo] bhi] queue]; simpl in Hrun; [| done].
    simplify_eq. exists []. split; [constructor | simpl; lia].
  - destruct queue as [| [[[alo ahi] blo] bhi] queue]; simpl in Hrun.
    { simplify_eq. exists []. split; [constructor | simpl; lia]. }
    apply Forall_cons in Hwf as [[Hwa Hwb] Hwf]. simpl in Hwa, Hwb.
    pose proof (find_longest_match_bounds a b (Difflib.chain_b b) alo ahi blo bhi
                  ltac:(lia)) as Hin.
    pose proof (find_longest_match_columns a b (Difflib.chain_b b) alo ahi blo bhi
                  ltac:(lia)) as Hinb.
    pose proof (find_longest_match_spec alo ahi blo bhi) as Hspec.
    destruct (Difflib.find_longest_match a b _ alo ahi blo bhi) as [[i j] k].
    specialize (Hspec i j k Hwa Hwb eq_refl).
    destruct Hin as (Hlo & Hhi & Hk). destruct Hinb as (Hlob & Hhib).
    simpl in Hlo, Hhi, Hk, Hlob, Hhib.
    destruct (Z.eqb_spec k 0) as [Hz | Hnz].
    { apply IH in Hrun as (ms & Hms & Hsum); [| done].
      exists (0 :: ms). split; [| simpl; lia].
      constructor; [| done]. constructor.
      destruct Hspec as [[_ Hno] | (? & _)]; [done | lia]. }
    destruct Hspec as [[? _] | Hlong]; [done |].
    assert (forall w, ~ (w.1.1.1 < w.1.1.2 /\ w.1.2 < w.2) -> gestalt a b w 0) as Hempty.
    { intros [[[alo' ahi'] blo'] bhi'] Hn. constructor. intros i' j' Hin' _.
      simpl in *. lia. }
    apply IH in Hrun as (ms & Hms & Hsum).
    + rewrite sum_sizes_snoc in Hsum. simpl in Hsum.
      destruct (Z.ltb_spec alo i) as [Hl1 | Hl1]; simpl in Hms;
        destruct (Z.ltb_spec blo j) as [Hl2 | Hl2]; simpl in Hms;
        destruct (Z.ltb_spec (i + k) ahi) as [Hr1 | Hr1]; simpl in Hms;
        destruct (Z.ltb_spec (j + k) bhi) as [Hr2 | Hr2]; simpl in Hms;
        repeat match goal with
        | H : Forall2 _ (_ :: _) _ |- _ =>
            apply Forall2_cons_inv_l in H as (? & ? & ? & ? & ->)
        end;
        match goal with
        | Hq : Forall2 _ queue ?ms' |- _ =>
            match goal with
            | Hr : gestalt a b (i + k, ahi, j + k, bhi) ?mr,
              Hl : gestalt a b (alo, i, blo, j) ?ml |- _ =>
                exists (k + ml + mr :: ms'); split;
                [constructor; [by eapply gestalt_block | done] | simpl in *; lia]
            | Hr : gestalt a b (i + k, ahi, j + k, bhi) ?mr |- _ =>
                exists (k + 0 + mr :: ms'); split;
                [constructor; [eapply gestalt_block; [done | apply Hempty; simpl; lia | done] | done]
                | simpl in *; lia]
            | Hl : gestalt a b (alo, i, blo, j) ?ml |- _ =>
                exists (k + ml + 0 :: ms'); split;
                [constructor; [eapply gestalt_block; [done | done | apply Hempty; simpl; lia] | done]
                | simpl in *; lia]
            | _ =>
                exists (k + 0 + 0 :: ms'); split;
                [constructor; [eapply gestalt_block; [done | apply Hempty; simpl; lia
                                                     | apply Hempty; simpl; lia] | done]
                | simpl in *; lia]
            end
        end.
    + destruct (Z.ltb_spec alo i); simpl;
        destruct (Z.ltb_spec blo j); simpl;
        destruct (Z.ltb_spec (i + k) ahi); simpl;
        destruct (Z.ltb_spec (j + k) bhi); simpl;
        repeat (apply Forall_cons; split); try done; simpl; lia.
Qed.

End Short.

Lemma longest_block_unique w i j k i' j' k' :
  longest_block a b w i j k -> longest_block a b w i' j' k' ->
  i = i' /\ j = j' /\ k = k'.
Proof.
  intros (Hk & Hc & Hin & Hmax) (Hk' & Hc' & Hin' & Hmax').
  destruct (Hmax _ _ _ Hk' Hc' Hin') as [H1 T1].
  destruct (Hmax' _ _ _ Hk Hc Hin) as [H2 T2].
  assert (k = k') as -> by lia.
  specialize (T1 eq_refl). specialize (T2 eq_refl). lia.
Qed.

(** The characters matched are a function of the window. *)
Lemma gestalt_unique w m :
  gestalt a b w m -> forall m', gestalt a b w m' -> m = m'.
Proof.
  induction 1 as [w Hno | alo ahi blo bhi i j k ml mr Hlong Hl IHl Hr IHr];
    intros m' H'; inversion H' as [w' Hno' | alo' ahi' blo' bhi' i' j' k' ml' mr' Hlong' Hl' Hr'];
    subst.
  - done.
  - exfalso. destruct Hlong' as (Hk & Hc & Hin & _).
    apply (Hno i' j').
    + simpl in *. lia.
    + specialize (Hc 0). rewrite !Z.add_0_r in Hc. apply Hc. lia.
  - exfalso. destruct Hlong as (Hk & Hc & Hin & _).
    apply (Hno' i j).
    + simpl in *. lia.
    + specialize (Hc 0). rewrite !Z.add_0_r in Hc. apply Hc. lia.
  - destruct (longest_block_unique _ _ _ _ _ _ _ Hlong Hlong') as (-> & -> & ->).
    rewrite (IHl _ Hl'), (IHr _ Hr'). done.
Qed.

(** The ratio of the code is the ratio of the characters matched, when [b]
    has fewer than 200 characters. *)
Lemma ratio_matched :
  Z.of_nat (length b) < 200 ->
  exists score, Difflib.ratio a b = Some score /\ matched_ratio a b score.
Proof.
  intros Hshort. unfold Difflib.ratio, Difflib.get_matching_blocks.
  destruct (Difflib.blocks_loop a b _ _ _ _) as [found |] eqn:E.
  - apply blocks_loop_gestalt in E as (ms & Hms & Hsum); [| done |].
    + apply Forall2_cons_inv_l in Hms as (m & ms' & Hm & Hnil & ->).
      apply Forall2_nil_inv_l in Hnil as ->.
      eexists. split; [done |]. exists m. split; [done |].
      unfold Difflib._calculate_ratio.
      rewrite sum_sizes_snoc, collapse_sum, sort_blocks_sum. simpl in *.
      destruct (Z.eqb _ 0); [done |]. do 2 f_equal. lia.
    + repeat constructor; simpl; lia.
  - pose proof (get_matching_blocks_total a b) as [x Hx].
    unfold Difflib.get_matching_blocks in Hx. by rewrite E in Hx.
Qed.

Lemma matched_ratio_unique q q' :
  matched_ratio a b q -> matched_ratio a b q' -> q = q'.
Proof.
  intros (m & Hm & ->) (m' & Hm' & ->). by rewrite (gestalt_unique _ _ Hm _ Hm').
Qed.

End GestaltFacts.

(** C2.  [_filter_by_similarity] with threshold 0.65: a candidate that
    contains the search term, both in uppercase, is kept with score 1; any
    other candidate is kept if and only if its [SequenceMatcher] ratio
    against the term, both in uppercase, is at least 0.65, and then with
    that ratio as its score; the result is ordered by score, descending,
    and candidates of equal score stay in their input order.  For a term
    of fewer than 200 characters the ratio is the one the specification
    describes: twice the characters of the longest common block, and of
    the longest common blocks to its left and to its right, over the
    characters of both strings; this determines the score.  The three
    rankings the specification lists come out as it says, and so do
    rankings that keep, order and drop candidates by their ratio alone. *)
Theorem similarity_ranking :
  (forall items term,
      let kept := scored items term default_threshold in
      let ranked := _filter_by_similarity items term default_threshold in
      (forall item score,
          In (item, score) ranked <->
          In item items
          /\ ((contains (upper term) (upper item) = true /\ score = 1%Q)
              \/ (contains (upper term) (upper item) = false
                  /\ sequence_ratio item term = Some score
                  /\ (13 # 20 <= score)%Q)))
      /\ StronglySorted descending ranked
      /\ ranked ≡ₚ kept
      /\ sublist (map fst kept) items
      /\ (forall q, with_score q ranked = with_score q kept))
  /\ (forall items term,
        (len (upper term) < 200)%nat ->
        forall item score,
          In (item, score) (_filter_by_similarity items term default_threshold) <->
          In item items
          /\ ((contains (upper term) (upper item) = true /\ score = 1%Q)
              \/ (contains (upper term) (upper item) = false
                  /\ similarity_ratio item term score
                  /\ (13 # 20 <= score)%Q)))
  /\ (forall item term q q',
        similarity_ratio item term q -> similarity_ratio item term q' -> q = q')
  /\ _filter_by_similarity ["ORDER"; "ORDERS"; "PRODUCT"] "ORDER" default_threshold
     = [("ORDER", 1%Q); ("ORDERS", 1%Q)]
  /\ _filter_by_similarity ["abc"] "abc" default_threshold = [("abc", 1%Q)]
  /\ _filter_by_similarity ["xyz"] "abc" default_threshold = []
  /\ _filter_by_similarity ["ORDRE"] "order" default_threshold = [("ORDRE", 8 # 10)]
  /\ _filter_by_similarity ["PRODUCT"; "ORDRE"; "ODER"; "ORDERS"; "REORDER"; "ORDRES"]
       "order" default_threshold
     = [("ORDERS", 1%Q); ("REORDER", 1%Q); ("ODER", 8 # 9); ("ORDRE", 8 # 10);
        ("ORDRES", 8 # 11)]
  /\ _filter_by_similarity ["É"; "CAFE"; "CAFÉS"; "KAFFEE"] "café" default_threshold
     = [("CAFÉS", 1%Q); ("CAFE", 6 # 8)].
Proof.
  assert (forall items term item score,
            In (item, score) (_filter_by_similarity items term default_threshold) <->
            In item items
            /\ ((contains (upper term) (upper item) = true /\ score = 1%Q)
                \/ (contains (upper term) (upper item) = false
                    /\ score = _calculate_similarity item term
                    /\ (13 # 20 <= score)%Q))) as Hkept.
  { intros items term item score. unfold _filter_by_similarity.
    rewrite <- !list_elem_of_In, sort_desc_perm, !list_elem_of_In, scored_spec.
    by rewrite Qle_bool_iff. }
  split; [| split; [| split; [| by vm_compute]]].
  - intros items term kept ranked. subst kept ranked.
    split; [| split; [| split; [| split]]].
    + intros item score. rewrite Hkept, sequence_ratio_total.
      split; intros [Hin [H | (Hno & Hs & Hle)]]; (split; [exact Hin |]);
        try (by left); right.
      * by subst score.
      * by injection Hs as <-.
    + apply sort_desc_sorted.
    + apply sort_desc_perm.
    + apply scored_in_input_order.
    + intros q. apply sort_desc_stable.
  - intros items term Hshort item score. rewrite Hkept.
    destruct (ratio_matched (chars (upper item)) (chars (upper term))) as (q & Hq & Hm).
    { unfold len in Hshort. lia. }
    assert (_calculate_similarity item term = q) as Hcode
      by (unfold _calculate_similarity; by rewrite Hq).
    split; intros [Hin [H | (Hno & Hs & Hle)]]; (split; [exact Hin |]);
      try (by left); right.
    + subst score. rewrite Hcode in Hle |- *. split; [done |]. split; [exact Hm | done].
    + split; [done |]. split; [| done]. rewrite Hcode.
      by apply (matched_ratio_unique (chars (upper item)) (chars (upper term))).
  - intros item term q q'. apply matched_ratio_unique.
Qed.

Lemma similarity_ranking_witness :
  (len (upper "order") < 200)%nat
  /\ contains (upper "order") (upper "ORDRE") = false
  /\ similarity_ratio "ORDRE" "order" (8 # 10).
Proof.
  assert (len (upper "order") < 200)%nat as Hshort by (vm_compute; lia).
  split; [exact Hshort |].
  destruct (proj1 (proj1 (proj2 similarity_ranking) ["ORDRE"] "order" Hshort
                     "ORDRE" (8 # 10)))
    as [_ [[Hc _] | (Hc & Hr & _)]].
  - vm_compute. by left.
  - by vm_compute in Hc.
  - split; [exact Hc | exact Hr].
Defined.

(** X11.  A similarity is a fraction between 0 and 1, so what the ranker
    returns carries a score that is 1 (the term is inside the name) or lies
    between the threshold and 1. *)
Theorem scores_are_fractions (items : list string) (term : string) (threshold : Q)
    (item : string) (score : Q) :
  (0 <= _calculate_similarity item term /\ _calculate_similarity item term <= 1)%Q
  /\ (In (item, score) (_filter_by_similarity items term threshold) ->
      In item items
      /\ (0 <= score /\ score <= 1)%Q
      /\ (score = 1%Q \/ (threshold <= score)%Q)).
Proof.
  assert (forall x, (0 <= _calculate_similarity x term /\ _calculate_similarity x term <= 1)%Q)
    as Hfrac.
  { intros x. apply (ratio_bounds (chars (upper x)) (chars (upper term))).
    apply sequence_ratio_total. }
  split; [apply Hfrac |].
  unfold _filter_by_similarity. rewrite <- list_elem_of_In, sort_desc_perm.
  induction items as [| x items IH]; simpl; [by intros ?%elem_of_nil |].
  destruct (contains (upper term) (upper x)).
  { intros [[= -> ->] | Hin]%elem_of_cons; [| destruct (IH Hin) as (? & ? & ?); tauto].
    split; [by left |]. split; [done | by left]. }
  destruct (Qle_bool threshold (_calculate_similarity x term)) eqn:E.
  - intros [[= -> ->] | Hin]%elem_of_cons; [| destruct (IH Hin) as (? & ? & ?); tauto].
    split; [by left |]. split; [apply Hfrac |]. right. by apply Qle_bool_iff.
  - intros Hin. destruct (IH Hin) as (? & ? & ?); tauto.
Qed.

(** X11 on a misspelt name. *)
Lemma scores_are_fractions_witness :
  In "ORDRE" ["ORDRE"; "ITEMS"]
  /\ (0 <= 8 # 10 /\ 8 # 10 <= 1)%Q
  /\ (8 # 10 = 1%Q \/ (13 # 20 <= 8 # 10)%Q).
Proof.
  apply (proj2 (scores_are_fractions ["ORDRE"; "ITEMS"] "order" (13 # 20) "ORDRE" (8 # 10))).
  vm_compute. by left.
Defined.

(** ** Query advice *)

Lemma prefix_chars needle : forall hay c,
  String.prefix needle hay = true ->
  In c (list_ascii_of_string needle) -> In c (list_ascii_of_string hay).
Proof.
  induction needle as [| a needle IH]; intros hay c Hpre Hin; [done |].
  destruct hay as [| a' hay]; [done |]. simpl in Hpre.
  destruct (ascii_dec a a') as [<- |]; [| done].
  destruct Hin as [<- | Hin]; [by left |]. right. by apply IH.
Qed.

Lemma contains_chars needle hay c :
  contains needle hay = true ->
  In c (list_ascii_of_string needle) -> In c (list_ascii_of_string hay).
Proof.
  induction hay as [| a hay IH]; simpl; intros Hc Hin.
  - rewrite orb_false_r in Hc. by apply (prefix_chars needle "" c).
  - apply orb_true_iff in Hc as [Hc | Hc].
    + by apply (prefix_chars needle (String a hay) c).
    + right. by apply IH.
Qed.

Lemma contains_lowercase_upper needle s :
  In "s"%char (list_ascii_of_string needle) -> contains needle (upper s) = false.
Proof.
  intros Hin. destruct (contains needle (upper s)) eqn:E; [| done].
  destruct (upper_not_lowercase s). by apply (contains_chars needle).
Qed.

(** X12.  The advice on a query does not depend on the case the query is
    written in, and the warning about leading wildcards is never given: the
    query is searched in uppercase for a pattern written in lowercase. *)
Theorem like_advice_never_given (query : string) :
  _analyze_query_for_optimization (upper query) = _analyze_query_for_optimization query
  /\ ~ In "Leading wildcards in LIKE predicates prevent index usage"
         (_analyze_query_for_optimization query).
Proof.
  split.
  { unfold _analyze_query_for_optimization. by rewrite upper_idempotent. }
  unfold _analyze_query_for_optimization.
  rewrite (contains_lowercase_upper " LIKE '%something" query),
    (contains_lowercase_upper " LIKE '%something%'" query)
    by (vm_compute; repeat (first [left; reflexivity | right])).
  simpl orb. cbv iota.
  rewrite !in_app_iff.
  repeat match goal with
         | |- context [if ?c then _ else _] => destruct c
         end; simpl; intuition discriminate.
Qed.

(** ** The callers of [get_connection] all come through *)

Section Progress.

Context {W : Type} (drv : Oracledb W) (self : DatabaseConnector).

Local Open Scope nat_scope.

Lemma work_left_insert (l : list Tasks.pc) t old new :
  l !! t = Some old ->
  work_left (<[t := new]> l) + remaining old = work_left l + remaining new.
Proof.
  revert t. induction l as [| x l IH]; intros [| t] H; simpl in *; try discriminate.
  - injection H as ->. lia.
  - specialize (IH t H). lia.
Qed.

Lemma work_left_pending (l : list Tasks.pc) :
  0 < work_left l -> exists t p, l !! t = Some p /\ 0 < remaining p.
Proof.
  induction l as [| x l IH]; simpl; [lia |]. intros H.
  destruct (decide (0 < remaining x)) as [Hx | Hx].
  - by exists 0, x.
  - destruct IH as (t & p & Ht & Hp); [lia |]. by exists (S t), p.
Qed.

Lemma work_left_done (l : list Tasks.pc) t p :
  work_left l = 0 -> l !! t = Some p -> exists r, p = Tasks.Finished r.
Proof.
  revert t. induction l as [| x l IH]; intros [| t] Hz H; simpl in *; try discriminate.
  - injection H as ->. destruct p; simpl in Hz; try lia. eauto.
  - apply (IH t); [lia | done].
Qed.

Lemma holder_exists (l : list Tasks.pc) :
  0 < count_pc in_lock l -> exists t, l !! t = Some Tasks.InLock.
Proof.
  unfold count_pc. induction l as [| x l IH]; simpl; [lia |].
  destruct x; simpl; try (intros H; destruct (IH H) as [t Ht]; by exists (S t)).
  intros _. by exists 0.
Qed.

Lemma work_left_step t (m : Tasks.machine W) :
  work_left (Tasks.tasks (Tasks.step drv self t m)) <= work_left (Tasks.tasks m).
Proof.
  unfold Tasks.step.
  destruct (Tasks.tasks m !! t) as [[| | | | r] |] eqn:Ht; try done; simpl.
  - pose proof (work_left_insert _ _ _
                  (match _pool (Tasks.shared m) with
                   | Some _ => Tasks.AtAcquire | None => Tasks.AtLock end) Ht) as Hw.
    destruct (_pool (Tasks.shared m)); simpl in Hw; lia.
  - destruct (Tasks.locked m); simpl; [done |].
    pose proof (work_left_insert _ _ _ Tasks.InLock Ht) as Hw. simpl in Hw. lia.
  - destruct (initialize_pool drv self (Tasks.shared m)) as [st' r]. simpl.
    pose proof (work_left_insert _ _ _
                  (match r with inr _ => Tasks.AtAcquire | inl e => Tasks.Finished (inl e) end)
                  Ht) as Hw.
    destruct r; simpl in Hw; lia.
  - destruct (acquire_or_report drv self (Tasks.shared m)) as [st' r]. simpl.
    pose proof (work_left_insert _ _ _ (Tasks.Finished r) Ht) as Hw. simpl in Hw. lia.
Qed.

(** A caller that is not waiting for a held lock moves on when it is run. *)
Lemma enabled_step t p (m : Tasks.machine W) :
  Tasks.tasks m !! t = Some p ->
  0 < remaining p ->
  (p = Tasks.AtLock -> Tasks.locked m = false) ->
  work_left (Tasks.tasks (Tasks.step drv self t m)) < work_left (Tasks.tasks m).
Proof.
  intros Ht Hp Hfree. unfold Tasks.step. rewrite Ht.
  destruct p as [| | | | r]; simpl in Hp; try lia.
  - pose proof (work_left_insert _ _ _
                  (match _pool (Tasks.shared m) with
                   | Some _ => Tasks.AtAcquire | None => Tasks.AtLock end) Ht) as Hw.
    simpl. destruct (_pool (Tasks.shared m)); simpl in Hw; lia.
  - rewrite Hfree by done. simpl.
    pose proof (work_left_insert _ _ _ Tasks.InLock Ht) as Hw. simpl in Hw. lia.
  - destruct (initialize_pool drv self (Tasks.shared m)) as [st' r]. simpl.
    pose proof (work_left_insert _ _ _
                  (match r with inr _ => Tasks.AtAcquire | inl e => Tasks.Finished (inl e) end)
                  Ht) as Hw.
    destruct r; simpl in Hw; lia.
  - destruct (acquire_or_report drv self (Tasks.shared m)) as [st' r]. simpl.
    pose proof (work_left_insert _ _ _ (Tasks.Finished r) Ht) as Hw. simpl in Hw. lia.
Qed.

Lemma pool_kept_step t (m : Tasks.machine W) p :
  _pool (Tasks.shared m) = Some p -> _pool (Tasks.shared (Tasks.step drv self t m)) = Some p.
Proof.
  intros Hp. unfold Tasks.step.
  destruct (Tasks.tasks m !! t) as [[| | | | r] |] eqn:Ht; try done; simpl.
  - by destruct (Tasks.locked m).
  - pose proof (initialize_pool_cases drv self (Tasks.shared m)) as Hinit.
    destruct (initialize_pool drv self (Tasks.shared m)) as [st' r].
    destruct Hinit as (evs & _ & _ & Hcase). rewrite Hp in Hcase.
    destruct Hcase as (-> & _). done.
  - pose proof (acquire_or_report_cases drv self (Tasks.shared m)) as Hacq.
    destruct (acquire_or_report drv self (Tasks.shared m)) as [st' r].
    destruct Hacq as (evs & _ & Hpool & _). simpl. congruence.
Qed.

Lemma pool_kept_run more : forall (m : Tasks.machine W) p,
  _pool (Tasks.shared m) = Some p -> _pool (Tasks.shared (Tasks.run drv self more m)) = Some p.
Proof.
  induction more as [| t more IH]; intros m p H; simpl; [done |].
  apply IH. by apply pool_kept_step.
Qed.

End Progress.

(** X13.  Concurrent callers of [get_connection] cannot block each other
    for good.  [n] callers have at most [4 * n] awaits before them; running
    a caller never adds to that; as long as a caller has not finished, some
    caller can be run that takes one off, since a lock that is held is held
    by a caller that can be run; and when nothing is left every caller has
    finished.  The pool, once there, is never replaced or dropped by
    callers of [get_connection]. *)
Theorem callers_make_progress {W} (drv : Oracledb W) (self : DatabaseConnector)
    (w : W) (n : nat) (schedule : list nat) :
  let m := Tasks.run drv self schedule (Tasks.init w n) in
  (work_left (Tasks.tasks (Tasks.init w n)) = 4 * n)%nat
  /\ (forall t, work_left (Tasks.tasks (Tasks.step drv self t m)) <= work_left (Tasks.tasks m))%nat
  /\ ((0 < work_left (Tasks.tasks m))%nat ->
      exists t, (work_left (Tasks.tasks (Tasks.step drv self t m)) < work_left (Tasks.tasks m))%nat)
  /\ (work_left (Tasks.tasks m) = 0%nat ->
      forall t p, Tasks.tasks m !! t = Some p -> exists r, p = Tasks.Finished r)
  /\ (forall p more, _pool (Tasks.shared m) = Some p ->
        _pool (Tasks.shared (Tasks.run drv self more m)) = Some p).
Proof.
  intros m.
  pose proof (pool_invariant_run drv self schedule _ (pool_invariant_init self w n))
    as (_ & Hlock & _). fold m in Hlock.
  split_and!.
  - clear. simpl. induction n as [| n IH]; simpl; [done |]. rewrite IH. lia.
  - intros t. apply work_left_step.
  - intros Hleft. destruct (work_left_pending _ Hleft) as (t & p & Ht & Hp).
    destruct (Tasks.locked m) eqn:Hl.
    + destruct (holder_exists (Tasks.tasks m)) as [t' Ht']; [lia |].
      exists t'. apply (enabled_step drv self t' Tasks.InLock); [done | simpl; lia | done].
    + exists t. by apply (enabled_step drv self t p).
  - intros Hz t p. by apply work_left_done.
  - intros p more. apply pool_kept_run.
Qed.

(** X13 with two callers on the scripted driver: the first holds the lock,
    the second waits for it, and the first can be run. *)
Lemma callers_make_progress_witness :
  let m := Tasks.run Fake.driver Fake.thin [0; 1; 0; 1]%nat (Tasks.init (Fake.scripted []) 2%nat) in
  exists t, (work_left (Tasks.tasks (Tasks.step Fake.driver Fake.thin t m))
             < work_left (Tasks.tasks m))%nat.
Proof.
  apply (proj1 (proj2 (proj2 (callers_make_progress Fake.driver Fake.thin (Fake.scripted []) 2%nat
                                [0; 1; 0; 1]%nat)))).
  vm_compute. lia.
Defined.

(** ** Names and patterns are taken in any case *)

(** X14.  Table names, name patterns and search terms are taken in any
    case: the operations that uppercase what they are given do the same for
    the uppercase form as for the original.  [load_table_details] quotes
    the name as given in the line it logs on a driver error, so there it is
    the outcome that is the same. *)
Theorem names_are_case_insensitive {W} (drv : Oracledb W) (self : DatabaseConnector)
    (name : string) (otype : string) (limit : Z) (tables : list string) (st : state W) :
  (load_table_details drv self (upper name) st).2 = (load_table_details drv self name st).2
  /\ get_table_constraints drv self (upper name) st = get_table_constraints drv self name st
  /\ get_table_indexes drv self (upper name) st = get_table_indexes drv self name st
  /\ get_related_tables drv self (upper name) st = get_related_tables drv self name st
  /\ get_pl_sql_objects drv self otype (Some (upper name)) st
     = get_pl_sql_objects drv self otype (Some name) st
  /\ get_user_defined_types drv self (Some (upper name)) st
     = get_user_defined_types drv self (Some name) st
  /\ search_in_database drv self (upper name) limit st
     = search_in_database drv self name limit st
  /\ search_columns_in_database drv self tables (upper name) st
     = search_columns_in_database drv self tables name st.
Proof.
  split_and!.
  - unfold load_table_details, bind_.
    destruct (get_connection drv self st) as [st1 [e | conn]]; [done |].
    rewrite !finally_close_outcome. unfold try_except.
    rewrite load_table_details_body_normalizes.
    destruct (load_table_details_body drv self conn name st1) as [st2 [e | r]]; [| done].
    by destruct (is_oracledb_Error e).
  - by rewrite get_table_constraints_normalizes.
  - by rewrite get_table_indexes_normalizes.
  - by rewrite get_related_tables_normalizes.
  - unfold get_pl_sql_objects, given.
    destruct (String.eqb_spec name "") as [-> | Hne]; [done |].
    destruct (String.eqb_spec (upper name) "") as [He | _]; [destruct Hne; by apply upper_empty |].
    by rewrite upper_idempotent.
  - unfold get_user_defined_types, given.
    destruct (String.eqb_spec name "") as [-> | Hne]; [done |].
    destruct (String.eqb_spec (upper name) "") as [He | _]; [destruct Hne; by apply upper_empty |].
    by rewrite upper_idempotent.
  - unfold search_in_database.
    assert (forall names, _filter_by_similarity names (upper name) default_threshold
                          = _filter_by_similarity names name default_threshold) as Hrank.
    { intros names. unfold _filter_by_similarity. f_equal.
      induction names as [| x names IH]; [done |]. simpl.
      by rewrite upper_idempotent, calculate_similarity_upper_r, IH. }
    unfold bind_. destruct (get_connection drv self st) as [st1 [e | conn]]; [done |].
    unfold try_finally.
    destruct (new_cursor drv conn st1) as [st2 [e | cur]]; [done |].
    destruct (_get_effective_schema drv self conn st2) as [st3 [e | schema]]; [done |].
    destruct (_execute_with_fallback drv self cur SqlSearchAllObjects SqlSearchUserObjects
                [("owner", bstr schema)] st3) as [st4 [e | all_objects]]; [done |].
    destruct (column 0 all_objects st4) as [st5 [e | object_names]]; [done |].
    destruct (as_names object_names st5) as [st6 [e | names]]; [done |].
    by rewrite Hrank.
  - unfold search_columns_in_database. by rewrite upper_idempotent.
Qed.

(** ** What the loops over rows build *)

(** A property of the rows gone through and the loop state that every turn
    keeps holds when the loop returns. *)
Lemma for_each_invariant {W A B} (Inv : list A -> B -> Prop) (body : A -> B -> M W B) xs :
  (forall gone x acc st st' acc',
      Inv gone acc -> body x acc st = (st', inr acc') -> Inv (gone ++ [x]) acc') ->
  forall gone acc st st' res,
    Inv gone acc -> for_each xs acc body st = (st', inr res) -> Inv (gone ++ xs) res.
Proof.
  intros Hbody. induction xs as [| x xs IH]; intros gone acc st st' res Hinv Hrun; simpl in Hrun.
  - injection Hrun as <- <-. by rewrite app_nil_r.
  - unfold bind_ in Hrun. destruct (body x acc st) as [st1 [e | acc1]] eqn:E; [done |].
    replace (gone ++ x :: xs) with ((gone ++ [x]) ++ xs) by by rewrite <- List.app_assoc.
    eapply IH; [| exact Hrun]. eapply Hbody; eauto.
Qed.

(** [[row[i] for row in rs]] has the [i]-th cell of every row, in order. *)
Lemma column_inv {W} i (rs : rows) (st st' : state W) cells :
  column i rs st = (st', inr cells) ->
  Forall2 (fun r c => nth_error r i = Some c) rs cells.
Proof.
  intros H. unfold column in H.
  eapply (for_each_invariant
            (fun gone acc => Forall2 (fun r c => nth_error r i = Some c) gone acc)
            _ rs _ [] [] st st' cells ltac:(constructor) H).
  Unshelve.
  intros gone x acc s s' acc' Hinv Hbody. unfold bind_, index in Hbody.
  destruct (nth_error x i) as [c |] eqn:E; [| done].
  injection Hbody as <- <-. apply Forall2_app; [done |]. by repeat constructor.
Qed.

Lemma as_names_inv {W} cells : forall (st st' : state W) names,
  as_names cells st = (st', inr names) -> cells = map CStr names.
Proof.
  induction cells as [| c cells IH]; intros st st' names H; simpl in H.
  - by injection H as <- <-.
  - destruct c; try done. unfold bind_ in H.
    destruct (as_names cells st) as [st1 [e | ns]] eqn:E; [done |].
    injection H as <- <-. simpl. f_equal. eapply IH; eauto.
Qed.

Lemma slice_to_sublist {A} limit (l : list A) : sublist (slice_to limit l) l.
Proof. unfold slice_to. destruct (Z.leb 0 limit); apply sublist_take. Qed.

Lemma slice_to_length {A} limit (l : list A) :
  (0 <= limit)%Z -> (length (slice_to limit l) <= Z.to_nat limit)%nat.
Proof.
  intros H. unfold slice_to. destruct (Z.leb_spec 0 limit); [| lia].
  rewrite length_take. lia.
Qed.

(** X15.  What [search_in_database] returns: the names in the first cells
    of the rows that the dictionary statement (or its fallback) gave for
    the effective schema, ranked against the term with threshold 0.65 and
    cut at the limit.  So there are no more names than the limit allows,
    each is the first cell of such a row, and each matches: it has the term
    inside, in any case, or is similar to it by 0.65 or more. *)
Theorem search_returns_matching_names {W} (drv : Oracledb W) (self : DatabaseConnector)
    (term : string) (limit : Z) (st : state W) (names : list string) :
  (search_in_database drv self term limit st).2 = inr names ->
  ((0 <= limit)%Z -> (length names <= Z.to_nat limit)%nat)
  /\ (forall n, In n names ->
        contains (upper term) (upper n) = true
        \/ (13 # 20 <= _calculate_similarity n term)%Q)
  /\ exists st1 conn st2 cur st3 schema st4 objects all_names,
       get_connection drv self st = (st1, inr conn)
       /\ new_cursor drv conn st1 = (st2, inr cur)
       /\ _get_effective_schema drv self conn st2 = (st3, inr schema)
       /\ _execute_with_fallback drv self cur SqlSearchAllObjects SqlSearchUserObjects
            [("owner", bstr schema)] st3 = (st4, inr objects)
       /\ Forall2 (fun r n => nth_error r 0 = Some (CStr n)) objects all_names
       /\ names = slice_to limit
                    (map fst (_filter_by_similarity all_names term default_threshold))
       /\ forall n, In n names -> exists r, In r objects /\ nth_error r 0 = Some (CStr n).
Proof.
  unfold search_in_database, bind_ at 1.
  destruct (get_connection drv self st) as [st1 [e | conn]] eqn:Hconn; [done |].
  rewrite finally_close_outcome. unfold bind_.
  destruct (new_cursor drv conn st1) as [st2 [e | cur]] eqn:Hcur; [done |].
  destruct (_get_effective_schema drv self conn st2) as [st3 [e | schema]] eqn:Hschema;
    [done |].
  destruct (_execute_with_fallback drv self cur SqlSearchAllObjects SqlSearchUserObjects
              [("owner", bstr schema)] st3) as [st4 [e | objects]] eqn:Hobjects; [done |].
  destruct (column 0 objects st4) as [st5 [e | object_names]] eqn:Hcolumn; [done |].
  destruct (as_names object_names st5) as [st6 [e | all_names]] eqn:Hnames; [done |].
  simpl. intros [= <-].
  apply column_inv in Hcolumn. apply as_names_inv in Hnames. subst object_names.
  assert (forall n, In n (slice_to limit (map fst (_filter_by_similarity all_names term
                                                     default_threshold))) ->
                    exists score, In (n, score) (scored all_names term default_threshold))
    as Hscored.
  { intros n Hn. apply list_elem_of_In in Hn.
    eapply elem_of_sublist in Hn; [| apply slice_to_sublist].
    apply list_elem_of_In, in_map_iff in Hn as ([n' score] & Heq & Hin). simpl in Heq. subst n'.
    exists score. apply list_elem_of_In. unfold _filter_by_similarity in Hin.
    apply list_elem_of_In in Hin. by rewrite sort_desc_perm in Hin. }
  split_and!.
  - apply slice_to_length.
  - intros n Hn. destruct (Hscored n Hn) as (score & Hin).
    apply scored_spec in Hin as (_ & [[Hc _] | (_ & -> & Hle)]); [by left |].
    right. by apply Qle_bool_iff.
  - exists st1, conn, st2, cur, st3, schema, st4, objects, all_names.
    split_and!; try done.
    + clear -Hcolumn. revert objects Hcolumn.
      induction all_names as [| n ns IH]; intros objects H.
      * apply Forall2_nil_inv_r in H as ->. constructor.
      * apply Forall2_cons_inv_r in H as (r & rs & Hr & Hrs & ->).
        constructor; [done | by apply IH].
    + intros n Hn. destruct (Hscored n Hn) as (score & Hin).
      apply scored_spec in Hin as (Hin & _).
      assert (CStr n ∈ map CStr all_names) as Hcell
        by (apply list_elem_of_In, in_map; exact Hin).
      apply list_elem_of_lookup in Hcell as [i Hi].
      destruct (Forall2_lookup_r _ _ _ _ _ Hcolumn Hi) as (r & Hr & Hcell).
      exists r. split; [| done]. apply list_elem_of_In. by eapply list_elem_of_lookup_2.
Qed.

(** X15 on the scripted driver: the name that has the term inside once
    both are in uppercase, accent included, is found. *)
Lemma search_returns_matching_names_witness :
  contains (upper "café") (upper "CAFÉ_ORDERS") = true
  \/ (13 # 20 <= _calculate_similarity "CAFÉ_ORDERS" "café")%Q.
Proof.
  apply (proj1 (proj2 (search_returns_matching_names Fake.driver Fake.thin "café" 1
                         (Fake.fresh (Fake.scripted
                            [inr [[CStr "CUSTOMERS"]; [CStr "CAFÉ_ORDERS"]; [CStr "ORDRES"]]]))
                         ["CAFÉ_ORDERS"] ltac:(vm_compute; reflexivity)))).
  by left.
Defined.

Section TableNames.

Context {W : Type} (drv : Oracledb W) (self : DatabaseConnector).

Lemma close_keeps_trace conn (st : state W) ev :
  In ev (trace st) -> In ev (trace (_close_connection drv self conn st).1).
Proof.
  intros Hin. unfold _close_connection, try_except, call, print, emit, log.
  destruct (connection_close drv (api_of self) conn (world st)) as [w' [e | []]]; simpl;
    rewrite ?in_app_iff; tauto.
Qed.

Lemma finally_close_keeps_trace {A} (m : M W A) conn (st : state W) ev :
  In ev (trace (m st).1) ->
  In ev (trace (try_finally m (_close_connection drv self conn) st).1).
Proof.
  intros Hin. unfold try_finally. destruct (m st) as [st1 r]. simpl in Hin.
  pose proof (close_keeps_trace conn st1 ev Hin) as Hkept.
  by destruct (_close_connection drv self conn st1) as [st2 [e | []]].
Qed.

End TableNames.

(** X16.  The names [get_all_table_names] returns are the first cells of
    the rows the dictionary statement (or its fallback) gave, duplicates
    merged; when there was no row, the warning about permissions is on
    [stderr].  A session that is refused both the ALL_* and the USER_*
    statement gets the empty set and the warning, not an error. *)
Theorem table_names_from_dictionary {W} (drv : Oracledb W) (self : DatabaseConnector)
    (st : state W) :
  let warning :=
    EvPrint "Warning: Could not retrieve any tables or views. Check permissions." in
  let run := get_all_table_names drv self st in
  (forall names : gset cell,
      run.2 = inr names ->
      exists cur schema s3 s4 objects,
        _execute_with_fallback drv self cur SqlAllObjectNames SqlUserObjectNames
          [("owner", bstr schema)] s3 = (s4, inr objects)
        /\ (forall c, c ∈ names <-> exists r, In r objects /\ nth_error r 0 = Some c)
        /\ (objects = [] -> In warning (trace run.1)))
  /\ (forall st1 conn st2 cur st3 schema m w1 m' w2,
        get_connection drv self st = (st1, inr conn) ->
        new_cursor drv conn (log (EvPrint "Getting list of all tables and views...") st1)
        = (st2, inr cur) ->
        _get_effective_schema drv self conn st2 = (st3, inr schema) ->
        run_query drv (api_of self) cur SqlAllObjectNames [("owner", bstr schema)] (world st3)
        = (w1, inl (DatabaseError 1031 m)) ->
        run_query drv (api_of self) cur SqlUserObjectNames [("owner", bstr schema)] w1
        = (w2, inl (DatabaseError 1031 m')) ->
        run.2 = inr ∅ /\ In warning (trace run.1)).
Proof.
  intros warning run. subst run. split.
  - intros names. unfold get_all_table_names.
    destruct (get_connection drv self st) as [st1 [e | conn]] eqn:Hconn.
    { by rewrite (bind_raise _ _ _ _ _ Hconn). }
    rewrite !(bind_run _ _ _ _ _ Hconn), finally_close_outcome.
    match goal with
    | |- (?body _).2 = _ -> _ => set (m := body)
    end.
    intros Hrun. pose proof (finally_close_keeps_trace drv self m conn st1 warning) as Hkeep.
    revert Hrun Hkeep. subst m. unfold bind_, print, emit.
    destruct (new_cursor drv conn _) as [st2 [e | cur]]; [done |].
    destruct (_get_effective_schema drv self conn st2) as [st3 [e | schema]]; [done |].
    destruct (_execute_with_fallback drv self cur SqlAllObjectNames SqlUserObjectNames
                [("owner", bstr schema)] st3) as [st4 [e | objects]] eqn:Hobjects; [done |].
    intros Hrun Hkeep.
    exists cur, schema, st3, st4, objects. split; [done |].
    destruct objects as [| r0 objects'].
    + simpl in Hrun. injection Hrun as <-. split.
      * intros c. split; [by intros ?%elem_of_empty | by intros (r & [] & _)].
      * intros _. apply Hkeep. unfold column. simpl. rewrite in_app_iff. right. by left.
    + split; [| done]. unfold ret at 1 in Hrun.
      destruct (column 0 (r0 :: objects') st4) as [st5 [e | cells]] eqn:Hcolumn; [done |].
      simpl in Hrun. injection Hrun as <-.
      apply column_inv in Hcolumn. intros c. rewrite elem_of_list_to_set. split.
      * intros [i Hi]%list_elem_of_lookup.
        destruct (Forall2_lookup_r _ _ _ _ _ Hcolumn Hi) as (r & Hr & Hcell).
        exists r. split; [| done]. apply list_elem_of_In. by eapply list_elem_of_lookup_2.
      * intros (r & [i Hi]%list_elem_of_In%list_elem_of_lookup & Hcell).
        destruct (Forall2_lookup_l _ _ _ _ _ Hcolumn Hi) as (c' & Hc' & Hcell').
        assert (c' = c) as -> by congruence. by eapply list_elem_of_lookup_2.
  - intros st1 conn st2 cur st3 schema m w1 m' w2 Hconn Hcur Hschema H1 H2.
    pose proof (fallback_exhausted drv self cur SqlAllObjectNames SqlUserObjectNames
                  [("owner", bstr schema)] st3 m w1 m' w2 H1 H2) as Hempty.
    unfold get_all_table_names.
    rewrite !(bind_run _ _ _ _ _ Hconn), finally_close_outcome.
    match goal with
    | |- (?body _).2 = _ /\ _ => set (body' := body)
    end.
    pose proof (finally_close_keeps_trace drv self body' conn st1 warning) as Hkeep.
    assert (exists st5, body' st1 = (st5, inr ∅) /\ In warning (trace st5)) as (st5 & Hbody & Hin).
    { subst body'. unfold bind_ at 1, print at 1, emit at 1.
      unfold bind_ at 1. rewrite Hcur. unfold bind_ at 1. rewrite Hschema.
      unfold bind_ at 1.
      destruct (_execute_with_fallback drv self cur SqlAllObjectNames SqlUserObjectNames
                  [("owner", bstr schema)] st3) as [st4 r]. simpl in Hempty. subst r.
      eexists. split; [reflexivity |]. simpl. rewrite in_app_iff. right. by left. }
    rewrite Hbody in *. simpl in *. split; [done | by apply Hkeep].
Qed.

(** X16 on the scripted driver: both statements are refused. *)
Lemma table_names_from_dictionary_witness :
  let denied := inl (DatabaseError 1031 "ORA-01031: insufficient privileges") in
  (get_all_table_names Fake.driver Fake.thin (Fake.fresh (Fake.scripted [denied; denied]))).2
  = inr ∅.
Proof.
  intros denied.
  eapply (proj1 (proj2 (table_names_from_dictionary Fake.driver Fake.thin
                          (Fake.fresh (Fake.scripted [denied; denied])))
                   _ _ _ _ _ _ _ _ _ _ eq_refl eq_refl eq_refl eq_refl eq_refl)).
Defined.

(** ** Grouped results *)

Lemma dict_get_append {V} (k k' : cell) (v : V) d :
  dict_get k (dict_append k' v d)
  = if decide (k = k') then dict_get k d ++ [v] else dict_get k d.
Proof.
  induction d as [| [k0 vs] d IH]; simpl.
  - destruct (decide (k = k')); [done |]. by destruct (decide (k' = k)).
  - destruct (decide (k' = k0)) as [-> | Hne]; simpl.
    + destruct (decide (k = k0)); done.
    + destruct (decide (k = k0)) as [-> | Hne'].
      * destruct (decide (k0 = k')); [congruence | done].
      * exact IH.
Qed.

Lemma dict_keys_append {V} (k : cell) (v : V) d :
  map fst (dict_append k v d)
  = if decide (k ∈ map fst d) then map fst d else map fst d ++ [k].
Proof.
  induction d as [| [k0 vs] d IH]; simpl; [done |].
  destruct (decide (k = k0)) as [-> | Hne]; simpl.
  - destruct (decide (k0 ∈ k0 :: map fst d)) as [| Hno]; [done |]. destruct Hno. by left.
  - rewrite IH. destruct (decide (k ∈ map fst d)) as [Hin | Hno].
    + destruct (decide (k ∈ k0 :: map fst d)) as [| Hno]; [done |]. destruct Hno. by right.
    + destruct (decide (k ∈ k0 :: map fst d)) as [Hin |]; [| done].
      apply elem_of_cons in Hin as [? | ?]; [congruence | tauto].
Qed.

Lemma dict_keys_nodup {V} (k : cell) (v : V) d :
  NoDup (map fst d) -> NoDup (map fst (dict_append k v d)).
Proof.
  intros H. rewrite dict_keys_append. case_decide as Hno; [done |].
  apply NoDup_app. split_and!; [done | | apply NoDup_singleton].
  by intros x Hx ->%list_elem_of_singleton.
Qed.

(** X17.  [search_columns_in_database] groups what it found by table: no
    table is listed twice, a table is listed exactly when a row names it,
    and under each table are the columns of its rows, all of them and in the
    order the statement gave them. *)
Theorem found_columns_are_grouped {W} (drv : Oracledb W) (self : DatabaseConnector)
    (table_names : list string) (term : string) (st : state W)
    (result : list (cell * list column_info)) :
  (search_columns_in_database drv self table_names term st).2 = inr result ->
  exists cur schema s3 s4 found,
    _execute_cursor drv self cur SqlSearchColumns
      [("owner", bstr schema); ("table_names", BList table_names);
       ("search_term", bstr (upper term))] s3 = (s4, inr found)
    /\ NoDup (map fst result)
    /\ (forall t, In t (map fst result) <-> exists r, In r found /\ head r = Some t)
    /\ (forall t, dict_get t result = omap (found_column t) found).
Proof.
  unfold search_columns_in_database, bind_ at 1.
  destruct (get_connection drv self st) as [st1 [e | conn]]; [done |].
  rewrite finally_close_outcome. unfold bind_.
  destruct (new_cursor drv conn st1) as [st2 [e | cur]]; [done |].
  destruct (_get_effective_schema drv self conn st2) as [st3 [e | schema]]; [done |].
  destruct (_execute_cursor drv self cur SqlSearchColumns _ st3)
    as [st4 [e | found]] eqn:Hfound; [done |].
  match goal with
  | |- (for_each _ _ ?b _).2 = _ -> _ => set (body := b)
  end.
  destruct (for_each found [] body st4) as [st5 [e | d]] eqn:Hloop; [done |].
  simpl. intros [= ->].
  exists cur, schema, st3, st4, found. split; [done |].
  pose proof (for_each_invariant
                (fun gone d =>
                   NoDup (map fst d)
                   /\ (forall t, In t (map fst d) <-> exists r, In r gone /\ head r = Some t)
                   /\ (forall t, dict_get t d = omap (found_column t) gone))
                body found) as Hinv.
  apply (Hinv) with (gone := []) (acc := []) (st := st4) (st' := st5); [| | exact Hloop].
  - clear. intros gone x acc s s' acc' (Hnodup & Hkeys & Hget) Hbody.
    subst body. unfold bind_, unpack4 in Hbody.
    destruct x as [| table [| name [| data_type [| nullable [| ? ?]]]]]; try done.
    injection Hbody as <- <-. split_and!.
    + by apply dict_keys_nodup.
    + intros t. rewrite dict_keys_append.
      assert (In t (map fst acc) \/ t = table
              <-> exists r, In r (gone ++ [[table; name; data_type; nullable]])
                            /\ head r = Some t) as <-.
      { rewrite Hkeys. split.
        - intros [(r & Hr & Hhead) | ->].
          + exists r. rewrite in_app_iff. tauto.
          + eexists. rewrite in_app_iff. split; [right; by left | done].
        - intros (r & [Hr | [<- | []]]%in_app_iff & Hhead); [left; eauto |].
          right. simpl in Hhead. congruence. }
      destruct (decide (table ∈ map fst acc)) as [Hin | Hno].
      * apply list_elem_of_In in Hin. split; [tauto |]. intros [? | ->]; done.
      * rewrite in_app_iff. simpl. split; [intros [? | [<- | []]]; tauto |].
        intros [? | ->]; tauto.
    + intros t. rewrite dict_get_append, omap_app, Hget. simpl.
      destruct (decide (t = table)); [done | by rewrite app_nil_r].
  - split_and!; [constructor | | done].
    intros t. simpl. split; [done | by intros (r & [] & _)].
Qed.

(** X17 on the scripted driver: two columns of one table around a column
    of another. *)
Lemma found_columns_are_grouped_witness :
  let a := {| col_name := CStr "ID"; col_type := CStr "NUMBER"; col_nullable := false |} in
  let b := {| col_name := CStr "ORDER_ID"; col_type := CStr "NUMBER"; col_nullable := true |} in
  exists cur schema s3 s4 found,
    _execute_cursor Fake.driver Fake.thin cur SqlSearchColumns
      [("owner", bstr schema); ("table_names", BList ["ORDERS"; "ITEMS"]);
       ("search_term", bstr (upper "id"))] s3 = (s4, inr found)
    /\ NoDup (map fst [(CStr "ORDERS", [a; a]); (CStr "ITEMS", [b])])
    /\ (forall t, In t (map fst [(CStr "ORDERS", [a; a]); (CStr "ITEMS", [b])])
                  <-> exists r, In r found /\ head r = Some t)
    /\ (forall t, dict_get t [(CStr "ORDERS", [a; a]); (CStr "ITEMS", [b])]
                  = omap (found_column t) found).
Proof.
  intros a b.
  apply (found_columns_are_grouped Fake.driver Fake.thin ["ORDERS"; "ITEMS"] "id"
           (Fake.fresh (Fake.scripted
              [inr [[CStr "ORDERS"; CStr "ID"; CStr "NUMBER"; CStr "N"];
                    [CStr "ITEMS"; CStr "ORDER_ID"; CStr "NUMBER"; CStr "Y"];
                    [CStr "ORDERS"; CStr "ID"; CStr "NUMBER"; CStr "N"]]]))).
  vm_compute. reflexivity.
Defined.

(** ** The two halves of the relationship statement *)

Section Relationships.

Variable c : Oracle.catalog.

Lemma fk_join_spec keep ac acc rcc :
  (ac, acc, rcc) ∈ Oracle.fk_join c keep <->
  ac ∈ Oracle.all_constraints c /\ Oracle.k_type ac = "R" /\ keep ac = true
  /\ acc ∈ Oracle.all_cons_columns c
  /\ Oracle.cc_constraint acc = Oracle.k_name ac /\ Oracle.cc_owner acc = Oracle.k_owner ac
  /\ rcc ∈ Oracle.all_cons_columns c
  /\ Oracle.k_r_name ac = Some (Oracle.cc_constraint rcc)
  /\ Oracle.k_r_owner ac = Some (Oracle.cc_owner rcc).
Proof.
  unfold Oracle.fk_join. rewrite list_elem_of_bind. split.
  - intros (ac' & Hin & Hac). apply list_elem_of_filter in Hac as [Hac Hac_in].
    apply list_elem_of_bind in Hin as (acc' & Hin & Hacc).
    apply list_elem_of_filter in Hacc as [Hacc Hacc_in].
    apply list_elem_of_bind in Hin as (rcc' & Hin & Hrcc).
    apply list_elem_of_filter in Hrcc as [Hrcc Hrcc_in].
    apply list_elem_of_singleton in Hin. injection Hin as <- <- <-.
    apply andb_true_iff in Hac as [Htype Hkeep]. apply String.eqb_eq in Htype.
    apply andb_true_iff in Hacc as [Hc1 Hc2].
    apply String.eqb_eq in Hc1. apply String.eqb_eq in Hc2.
    apply andb_true_iff in Hrcc as [Hr1 Hr2]. unfold Oracle.eq_null in Hr1, Hr2.
    destruct (Oracle.k_r_name ac) as [rn |]; [| done].
    destruct (Oracle.k_r_owner ac) as [ro |]; [| done].
    apply String.eqb_eq in Hr1. apply String.eqb_eq in Hr2. subst. done.
  - intros (Hac & Htype & Hkeep & Hacc & Hc1 & Hc2 & Hrcc & Hr1 & Hr2).
    exists ac. split.
    + apply list_elem_of_bind. exists acc. split.
      * apply list_elem_of_bind. exists rcc. split; [by apply list_elem_of_singleton |].
        apply list_elem_of_filter. split; [| done].
        rewrite Hr1, Hr2. simpl. by rewrite !String.eqb_refl.
      * apply list_elem_of_filter. split; [| done].
        by rewrite Hc1, Hc2, !String.eqb_refl.
    + apply list_elem_of_filter. split; [| done].
      by rewrite Htype, Hkeep.
Qed.

Lemma outgoing_spec s a col b rcol :
  In [CStr "OUTGOING"; CStr col; CStr b; CStr rcol]
    (Oracle.relationship_rows c (relationship_binds s a)) <->
  exists ac acc rcc,
    (ac, acc, rcc) ∈ Oracle.fk_join c (fun ac => String.eqb (Oracle.k_owner ac) s
                                                  && String.eqb (Oracle.k_table ac) a)
    /\ Oracle.cc_column acc = col /\ Oracle.cc_table rcc = b /\ Oracle.cc_column rcc = rcol.
Proof.
  unfold Oracle.relationship_rows. rewrite in_app_iff, !in_map_iff. split.
  - intros [([[ac acc] rcc] & [= <- <- <-] & Hin) | ([[ac acc] rcc] & Heq & _)]; [| done].
    exists ac, acc, rcc. split; [| done]. by apply list_elem_of_In.
  - intros (ac & acc & rcc & Hin & <- & <- & <-). left.
    exists (ac, acc, rcc). split; [done |]. by apply list_elem_of_In.
Qed.

Lemma incoming_spec s b rcol a col :
  In [CStr "INCOMING"; CStr rcol; CStr a; CStr col]
    (Oracle.relationship_rows c (relationship_binds s b)) <->
  exists ac acc rcc,
    (ac, acc, rcc) ∈ Oracle.fk_join c
      (fun ac => match Oracle.k_r_owner ac, Oracle.k_r_name ac with
                 | Some ro, Some rn =>
                     String.eqb ro s
                     && bool_decide (rn ∈ Oracle.key_constraints c (relationship_binds s b))
                 | _, _ => false
                 end)
    /\ Oracle.cc_column rcc = rcol /\ Oracle.k_table ac = a /\ Oracle.cc_column acc = col.
Proof.
  unfold Oracle.relationship_rows. rewrite in_app_iff, !in_map_iff. split.
  - intros [([[ac acc] rcc] & Heq & _) | ([[ac acc] rcc] & [= <- <- <-] & Hin)]; [done |].
    exists ac, acc, rcc. split; [| done]. by apply list_elem_of_In.
  - intros (ac & acc & rcc & Hin & <- & <- & <-). right.
    exists (ac, acc, rcc). split; [done |]. by apply list_elem_of_In.
Qed.

Lemma key_constraints_spec s b rn :
  rn ∈ Oracle.key_constraints c (relationship_binds s b) <->
  exists k, k ∈ Oracle.all_constraints c /\ Oracle.k_owner k = s /\ Oracle.k_table k = b
            /\ is_key k = true /\ Oracle.k_name k = rn.
Proof.
  unfold Oracle.key_constraints. rewrite list_elem_of_In, in_map_iff. split.
  - intros (k & <- & Hk%list_elem_of_In). apply list_elem_of_filter in Hk as [Hk Hin].
    apply andb_true_iff in Hk as [Hk Hkey]. apply andb_true_iff in Hk as [Ho Ht].
    simpl in Ho, Ht. apply String.eqb_eq in Ho. apply String.eqb_eq in Ht.
    exists k. done.
  - intros (k & Hin & Ho & Ht & Hkey & <-). exists k. split; [done |].
    apply list_elem_of_In, list_elem_of_filter. split; [| done].
    simpl. rewrite Ho, Ht, !String.eqb_refl. exact Hkey.
Qed.

Lemma keyed_referenced ac ro rn :
  keyed c = true ->
  ac ∈ Oracle.all_constraints c -> Oracle.k_type ac = "R" ->
  Oracle.k_r_owner ac = Some ro -> Oracle.k_r_name ac = Some rn ->
  exists k, k ∈ Oracle.all_constraints c /\ Oracle.k_owner k = ro /\ Oracle.k_name k = rn
            /\ is_key k = true.
Proof.
  intros [H _]%andb_true_iff Hin Htype Hro Hrn.
  rewrite forallb_forall in H. specialize (H ac (proj1 (list_elem_of_In _ _) Hin)).
  rewrite Htype, Hro, Hrn in H. simpl in H.
  apply existsb_exists in H as (k & Hk & Hprop).
  apply andb_true_iff in Hprop as [Hprop Hkey]. apply andb_true_iff in Hprop as [Ho Hn].
  apply String.eqb_eq in Ho. apply String.eqb_eq in Hn.
  exists k. split; [by apply list_elem_of_In | done].
Qed.

Lemma keyed_table k cc :
  keyed c = true ->
  k ∈ Oracle.all_constraints c -> cc ∈ Oracle.all_cons_columns c ->
  Oracle.cc_owner cc = Oracle.k_owner k -> Oracle.cc_constraint cc = Oracle.k_name k ->
  Oracle.cc_table cc = Oracle.k_table k.
Proof.
  intros [_ H]%andb_true_iff Hk Hcc Ho Hn.
  rewrite forallb_forall in H. specialize (H k (proj1 (list_elem_of_In _ _) Hk)).
  rewrite forallb_forall in H. specialize (H cc (proj1 (list_elem_of_In _ _) Hcc)).
  rewrite Ho, Hn, !String.eqb_refl in H. simpl in H. by apply String.eqb_eq.
Qed.

Lemma within_schema_spec s ac :
  within_schema c s = true ->
  ac ∈ Oracle.all_constraints c -> Oracle.k_type ac = "R" ->
  (Oracle.k_owner ac = s <-> Oracle.k_r_owner ac = Some s).
Proof.
  intros H Hin Htype. unfold within_schema in H.
  rewrite forallb_forall in H. specialize (H ac (proj1 (list_elem_of_In _ _) Hin)).
  rewrite Htype in H. simpl in H. apply Bool.eqb_prop in H.
  unfold Oracle.eq_null in H. split.
  - intros Ho. rewrite Ho, String.eqb_refl in H.
    destruct (Oracle.k_r_owner ac) as [ro |]; [| done].
    symmetry in H. apply String.eqb_eq in H. by subst.
  - intros Hro. rewrite Hro, String.eqb_refl in H. by apply String.eqb_eq.
Qed.

End Relationships.

(** X18.  The two halves of the relationship statement of
    [load_table_details] mirror each other.  On a dictionary that hangs
    together, with no foreign key across the schema's border, the statement
    for table [a] gives an OUTGOING row from column [col] to column [rcol]
    of table [b] exactly when the statement for [b] gives the INCOMING row
    from [a]. *)
Theorem relationships_are_mirrored (c : Oracle.catalog) (s a b col rcol : string) :
  keyed c = true ->
  within_schema c s = true ->
  In [CStr "OUTGOING"; CStr col; CStr b; CStr rcol]
    (Oracle.relationship_rows c (relationship_binds s a))
  <-> In [CStr "INCOMING"; CStr rcol; CStr a; CStr col]
        (Oracle.relationship_rows c (relationship_binds s b)).
Proof.
  intros Hkeyed Hschema. rewrite outgoing_spec, incoming_spec. split.
  - intros (ac & acc & rcc & Hjoin & Hcol & Hb & Hrcol).
    apply fk_join_spec in Hjoin
      as (Hac & Htype & Hkeep & Hacc & Hc1 & Hc2 & Hrcc & Hr1 & Hr2).
    apply andb_true_iff in Hkeep as [Ho Ht].
    apply String.eqb_eq in Ho. apply String.eqb_eq in Ht.
    pose proof (proj1 (within_schema_spec c s ac Hschema Hac Htype) Ho) as Hro.
    destruct (keyed_referenced c ac _ _ Hkeyed Hac Htype Hr2 Hr1)
      as (k & Hk & Hko & Hkn & Hkey).
    pose proof (keyed_table c k rcc Hkeyed Hk Hrcc (eq_sym Hko) (eq_sym Hkn)) as Htable.
    exists ac, acc, rcc. split; [| done].
    apply fk_join_spec. split_and!; try done.
    rewrite Hro, Hr1, String.eqb_refl. simpl. apply bool_decide_eq_true.
    apply key_constraints_spec. exists k. split_and!; try done; congruence.
  - intros (ac & acc & rcc & Hjoin & Hrcol & Ha & Hcol).
    apply fk_join_spec in Hjoin
      as (Hac & Htype & Hkeep & Hacc & Hc1 & Hc2 & Hrcc & Hr1 & Hr2).
    rewrite Hr1, Hr2 in Hkeep. apply andb_true_iff in Hkeep as [Ho Hkey].
    apply String.eqb_eq in Ho. apply bool_decide_eq_true in Hkey.
    apply key_constraints_spec in Hkey as (k & Hk & Hko & Hkt & Hkey & Hkn).
    assert (Oracle.k_owner ac = s) as Howner.
    { apply (within_schema_spec c s ac Hschema Hac Htype). congruence. }
    pose proof (keyed_table c k rcc Hkeyed Hk Hrcc ltac:(congruence) (eq_sym Hkn)) as Htable.
    exists ac, acc, rcc. split; [| split_and!; congruence].
    apply fk_join_spec. split_and!; try done.
    by rewrite Howner, Ha, !String.eqb_refl.
Qed.

(** X18 on the shop: ORDERS.CUSTOMER_ID references CUSTOMERS.ID. *)
Lemma relationships_are_mirrored_witness :
  In [CStr "INCOMING"; CStr "ID"; CStr "ORDERS"; CStr "CUSTOMER_ID"]
    (Oracle.relationship_rows Oracle.shop (relationship_binds "SHOP" "CUSTOMERS")).
Proof.
  apply (proj1 (relationships_are_mirrored Oracle.shop "SHOP" "ORDERS" "CUSTOMERS"
                  "CUSTOMER_ID" "ID" eq_refl eq_refl)).
  vm_compute. by left.
Defined.

(** ** One entry per row *)

Section RowForRow.

Context {W : Type} (drv : Oracledb W) (self : DatabaseConnector).

Lemma cell_is_true c lit : cell_is c lit = true -> c = CStr lit.
Proof. unfold cell_is. apply bool_decide_eq_true. Qed.

Lemma constraints_loop cur schema constraints (st st' : state W) result :
  for_each constraints []
    (fun r result =>
       let* (constraint_name, constraint_type, condition) := unpack3 r in
       cols <- _execute_cursor drv self cur SqlConsColumns
                 [("owner", bstr schema); ("constraint_name", BCell constraint_name)] ;;
       col_names <- column 0 cols ;;
       references <-
         (if cell_is constraint_type "R" then
            ref_info <- _execute_cursor drv self cur SqlRefInfo
                          [("owner", bstr schema); ("constraint_name", BCell constraint_name)] ;;
            match ref_info with
            | [] => ret None
            | first :: _ =>
                table <- index first 0 ;;
                ref_cols <- column 1 ref_info ;;
                ret (Some (table, ref_cols))
            end
          else ret None) ;;
       ret (result ++ [{| cons_name := constraint_name;
                          cons_type := type_map_get constraint_type;
                          cons_columns := col_names;
                          cons_references := references;
                          cons_condition :=
                            if cell_is constraint_type "C" && truthy condition
                            then Some condition else None |}])) st
  = (st', inr result) ->
  Forall2 reports_constraint constraints result.
Proof.
  intros H.
  eapply (for_each_invariant (fun gone acc => Forall2 reports_constraint gone acc)
            _ constraints _ [] [] st st' result ltac:(constructor) H).
  Unshelve.
  intros gone x acc s s' acc' Hinv Hbody.
  apply bind_inr in Hbody as (s1 & [[name type] condition] & Hrow & Hbody).
  apply bind_inr in Hbody as (s2 & cols & _ & Hbody).
  apply bind_inr in Hbody as (s3 & col_names & _ & Hbody).
  apply bind_inr in Hbody as (s4 & references & Href & Hbody).
  injection Hbody as <- <-.
  unfold unpack3 in Hrow. destruct x as [| a [| b [| d [| ? ?]]]]; try done.
  injection Hrow as <- <- <- <-.
  apply Forall2_app; [done |]. repeat constructor.
  exists a, b, d. split_and!; try done. simpl. intros [v Hv].
  destruct (cell_is b "R") eqn:E; [by apply cell_is_true |].
  injection Href as _ <-. done.
Qed.

Lemma indexes_loop cur schema indexes (st st' : state W) result :
  for_each indexes []
    (fun r result =>
       let* (index_name, uniqueness, tablespace, status) := unpack4 r in
       cols <- _execute_cursor drv self cur SqlIndColumns
                 [("owner", bstr schema); ("index_name", BCell index_name)] ;;
       col_names <- column 0 cols ;;
       ret (result ++ [{| idx_name := index_name;
                          idx_unique := cell_is uniqueness "UNIQUE";
                          idx_tablespace := if truthy tablespace then Some tablespace else None;
                          idx_status := if truthy status then Some status else None;
                          idx_columns := col_names |}])) st
  = (st', inr result) ->
  Forall2 reports_index indexes result.
Proof.
  intros H.
  eapply (for_each_invariant (fun gone acc => Forall2 reports_index gone acc)
            _ indexes _ [] [] st st' result ltac:(constructor) H).
  Unshelve.
  intros gone x acc s s' acc' Hinv Hbody.
  apply bind_inr in Hbody as (s1 & [[[name uniqueness] tablespace] status] & Hrow & Hbody).
  apply bind_inr in Hbody as (s2 & cols & _ & Hbody).
  apply bind_inr in Hbody as (s3 & col_names & _ & Hbody).
  injection Hbody as <- <-.
  unfold unpack4 in Hrow. destruct x as [| a [| b [| d [| e [| ? ?]]]]]; try done.
  injection Hrow as <- <- <- <- <-.
  apply Forall2_app; [done |]. repeat constructor.
  exists a, b, d, e. done.
Qed.

Lemma types_loop cur schema types (st st' : state W) result :
  for_each types []
    (fun r result =>
       let* (name, typecode) := unpack2 r in
       attributes <-
         (if cell_is typecode "OBJECT" then
            attrs <- _execute_cursor drv self cur SqlTypeAttrs
                       [("owner", bstr schema); ("type_name", BCell name)] ;;
            match attrs with
            | [] => ret None
            | _ :: _ => l <- attributes_of attrs ;; ret (Some l)
            end
          else ret None) ;;
       ret (result ++ [{| type_name := name; type_category := typecode;
                          type_owner := schema; type_attributes := attributes |}])) st
  = (st', inr result) ->
  Forall2 (reports_type schema) types result.
Proof.
  intros H.
  eapply (for_each_invariant (fun gone acc => Forall2 (reports_type schema) gone acc)
            _ types _ [] [] st st' result ltac:(constructor) H).
  Unshelve.
  intros gone x acc s s' acc' Hinv Hbody.
  apply bind_inr in Hbody as (s1 & [name typecode] & Hrow & Hbody).
  apply bind_inr in Hbody as (s2 & attributes & Hattr & Hbody).
  injection Hbody as <- <-.
  unfold unpack2 in Hrow. destruct x as [| a [| b [| ? ?]]]; try done.
  injection Hrow as <- <- <-.
  apply Forall2_app; [done |]. repeat constructor.
  exists a, b. split_and!; try done. simpl. intros [v Hv].
  destruct (cell_is b "OBJECT") eqn:E; [by apply cell_is_true |].
  injection Hattr as _ <-. done.
Qed.

End RowForRow.

(** X19.  [get_table_constraints], [get_table_indexes] and
    [get_user_defined_types] report one entry per row of their first
    statement, in the order of the rows.  That statement is sent on a
    cursor of the connection acquired, with the effective schema as owner
    and the name in uppercase, or the pattern in uppercase when there is a
    pattern.  A constraint carries referenced columns only when it is a
    foreign key and a condition only when it is a check constraint with a
    condition; an index is unique exactly when the dictionary says UNIQUE;
    a type carries attributes only when it is an object type, and its owner
    is that effective schema. *)
Theorem one_entry_per_row {W} (drv : Oracledb W) (self : DatabaseConnector)
    (name : string) (pattern : option string) (st : state W) :
  (forall result,
      (get_table_constraints drv self name st).2 = inr result ->
      exists st1 conn st2 cur st3 schema st4 constraints,
        get_connection drv self st = (st1, inr conn)
        /\ new_cursor drv conn st1 = (st2, inr cur)
        /\ _get_effective_schema drv self conn st2 = (st3, inr schema)
        /\ _execute_cursor drv self cur SqlConstraints
             [("owner", bstr schema); ("table_name", bstr (upper name))] st3
           = (st4, inr constraints)
        /\ Forall2 reports_constraint constraints result)
  /\ (forall result,
      (get_table_indexes drv self name st).2 = inr result ->
      exists st1 conn st2 cur st3 schema st4 indexes,
        get_connection drv self st = (st1, inr conn)
        /\ new_cursor drv conn st1 = (st2, inr cur)
        /\ _get_effective_schema drv self conn st2 = (st3, inr schema)
        /\ _execute_cursor drv self cur SqlIndexes
             [("owner", bstr schema); ("table_name", bstr (upper name))] st3
           = (st4, inr indexes)
        /\ Forall2 reports_index indexes result)
  /\ (forall result,
      (get_user_defined_types drv self pattern st).2 = inr result ->
      exists st1 conn st2 cur st3 schema st4 types,
        get_connection drv self st = (st1, inr conn)
        /\ new_cursor drv conn st1 = (st2, inr cur)
        /\ _get_effective_schema drv self conn st2 = (st3, inr schema)
        /\ _execute_cursor drv self cur
             (SqlTypes (match given pattern with
                        | Some _ => "WHERE owner = :owner AND type_name LIKE :type_pattern"
                        | None => "WHERE owner = :owner"
                        end))
             (match given pattern with
              | Some pat => [("owner", bstr schema); ("type_pattern", bstr (upper pat))]
              | None => [("owner", bstr schema)]
              end) st3
           = (st4, inr types)
        /\ Forall2 (reports_type schema) types result).
Proof.
  split_and!.
  - intros result. unfold get_table_constraints, bind_ at 1.
    destruct (get_connection drv self st) as [st1 [e | conn]] eqn:Hconn; [done |].
    rewrite finally_close_outcome. unfold bind_ at 1.
    destruct (new_cursor drv conn st1) as [st2 [e | cur]] eqn:Hcur; [done |].
    unfold bind_ at 1.
    destruct (_get_effective_schema drv self conn st2) as [st3 [e | schema]] eqn:Hschema;
      [done |].
    unfold bind_ at 1.
    destruct (_execute_cursor drv self cur SqlConstraints _ st3)
      as [st4 [e | constraints]] eqn:Hrows; [done |].
    destruct (for_each constraints [] _ st4) as [st5 [e | r]] eqn:Hloop; [done |].
    intros [= ->]. exists st1, conn, st2, cur, st3, schema, st4, constraints.
    split_and!; try done. by eapply constraints_loop.
  - intros result. unfold get_table_indexes, bind_ at 1.
    destruct (get_connection drv self st) as [st1 [e | conn]] eqn:Hconn; [done |].
    rewrite finally_close_outcome. unfold bind_ at 1.
    destruct (new_cursor drv conn st1) as [st2 [e | cur]] eqn:Hcur; [done |].
    unfold bind_ at 1.
    destruct (_get_effective_schema drv self conn st2) as [st3 [e | schema]] eqn:Hschema;
      [done |].
    unfold bind_ at 1.
    destruct (_execute_cursor drv self cur SqlIndexes _ st3)
      as [st4 [e | indexes]] eqn:Hrows; [done |].
    destruct (for_each indexes [] _ st4) as [st5 [e | r]] eqn:Hloop; [done |].
    intros [= ->]. exists st1, conn, st2, cur, st3, schema, st4, indexes.
    split_and!; try done. by eapply indexes_loop.
  - intros result. unfold get_user_defined_types, bind_ at 1.
    destruct (get_connection drv self st) as [st1 [e | conn]] eqn:Hconn; [done |].
    rewrite finally_close_outcome. unfold bind_ at 1.
    destruct (new_cursor drv conn st1) as [st2 [e | cur]] eqn:Hcur; [done |].
    unfold bind_ at 1.
    destruct (_get_effective_schema drv self conn st2) as [st3 [e | schema]] eqn:Hschema;
      [done |].
    destruct (given pattern) as [pat |]; unfold bind_ at 1;
      match goal with
      | |- context [_execute_cursor drv self cur ?q ?ps st3] =>
          destruct (_execute_cursor drv self cur q ps st3) as [st4 [e | types]] eqn:Hrows;
            [done |];
          destruct (for_each types [] _ st4) as [st5 [e | r]] eqn:Hloop; [done |];
          intros [= ->]; exists st1, conn, st2, cur, st3, schema, st4, types;
          split_and!; try done; by eapply types_loop
      end.
Qed.

(** X19 on the scripted driver: a foreign key and a check constraint; a
    unique index; an object type found by a pattern, owned by the schema
    of the session. *)
Lemma one_entry_per_row_witness :
  (exists st1 conn st2 cur st3 schema st4 constraints,
     get_connection Fake.driver Fake.thin
       (Fake.fresh (Fake.scripted
          [inr [[CStr "ORDERS_CUSTOMER_FK"; CStr "R"; CNull];
                [CStr "ORDERS_TOTAL_CK"; CStr "C"; CStr "TOTAL >= 0"]];
           inr [[CStr "CUSTOMER_ID"]];
           inr [[CStr "CUSTOMERS"; CStr "ID"]];
           inr [[CStr "TOTAL"]]])) = (st1, inr conn)
     /\ new_cursor Fake.driver conn st1 = (st2, inr cur)
     /\ _get_effective_schema Fake.driver Fake.thin conn st2 = (st3, inr schema)
     /\ _execute_cursor Fake.driver Fake.thin cur SqlConstraints
          [("owner", bstr schema); ("table_name", bstr (upper "orders"))] st3
        = (st4, inr constraints)
     /\ Forall2 reports_constraint constraints
          [ {| cons_name := CStr "ORDERS_CUSTOMER_FK"; cons_type := CStr "FOREIGN KEY";
               cons_columns := [CStr "CUSTOMER_ID"];
               cons_references := Some (CStr "CUSTOMERS", [CStr "ID"]);
               cons_condition := None |};
            {| cons_name := CStr "ORDERS_TOTAL_CK"; cons_type := CStr "CHECK";
               cons_columns := [CStr "TOTAL"];
               cons_references := None;
               cons_condition := Some (CStr "TOTAL >= 0") |} ])
  /\ (exists st1 conn st2 cur st3 schema st4 indexes,
       get_connection Fake.driver Fake.thin
         (Fake.fresh (Fake.scripted
            [inr [[CStr "ORDERS_PK"; CStr "UNIQUE"; CStr "USERS"; CStr "VALID"]];
             inr [[CStr "ID"]]])) = (st1, inr conn)
       /\ new_cursor Fake.driver conn st1 = (st2, inr cur)
       /\ _get_effective_schema Fake.driver Fake.thin conn st2 = (st3, inr schema)
       /\ _execute_cursor Fake.driver Fake.thin cur SqlIndexes
            [("owner", bstr schema); ("table_name", bstr (upper "orders"))] st3
          = (st4, inr indexes)
       /\ Forall2 reports_index indexes
            [ {| idx_name := CStr "ORDERS_PK"; idx_unique := true;
                 idx_tablespace := Some (CStr "USERS"); idx_status := Some (CStr "VALID");
                 idx_columns := [CStr "ID"] |} ])
  /\ (exists st1 conn st2 cur st3 schema st4 types,
       get_connection Fake.driver Fake.thin
         (Fake.fresh (Fake.scripted
            [inr [[CStr "ADDRESS_T"; CStr "OBJECT"]];
             inr [[CStr "STREET"; CStr "VARCHAR2"]]])) = (st1, inr conn)
       /\ new_cursor Fake.driver conn st1 = (st2, inr cur)
       /\ _get_effective_schema Fake.driver Fake.thin conn st2 = (st3, inr schema)
       /\ _execute_cursor Fake.driver Fake.thin cur
            (SqlTypes "WHERE owner = :owner AND type_name LIKE :type_pattern")
            [("owner", bstr schema); ("type_pattern", bstr "ADDR%")] st3
          = (st4, inr types)
       /\ Forall2 (reports_type schema) types
            [ {| type_name := CStr "ADDRESS_T"; type_category := CStr "OBJECT";
                 type_owner := "SCOTT";
                 type_attributes := Some [(CStr "STREET", CStr "VARCHAR2")] |} ]).
Proof.
  split; [| split].
  - apply (proj1 (one_entry_per_row Fake.driver Fake.thin "orders" None
                    (Fake.fresh (Fake.scripted
                       [inr [[CStr "ORDERS_CUSTOMER_FK"; CStr "R"; CNull];
                             [CStr "ORDERS_TOTAL_CK"; CStr "C"; CStr "TOTAL >= 0"]];
                        inr [[CStr "CUSTOMER_ID"]];
                        inr [[CStr "CUSTOMERS"; CStr "ID"]];
                        inr [[CStr "TOTAL"]]])))).
    vm_compute. reflexivity.
  - apply (proj1 (proj2 (one_entry_per_row Fake.driver Fake.thin "orders" None
                           (Fake.fresh (Fake.scripted
                              [inr [[CStr "ORDERS_PK"; CStr "UNIQUE"; CStr "USERS";
                                     CStr "VALID"]];
                               inr [[CStr "ID"]]]))))).
    vm_compute. reflexivity.
  - apply (proj2 (proj2 (one_entry_per_row Fake.driver Fake.thin "orders" (Some "addr%")
                           (Fake.fresh (Fake.scripted
                              [inr [[CStr "ADDRESS_T"; CStr "OBJECT"]];
                               inr [[CStr "STREET"; CStr "VARCHAR2"]]]))))).
    vm_compute. reflexivity.
Defined.

(** ** Statements per call *)

(** The loop invariant may speak of the state as well. *)
Lemma for_each_invariant_st {W A B} (Inv : list A -> B -> state W -> Prop)
    (body : A -> B -> M W B) xs :
  (forall gone x acc st st' acc',
      Inv gone acc st -> body x acc st = (st', inr acc') -> Inv (gone ++ [x]) acc' st') ->
  forall gone acc st st' res,
    Inv gone acc st -> for_each xs acc body st = (st', inr res) -> Inv (gone ++ xs) res st'.
Proof.
  intros Hbody. induction xs as [| x xs IH]; intros gone acc st st' res Hinv Hrun; simpl in Hrun.
  - injection Hrun as <- <-. by rewrite app_nil_r.
  - unfold bind_ in Hrun. destruct (body x acc st) as [st1 [e | acc1]] eqn:E; [done |].
    replace (gone ++ x :: xs) with ((gone ++ [x]) ++ xs) by by rewrite <- List.app_assoc.
    eapply IH; [| exact Hrun]. eapply Hbody; eauto.
Qed.

Section Statements.

Context {W : Type} (drv : Oracledb W) (self : DatabaseConnector).

Local Open Scope nat_scope.

Lemma statements_app tr evs : statements (tr ++ evs) = statements tr + statements evs.
Proof. unfold statements. by rewrite List.filter_app, length_app. Qed.

Lemma sent_refl (st : state W) : sent st st 0.
Proof. exists []. by rewrite app_nil_r. Qed.

Lemma sent_trans (st1 st2 st3 : state W) j k :
  sent st1 st2 j -> sent st2 st3 k -> sent st1 st3 (j + k).
Proof.
  intros (evs1 & H1 & <-) (evs2 & H2 & <-). exists (evs1 ++ evs2).
  split; [by rewrite H2, H1, List.app_assoc | apply statements_app].
Qed.

Lemma sent_quiet (st st' : state W) : grows no_statement st st' -> sent st st' 0.
Proof.
  intros (evs & H & Hall). exists evs. split; [done |]. clear H.
  unfold statements. induction Hall as [| ev evs Hev _ IH]; [done |].
  simpl. unfold no_statement in Hev. by rewrite Hev.
Qed.

Lemma sent_query cur q ps (st st' : state W) r :
  _execute_cursor drv self cur q ps st = (st', r) -> sent st st' 1.
Proof.
  rewrite execute_cursor_run. intros [= <- _]. eexists. split; [reflexivity |].
  unfold statements. by rewrite query_events_execute.
Qed.

Lemma sent_new_events (st st' : state W) k :
  sent st st' k -> statements (new_events st st') = k.
Proof. intros (evs & H & <-). unfold new_events. by rewrite H, drop_app_length. Qed.

Lemma sent_emits {A} (m : M W A) (st st' : state W) r :
  emits no_statement m -> m st = (st', r) -> sent st st' 0.
Proof. intros Hq H. apply sent_quiet. by eapply Hq. Qed.

Lemma connection_sends_nothing : emits no_statement (get_connection drv self).
Proof. quiet. Qed.

Lemma close_sends_nothing conn : emits no_statement (_close_connection drv self conn).
Proof. unfold _close_connection. quiet. Qed.

Lemma cursor_sends_nothing conn : emits no_statement (new_cursor drv conn).
Proof. quiet. Qed.

Lemma column_sends_nothing i rs : emits (W := W) no_statement (column i rs).
Proof. quiet. Qed.

Lemma index_statements cur schema indexes (st st' : state W) result :
  for_each indexes []
    (fun r result =>
       let* (index_name, uniqueness, tablespace, status) := unpack4 r in
       cols <- _execute_cursor drv self cur SqlIndColumns
                 [("owner", bstr schema); ("index_name", BCell index_name)] ;;
       col_names <- column 0 cols ;;
       ret (result ++ [{| idx_name := index_name;
                          idx_unique := cell_is uniqueness "UNIQUE";
                          idx_tablespace := if truthy tablespace then Some tablespace else None;
                          idx_status := if truthy status then Some status else None;
                          idx_columns := col_names |}])) st
  = (st', inr result) ->
  sent st st' (length indexes).
Proof.
  intros H.
  eapply (for_each_invariant_st (fun gone acc s => sent st s (length gone))
            _ indexes _ [] [] st st' result (sent_refl st) H).
  Unshelve.
  intros gone x acc s s' acc' Hinv Hbody.
  apply bind_inr in Hbody as (s1 & [[[name uniqueness] tablespace] status] & Hrow & Hbody).
  apply bind_inr in Hbody as (s2 & cols & Hcols & Hbody).
  apply bind_inr in Hbody as (s3 & col_names & Hcolumn & Hbody).
  injection Hbody as <- <-.
  unfold unpack4 in Hrow. destruct x as [| a [| b [| d [| e [| ? ?]]]]]; try done.
  injection Hrow as <- <- <- <- <-.
  apply sent_query in Hcols. apply (sent_emits _ _ _ _ (column_sends_nothing _ _)) in Hcolumn.
  rewrite length_app. simpl.
  replace (length gone + 1) with (length gone + (1 + 0)) by lia.
  eapply sent_trans; [exact Hinv |]. eapply sent_trans; eauto.
Qed.

Lemma constraint_statements cur schema constraints (st st' : state W) result :
  for_each constraints []
    (fun r result =>
       let* (constraint_name, constraint_type, condition) := unpack3 r in
       cols <- _execute_cursor drv self cur SqlConsColumns
                 [("owner", bstr schema); ("constraint_name", BCell constraint_name)] ;;
       col_names <- column 0 cols ;;
       references <-
         (if cell_is constraint_type "R" then
            ref_info <- _execute_cursor drv self cur SqlRefInfo
                          [("owner", bstr schema); ("constraint_name", BCell constraint_name)] ;;
            match ref_info with
            | [] => ret None
            | first :: _ =>
                table <- index first 0 ;;
                ref_cols <- column 1 ref_info ;;
                ret (Some (table, ref_cols))
            end
          else ret None) ;;
       ret (result ++ [{| cons_name := constraint_name;
                          cons_type := type_map_get constraint_type;
                          cons_columns := col_names;
                          cons_references := references;
                          cons_condition :=
                            if cell_is constraint_type "C" && truthy condition
                            then Some condition else None |}])) st
  = (st', inr result) ->
  exists k, sent st st' k /\ length constraints <= k <= 2 * length constraints.
Proof.
  intros H.
  assert (exists k, sent st st k /\ length (@nil row) <= k <= 2 * length (@nil row)) as Hstart.
  { exists 0. split; [apply sent_refl | simpl; lia]. }
  eapply (for_each_invariant_st
            (fun gone acc s => exists k, sent st s k /\ length gone <= k <= 2 * length gone)
            _ constraints _ [] [] st st' result Hstart H).
  Unshelve.
  intros gone x acc s s' acc' (k & Hinv & Hk) Hbody.
  apply bind_inr in Hbody as (s1 & [[name type] condition] & Hrow & Hbody).
  apply bind_inr in Hbody as (s2 & cols & Hcols & Hbody).
  apply bind_inr in Hbody as (s3 & col_names & Hcolumn & Hbody).
  apply bind_inr in Hbody as (s4 & references & Href & Hbody).
  injection Hbody as <- <-.
  unfold unpack3 in Hrow. destruct x as [| a [| b [| d [| ? ?]]]]; try done.
  injection Hrow as <- <- <- <-.
  apply sent_query in Hcols. apply (sent_emits _ _ _ _ (column_sends_nothing _ _)) in Hcolumn.
  assert (exists j, sent s3 s4 j /\ j <= 1) as (j & Hj & Hle).
  { destruct (cell_is b "R").
    - apply bind_inr in Href as (s5 & ref_info & Hquery & Href).
      apply sent_query in Hquery. exists (1 + 0). split; [| lia].
      eapply sent_trans; [exact Hquery |]. eapply sent_emits; [| exact Href].
      destruct ref_info; quiet.
    - injection Href as <- _. exists 0. split; [apply sent_refl | lia]. }
  exists (k + (1 + (0 + j))). split.
  - eapply sent_trans; [exact Hinv |]. eapply sent_trans; [exact Hcols |].
    eapply sent_trans; eauto.
  - rewrite length_app. simpl. lia.
Qed.

End Statements.

(** X20.  What a call costs in statements.  [get_table_indexes] sends one
    statement and then one for every index it reports; [get_table_constraints]
    sends one and then, for every constraint it reports, one more, or two
    when the constraint is a foreign key. *)
Theorem statements_per_call {W} (drv : Oracledb W) (self : DatabaseConnector)
    (name : string) (st : state W) :
  (forall st' result,
      get_table_indexes drv self name st = (st', inr result) ->
      statements (new_events st st') = (1 + length result)%nat)
  /\ (forall st' result,
      get_table_constraints drv self name st = (st', inr result) ->
      (1 + length result <= statements (new_events st st') <= 1 + 2 * length result)%nat).
Proof.
  split.
  - intros st' result H. unfold get_table_indexes in H.
    apply bind_inr in H as (st1 & conn & Hconn & H).
    apply try_finally_inr in H as (s5 & H & Hclose).
    apply bind_inr in H as (s2 & cur & Hcur & H).
    apply bind_inr in H as (s3 & schema & Hschema & H).
    apply bind_inr in H as (s4 & indexes & Hrows & H).
    pose proof (indexes_loop drv self _ _ _ _ _ _ H) as Hshape.
    apply Forall2_length in Hshape. apply (index_statements drv self) in H.
    apply (sent_emits _ _ _ _ (connection_sends_nothing drv self)) in Hconn.
    apply (sent_emits _ _ _ _ (close_sends_nothing drv self conn)) in Hclose.
    apply (sent_emits _ _ _ _ (cursor_sends_nothing drv conn)) in Hcur.
    apply (sent_emits _ _ _ _ (effective_schema_quiet drv self no_statement conn)) in Hschema.
    apply (sent_query drv self) in Hrows.
    apply sent_new_events. rewrite <- Hshape.
    replace (1 + length indexes)%nat with (0 + (0 + (0 + (1 + (length indexes + 0)))))%nat by lia.
    repeat (eapply sent_trans; [eassumption |]). exact Hclose.
  - intros st' result H. unfold get_table_constraints in H.
    apply bind_inr in H as (st1 & conn & Hconn & H).
    apply try_finally_inr in H as (s5 & H & Hclose).
    apply bind_inr in H as (s2 & cur & Hcur & H).
    apply bind_inr in H as (s3 & schema & Hschema & H).
    apply bind_inr in H as (s4 & constraints & Hrows & H).
    pose proof (constraints_loop drv self _ _ _ _ _ _ H) as Hshape.
    apply Forall2_length in Hshape. apply (constraint_statements drv self) in H as (k & H & Hk).
    apply (sent_emits _ _ _ _ (connection_sends_nothing drv self)) in Hconn.
    apply (sent_emits _ _ _ _ (close_sends_nothing drv self conn)) in Hclose.
    apply (sent_emits _ _ _ _ (cursor_sends_nothing drv conn)) in Hcur.
    apply (sent_emits _ _ _ _ (effective_schema_quiet drv self no_statement conn)) in Hschema.
    apply (sent_query drv self) in Hrows.
    assert (sent st st' (0 + (0 + (0 + (1 + (k + 0)))))) as Hsent.
    { repeat (eapply sent_trans; [eassumption |]). exact Hclose. }
    apply sent_new_events in Hsent. rewrite Hsent, <- Hshape. lia.
Qed.

(** X20 on the scripted driver: two indexes, three statements. *)
Lemma statements_per_call_witness :
  let st := Fake.fresh (Fake.scripted
              [inr [[CStr "ORDERS_PK"; CStr "UNIQUE"; CStr "USERS"; CStr "VALID"];
                    [CStr "ORDERS_CUSTOMER_IX"; CStr "NONUNIQUE"; CNull; CStr "VALID"]];
               inr [[CStr "ID"]]; inr [[CStr "CUSTOMER_ID"]]]) in
  exists st' result,
    get_table_indexes Fake.driver Fake.thin "orders" st = (st', inr result)
    /\ length result = 2%nat
    /\ statements (new_events st st') = (1 + length result)%nat.
Proof.
  intros st.
  let v := eval vm_compute in (get_table_indexes Fake.driver Fake.thin "orders" st) in
  match v with
  | (?st', inr ?result) =>
      assert (get_table_indexes Fake.driver Fake.thin "orders" st = (st', inr result)) as Hrun
        by (vm_compute; reflexivity);
      exists st', result
  end.
  split; [exact Hrun |]. split; [reflexivity |].
  exact (proj1 (statements_per_call Fake.driver Fake.thin "orders" st) _ _ Hrun).
Defined.

(** ** What explaining a query does to the session *)

Section Protocol.

Context {W : Type} (drv : Oracledb W) (self : DatabaseConnector).

Variable f : event -> bool.

Lemma added_refl (st : state W) : added f st st [].
Proof. exists []. by rewrite app_nil_r. Qed.

Lemma added_trans (st1 st2 st3 : state W) l1 l2 :
  added f st1 st2 l1 -> added f st2 st3 l2 -> added f st1 st3 (l1 ++ l2).
Proof.
  intros (evs1 & H1 & <-) (evs2 & H2 & <-). exists (evs1 ++ evs2).
  split; [by rewrite H2, H1, List.app_assoc | apply List.filter_app].
Qed.

Lemma added_quiet {A} (m : M W A) (st st' : state W) r :
  emits (fun ev => f ev = false) m -> m st = (st', r) -> added f st st' [].
Proof.
  intros Hq H. destruct (Hq _ _ _ H) as (evs & Htr & Hall). exists evs. split; [done |].
  clear Htr. induction Hall as [| ev evs Hev _ IH]; [done |]. simpl. by rewrite Hev.
Qed.

Lemma added_call {A} ev (g : W -> W * outcome A) (st st' : state W) r :
  call ev g st = (st', r) -> added f st st' (List.filter f [ev]).
Proof.
  unfold call. destruct (g (world st)) as [w' r']. intros [= <- _]. by exists [ev].
Qed.

Lemma added_new_events (st st' : state W) l :
  added f st st' l -> List.filter f (new_events st st') = l.
Proof. intros (evs & H & <-). unfold new_events. by rewrite H, drop_app_length. Qed.

End Protocol.

(** X21.  What [explain_query_plan] does to the session when it returns a
    plan, in thin mode: it has the query explained as it was given, reads
    the plan table, empties it and commits, in that order, and sends
    nothing else; the advice it returns is that of
    [_analyze_query_for_optimization].  When it reports an error instead,
    the plan is empty and the only advice is that no plan could be made. *)
Theorem explain_reads_clears_commits {W} (drv : Oracledb W) (self : DatabaseConnector)
    (query : string) (st st' : state W) (plan : query_plan) :
  explain_query_plan drv self query st = (st', inr plan) ->
  (thick_mode self = false ->
   plan_error plan = None ->
   exists conn cur,
     List.filter acts (new_events st st')
     = [EvExecute Coroutine cur (SqlExplainPlan query) [];
        EvExecute Coroutine cur SqlPlanRows [];
        EvExecute Coroutine cur SqlDeletePlan [];
        EvCommit Coroutine conn]
     /\ optimization_suggestions plan = _analyze_query_for_optimization query)
  /\ (forall message,
        plan_error plan = Some message ->
        execution_plan plan = []
        /\ optimization_suggestions plan
           = ["Unable to generate execution plan due to error."]).
Proof.
  intros H. unfold explain_query_plan in H.
  apply bind_inr in H as (st1 & conn & Hconn & H).
  apply try_finally_inr in H as (s9 & H & Hclose).
  apply degrading_try_inr in H as [H | (s & e & _ & _ & ->)]; [| by split].
  apply bind_inr in H as (s2 & cur & Hcur & H).
  apply bind_inr in H as (s3 & u & Hexplain & H).
  apply bind_inr in H as (s4 & plan_rows & Hrows & H).
  apply bind_inr in H as (s5 & u' & Hdelete & H).
  apply bind_inr in H as (s6 & u'' & Hcommit & H).
  apply bind_inr in H as (s7 & steps & Hsteps & H).
  injection H as <- <-. split; [| done].
  intros Hthin _. exists conn, cur. split; [| done].
  rewrite Hthin in Hexplain.
  unfold _execute_cursor_no_fetch in Hdelete. unfold _commit in Hcommit.
  rewrite Hthin in Hdelete, Hcommit.
  apply (added_quiet acts) in Hconn; [| quiet].
  apply (added_quiet acts) in Hcur; [| quiet].
  apply (added_call acts) in Hexplain.
  assert (added acts s3 s4 [EvExecute Coroutine cur SqlPlanRows []]) as Hread.
  { revert Hrows. rewrite execute_cursor_run. unfold api_of. rewrite Hthin.
    intros [= <- _]. eexists. split; [reflexivity |].
    unfold query_events.
    by destruct (cursor_execute drv Coroutine cur SqlPlanRows [] (world s3)) as [w1 [e | u1]]. }
  apply (added_call acts) in Hdelete. apply (added_call acts) in Hcommit.
  apply (added_quiet acts) in Hsteps; [| quiet].
  apply (added_quiet acts) in Hclose; [| unfold _close_connection; quiet].
  apply added_new_events.
  pose proof (added_trans acts _ _ _ _ _ Hconn
                (added_trans acts _ _ _ _ _ Hcur
                   (added_trans acts _ _ _ _ _ Hexplain
                      (added_trans acts _ _ _ _ _ Hread
                         (added_trans acts _ _ _ _ _ Hdelete
                            (added_trans acts _ _ _ _ _ Hcommit
                               (added_trans acts _ _ _ _ _ Hsteps Hclose))))))) as Hall.
  exact Hall.
Qed.

(** X21 on the scripted driver: a plan of one step. *)
Lemma explain_reads_clears_commits_witness :
  let st := Fake.fresh (Fake.scripted [inr []; inr [[CStr "SELECT STATEMENT"]]]) in
  exists st' plan,
    explain_query_plan Fake.driver Fake.thin "select 1 from dual" st = (st', inr plan)
    /\ exists conn cur,
         List.filter acts (new_events st st')
         = [EvExecute Coroutine cur (SqlExplainPlan "select 1 from dual") [];
            EvExecute Coroutine cur SqlPlanRows [];
            EvExecute Coroutine cur SqlDeletePlan [];
            EvCommit Coroutine conn]
         /\ optimization_suggestions plan
            = _analyze_query_for_optimization "select 1 from dual".
Proof.
  intros st.
  let v := eval vm_compute in (explain_query_plan Fake.driver Fake.thin "select 1 from dual" st) in
  match v with
  | (?st', inr ?plan) =>
      assert (explain_query_plan Fake.driver Fake.thin "select 1 from dual" st
              = (st', inr plan)) as Hrun by (vm_compute; reflexivity);
      exists st', plan
  end.
  split; [exact Hrun |].
  exact (proj1 (explain_reads_clears_commits Fake.driver Fake.thin "select 1 from dual"
                  st _ _ Hrun) eq_refl eq_refl).
Defined.

(** ** Operations that log and raise *)

Section LogAndRaise.

Context {W : Type} (drv : Oracledb W) (self : DatabaseConnector).

(** A [try] whose [except oracledb.Error] clause logs and re-raises changes
    no outcome, and a driver error leaves its line in the trace. *)
Lemma logging_try {A} (m : M W A) (line : exn -> string) (st : state W) :
  let guarded :=
    try_except m (fun e => if is_oracledb_Error e
                           then Some (print (line e) ;;; raise e) else None) in
  (guarded st).2 = (m st).2
  /\ forall e, (guarded st).2 = inl e -> is_oracledb_Error e = true ->
               In (EvPrint (line e)) (trace (guarded st).1).
Proof.
  unfold try_except. destruct (m st) as [st1 [e1 | a]]; simpl; [| done].
  destruct (is_oracledb_Error e1) eqn:He; simpl.
  - split; [done |]. intros e [= <-] _. rewrite in_app_iff. right. by left.
  - split; [done |]. intros e [= <-]. congruence.
Qed.

End LogAndRaise.

(** X22.  [load_table_details] and [get_dependent_objects] log a driver
    error and raise it unchanged: the outcome of [load_table_details] is
    that of its [try] block, and whenever one of the two raises a driver
    error, the line that reports it, with the text of that error, is on
    [stderr]. *)
Theorem driver_errors_are_logged_and_raised {W} (drv : Oracledb W) (self : DatabaseConnector)
    (name : string) (st st1 : state W) (conn : connection) :
  get_connection drv self st = (st1, inr conn) ->
  (load_table_details drv self name st).2 = (load_table_details_body drv self conn name st1).2
  /\ (forall e,
        (load_table_details drv self name st).2 = inl e ->
        is_oracledb_Error e = true ->
        In (EvPrint ("Error loading table details for " +:+ name +:+ ": " +:+ str_exn e))
          (trace (load_table_details drv self name st).1))
  /\ (forall e,
        (get_dependent_objects drv self name st).2 = inl e ->
        is_oracledb_Error e = true ->
        In (EvPrint ("Error getting dependent objects: " +:+ str_exn e))
          (trace (get_dependent_objects drv self name st).1)).
Proof.
  intros Hconn. split_and!.
  - unfold load_table_details. rewrite (bind_run _ _ _ _ _ Hconn), finally_close_outcome.
    apply (logging_try (load_table_details_body drv self conn name)
             (fun e => "Error loading table details for " +:+ name +:+ ": " +:+ str_exn e)).
  - intros e. unfold load_table_details. rewrite !(bind_run _ _ _ _ _ Hconn).
    rewrite finally_close_outcome. intros He Hora.
    apply finally_close_keeps_trace.
    by apply (logging_try (load_table_details_body drv self conn name)
                (fun e => "Error loading table details for " +:+ name +:+ ": " +:+ str_exn e)).
  - intros e. unfold get_dependent_objects. rewrite !(bind_run _ _ _ _ _ Hconn).
    rewrite finally_close_outcome. intros He Hora.
    apply finally_close_keeps_trace.
    match goal with
    | He : (try_except ?m _ _).2 = _ |- _ =>
        by apply (logging_try m (fun e => "Error getting dependent objects: " +:+ str_exn e))
    end.
Qed.

(** X22 on the scripted driver: the dependency statement fails. *)
Lemma driver_errors_are_logged_and_raised_witness :
  let broken := DatabaseError 942 "ORA-00942: table or view does not exist" in
  let st := Fake.fresh (Fake.scripted [inl broken]) in
  In (EvPrint ("Error getting dependent objects: " +:+ str_exn broken))
    (trace (get_dependent_objects Fake.driver Fake.thin "ORDERS" st).1).
Proof.
  intros broken st.
  eapply (proj2 (proj2 (driver_errors_are_logged_and_raised Fake.driver Fake.thin "ORDERS"
                          st _ _ eq_refl)) broken); reflexivity.
Defined.

(** ** The fallback sends no more than it must *)

(** X23.  [_execute_with_fallback] is lazy and lets other errors through.
    When the ALL_* statement succeeds, its rows are the result and the
    USER_* statement is never sent.  When the ALL_* statement is refused
    with ORA-01031 and the USER_* statement fails with anything else, that
    failure is raised, after exactly these two statements. *)
Theorem fallback_is_lazy {W} (drv : Oracledb W) (self : DatabaseConnector)
    (cur : cursor) (all_query user_query : sql) (ps : params) (st : state W) :
  let a := api_of self in
  let result := _execute_with_fallback drv self cur all_query user_query ps st in
  (forall w1 rs,
      run_query drv a cur all_query ps (world st) = (w1, inr rs) ->
      result.2 = inr rs /\ world result.1 = w1
      /\ List.filter is_execute (new_events st result.1) = [EvExecute a cur all_query ps])
  /\ (forall m w1 e w2,
      run_query drv a cur all_query ps (world st) = (w1, inl (DatabaseError 1031 m)) ->
      run_query drv a cur user_query ps w1 = (w2, inl e) ->
      (forall m', e <> DatabaseError 1031 m') ->
      result.2 = inl e /\ world result.1 = w2
      /\ List.filter is_execute (new_events st result.1)
         = [EvExecute a cur all_query ps; EvExecute a cur user_query ps]).
Proof.
  intros a result. subst result a.
  unfold _execute_with_fallback, try_except, bind_, print, emit, log.
  rewrite execute_cursor_run. split.
  - intros w1 rs H. rewrite H. simpl. split_and!; try done.
    unfold new_events. simpl. rewrite drop_app_length. apply query_events_execute.
  - intros m w1 e w2 H1 H2 Hother. rewrite H1. simpl.
    rewrite execute_cursor_run. simpl. rewrite H2. simpl.
    assert (forall st' : state W,
               trace st'
               = ((trace st ++ query_events drv (api_of self) cur all_query ps (world st))
                  ++ [EvPrint "Permission denied for ALL_* views, trying USER_* views"])
                 ++ query_events drv (api_of self) cur user_query ps w1 ->
               List.filter is_execute (new_events st st')
               = [EvExecute (api_of self) cur all_query ps;
                  EvExecute (api_of self) cur user_query ps]) as Hev.
    { intros st' E. unfold new_events. rewrite E, <- !List.app_assoc, drop_app_length.
      rewrite !List.filter_app, !query_events_execute. done. }
    destruct e as [code m' | m' | c m']; try (by split_and!; try apply Hev).
    destruct (Z.eqb_spec code ORA_01031) as [-> | Hne]; [by destruct (Hother m') |].
    by split_and!; try apply Hev.
Qed.

(** X23 on the scripted driver: the first statement answers. *)
Lemma fallback_is_lazy_witness :
  (_execute_with_fallback Fake.driver Fake.thin 7%nat SqlAllObjectNames SqlUserObjectNames
     [("owner", bstr "SCOTT")] (Fake.fresh (Fake.scripted [inr [[CStr "ORDERS"]]]))).2
  = inr [[CStr "ORDERS"]].
Proof.
  eapply (proj1 (fallback_is_lazy Fake.driver Fake.thin 7%nat SqlAllObjectNames
                   SqlUserObjectNames [("owner", bstr "SCOTT")]
                   (Fake.fresh (Fake.scripted [inr [[CStr "ORDERS"]]])))).
  reflexivity.
Defined.

(** ** After the pool is closed *)

(** X24.  The connector can be used again after [close_pool]: when the
    pool was closed, the next [get_connection] asks for one construction,
    and if it returns a connection the pool is there again.  When closing
    failed, the pool was kept and the next [get_connection] constructs
    nothing. *)
Theorem pool_is_rebuilt_after_close {W} (drv : Oracledb W) (self : DatabaseConnector)
    (st : state W) (p : pool) :
  _pool st = Some p ->
  let closed := (close_pool drv self st).1 in
  let again := get_connection drv self closed in
  (forall w', pool_close drv (api_of self) p (world st) = (w', inr tt) ->
     Tasks.attempts (new_events closed again.1) = 1%nat
     /\ (forall conn, again.2 = inr conn -> is_Some (_pool again.1)))
  /\ (forall w' e, pool_close drv (api_of self) p (world st) = (w', inl e) ->
        Tasks.attempts (new_events closed again.1) = 0%nat
        /\ _pool again.1 = Some p).
Proof.
  intros Hp closed again. split.
  - intros w' Hclose.
    assert (_pool closed = None) as Hnone.
    { subst closed. unfold close_pool, bind_, get_pool, try_except, call, set_pool, print, emit.
      rewrite Hp. simpl. by rewrite Hclose. }
    subst again.
    assert (get_connection drv self closed
            = match initialize_pool drv self closed with
              | (st1, inr _) => acquire_or_report drv self st1
              | (st1, inl e) => (st1, inl e)
              end) as ->.
    { unfold get_connection, bind_, get_pool. by rewrite Hnone. }
    pose proof (initialize_pool_cases drv self closed) as Hinit. rewrite Hnone in Hinit.
    destruct (initialize_pool drv self closed) as [st1 [e | []]].
    + destruct Hinit as (evs & Htr & _ & Hone & _). simpl. split; [| done].
      unfold new_events. by rewrite Htr, drop_app_length.
    + destruct Hinit as (evs & Htr & _ & Hone & _ & Hsome & _).
      pose proof (acquire_or_report_cases drv self st1) as Hacq.
      destruct (acquire_or_report drv self st1) as [st2 r].
      destruct Hacq as (evs' & Htr' & Hpool & _ & Hzero & _). simpl. split.
      * unfold new_events. rewrite Htr', Htr, <- List.app_assoc, drop_app_length.
        rewrite attempts_app. lia.
      * intros conn _. by rewrite Hpool.
  - intros w' e Hclose.
    assert (_pool closed = Some p) as Hkept.
    { subst closed. unfold close_pool, bind_, get_pool, try_except, call, set_pool, print, emit.
      rewrite Hp. simpl. by rewrite Hclose. }
    subst again.
    assert (get_connection drv self closed = acquire_or_report drv self closed) as ->.
    { unfold get_connection, bind_, get_pool. by rewrite Hkept. }
    pose proof (acquire_or_report_cases drv self closed) as Hacq.
    destruct (acquire_or_report drv self closed) as [st2 r].
    destruct Hacq as (evs' & Htr' & Hpool & _ & Hzero & _). simpl. split.
    + unfold new_events. by rewrite Htr', drop_app_length.
    + by rewrite Hpool.
Qed.

(** X24 on the scripted driver. *)
Lemma pool_is_rebuilt_after_close_witness :
  let closed := (close_pool Fake.driver Fake.thin (pooled (Fake.scripted []))).1 in
  Tasks.attempts (new_events closed (get_connection Fake.driver Fake.thin closed).1) = 1%nat.
Proof.
  intros closed.
  eapply (proj1 (pool_is_rebuilt_after_close Fake.driver Fake.thin (pooled (Fake.scripted []))
                   1%nat eq_refl)).
  reflexivity.
Defined.
